(** * little-language-lab: the grammar compiler of [visibly-pushdown] and its lexer

    A shallow embedding of the TypeScript sources: the first-set analyser
    ([FirstSetBuilder]), the AST simplifier ([ASTSimplifier]), the parser
    compiler and its stack machine ([ParserCompiler], [ParseState] and the
    matcher classes), and the lexer ([LexerState], [mainState], [quote]).

    JavaScript exceptions are the [Throw] outcome of a result type; mutable
    objects ([cache], the rule table, the parse state, the lexer state) are
    passed explicitly.  A JavaScript [Set] or [Map] is a list in insertion
    order. *)

From Stdlib Require Import List String Ascii Bool Arith ZArith Lia PeanoNat.
Import ListNotations.

#[local] Set Warnings "-register-all".

Local Open Scope string_scope.
Local Open Scope list_scope.

(* ================================================================= *)
(** ** Host values and tokens *)

(** The values of the host language that the sources handle ([unknown] in the
    TypeScript types).  [JHost] stands for a value the sources never look
    into: a function, an object, a compiled parser. *)

Inductive JSValue : Type :=
| JUndefined
| JNull
| JNumber (z : Z)
| JString (s : string)
| JArray (xs : list JSValue)
| JHost (handle : nat).

Record symbol : Type := Symbol { sym_id : nat; description : option string }.

Definition Terminal : Type := string.

Inductive TokenType : Type := t_value | t_operator | t_identifier | t_keyword.

(** [TokenContent]: the payload of a [value] token is any host value, the
    payload of the others is the matched text.  The lexer of [part_000]
    produces no [keyword] token; [MatchLiteral] accepts one. *)

Inductive TokenContent : Type :=
| tok_value (v : JSValue)
| tok_operator (s : string)
| tok_identifier (s : string)
| tok_keyword (s : string).

Module Tk.
Record Token : Type := mkToken {
  content : TokenContent;
  index : nat;        (* position in the string *)
  outerIndex : nat;   (* index of the string in the interpolation *)
  length : nat        (* length of the matched pattern *)
}.
End Tk.

Abbreviation Token := Tk.Token.
Abbreviation mkToken := Tk.mkToken.

Definition token_type (t : Token) : TokenType :=
  match Tk.content t with
  | tok_value _ => t_value
  | tok_operator _ => t_operator
  | tok_identifier _ => t_identifier
  | tok_keyword _ => t_keyword
  end.

Definition token_value (t : Token) : JSValue :=
  match Tk.content t with
  | tok_value v => v
  | tok_operator s | tok_identifier s | tok_keyword s => JString s
  end.

(* ================================================================= *)
(** ** Outcomes *)

Inductive ParseErrorStackFrame : Type :=
| TokenFrame (t : Token)
| RuleFrame (name : symbol).

(** The errors the sources raise.  [MatchError] is the [ParseError] of the
    runtime with its [_stack]; [TypeError] is what JavaScript raises when a
    property of [undefined] is read or a value that is not iterable is
    spread; the grammar errors are the [Error]s of [FirstSetBuilder]. *)

Inductive Error : Type :=
| LeftRecursion (rule : symbol)
| EpsilonRepeat
| FirstFollowConflict (terminal : Terminal)
| FirstFirstConflict (terminal : Terminal)
| MatchError (expected : string) (received : option Token)
    (_stack : list ParseErrorStackFrame)
| TypeError
| OtherError (message : string).

Inductive result (A : Type) : Type :=
| Ok (a : A)
| Throw (e : Error)
| OutOfFuel.

Arguments Ok {A} a.
Arguments Throw {A} e.
Arguments OutOfFuel {A}.

Definition bind {A B : Type} (m : result A) (k : A -> result B) : result B :=
  match m with
  | Ok a => k a
  | Throw e => Throw e
  | OutOfFuel => OutOfFuel
  end.

Notation "'let*' x ':=' m 'in' k" := (bind m (fun x => k))
  (at level 10, x pattern, m at level 100, k at level 200).

(* ================================================================= *)
(** ** Terminals *)

Definition dquote : string := String (ascii_of_nat 34) EmptyString.

Definition brandLiteral (v : string) : Terminal :=
  (dquote ++ v ++ dquote)%string.

Definition type_name (t : TokenType) : string :=
  match t with
  | t_value => "value"
  | t_operator => "operator"
  | t_identifier => "identifier"
  | t_keyword => "keyword"
  end.

Definition brandType (t : TokenType) : Terminal :=
  ("<" ++ type_name t ++ ">")%string.

Definition brandEof : Terminal := "(end of input)".

(** A JavaScript [Set<Terminal>]: the elements in insertion order. *)

Definition TSet : Type := list Terminal.

Definition set_has (s : TSet) (t : Terminal) : bool :=
  existsb (String.eqb t) s.

Definition set_add (s : TSet) (t : Terminal) : TSet :=
  if set_has s t then s else s ++ [t].

Definition set_delete (s : TSet) (t : Terminal) : TSet :=
  filter (fun x => negb (String.eqb t x)) s.

(** [new Set(xs)] *)
Definition set_of_list (xs : list Terminal) : TSet :=
  fold_left set_add xs [].

(* ================================================================= *)
(** ** The primitive AST *)

(** [SeqFn]: the reducers of the source, and handles of the functions the
    grammar's author interpolates. *)

Inductive SeqFn : Type :=
| fn__2
| fn_cons
| fn_null
| fn_arr
| fn_user (handle : nat).

Inductive SimpleAST : Type :=
| literal (v : string)
| identifier
| value
| nonterminal (v : symbol)
| repeat0 (expr : SimpleAST)
| seq (exprs : list SimpleAST)
| alt (exprs : list SimpleAST)
| reduce (arity : nat) (fn : option SeqFn).

Definition pushNull : SimpleAST := reduce 0 (Some fn_null).
Definition pushArr : SimpleAST := reduce 0 (Some fn_arr).

Definition symbol_eqb (a b : symbol) : bool :=
  Nat.eqb (sym_id a) (sym_id b) &&
  match description a, description b with
  | Some x, Some y => String.eqb x y
  | None, None => true
  | _, _ => false
  end.

Definition SeqFn_eqb (f g : SeqFn) : bool :=
  match f, g with
  | fn__2, fn__2 | fn_cons, fn_cons | fn_null, fn_null | fn_arr, fn_arr => true
  | fn_user a, fn_user b => Nat.eqb a b
  | _, _ => false
  end.

Definition option_eqb {A} (eqb : A -> A -> bool) (a b : option A) : bool :=
  match a, b with
  | Some x, Some y => eqb x y
  | None, None => true
  | _, _ => false
  end.

Fixpoint SimpleAST_eqb (a b : SimpleAST) {struct a} : bool :=
  let fix all2 (xs ys : list SimpleAST) {struct xs} : bool :=
    match xs, ys with
    | [], [] => true
    | x :: xs', y :: ys' => SimpleAST_eqb x y && all2 xs' ys'
    | _, _ => false
    end in
  match a, b with
  | literal x, literal y => String.eqb x y
  | identifier, identifier => true
  | value, value => true
  | nonterminal x, nonterminal y => symbol_eqb x y
  | repeat0 x, repeat0 y => SimpleAST_eqb x y
  | seq xs, seq ys => all2 xs ys
  | alt xs, alt ys => all2 xs ys
  | reduce n f, reduce m g => Nat.eqb n m && option_eqb SeqFn_eqb f g
  | _, _ => false
  end.

(** The rule table [Map<symbol, SimpleAST>], in insertion order. *)

Definition RuleMap : Type := list (symbol * SimpleAST).

Fixpoint rules_get (rules : RuleMap) (k : symbol) : option SimpleAST :=
  match rules with
  | [] => None
  | (k', n) :: rest => if symbol_eqb k k' then Some n else rules_get rest k
  end.

Fixpoint rules_set (rules : RuleMap) (k : symbol) (n : SimpleAST) : RuleMap :=
  match rules with
  | [] => [(k, n)]
  | (k', n') :: rest =>
      if symbol_eqb k k' then (k, n) :: rest else (k', n') :: rules_set rest k n
  end.

(* ================================================================= *)
(** ** FirstSetBuilder *)

(** [cache = new Map<SimpleAST, Set<Terminal>>()].  The JavaScript map is
    keyed by the node object.  The nodes of the model are values: a node is
    its structure, the key is compared with [SimpleAST_eqb], and a hit
    returns the set an earlier call computed for a node of the same
    structure.  A set in the cache is never changed afterwards: the source
    builds every set it changes with [new Set]. *)

Definition Cache : Type := list (SimpleAST * TSet).

Fixpoint cache_get (c : Cache) (node : SimpleAST) : option TSet :=
  match c with
  | [] => None
  | (n, s) :: rest => if SimpleAST_eqb node n then Some s else cache_get rest node
  end.

Fixpoint cache_set (c : Cache) (node : SimpleAST) (s : TSet) : Cache :=
  match c with
  | [] => [(node, s)]
  | (n, s') :: rest =>
      if SimpleAST_eqb node n then (n, s) :: rest else (n, s') :: cache_set rest node s
  end.

(** A [Set<symbol>]. *)
Definition recur_has (recurSet : list symbol) (x : symbol) : bool :=
  existsb (symbol_eqb x) recurSet.

(** The inner [for (const terminal of ...)] loop of the [seq] and [alt]
    cases: every terminal already in [set] is a conflict. *)

Fixpoint merge_terminals (conflict : Terminal -> Error) (set : TSet)
    (terminals : list Terminal) : result TSet :=
  match terminals with
  | [] => Ok set
  | t :: rest =>
      if set_has set t then Throw (conflict t)
      else merge_terminals conflict (set_add set t) rest
  end.

Section FirstSetBuilder.

Variable rules : RuleMap.

(** The methods of the analyser are state transformers over the cache; an
    exception leaves no state behind.  The loops of the [seq] and [alt]
    cases take the [get] of the children as [get_child]. *)

Definition FS (A : Type) : Type := Cache -> result (A * Cache).

Definition seq_loop (get_child : SimpleAST -> list symbol -> FS TSet)
    (recurSet : list symbol) : list SimpleAST -> TSet -> FS TSet :=
  fix loop (exprs : list SimpleAST) (set : TSet) (c : Cache) {struct exprs} :=
    match exprs with
    | [] => Ok (set, c)
    | expr :: rest =>
        let set := set_delete set brandEof in
        let* (ts, c) := get_child expr recurSet c in
        let* set := merge_terminals FirstFollowConflict set ts in
        if negb (set_has set brandEof) then Ok (set, c)
        else loop rest set c
    end.

Definition alt_loop (get_child : SimpleAST -> list symbol -> FS TSet)
    (recurSet : list symbol) : list SimpleAST -> TSet -> FS TSet :=
  fix loop (exprs : list SimpleAST) (set : TSet) (c : Cache) {struct exprs} :=
    match exprs with
    | [] => Ok (set, c)
    | expr :: rest =>
        let* (ts, c) := get_child expr recurSet c in
        let* set := merge_terminals FirstFirstConflict set ts in
        loop rest set c
    end.

(** [get] and [getInner] call each other in the source.  Here [get] has
    the cases of [getInner] in its body, and [getInner] follows as a
    definition of its own; [get_unfold] below is the equation of the source
    between the two.  [fuel] bounds the number of rules entered through
    [nonterminal], one inside the other; the recursion on the children of a
    node is structural. *)

Fixpoint get (fuel : nat) : SimpleAST -> list symbol -> FS TSet :=
  let get_next : SimpleAST -> list symbol -> FS TSet :=
    match fuel with
    | O => fun _ _ _ => OutOfFuel
    | S fuel' => get fuel'
    end in
  fix get_node (node : SimpleAST) (recurSet : list symbol) (c : Cache)
      {struct node} : result (TSet * Cache) :=
    match cache_get c node with
    | Some s => Ok (s, c)
    | None =>
        let* (res, c) :=
          match node with
          | reduce _ _ => Ok ([brandEof], c)
          | literal v => Ok ([brandLiteral v], c)
          | identifier => Ok ([brandType t_identifier], c)
          | value => Ok ([brandType t_value], c)
          | nonterminal v =>
              if recur_has recurSet v then Throw (LeftRecursion v)
              else
                match rules_get rules v with
                | None => Throw TypeError
                | Some next => get_next next (recurSet ++ [v]) c
                end
          | repeat0 expr =>
              let* (innerSet, c) := get_node expr recurSet c in
              if set_has innerSet brandEof then Throw EpsilonRepeat
              else Ok (set_of_list (innerSet ++ [brandEof]), c)
          | seq exprs => seq_loop get_node recurSet exprs [brandEof] c
          | alt exprs => alt_loop get_node recurSet exprs [] c
          end in
        Ok (res, cache_set c node res)
    end.

(** [get] on the body of a rule: one unit of fuel less. *)

Definition get_next (fuel : nat) : SimpleAST -> list symbol -> FS TSet :=
  match fuel with
  | O => fun _ _ _ => OutOfFuel
  | S fuel' => get fuel'
  end.

(** [getInner], with [get] for the recursive calls, as the source has it. *)

Definition getInner (fuel : nat) (node : SimpleAST) (recurSet : list symbol)
    : FS TSet :=
  fun c =>
  match node with
  | reduce _ _ => Ok ([brandEof], c)
  | literal v => Ok ([brandLiteral v], c)
  | identifier => Ok ([brandType t_identifier], c)
  | value => Ok ([brandType t_value], c)
  | nonterminal v =>
      if recur_has recurSet v then Throw (LeftRecursion v)
      else
        match rules_get rules v with
        | None => Throw TypeError
        | Some next => get_next fuel next (recurSet ++ [v]) c
        end
  | repeat0 expr =>
      let* (innerSet, c) := get fuel expr recurSet c in
      if set_has innerSet brandEof then Throw EpsilonRepeat
      else Ok (set_of_list (innerSet ++ [brandEof]), c)
  | seq exprs => seq_loop (get fuel) recurSet exprs [brandEof] c
  | alt exprs => alt_loop (get fuel) recurSet exprs [] c
  end.

End FirstSetBuilder.

(* ================================================================= *)
(** ** The matchers and the compiler *)

Definition TokenType_eqb (a b : TokenType) : bool :=
  match a, b with
  | t_value, t_value | t_operator, t_operator
  | t_identifier, t_identifier | t_keyword, t_keyword => true
  | _, _ => false
  end.

Definition brandToken (token : option Token) : Terminal :=
  match token with
  | None => brandEof
  | Some t =>
      match Tk.content t with
      | tok_identifier _ => brandType t_identifier
      | tok_value _ => brandType t_value
      | tok_operator s | tok_keyword s => brandLiteral s
      end
  end.

(** The matcher objects.  A [MatchRule] holds a reference to the table
    [compiledRules], which is complete when a parse starts: [parse] takes the
    table as an argument. *)

Inductive Parser : Type :=
| MatchType (type : TokenType)
| MatchLiteral (v : string)
| MatchRule (ruleName : symbol)
| Seq (parsers : list Parser)
| Reduce (arity : nat) (fn : option SeqFn)
| Alt (parserMap : list (Terminal * Parser))
| Repeat (parser : Parser) (matchSet : TSet).

(** A [Map<Terminal, Parser>] in insertion order. *)

Definition ParserMap : Type := list (Terminal * Parser).

Fixpoint pm_get (m : ParserMap) (k : Terminal) : option Parser :=
  match m with
  | [] => None
  | (k', p) :: rest => if String.eqb k k' then Some p else pm_get rest k
  end.

Fixpoint pm_set (m : ParserMap) (k : Terminal) (p : Parser) : ParserMap :=
  match m with
  | [] => [(k, p)]
  | (k', p') :: rest =>
      if String.eqb k k' then (k', p) :: rest else (k', p') :: pm_set rest k p
  end.

Definition pm_keys (m : ParserMap) : list Terminal := map fst m.

Definition CompiledRules : Type := list (symbol * Parser).

Fixpoint cr_get (m : CompiledRules) (k : symbol) : option Parser :=
  match m with
  | [] => None
  | (k', p) :: rest => if symbol_eqb k k' then Some p else cr_get rest k
  end.

Fixpoint cr_set (m : CompiledRules) (k : symbol) (p : Parser) : CompiledRules :=
  match m with
  | [] => [(k, p)]
  | (k', p') :: rest =>
      if symbol_eqb k k' then (k', p) :: rest else (k', p') :: cr_set rest k p
  end.

Section ParserCompiler.

Variable rules : RuleMap.

(** The budget of [get]: no more rules are entered than the table has. *)
Definition fuel_of : nat := List.length rules.

(** [this.firstSet.get(node)], with the default [recurSet = new Set()]. *)
Definition firstSet_get (node : SimpleAST) : FS TSet :=
  get rules fuel_of node [].

(** The [seq] case maps [compile] over the children. *)
Definition compile_all (compile_child : SimpleAST -> FS Parser)
    : list SimpleAST -> FS (list Parser) :=
  fix loop (exprs : list SimpleAST) (c : Cache) {struct exprs} :=
    match exprs with
    | [] => Ok ([], c)
    | expr :: rest =>
        let* (p, c) := compile_child expr c in
        let* (ps, c) := loop rest c in
        Ok (p :: ps, c)
    end.

(** [for (const terminal of ...) parserMap.set(terminal, this.compile(expr))] *)
Fixpoint alt_set_terminals (compile_expr : FS Parser) (terminals : list Terminal)
    (parserMap : ParserMap) (c : Cache) : result (ParserMap * Cache) :=
  match terminals with
  | [] => Ok (parserMap, c)
  | terminal :: rest =>
      let* (p, c) := compile_expr c in
      alt_set_terminals compile_expr rest (pm_set parserMap terminal p) c
  end.

Definition alt_branches (compile_child : SimpleAST -> FS Parser)
    : list SimpleAST -> ParserMap -> FS ParserMap :=
  fix loop (exprs : list SimpleAST) (parserMap : ParserMap) (c : Cache)
      {struct exprs} :=
    match exprs with
    | [] => Ok (parserMap, c)
    | expr :: rest =>
        let* (ts, c) := firstSet_get expr c in
        let* (parserMap, c) :=
          alt_set_terminals (compile_child expr) ts parserMap c in
        loop rest parserMap c
    end.

Fixpoint compile (node : SimpleAST) (c : Cache) {struct node}
    : result (Parser * Cache) :=
  match node with
  | reduce arity fn => Ok (Reduce arity fn, c)
  | literal v => Ok (MatchLiteral v, c)
  | identifier => Ok (MatchType t_identifier, c)
  | value => Ok (MatchType t_value, c)
  | nonterminal v => Ok (MatchRule v, c)
  | repeat0 expr =>
      let* (_, c) := firstSet_get node c in
      let* (p, c) := compile expr c in
      let* (ts, c) := firstSet_get expr c in
      Ok (Repeat p (set_of_list ts), c)
  | seq exprs =>
      let* (_, c) := firstSet_get node c in
      let* (ps, c) := compile_all compile exprs c in
      Ok (Seq ps, c)
  | alt exprs =>
      let* (_, c) := firstSet_get node c in
      let* (parserMap, c) := alt_branches compile exprs [] c in
      Ok (Alt parserMap, c)
  end.

(** [for (const [name, node] of ruleASTMap) ...] *)
Fixpoint compile_rules (entries : RuleMap) (compiledRules : CompiledRules)
    (c : Cache) : result (CompiledRules * Cache) :=
  match entries with
  | [] => Ok (compiledRules, c)
  | (name, node) :: rest =>
      let* (p, c) := compile node c in
      compile_rules rest (cr_set compiledRules name p) c
  end.

Definition compileRuleset : result CompiledRules :=
  let* (compiledRules, _) := compile_rules rules [] [] in
  Ok compiledRules.

End ParserCompiler.

(* ================================================================= *)
(** ** The runtime: ParseState and the matchers' [parse] *)

(** [results] is the value stack with its top at the head of the list. *)

Record ParseState : Type := mkParseState {
  tokens : list Token;
  ps_index : nat;
  results : list JSValue
}.

Definition new_ParseState (tokens : list Token) : ParseState :=
  mkParseState tokens 0 [].

(** [next]: [this.tokens[this.index++]]; past the end the token is
    [undefined], and the index still moves. *)
Definition next (st : ParseState) : option Token * ParseState :=
  (nth_error (tokens st) (ps_index st),
   mkParseState (tokens st) (S (ps_index st)) (results st)).

Definition peek (st : ParseState) : option Token :=
  nth_error (tokens st) (ps_index st).

Definition push (st : ParseState) (x : JSValue) : ParseState :=
  mkParseState (tokens st) (ps_index st) (x :: results st).

(** [Array.prototype.pop]: [undefined] on an empty array. *)
Definition pop (rs : list JSValue) : JSValue * list JSValue :=
  match rs with
  | [] => (JUndefined, [])
  | x :: rest => (x, rest)
  end.

(** [for (i < arity) args.unshift(this.results.pop())] *)
Fixpoint pop_args (arity : nat) (args rs : list JSValue)
    : list JSValue * list JSValue :=
  match arity with
  | O => (args, rs)
  | S n => let (x, rs') := pop rs in pop_args n (x :: args) rs'
  end.

Definition state_reduce (arity : nat) (fn : list JSValue -> result JSValue)
    (st : ParseState) : result ParseState :=
  let (args, rs) := pop_args arity [] (results st) in
  let* r := fn args in
  Ok (mkParseState (tokens st) (ps_index st) (r :: rs)).

Definition done (st : ParseState) : JSValue := fst (pop (results st)).

(** The i-th argument of a call; a missing argument is [undefined]. *)
Definition arg (i : nat) (args : list JSValue) : JSValue :=
  nth i args JUndefined.

Fixpoint chars_of (s : string) : list JSValue :=
  match s with
  | EmptyString => []
  | String ch rest => JString (String ch EmptyString) :: chars_of rest
  end.

(** The spread [...x]: an array gives its elements, a string its
    characters; the other values of the model are not iterable. *)
Definition spread (x : JSValue) : result (list JSValue) :=
  match x with
  | JArray xs => Ok xs
  | JString s => Ok (chars_of s)
  | _ => Throw TypeError
  end.

(** [const _2 = (_, x) => x] *)
Definition _2 (args : list JSValue) : result JSValue := Ok (arg 1 args).

(** [const cons = (h, t) => [h, ...t]] *)
Definition cons_ (args : list JSValue) : result JSValue :=
  let* t := spread (arg 1 args) in
  Ok (JArray (arg 0 args :: t)).

(** [(arr, x) => [...arr, x]], the reducer of [Repeat]. *)
Definition snoc_ (args : list JSValue) : result JSValue :=
  let* a := spread (arg 0 args) in
  Ok (JArray (a ++ [arg 1 args])).

Section Runtime.

(** The functions behind the handles of [fn_user]. *)
Variable host_fn : nat -> list JSValue -> JSValue.

Definition apply_fn (fn : option SeqFn) (args : list JSValue) : result JSValue :=
  match fn with
  | None => Ok (arg 0 args)                     (* [(x) => x] *)
  | Some fn__2 => _2 args
  | Some fn_cons => cons_ args
  | Some fn_null => Ok JNull                    (* [() => null] *)
  | Some fn_arr => Ok (JArray [])               (* [() => []] *)
  | Some (fn_user h) => Ok (host_fn h args)
  end.

Variable parsers : CompiledRules.

Definition MatchType_parse (type : TokenType) (st : ParseState)
    : result ParseState :=
  let (token, st) := next st in
  match token with
  | Some t =>
      if TokenType_eqb (token_type t) type then Ok (push st (token_value t))
      else Throw (MatchError (brandType type) token [TokenFrame t])
  | None => Throw (MatchError (brandType type) None [])
  end.

Definition is_operator_or_keyword (t : Token) : option string :=
  match Tk.content t with
  | tok_operator s | tok_keyword s => Some s
  | _ => None
  end.

Definition MatchLiteral_parse (v : string) (st : ParseState)
    : result ParseState :=
  let (token, st) := next st in
  match token with
  | Some t =>
      match is_operator_or_keyword t with
      | Some s =>
          if String.eqb s v then Ok (push st (token_value t))
          else Throw (MatchError (brandLiteral v) token [TokenFrame t])
      | None => Throw (MatchError (brandLiteral v) token [TokenFrame t])
      end
  | None => Throw (MatchError (brandLiteral v) None [])
  end.

(** The [catch] of [MatchRule.parse]: a [ParseError] gets a rule frame. *)
Definition add_rule_frame (ruleName : symbol) (r : result ParseState)
    : result ParseState :=
  match r with
  | Throw (MatchError expected received stack) =>
      Throw (MatchError expected received (stack ++ [RuleFrame ruleName]))
  | _ => r
  end.

Definition Seq_parse (parse_child : Parser -> ParseState -> result ParseState)
    : list Parser -> ParseState -> result ParseState :=
  fix loop (ps : list Parser) (st : ParseState) {struct ps} :=
    match ps with
    | [] => Ok st
    | p :: rest => let* st := parse_child p st in loop rest st
    end.

(** [[...this.parserMap.keys()].join()] *)
Definition join_keys (m : ParserMap) : string :=
  String.concat "," (pm_keys m).

Definition received_frame (token : option Token) : list ParseErrorStackFrame :=
  match token with
  | Some t => [TokenFrame t]
  | None => []
  end.

Definition Alt_parse (parse_child : Parser -> ParseState -> result ParseState)
    (parserMap : ParserMap) (st : ParseState) : result ParseState :=
  let token := peek st in
  match pm_get parserMap (brandToken token) with
  | Some parser => parse_child parser st
  | None =>
      match pm_get parserMap brandEof with
      | Some parser => parse_child parser st
      | None =>
          Throw (MatchError (join_keys parserMap) token (received_frame token))
      end
  end.

(** Every call of a [parse] method and every turn of the loop of
    [Repeat.parse] takes one unit of [fuel]. *)

Fixpoint parse (fuel : nat) (p : Parser) (st : ParseState) {struct fuel}
    : result ParseState :=
  match fuel with
  | O => OutOfFuel
  | S fuel =>
      match p with
      | MatchType type => MatchType_parse type st
      | MatchLiteral v => MatchLiteral_parse v st
      | MatchRule ruleName =>
          match cr_get parsers ruleName with
          | None => Throw TypeError
          | Some p' => add_rule_frame ruleName (parse fuel p' st)
          end
      | Seq ps => Seq_parse (parse fuel) ps st
      | Reduce arity fn => state_reduce arity (apply_fn fn) st
      | Alt parserMap => Alt_parse (parse fuel) parserMap st
      | Repeat parser matchSet =>
          Repeat_loop fuel parser matchSet (push st (JArray []))
      end
  end

with Repeat_loop (fuel : nat) (parser : Parser) (matchSet : TSet)
    (st : ParseState) {struct fuel} : result ParseState :=
  match fuel with
  | O => OutOfFuel
  | S fuel =>
      match peek st with
      | None => Ok st
      | Some nxt =>
          if negb (set_has matchSet (brandToken (Some nxt))) then Ok st
          else
            let* st := parse fuel parser st in
            let* st := state_reduce 2 snoc_ st in
            Repeat_loop fuel parser matchSet st
      end
  end.

(** The function [createParser] returns, on the tokens of [lexer.run]. *)
Definition run_parser (fuel : nat) (startRule : symbol) (tokens : list Token)
    : result JSValue :=
  match cr_get parsers startRule with
  | None => Throw TypeError
  | Some parser =>
      let parseState := new_ParseState tokens in
      let* parseState := parse fuel parser parseState in
      Ok (done parseState)
  end.

End Runtime.

(* ================================================================= *)
(** ** The surface AST and ASTSimplifier *)

Module AST.

(** Modelled from the spec: the type [AST] of [./core], which is not among
    the sources.  The node kinds and their fields are those [simplify]
    reads; the optional reducer of [structure] is the one the data model of
    the specification lists ([structure(startTerm, content, endTerm,
    reducer?)]). *)

Inductive AST : Type :=
| error (message : string)
| ruleset (rules : list (string * AST))
| literal (v : string)
| terminal (v : TokenType)
| identifier (v : string)
| structure (startToken : string) (expr : AST) (endToken : string)
    (fn : option SeqFn)
| seq (exprs : list AST) (fn : option SeqFn)
| alt (exprs : list AST)
| repeat0 (expr : AST)
| repeat1 (expr : AST)
| maybe (expr : AST)
| sepBy0 (expr separator : AST)
| sepBy1 (expr separator : AST).

End AST.

Abbreviation AST := AST.AST.

(** A [Set<string>] in insertion order. *)
Definition strset_add (s : list string) (x : string) : list string :=
  if existsb (String.eqb x) s then s else s ++ [x].

(** A scope, [Map<string, symbol>]. *)
Definition Scope : Type := list (string * symbol).

Fixpoint scope_get (sc : Scope) (k : string) : option symbol :=
  match sc with
  | [] => None
  | (k', v) :: rest => if String.eqb k k' then Some v else scope_get rest k
  end.

Fixpoint scope_set (sc : Scope) (k : string) (v : symbol) : Scope :=
  match sc with
  | [] => [(k, v)]
  | (k', v') :: rest =>
      if String.eqb k k' then (k', v) :: rest else (k', v') :: scope_set rest k v
  end.

(** The simplifier with its [ScopeManager] and [LiteralManager].
    [sim_scope] is the stack of scopes with its top at the head; [sim_next]
    numbers the symbols created so far, so that [Symbol(...)] is fresh. *)

Record ASTSimplifier : Type := mkSimplifier {
  sim_rules : RuleMap;
  sim_scope : list Scope;
  sim_keywords : list string;
  sim_operators : list string;
  sim_keywordRule : symbol;
  sim_operatorRule : symbol;
  sim_next : nat
}.

Definition new_ASTSimplifier : ASTSimplifier :=
  mkSimplifier [] [] [] []
    (Symbol 0 (Some "keyword")) (Symbol 1 (Some "operator")) 2.

Definition Sim (A : Type) : Type := ASTSimplifier -> result (A * ASTSimplifier).

(** [Symbol(description)] *)
Definition new_Symbol (d : option string) (s : ASTSimplifier)
    : symbol * ASTSimplifier :=
  (Symbol (sim_next s) d,
   mkSimplifier (sim_rules s) (sim_scope s) (sim_keywords s) (sim_operators s)
     (sim_keywordRule s) (sim_operatorRule s) (S (sim_next s))).

(** [this.rules.set(name, node)] *)
Definition set_rule (name : symbol) (node : SimpleAST) (s : ASTSimplifier)
    : ASTSimplifier :=
  mkSimplifier (rules_set (sim_rules s) name node) (sim_scope s)
    (sim_keywords s) (sim_operators s)
    (sim_keywordRule s) (sim_operatorRule s) (sim_next s).

Definition with_scope (stack : list Scope) (s : ASTSimplifier) : ASTSimplifier :=
  mkSimplifier (sim_rules s) stack (sim_keywords s) (sim_operators s)
    (sim_keywordRule s) (sim_operatorRule s) (sim_next s).

(** [ScopeManager.lookup]: from the innermost scope outwards. *)
Fixpoint lookup (stack : list Scope) (v : string) : result symbol :=
  match stack with
  | [] => Throw (OtherError ("unknown identifier " ++ v))
  | scope :: outer =>
      match scope_get scope v with
      | Some sym => Ok sym
      | None => lookup outer v
      end
  end.

(** The first loop of [compileRuleset]: a new symbol for every rule. *)
Fixpoint build_scope (rules : list (string * AST)) (nextScope : Scope)
    (s : ASTSimplifier) : Scope * list symbol * ASTSimplifier :=
  match rules with
  | [] => (nextScope, [], s)
  | (name, _) :: rest =>
      let (symName, s) := new_Symbol (Some name) s in
      let '(sc, syms, s) := build_scope rest (scope_set nextScope name symName) s in
      (sc, symName :: syms, s)
  end.

(** [orArr] of the [sepBy] case. *)
Definition orArr (expr : SimpleAST) : SimpleAST := alt [expr; pushArr].

(** [Rule = Expr (Sep Rule?)?] *)
Definition sepRule (recur expr sep : SimpleAST) : SimpleAST :=
  seq [expr;
       orArr (seq [sep; orArr recur; reduce 2 (Some fn__2)]);
       reduce 2 (Some fn_cons)].

Section Simplifier.

(** [identifierPattern] of [./lexer], which is not among the sources:
    whether a literal has the shape of an identifier. *)
Variable identifierPattern : string -> bool.

(** [LiteralManager.add] *)
Definition literals_add (lit : string) (s : ASTSimplifier)
    : SimpleAST * ASTSimplifier :=
  (literal lit,
   if identifierPattern lit then
     mkSimplifier (sim_rules s) (sim_scope s)
       (strset_add (sim_keywords s) lit) (sim_operators s)
       (sim_keywordRule s) (sim_operatorRule s) (sim_next s)
   else
     mkSimplifier (sim_rules s) (sim_scope s)
       (sim_keywords s) (strset_add (sim_operators s) lit)
       (sim_keywordRule s) (sim_operatorRule s) (sim_next s)).

(** [LiteralManager.terminal] *)
Definition literals_terminal (v : TokenType) (s : ASTSimplifier) : SimpleAST :=
  match v with
  | t_keyword => nonterminal (sim_keywordRule s)
  | t_operator => nonterminal (sim_operatorRule s)
  | t_identifier => identifier
  | t_value => value
  end.

Definition simplify_all (simplify_child : AST -> Sim SimpleAST)
    : list AST -> Sim (list SimpleAST) :=
  fix loop (exprs : list AST) (s : ASTSimplifier) {struct exprs} :=
    match exprs with
    | [] => Ok ([], s)
    | expr :: rest =>
        let* (e, s) := simplify_child expr s in
        let* (es, s) := loop rest s in
        Ok (e :: es, s)
    end.

(** The second loop of [compileRuleset], with [addRule] of the [ruleset]
    case: [this.rules.set(name, this.simplify(expr))]. *)
Definition add_rules (simplify_child : AST -> Sim SimpleAST)
    : list (string * AST) -> list symbol -> Sim unit :=
  fix loop (rules : list (string * AST)) (names : list symbol)
      (s : ASTSimplifier) {struct rules} :=
    match rules, names with
    | (_, expr) :: rest, name :: names' =>
        let* (e, s) := simplify_child expr s in
        loop rest names' (set_rule name e s)
    | _, _ => Ok (tt, s)
    end.

Fixpoint simplify (node : AST) (s : ASTSimplifier) {struct node}
    : result (SimpleAST * ASTSimplifier) :=
  match node with
  | AST.error message => Throw (OtherError message)
  | AST.ruleset rules =>
      match rules with
      | [] => Throw (OtherError "should be unreachable")
      | (firstName, _) :: _ =>
          let '(nextScope, names, s) := build_scope rules [] s in
          let outer := sim_scope s in
          let s := with_scope (nextScope :: outer) s in
          let* (_, s) := add_rules simplify rules names s in
          let s := with_scope (tl (sim_scope s)) s in
          match scope_get nextScope firstName with
          | Some firstRuleName => Ok (nonterminal firstRuleName, s)
          | None => Throw TypeError
          end
      end
  | AST.literal v => Ok (literals_add v s)
  | AST.terminal v => Ok (literals_terminal v s, s)
  | AST.identifier v =>
      let* sym := lookup (sim_scope s) v in
      Ok (nonterminal sym, s)
  | AST.structure startToken expr endToken _ =>
      let (open, s) := literals_add startToken s in
      let* (e, s) := simplify expr s in
      let (close, s) := literals_add endToken s in
      Ok (seq [open; e; close; reduce 3 (Some fn__2)], s)
  | AST.seq exprs fn =>
      let* (es, s) := simplify_all simplify exprs s in
      Ok (seq (es ++ [reduce (List.length exprs) fn]), s)
  | AST.alt exprs =>
      let* (es, s) := simplify_all simplify exprs s in
      Ok (alt es, s)
  | AST.repeat0 expr =>
      let* (e, s) := simplify expr s in
      Ok (repeat0 e, s)
  | AST.repeat1 expr =>
      let* (e, s) := simplify expr s in
      Ok (seq [e; repeat0 e; reduce 2 (Some fn_cons)], s)
  | AST.maybe expr =>
      let* (e, s) := simplify expr s in
      Ok (alt [e; pushNull], s)
  | AST.sepBy0 expr separator =>
      let (ruleName, s) := new_Symbol None s in
      let recur := nonterminal ruleName in
      let* (e, s) := simplify expr s in
      let* (sep, s) := simplify separator s in
      let s := set_rule ruleName (sepRule recur e sep) s in
      Ok (orArr recur, s)
  | AST.sepBy1 expr separator =>
      let (ruleName, s) := new_Symbol None s in
      let recur := nonterminal ruleName in
      let* (e, s) := simplify expr s in
      let* (sep, s) := simplify separator s in
      let s := set_rule ruleName (sepRule recur e sep) s in
      Ok (recur, s)
  end.

(** [createAlts] *)
Definition createAlts (lits : list string) : SimpleAST :=
  alt (map literal lits).

(** [LiteralManager.compile] *)
Definition literals_compile (s : ASTSimplifier) : ASTSimplifier :=
  let s := set_rule (sim_keywordRule s) (createAlts (sim_keywords s)) s in
  set_rule (sim_operatorRule s) (createAlts (sim_operators s)) s.

Record Simplified : Type := mkSimplified {
  startRule : symbol;
  rules : RuleMap;
  keywords : list string;
  operators : list string
}.

Definition simplifyAll (node : AST) : result Simplified :=
  let (startRule, s) := new_Symbol (Some "start") new_ASTSimplifier in
  let* (e, s) := simplify node s in
  let s := set_rule startRule e s in
  let s := literals_compile s in
  Ok (mkSimplified startRule (sim_rules s) (sim_keywords s) (sim_operators s)).

End Simplifier.

(* ================================================================= *)
(** ** The lexer *)

(** The characters of the model are the 8-bit characters of [string]; the
    joiners U+200C and U+200D of the identifier pattern are not among them.
    A sticky regular expression is a function of the text at [lastIndex]: it
    gives the number of the capture group that matched and the matched
    text. *)

Definition Pattern : Type := string -> option (nat * string).

Fixpoint span (p : ascii -> bool) (s : string) : string * string :=
  match s with
  | String ch rest =>
      if p ch then let (a, b) := span p rest in (String ch a, b)
      else (EmptyString, s)
  | EmptyString => (EmptyString, EmptyString)
  end.

Fixpoint drop (n : nat) (s : string) : string :=
  match n, s with
  | S n', String _ rest => drop n' rest
  | _, _ => s
  end.

Definition one_of (chars : string) (ch : ascii) : bool :=
  existsb (Ascii.eqb ch) (list_ascii_of_string chars).

Definition in_range (lo hi ch : ascii) : bool :=
  Nat.leb (nat_of_ascii lo) (nat_of_ascii ch) &&
  Nat.leb (nat_of_ascii ch) (nat_of_ascii hi).

Definition newline : ascii := ascii_of_nat 10.
Definition tab : ascii := ascii_of_nat 9.
Definition backslash : ascii := ascii_of_nat 92.
Definition squote_char : ascii := ascii_of_nat 39.
Definition dquote_char : ascii := ascii_of_nat 34.

Definition is_space (ch : ascii) : bool :=
  Ascii.eqb ch " " || Ascii.eqb ch tab || Ascii.eqb ch newline.
Definition is_dec_ (ch : ascii) : bool := in_range "0" "9" ch || Ascii.eqb ch "_".
Definition is_hex_ (ch : ascii) : bool :=
  in_range "0" "9" ch || in_range "A" "F" ch || in_range "a" "f" ch || Ascii.eqb ch "_".
Definition is_oct_ (ch : ascii) : bool := in_range "0" "7" ch || Ascii.eqb ch "_".
Definition is_bin_ (ch : ascii) : bool := in_range "0" "1" ch || Ascii.eqb ch "_".
Definition is_separator (ch : ascii) : bool := one_of ";{}()[]," ch.
Definition is_punct (ch : ascii) : bool := one_of "!@#%^&*-+=|/:<>.?~" ch.

(** [prefix[class]+] *)
Definition prefixed (prefix : string) (class : ascii -> bool) (s : string)
    : option string :=
  if String.prefix prefix s then
    let (digits, _) := span class (drop (String.length prefix) s) in
    match digits with
    | EmptyString => None
    | _ => Some (prefix ++ digits)%string
    end
  else None.

(** The decimal alternative: an optional minus, one or more digits or
    underscores, an optional dot with digits or underscores, and an optional
    exponent, which is [e] or [E], an optional minus and one digit or
    underscore. *)
Definition decimal (s : string) : option string :=
  let (sign, s1) :=
    match s with
    | String "-" rest => ("-", rest)
    | _ => (EmptyString, s)
    end in
  let (int, s2) := span is_dec_ s1 in
  match int with
  | EmptyString => None
  | _ =>
      let (frac, s3) :=
        match s2 with
        | String "." rest => let (d, r) := span is_dec_ rest in (String "." d, r)
        | _ => (EmptyString, s2)
        end in
      let exp :=
        match s3 with
        | String e (String "-" (String d _)) =>
            if one_of "eE" e && is_dec_ d
            then String e (String "-" (String d EmptyString))
            else
              EmptyString
        | String e (String d _) =>
            if one_of "eE" e && is_dec_ d then String e (String d EmptyString)
            else EmptyString
        | _ => EmptyString
        end in
      Some (sign ++ int ++ frac ++ exp)%string
  end.

Section Lexer.

(** The classes [\p{ID_Start}] and [\p{ID_Continue}] of the regular
    expression engine, and the conversions [Number(...)] and
    [String(...)] of the host. *)
Variable ID_Start ID_Continue : ascii -> bool.
Variable Number_ : string -> JSValue.
Variable String_ : JSValue -> string.

Definition identifier_text (s : string) : option string :=
  match s with
  | String ch rest =>
      if Ascii.eqb ch "$" || Ascii.eqb ch "_" || ID_Start ch then
        let (tail, _) :=
          span (fun x => Ascii.eqb x "$" || ID_Continue x) rest in
        Some (String ch tail)
      else None
  | EmptyString => None
  end.

Definition operator_text (s : string) : option string :=
  match s with
  | String ch _ =>
      if is_separator ch then Some (String ch EmptyString)
      else
        let (run, _) := span is_punct s in
        match run with
        | EmptyString => None
        | _ => Some run
        end
  | EmptyString => None
  end.

Definition nonempty_span (class : ascii -> bool) (s : string) : option string :=
  let (m, _) := span class s in
  match m with
  | EmptyString => None
  | _ => Some m
  end.

Fixpoint first_group (alts : list (nat * (string -> option string)))
    (s : string) : option (nat * string) :=
  match alts with
  | [] => None
  | (g, re) :: rest =>
      match re s with
      | Some m => Some (g, m)
      | None => first_group rest s
      end
  end.

Definition literally (text : string) (s : string) : option string :=
  if String.prefix text s then Some text else None.

(** The nine capture groups of [mainPattern], tried in order. *)
Definition mainPattern : Pattern :=
  first_group
    [ (1, nonempty_span is_space);
      (2, literally "//");
      (3, literally "/*");
      (4, prefixed "0x" is_hex_);
      (5, prefixed "0o" is_oct_);
      (6, prefixed "0b" is_bin_);
      (7, decimal);
      (8, identifier_text);
      (9, operator_text) ].

(** The quote patterns: group 1 is a run of characters of the body, where
    a backslash takes the quote or a backslash with it and a newline, the
    quote and a lone backslash stop the run; group 2 is the closing
    quote. *)

Fixpoint quote_body (q : ascii) (s : string) : string :=
  match s with
  | String ch rest =>
      if Ascii.eqb ch backslash then
        match rest with
        | String ch2 rest2 =>
            if Ascii.eqb ch2 q || Ascii.eqb ch2 backslash
            then String ch (String ch2 (quote_body q rest2))
            else EmptyString
        | EmptyString => EmptyString
        end
      else if Ascii.eqb ch newline || Ascii.eqb ch q then EmptyString
      else String ch (quote_body q rest)
  | EmptyString => EmptyString
  end.

Definition quotePattern (q : ascii) : Pattern :=
  fun s =>
    match quote_body q s with
    | EmptyString =>
        match s with
        | String ch _ =>
            if Ascii.eqb ch q then Some (2, String q EmptyString) else None
        | EmptyString => None
        end
    | body => Some (1, body)
    end.

Definition singleQuotePattern : Pattern := quotePattern squote_char.
Definition doubleQuotePattern : Pattern := quotePattern dquote_char.

(** [lineCommentPattern]: group 1 is a run without newline, group 2 the
    newline. *)
Definition lineCommentPattern : Pattern :=
  fun s =>
    match span (fun ch => negb (Ascii.eqb ch newline)) s with
    | (EmptyString, _) =>
        match s with
        | String ch _ =>
            if Ascii.eqb ch newline then Some (2, String newline EmptyString)
            else None
        | EmptyString => None
        end
    | (run, _) => Some (1, run)
    end.

(** [blockCommentPattern]: group 1 is a run in which a star takes the next
    character with it unless that is a slash; group 2 is the closing star
    and slash. *)
Fixpoint block_body (s : string) : string :=
  match s with
  | String ch rest =>
      if Ascii.eqb ch "*" then
        match rest with
        | String ch2 rest2 =>
            if Ascii.eqb ch2 "/" then EmptyString
            else String ch (String ch2 (block_body rest2))
        | EmptyString => EmptyString
        end
      else String ch (block_body rest)
  | EmptyString => EmptyString
  end.

Definition blockCommentPattern : Pattern :=
  fun s =>
    match block_body s with
    | EmptyString => if String.prefix "*/" s then Some (2, "*/") else None
    | body => Some (1, body)
    end.

Record LexerState : Type := mkLexerState {
  lx_index : nat;
  lx_outerIndex : nat;
  lx_tokens : list Token;
  strings : list string;
  interps : list JSValue
}.

Definition new_LexerState (strings : list string) (interps : list JSValue)
    : LexerState :=
  mkLexerState 0 0 [] strings interps.

Definition getTokens (st : LexerState) : list Token := lx_tokens st.

(** [push(token | undefined)] *)
Definition lx_push (token : option Token) (st : LexerState) : LexerState :=
  match token with
  | None => st
  | Some t =>
      mkLexerState (lx_index st) (lx_outerIndex st) (lx_tokens st ++ [t])
        (strings st) (interps st)
  end.

Definition getInterpolation (st : LexerState) : option Token * LexerState :=
  let token :=
    match nth_error (interps st) (lx_outerIndex st) with
    | Some v => Some (mkToken (tok_value v) 0 (lx_outerIndex st + 1) 0)
    | None => None
    end in
  (token,
   mkLexerState 0 (S (lx_outerIndex st)) (lx_tokens st) (strings st) (interps st)).

Definition hasStrings (st : LexerState) : bool :=
  Nat.ltb (lx_outerIndex st) (List.length (strings st)).

(** [nextChar]: [undefined] when there is no string at [outerIndex], when
    the string is empty, and past its end. *)
Definition nextChar (st : LexerState) : option ascii :=
  match nth_error (strings st) (lx_outerIndex st) with
  | None => None
  | Some buf => String.get (lx_index st) buf
  end.

Definition set_index (i : nat) (st : LexerState) : LexerState :=
  mkLexerState i (lx_outerIndex st) (lx_tokens st) (strings st) (interps st).

(** [matchPattern]: the pattern is applied at [index]; a match moves
    [index] past the matched text.  [exec(undefined)] searches the text
    of [undefined]. *)
Definition matchPattern (pattern : Pattern) (st : LexerState)
    : option (nat * string) * LexerState :=
  let buf :=
    match nth_error (strings st) (lx_outerIndex st) with
    | Some b => b
    | None => "undefined"
    end in
  match pattern (drop (lx_index st) buf) with
  | None => (None, st)
  | Some (g, m) => (Some (g, m), set_index (lx_index st + String.length m) st)
  end.

(** [token.value += text; token.length += n] *)
Definition grow (token : Token) (text : string) (n : nat) : Token :=
  let v :=
    match token_value token with
    | JString s => s
    | v => String_ v
    end in
  mkToken (tok_value (JString (v ++ text))) (Tk.index token)
    (Tk.outerIndex token) (Tk.length token + n).

(** [token.length++] *)
Definition lengthen (token : Token) (n : nat) : Token :=
  mkToken (Tk.content token) (Tk.index token) (Tk.outerIndex token)
    (Tk.length token + n).

(** The inner loop of [quote]: [true] when the closing quote was found and
    the token pushed. *)
Fixpoint quote_scan (fuel : nat) (pattern : Pattern) (token : Token)
    (st : LexerState) : result (bool * Token * LexerState) :=
  match fuel with
  | O => OutOfFuel
  | S fuel =>
      match nextChar st with
      | None => Ok (false, token, st)
      | Some _ =>
          match matchPattern pattern st with
          | (None, _) => Throw (OtherError "newline not allowed in string")
          | (Some (1, body), st) =>
              quote_scan fuel pattern
                (grow token body (String.length body)) st
          | (Some _, st) =>
              let token := lengthen token 1 in   (* 1 for end quote *)
              Ok (true, token, lx_push (Some token) st)
          end
      end
  end.

Fixpoint quote_loop (fuel : nat) (pattern : Pattern) (token : Token)
    (st : LexerState) : result LexerState :=
  match fuel with
  | O => OutOfFuel
  | S fuel =>
      if hasStrings st then
        let* (closed, token, st) := quote_scan fuel pattern token st in
        if (closed : bool) then Ok st
        else
          (* interpolating mid-string: the value goes into the string *)
          let (interpolatedToken, st) := getInterpolation st in
          let token :=
            match interpolatedToken with
            | Some it => grow token (String_ (token_value it)) 0
            | None => token
            end in
          quote_loop fuel pattern token st
      else Throw (OtherError "string left open")
  end.

Definition quote (fuel : nat) (pattern : Pattern) (st : LexerState)
    : result LexerState :=
  let token :=
    mkToken (tok_value (JString EmptyString))
      (lx_index st - 1)            (* -1 for initial quote *)
      (lx_outerIndex st) 1 in
  quote_loop fuel pattern token st.

(** The inner loop of [comment]: [true] when the comment has ended. *)
Fixpoint comment_scan (fuel : nat) (pattern : Pattern) (st : LexerState)
    : result (bool * LexerState) :=
  match fuel with
  | O => OutOfFuel
  | S fuel =>
      match nextChar st with
      | None => Ok (false, st)
      | Some _ =>
          match matchPattern pattern st with
          | (Some (1, _), st) => comment_scan fuel pattern st
          | (_, st) => Ok (true, st)
          end
      end
  end.

Fixpoint comment (fuel : nat) (pattern : Pattern) (st : LexerState)
    : result LexerState :=
  match fuel with
  | O => OutOfFuel
  | S fuel =>
      if hasStrings st then
        let* (ended, st) := comment_scan fuel pattern st in
        if (ended : bool) then Ok st
        else comment fuel pattern (snd (getInterpolation st))
      else Ok st
  end.

(** The token of a number, an identifier or an operator. *)
Definition text_token (c : TokenContent) (lastIndex : nat) (st : LexerState)
    (matchedString : string) : Token :=
  mkToken c lastIndex (lx_outerIndex st) (String.length matchedString).

(** One turn of the inner loop of [mainState], on the character [ch]. *)
Definition main_step (fuel : nat) (ch : ascii) (st : LexerState)
    : result LexerState :=
  if Ascii.eqb ch squote_char then
    quote fuel singleQuotePattern (set_index (lx_index st + 1) st)
  else if Ascii.eqb ch dquote_char then
    quote fuel doubleQuotePattern (set_index (lx_index st + 1) st)
  else
    let lastIndex := lx_index st in
    match matchPattern mainPattern st with
    | (None, _) => Throw (OtherError "NoTokenMatchError")
    | (Some (g, matchedString), st) =>
        match g with
        | 2 => comment fuel lineCommentPattern st
        | 3 => comment fuel blockCommentPattern st
        | 4 | 5 | 6 | 7 =>
            Ok (lx_push (Some (text_token (tok_value (Number_ matchedString))
                                 lastIndex st matchedString)) st)
        | 8 =>
            Ok (lx_push (Some (text_token (tok_identifier matchedString)
                                 lastIndex st matchedString)) st)
        | 9 =>
            Ok (lx_push (Some (text_token (tok_operator matchedString)
                                 lastIndex st matchedString)) st)
        | _ => Ok st
        end
    end.

(** [while ((ch = lexerState.nextChar())) ...] *)
Fixpoint main_scan (fuel : nat) (st : LexerState) : result LexerState :=
  match fuel with
  | O => OutOfFuel
  | S fuel =>
      match nextChar st with
      | None => Ok st
      | Some ch =>
          let* st := main_step fuel ch st in
          main_scan fuel st
      end
  end.

(** [lexerState.push(lexerState.getInterpolation())] *)
Definition push_interpolation (st : LexerState) : LexerState :=
  let (token, st) := getInterpolation st in lx_push token st.

Fixpoint mainState (fuel : nat) (st : LexerState) : result LexerState :=
  match fuel with
  | O => OutOfFuel
  | S fuel =>
      if hasStrings st then
        let* st := main_scan fuel st in
        mainState fuel (push_interpolation st)
      else Ok st
  end.

Definition tokenize (fuel : nat) (strs : list string) (interps : list JSValue)
    : result (list Token) :=
  let lexerState := new_LexerState strs interps in
  let* lexerState := mainState fuel lexerState in
  Ok (getTokens lexerState).

End Lexer.

(* ================================================================= *)
(** ** Left recursion, as the specification defines it *)

(** These predicates follow the words of the specification, not the code: a
    node is nullable when it can match the empty token sequence; a node calls
    a rule on its left when the rule can be entered before any token is
    consumed; a rule is left-recursive when it is reachable from itself along
    such calls. *)

Section LeftRecursion.

Variable rules : RuleMap.

Inductive Nullable : SimpleAST -> Prop :=
| N_reduce arity fn : Nullable (reduce arity fn)
| N_repeat0 expr : Nullable (repeat0 expr)
| N_nonterminal v body :
    rules_get rules v = Some body -> Nullable body -> Nullable (nonterminal v)
| N_alt exprs expr : In expr exprs -> Nullable expr -> Nullable (alt exprs)
| N_seq exprs : (forall expr, In expr exprs -> Nullable expr) -> Nullable (seq exprs).

Inductive LeftCall : SimpleAST -> symbol -> Prop :=
| LC_nonterminal v : LeftCall (nonterminal v) v
| LC_repeat0 expr v : LeftCall expr v -> LeftCall (repeat0 expr) v
| LC_alt exprs expr v : In expr exprs -> LeftCall expr v -> LeftCall (alt exprs) v
| LC_seq pre expr post v :
    (forall e, In e pre -> Nullable e) -> LeftCall expr v ->
    LeftCall (seq (pre ++ expr :: post)) v.

(** Rule [u] enters rule [v] before consuming a token. *)
Definition Calls (u v : symbol) : Prop :=
  exists body, rules_get rules u = Some body /\ LeftCall body v.

Inductive CallsStar : symbol -> symbol -> Prop :=
| CS_refl u : CallsStar u u
| CS_step u v w : Calls u v -> CallsStar v w -> CallsStar u w.

Definition LeftRecursive (u : symbol) : Prop :=
  exists v, Calls u v /\ CallsStar v u.

(** Rule [v] can be entered from the node before a token is consumed. *)
Definition LeftReach (node : SimpleAST) (v : symbol) : Prop :=
  exists u, LeftCall node u /\ CallsStar u v.

(** The nodes whose analysis has something to compute: the compiler asks
    for the first-set of these, and of no others. *)
Definition analysed (node : SimpleAST) : bool :=
  match node with
  | repeat0 _ | seq _ | alt _ => true
  | _ => false
  end.

(** The expansion of a node to the left is finite. *)
Inductive LeftFinite : SimpleAST -> Prop :=
| LF_literal v : LeftFinite (literal v)
| LF_identifier : LeftFinite identifier
| LF_value : LeftFinite value
| LF_reduce arity fn : LeftFinite (reduce arity fn)
| LF_nonterminal v body :
    rules_get rules v = Some body -> LeftFinite body -> LeftFinite (nonterminal v)
| LF_repeat0 expr : LeftFinite expr -> LeftFinite (repeat0 expr)
| LF_alt exprs : (forall e, In e exprs -> LeftFinite e) -> LeftFinite (alt exprs)
| LF_seq_nil : LeftFinite (seq [])
| LF_seq_cons expr rest :
    LeftFinite expr -> (Nullable expr -> LeftFinite (seq rest)) ->
    LeftFinite (seq (expr :: rest)).

(** What the cache holds for a node: a set without repetition, with the
    end of input in it exactly when the node is nullable. *)
Definition good (node : SimpleAST) (s : TSet) : Prop :=
  NoDup s /\ (In brandEof s <-> Nullable node) /\ LeftFinite node.

Definition cache_ok (c : Cache) : Prop :=
  forall node s, cache_get c node = Some s -> good node s.

End LeftRecursion.

(** The rule symbols still to enter, for the termination of [get]. *)
Definition remaining (rules : RuleMap) (recurSet : list symbol) : nat :=
  List.length (filter (fun k => negb (recur_has recurSet k)) (map fst rules)).

(* ================================================================= *)
(** ** Example grammars *)

Module Examples.

Definition A : symbol := Symbol 3 (Some "A").
Definition B : symbol := Symbol 4 (Some "B").

(** [A = A "x" | "y"], as [simplifyAll] gives it. *)
Definition left_recursive_rules : RuleMap :=
  [ (A, alt [seq [nonterminal A; literal "x"; reduce 2 None];
             seq [literal "y"; reduce 1 None]]);
    (Symbol 2 (Some "start"), nonterminal A);
    (Symbol 0 (Some "keyword"), alt [literal "x"; literal "y"]);
    (Symbol 1 (Some "operator"), alt []) ].

(** [B = "x" | "x"] before [A = A "x" | "y"]: two defects in one table. *)
Definition two_defects : RuleMap :=
  [ (B, alt [literal "x"; literal "x"]);
    (A, alt [seq [nonterminal A; literal "x"]; literal "y"]) ].

(** [A = B "z"] and [B = B "x" | "y"]: only [B] is left-recursive. *)
Definition A_body : SimpleAST := seq [nonterminal B; literal "z"].
Definition B_body : SimpleAST := alt [seq [nonterminal B; literal "x"]; literal "y"].
Definition calls_left_recursive : RuleMap := [ (A, A_body); (B, B_body) ].

(** [A = A], a rule whose body is a bare reference. *)
Definition bare_cycle : RuleMap := [ (A, nonterminal A) ].

End Examples.

(* ================================================================= *)
(** ** The first-sets of the children of a node *)

(** The statements about [alt] and [seq] nodes speak of the first-sets of
    the children.  These are the sets [get] returns for them, one child
    after the other, each call starting from the cache the previous one
    left. *)

Section Children.

Variable rules : RuleMap.
Variable fuel : nat.
Variable recurSet : list symbol.

(** The first-sets of all the branches of an [alt]. *)
Fixpoint get_all (exprs : list SimpleAST) (c : Cache)
    : result (list TSet * Cache) :=
  match exprs with
  | [] => Ok ([], c)
  | expr :: rest =>
      let* (s, c) := get rules fuel expr recurSet c in
      let* (ss, c) := get_all rest c in
      Ok (s :: ss, c)
  end.

(** The first-sets of the children of a [seq], up to and including the
    first one that lacks the end of input. *)
Fixpoint get_seq (exprs : list SimpleAST) (c : Cache)
    : result (list TSet * Cache) :=
  match exprs with
  | [] => Ok ([], c)
  | expr :: rest =>
      let* (s, c) := get rules fuel expr recurSet c in
      if set_has s brandEof then
        let* (ss, c) := get_seq rest c in
        Ok (s :: ss, c)
      else Ok ([s], c)
  end.

End Children.

(** A terminal that two of the sets share. *)
Definition shares (sets : list TSet) (t : Terminal) : Prop :=
  exists l1 s1 l2 s2 l3,
    sets = l1 ++ s1 :: l2 ++ s2 :: l3 /\ In t s1 /\ In t s2.

Definition pairwise_disjoint (sets : list TSet) : Prop :=
  forall t, ~ shares sets t.

(** The sets without the end of input. *)
Definition without_eof (sets : list TSet) : list TSet :=
  map (fun s => set_delete s brandEof) sets.

(** What a [seq] accumulates from the sets of its children: every set but
    the last without the end of input, and the last one as it is; the end of
    input alone when there is no child. *)
Definition seq_result (sets : list TSet) : TSet :=
  match sets with
  | [] => [brandEof]
  | _ => List.concat (without_eof (removelast sets)) ++ last sets []
  end.

(** The sets of the children merged one after the other, as the loops of
    the [alt] and [seq] cases do. *)
Fixpoint merge_all (conflict : Terminal -> Error) (set : TSet)
    (sets : list TSet) : result TSet :=
  match sets with
  | [] => Ok set
  | ts :: rest =>
      let* set := merge_terminals conflict set ts in
      merge_all conflict set rest
  end.

(** The loop of the [seq] case on the sets of the children it visits: the
    end of input leaves the accumulated set before each merge. *)
Fixpoint seq_merge (set : TSet) (sets : list TSet) : result TSet :=
  match sets with
  | [] => Ok set
  | ts :: rest =>
      let* set := merge_terminals FirstFollowConflict (set_delete set brandEof) ts in
      seq_merge set rest
  end.

(* ================================================================= *)
(** ** The reducer of a structure, as the specification words it *)

(** The specification gives the reducer of a simplified structure as the
    projection of the second argument composed with the user-supplied
    reducer.  These are the two ways to read the composition, for a user
    reducer with handle [h]: the reducer applied to the projected second
    argument, and the projection applied to the result of the reducer. *)

Definition reducer_of_projection (host_fn : nat -> list JSValue -> JSValue)
    (h : nat) (args : list JSValue) : JSValue :=
  host_fn h [arg 1 args].

Definition projection_of_reducer (host_fn : nat -> list JSValue -> JSValue)
    (h : nat) (args : list JSValue) : JSValue :=
  arg 1 [host_fn h args].

(** Every rule of the table is named by a symbol created before. *)
Definition sim_wf (s : ASTSimplifier) : Prop :=
  forall k n, In (k, n) (sim_rules s) -> sym_id k < sim_next s.

(* ================================================================= *)
(** ** Positions in the text fragments *)

(** The string at [outerIndex] ([undefined] is the empty text here). *)
Definition current_buf (st : LexerState) : string :=
  nth (lx_outerIndex st) (strings st) EmptyString.

(** The number of characters of the text fragments before the cursor. *)
Definition position (st : LexerState) : nat :=
  list_sum (map String.length (firstn (lx_outerIndex st) (strings st)))
  + lx_index st.

(** The cursor is within its string. *)
Definition in_buf (st : LexerState) : Prop :=
  lx_index st <= String.length (current_buf st).

(** [st'] comes after [st]: the same fragments and values, and the tokens
    added carry a segment index between those of the two states. *)
Definition extends (st st' : LexerState) : Prop :=
  strings st' = strings st /\ interps st' = interps st /\
  lx_outerIndex st <= lx_outerIndex st' /\
  exists added,
    lx_tokens st' = lx_tokens st ++ added /\
    Forall (fun t => lx_outerIndex st <= Tk.outerIndex t /\
                     Tk.outerIndex t <= lx_outerIndex st') added.

(** The text a string token has accumulated. *)
Definition token_text (t : Token) : string :=
  match token_value t with
  | JString s => s
  | _ => EmptyString
  end.

(** No token carries a segment index beyond the fragment being scanned. *)
Definition segments_ordered (st : LexerState) : Prop :=
  Forall (fun t => Tk.outerIndex t <= lx_outerIndex st) (lx_tokens st).

(* ================================================================= *)
(** ** A host for the examples *)

(** The character classes on ASCII letters and digits, and the
    conversions on the values the examples use. *)

Module Host.

Definition ID_Start (ch : ascii) : bool :=
  in_range "a" "z" ch || in_range "A" "Z" ch.

Definition ID_Continue (ch : ascii) : bool :=
  ID_Start ch || in_range "0" "9" ch || Ascii.eqb ch "_".

Fixpoint digits_value (acc : Z) (s : string) : option Z :=
  match s with
  | EmptyString => Some acc
  | String ch rest =>
      if in_range "0" "9" ch
      then digits_value (10 * acc + Z.of_nat (nat_of_ascii ch - 48)) rest
      else None
  end.

(** [Number(text)] on runs of decimal digits; [JUndefined] stands for the
    numbers outside the model. *)
Definition Number_ (s : string) : JSValue :=
  match s with
  | EmptyString => JNumber 0
  | _ => match digits_value 0 s with
         | Some z => JNumber z
         | None => JUndefined
         end
  end.

(** [String(value)] on strings, [null] and [undefined]. *)
Definition String_ (v : JSValue) : string :=
  match v with
  | JString s => s
  | JNull => "null"
  | JUndefined => "undefined"
  | _ => "[object Object]"
  end.

Definition tokenize : nat -> list string -> list JSValue -> result (list Token) :=
  tokenize ID_Start ID_Continue Number_ String_.

End Host.

(** The two fragments of the string ["foo${x}bar"] of the comment on
    [TokenPosition]. *)
Definition open_foo : string := String dquote_char "foo".
Definition bar_close : string := ("bar" ++ dquote)%string.

(** From [s] to [s'] the simplifier creates symbols, and the rules it adds
    are named by symbols numbered from [lo] on. *)
Definition grows_above (lo : nat) (s s' : ASTSimplifier) : Prop :=
  sim_next s <= sim_next s' /\
  forall k, In k (map fst (sim_rules s')) ->
            In k (map fst (sim_rules s)) \/
            (lo <= sym_id k /\ sym_id k < sim_next s').

(* ================================================================= *)
(** ** The match of a separated list, as the specification words it *)

(** The specification says that a match of the auxiliary rule
    [R = item (sep R?)?] pushes the list of the item values in input order.
    [SepList st vs i] follows these words: from the state [st] the items
    with the values [vs] match one after the other, with a separator
    between two of them and possibly one after the last, and the cursor ends
    at [i]. *)

Section SepBySemantics.

Variable host_fn : nat -> list JSValue -> JSValue.
Variable parsers : CompiledRules.

(** The matchers of the item and of the separator. *)
Variable IsItem IsSep : Parser -> Prop.

(** A matcher that leaves the tokens alone and pushes one value. *)
Definition pushes_one (p : Parser) : Prop :=
  forall fuel st st',
    parse host_fn parsers fuel p st = Ok st' ->
    tokens st' = tokens st /\ exists v, results st' = v :: results st.

Definition item_run (st : ParseState) (v : JSValue) (st1 : ParseState) : Prop :=
  exists p fuel,
    IsItem p /\ parse host_fn parsers fuel p st = Ok st1 /\
    results st1 = v :: results st.

Definition sep_run (st st1 : ParseState) : Prop :=
  exists p fuel, IsSep p /\ parse host_fn parsers fuel p st = Ok st1.

Inductive SepList : ParseState -> list JSValue -> nat -> Prop :=
| SL_one st v st1 :
    item_run st v st1 -> SepList st [v] (ps_index st1)
| SL_trailing st v st1 st2 :
    item_run st v st1 -> sep_run st1 st2 -> SepList st [v] (ps_index st2)
| SL_cons st v st1 st2 vs i :
    item_run st v st1 -> sep_run st1 st2 -> SepList st2 vs i ->
    SepList st (v :: vs) i.

(** The matcher of [R?] after a separator: the rule again, or the empty
    list. *)
Definition sep_tail_shape (R : symbol) (m2 : ParserMap) : Prop :=
  forall k p, pm_get m2 k = Some p -> p = Reduce 0 (Some fn_arr) \/ p = MatchRule R.

(** The matcher of [R = item (sep R?)?]. *)
Definition sep_rule_shape (R : symbol) (P : Parser) : Prop :=
  exists pe m1,
    P = Seq [pe; Alt m1; Reduce 2 (Some fn_cons)] /\ IsItem pe /\
    forall k p, pm_get m1 k = Some p ->
      p = Reduce 0 (Some fn_arr) \/
      exists ps m2,
        p = Seq [ps; Alt m2; Reduce 2 (Some fn__2)] /\ IsSep ps /\
        sep_tail_shape R m2.

End SepBySemantics.

(** A matcher the compiler gives for a node, from some state of the cache. *)
Definition Compiled (rules : RuleMap) (node : SimpleAST) (p : Parser) : Prop :=
  exists c c', compile rules node c = Ok (p, c').

(* ================================================================= *)
(** ** The statements of the inductions *)

(** A successful [get] keeps the cache sound and returns a sound set. *)
Definition get_sound_at (rules : RuleMap) (fuel : nat) (node : SimpleAST) : Prop :=
  forall recurSet c s c',
    cache_ok rules c -> get rules fuel node recurSet c = Ok (s, c') ->
    cache_ok rules c' /\ good rules node s.

(** [get] does not run out of fuel while the fuel covers the rules still to
    enter. *)
Definition get_total_at (rules : RuleMap) (fuel : nat) (node : SimpleAST) : Prop :=
  forall recurSet c,
    remaining rules recurSet <= fuel ->
    get rules fuel node recurSet c <> OutOfFuel.

(** A left-recursion error names a rule that the node reaches on its left,
    and that rule was being expanded when [get] was called, or is
    left-recursive. *)
Definition get_LR_at (rules : RuleMap) (fuel : nat) (node : SimpleAST) : Prop :=
  forall recurSet c x,
    cache_ok rules c ->
    get rules fuel node recurSet c = Throw (LeftRecursion x) ->
    LeftReach rules node x /\ (In x recurSet \/ LeftRecursive rules x).

(** [v] is called by [u]: the order along which the calls of a rule with a
    finite expansion are well-founded. *)
Definition calls_back (rules : RuleMap) (v u : symbol) : Prop := Calls rules u v.

(** The rules a simplification adds are named by symbols it creates. *)
Definition simplify_grows_at (identifierPattern : string -> bool) (node : AST)
    : Prop :=
  forall s e s',
    simplify identifierPattern node s = Ok (e, s') ->
    grows_above (sim_next s) s s'.

(* ================================================================= *)
(** ** The size of the text still to scan *)

(** A pattern that matches text that is there, and at least one
    character of it. *)
Definition pattern_ok (pattern : Pattern) : Prop :=
  forall s g m,
    pattern s = Some (g, m) ->
    1 <= String.length m /\ String.length m <= String.length s.

(** The characters of all the fragments. *)
Definition text_size (st : LexerState) : nat :=
  list_sum (map String.length (strings st)).

(** The characters and the fragments still ahead of the cursor. *)
Definition budget (st : LexerState) : nat :=
  (text_size st - position st)
  + (S (List.length (strings st)) - lx_outerIndex st).

(** The cursor is within its string, in one of the fragments or just
    after the last one. *)
Definition in_text (st : LexerState) : Prop :=
  in_buf st /\ lx_outerIndex st <= List.length (strings st).

(** The fuel that scans the fragments [strs] to their end. *)
Definition fuel_for (strs : list string) : nat :=
  list_sum (map String.length strs) + List.length strs + 4.

(* ================================================================= *)
(** ** The cursor of a parse *)

(** From [st] to [st'] the tokens are the same and the cursor has not
    moved back; a cursor that has moved is within the tokens. *)
Definition advances (st st' : ParseState) : Prop :=
  tokens st' = tokens st /\ ps_index st <= ps_index st' /\
  (ps_index st < ps_index st' -> ps_index st' <= List.length (tokens st)).

(** The [_stack] of a match error raised from [st]: the token received,
    when there is one, then the rules left on the way out, innermost
    first.  The token received is the one at a position at or after the
    cursor. *)
Definition error_trace (st : ParseState) (e : Error) : Prop :=
  match e with
  | MatchError _ received stack =>
      exists i names,
        ps_index st <= i /\ received = nth_error (tokens st) i /\
        stack = received_frame received ++ map RuleFrame names
  | TypeError => True
  | _ => False
  end.

(* ================================================================= *)
(** ** The terminals a node can begin with *)

(** [First rules node t]: a match of [node] can begin with a token of the
    terminal [t]; the end of input stands for the match of no token.  This
    is the first-set of the grammar, written down without the analyser: a
    sequence begins as its first child does, and as the next one does where
    the children before can match nothing. *)

Section FirstTerminals.

Variable rules : RuleMap.

Inductive First : SimpleAST -> Terminal -> Prop :=
| F_literal v : First (literal v) (brandLiteral v)
| F_identifier : First identifier (brandType t_identifier)
| F_value : First value (brandType t_value)
| F_reduce arity fn : First (reduce arity fn) brandEof
| F_nonterminal v body t :
    rules_get rules v = Some body -> First body t -> First (nonterminal v) t
| F_repeat0 expr t : First expr t -> First (repeat0 expr) t
| F_repeat0_eof expr : First (repeat0 expr) brandEof
| F_alt exprs expr t : In expr exprs -> First expr t -> First (alt exprs) t
| F_seq pre expr post t :
    (forall e, In e pre -> First e brandEof) -> First expr t -> t <> brandEof ->
    First (seq (pre ++ expr :: post)) t
| F_seq_eof exprs :
    (forall e, In e exprs -> First e brandEof) -> First (seq exprs) brandEof.

(** What the analysis of a node has checked besides: the body of a
    repetition cannot match nothing. *)
Definition checked (node : SimpleAST) : Prop :=
  match node with
  | repeat0 expr => ~ First expr brandEof
  | _ => True
  end.

(** The set of a node: its first-set, and the node has been checked. *)
Definition first_entry (node : SimpleAST) (s : TSet) : Prop :=
  (forall t, In t s <-> First node t) /\ checked node.

(** The sets of the cache are the first-sets of their nodes. *)
Definition cache_first (c : Cache) : Prop :=
  forall node s, cache_get c node = Some s -> first_entry node s.

(** [MatcherOf node p]: the matcher [p] has the shape of [node], the
    match set of a repetition holds terminals its body can begin with, and
    an entry of a dispatch table is the matcher of a branch that can begin
    with the key. *)
Inductive MatcherOf : SimpleAST -> Parser -> Prop :=
| M_reduce arity fn : MatcherOf (reduce arity fn) (Reduce arity fn)
| M_literal v : MatcherOf (literal v) (MatchLiteral v)
| M_identifier : MatcherOf identifier (MatchType t_identifier)
| M_value : MatcherOf value (MatchType t_value)
| M_nonterminal v : MatcherOf (nonterminal v) (MatchRule v)
| M_repeat0 expr p matchSet :
    MatcherOf expr p -> (forall t, In t matchSet <-> First expr t) ->
    ~ First expr brandEof ->
    MatcherOf (repeat0 expr) (Repeat p matchSet)
| M_seq exprs ps : Forall2 MatcherOf exprs ps -> MatcherOf (seq exprs) (Seq ps)
| M_alt exprs parserMap :
    (forall k q, pm_get parserMap k = Some q ->
                 exists e, In e exprs /\ First e k /\ MatcherOf e q) ->
    (forall k, First (alt exprs) k -> pm_get parserMap k <> None) ->
    MatcherOf (alt exprs) (Alt parserMap).

(** The table of the compiled rules holds a matcher of the body of each
    rule it names. *)
Definition table_of (parsers : CompiledRules) : Prop :=
  forall v p, cr_get parsers v = Some p ->
              exists body, rules_get rules v = Some body /\ MatcherOf body p.

(** What a successful match tells about the input: either no token was
    consumed and the node can match nothing, or the token at the cursor was
    consumed and the node can begin with it. *)
Definition predicted (node : SimpleAST) (st st' : ParseState) : Prop :=
  (ps_index st' = ps_index st /\ First node brandEof) \/
  (ps_index st < ps_index st' /\ First node (brandToken (peek st))).

(** The statement of the induction on [get]. *)
Definition get_first_at (fuel : nat) (node : SimpleAST) : Prop :=
  forall recurSet c s c',
    cache_first c -> get rules fuel node recurSet c = Ok (s, c') ->
    cache_first c' /\ first_entry node s.

(** The statement of the induction on [compile]. *)
Definition compile_first_at (node : SimpleAST) : Prop :=
  forall c p c',
    cache_first c -> compile rules node c = Ok (p, c') ->
    cache_first c' /\ MatcherOf node p /\
    exists c0 c1, compile rules node c0 = Ok (p, c1).

End FirstTerminals.

(* ================================================================= *)
(** ** What a simplification does to the simplifier *)

Section SimplifierState.

Variable identifierPattern : string -> bool.

(** From [s] to [s'] the simplifier keeps what it has: the rules named by
    the symbols numbered below [lo] are untouched, no rule disappears, the
    symbols of the keyword rule and of the operator rule stay, the literals
    registered stay, and a literal that is new is a keyword when it has the
    shape of an identifier and an operator when it has not.  No literal and
    no rule gets listed twice. *)
Definition evolves (lo : nat) (s s' : ASTSimplifier) : Prop :=
  sim_keywordRule s' = sim_keywordRule s /\
  sim_operatorRule s' = sim_operatorRule s /\
  sim_next s <= sim_next s' /\
  (forall k, sym_id k < lo ->
             rules_get (sim_rules s') k = rules_get (sim_rules s) k) /\
  (forall k, rules_get (sim_rules s) k <> None ->
             rules_get (sim_rules s') k <> None) /\
  (forall x, In x (sim_keywords s) -> In x (sim_keywords s')) /\
  (forall x, In x (sim_operators s) -> In x (sim_operators s')) /\
  (forall x, In x (sim_keywords s') ->
             In x (sim_keywords s) \/ identifierPattern x = true) /\
  (forall x, In x (sim_operators s') ->
             In x (sim_operators s) \/ identifierPattern x = false) /\
  (NoDup (sim_keywords s) -> NoDup (sim_keywords s')) /\
  (NoDup (sim_operators s) -> NoDup (sim_operators s')) /\
  (NoDup (map fst (sim_rules s)) -> NoDup (map fst (sim_rules s'))).

(** The statement of the induction on [simplify]: the scope stack is
    restored, and the state evolves from the symbols of the start on. *)
Definition simplify_evolves_at (node : AST) : Prop :=
  forall s e s',
    simplify identifierPattern node s = Ok (e, s') ->
    sim_scope s' = sim_scope s /\ evolves (sim_next s) s s'.

(** The errors of the simplifier carry a message. *)
Definition simplify_errors_at (node : AST) : Prop :=
  forall s,
    simplify identifierPattern node s <> OutOfFuel /\
    forall err, simplify identifierPattern node s = Throw err ->
                exists message, err = OtherError message.

End SimplifierState.

(* ================================================================= *)
(** ** The references and the literals of a grammar *)

(** [Sub node x]: the node [x] occurs in [node]. *)
Inductive Sub : SimpleAST -> SimpleAST -> Prop :=
| Sub_refl node : Sub node node
| Sub_repeat0 expr x : Sub expr x -> Sub (repeat0 expr) x
| Sub_seq exprs expr x : In expr exprs -> Sub expr x -> Sub (seq exprs) x
| Sub_alt exprs expr x : In expr exprs -> Sub expr x -> Sub (alt exprs) x.

(** A symbol that one of the scopes of the stack gives to a name. *)
Definition in_scope (stack : list Scope) (v : symbol) : Prop :=
  exists sc name, In sc stack /\ scope_get sc name = Some v.

(** A symbol the simplifier accounts for: it names a rule of the table,
    or a rule of a ruleset being simplified, or it is the symbol of the
    keyword rule or of the operator rule, which [LiteralManager.compile]
    sets at the end. *)
Definition known (s : ASTSimplifier) (v : symbol) : Prop :=
  rules_get (sim_rules s) v <> None \/ in_scope (sim_scope s) v \/
  v = sim_keywordRule s \/ v = sim_operatorRule s.

(** A literal the [LiteralManager] has recorded. *)
Definition registered (s : ASTSimplifier) (lit : string) : Prop :=
  In lit (sim_keywords s) \/ In lit (sim_operators s).

(** The references of a node are accounted for and its literals are
    recorded. *)
Definition node_ok (s : ASTSimplifier) (node : SimpleAST) : Prop :=
  (forall v, Sub node (nonterminal v) -> known s v) /\
  (forall lit, Sub node (literal lit) -> registered s lit).

Definition rules_ok (s : ASTSimplifier) : Prop :=
  forall k body, rules_get (sim_rules s) k = Some body -> node_ok s body.

(** The statement of the induction on [simplify]. *)
Definition simplify_closed_at (identifierPattern : string -> bool) (node : AST)
    : Prop :=
  forall s e s',
    rules_ok s -> simplify identifierPattern node s = Ok (e, s') ->
    rules_ok s' /\ node_ok s' e.

(** A grammar without dangling references: every rule a body refers to is
    in the table. *)
Definition closed_rules (rules : RuleMap) : Prop :=
  forall k body v,
    rules_get rules k = Some body -> Sub body (nonterminal v) ->
    rules_get rules v <> None.

(* ================================================================= *)
(** ** The symbols of a ruleset *)



(** The references of a node are rules of the table. *)
Definition closed_node (rules : RuleMap) (node : SimpleAST) : Prop :=
  forall v, Sub node (nonterminal v) -> rules_get rules v <> None.

(** The errors the analyser raises on a grammar: the four defects of a
    grammar it looks for. *)
Definition grammar_error (e : Error) : Prop :=
  match e with
  | LeftRecursion _ | EpsilonRepeat | FirstFollowConflict _
  | FirstFirstConflict _ => True
  | _ => False
  end.

(** The statement of the induction on [get]. *)
Definition get_errors_at (rules : RuleMap) (fuel : nat) (node : SimpleAST) : Prop :=
  forall recurSet c e,
    closed_node rules node ->
    get rules fuel node recurSet c = Throw e -> grammar_error e.

(** The statement of the induction on [compile]. *)
Definition compile_errors_at (rules : RuleMap) (node : SimpleAST) : Prop :=
  forall c e,
    closed_node rules node ->
    compile rules node c = Throw e -> grammar_error e.
(* ================================================================= *)
(** ** The errors of the lexer *)


(* ================================================================= *)
(** ** The tokens of the lexer *)

(** [m] is the text of [buf] from the offset [i] on. *)
Definition text_at (buf : string) (i : nat) (m : string) : Prop :=
  i + String.length m <= String.length buf /\
  substring i (String.length m) buf = m.

Fixpoint all_chars (class : ascii -> bool) (s : string) : bool :=
  match s with
  | EmptyString => true
  | String ch rest => class ch && all_chars class rest
  end.

Definition first_char (class : ascii -> bool) (s : string) : bool :=
  match s with
  | String ch _ => class ch
  | EmptyString => false
  end.

(** The text of a number begins with a digit, an underscore or a minus. *)
Definition number_shape (m : string) : bool :=
  first_char (fun ch => is_dec_ ch || Ascii.eqb ch "-") m.

(** The text of an operator is one separator or a run of punctuation. *)
Definition operator_shape (m : string) : bool :=
  match m with
  | EmptyString => false
  | String ch rest =>
      (is_separator ch && String.eqb rest EmptyString) || all_chars is_punct m
  end.

Section Lexed.

Variable ID_Start ID_Continue : ascii -> bool.
Variable Number_ : string -> JSValue.

(** The text of an identifier begins with a dollar or a character of
    [ID_Start] that is neither a digit nor the underscore, and goes on with
    dollars and characters of [ID_Continue]. *)
Definition identifier_shape (m : string) : bool :=
  match m with
  | EmptyString => false
  | String ch tail =>
      (Ascii.eqb ch "$" || ID_Start ch) && negb (is_dec_ ch) &&
      all_chars (fun x => Ascii.eqb x "$" || ID_Continue x) tail
  end.

Variable strs : list string.
Variable values : list JSValue.

(** The five kinds of token of [tokenize strs values]. *)
Inductive lexed : Token -> Prop :=
| lexed_number buf i k m :
    nth_error strs k = Some buf -> text_at buf i m -> number_shape m = true ->
    lexed (mkToken (tok_value (Number_ m)) i k (String.length m))
| lexed_identifier buf i k m :
    nth_error strs k = Some buf -> text_at buf i m -> identifier_shape m = true ->
    lexed (mkToken (tok_identifier m) i k (String.length m))
| lexed_operator buf i k m :
    nth_error strs k = Some buf -> text_at buf i m -> operator_shape m = true ->
    lexed (mkToken (tok_operator m) i k (String.length m))
| lexed_string buf i k q body n :
    nth_error strs k = Some buf -> String.get i buf = Some q ->
    q = squote_char \/ q = dquote_char ->
    lexed (mkToken (tok_value (JString body)) i k (n + 2))
| lexed_interpolation k v :
    nth_error values k = Some v ->
    lexed (mkToken (tok_value v) 0 (k + 1) 0).

(** The state of a run of [tokenize strs values]. *)
Definition lexing (st : LexerState) : Prop :=
  strings st = strs /\ interps st = values /\ Forall lexed (lx_tokens st).

End Lexed.

(** The characters that begin a token, white space or a comment. *)
Definition starts_token (ID_Start : ascii -> bool) (ch : ascii) : bool :=
  Ascii.eqb ch squote_char || Ascii.eqb ch dquote_char || is_space ch ||
  is_dec_ ch || Ascii.eqb ch "$" || ID_Start ch || is_separator ch ||
  is_punct ch.

(* ================================================================= *)
(** ** The body of a quoted string *)

(** A text in which every backslash is followed by the quote [q] or by a
    backslash, and which holds no newline and no other quote [q]. *)
Fixpoint escaped (q : ascii) (s : string) : bool :=
  match s with
  | EmptyString => true
  | String ch rest =>
      if Ascii.eqb ch backslash then
        match rest with
        | String ch2 rest2 =>
            (Ascii.eqb ch2 q || Ascii.eqb ch2 backslash) && escaped q rest2
        | EmptyString => false
        end
      else negb (Ascii.eqb ch newline) && negb (Ascii.eqb ch q) && escaped q rest
  end.

(** A text that begins with a newline, or with a backslash that neither
    the quote [q] nor a backslash follows. *)
Definition breaks (q : ascii) (s : string) : bool :=
  match s with
  | EmptyString => false
  | String ch rest =>
      if Ascii.eqb ch backslash then
        match rest with
        | String ch2 _ => negb (Ascii.eqb ch2 q || Ascii.eqb ch2 backslash)
        | EmptyString => true
        end
      else Ascii.eqb ch newline
  end.

(* ================================================================= *)
(** ** Runs of stars *)

Fixpoint stars (n : nat) : string :=
  match n with
  | O => EmptyString
  | S n => String "*" (stars n)
  end.

(* ================================================================= *)
(** ** The order of the tokens *)

(** [t1] ends before [t2] begins: in an earlier fragment, or in the same
    fragment with its text ending at or before the offset of [t2]. *)
Definition precedes (t1 t2 : Token) : Prop :=
  Tk.outerIndex t1 < Tk.outerIndex t2 \/
  (Tk.outerIndex t1 = Tk.outerIndex t2 /\
   Tk.index t1 + Tk.length t1 <= Tk.index t2).

Fixpoint in_order (l : list Token) : Prop :=
  match l with
  | [] => True
  | t :: rest => Forall (precedes t) rest /\ in_order rest
  end.

(** The token [t] ends at or before the cursor of [st]. *)
Definition ends_before (st : LexerState) (t : Token) : Prop :=
  Tk.outerIndex t < lx_outerIndex st \/
  (Tk.outerIndex t = lx_outerIndex st /\
   Tk.index t + Tk.length t <= lx_index st).

(** The cursor of [st'] is at or after the cursor of [st]. *)
Definition cursor_le (st st' : LexerState) : Prop :=
  lx_outerIndex st < lx_outerIndex st' \/
  (lx_outerIndex st = lx_outerIndex st' /\ lx_index st <= lx_index st').

(** The tokens are in order and end before the cursor. *)
Definition ordered (st : LexerState) : Prop :=
  in_order (lx_tokens st) /\ Forall (ends_before st) (lx_tokens st).
(* ================================================================= *)
(** ** The tokens a terminal stands for *)

(** Two tokens the matchers do not tell apart: two identifiers, two values,
    two operators or keywords of the same text, or twice the end of
    input. *)
Definition same_terminal (a b : option Token) : Prop :=
  match a, b with
  | None, None => True
  | Some x, Some y =>
      match Tk.content x, Tk.content y with
      | tok_identifier _, tok_identifier _ => True
      | tok_value _, tok_value _ => True
      | (tok_operator s | tok_keyword s), (tok_operator s' | tok_keyword s') =>
          s = s'
      | _, _ => False
      end
  | _, _ => False
  end.

(** The state after the token at the cursor has been taken and its value
    pushed. *)
Definition shifted (st : ParseState) (t : Token) : ParseState :=
  mkParseState (tokens st) (S (ps_index st)) (token_value t :: results st).

(* ================================================================= *)
(** * Properties *)

(** ** Equality tests and sets *)

Lemma SimpleAST_ind' (P : SimpleAST -> Prop) :
  (forall v, P (literal v)) -> P identifier -> P value ->
  (forall v, P (nonterminal v)) ->
  (forall expr, P expr -> P (repeat0 expr)) ->
  (forall exprs, Forall P exprs -> P (seq exprs)) ->
  (forall exprs, Forall P exprs -> P (alt exprs)) ->
  (forall arity fn, P (reduce arity fn)) ->
  forall node, P node.
Proof.
  intros Hl Hi Hv Hn Hr Hs Ha Hd.
  fix IH 1. intros [v| | |v|e|es|es|a f].
  - apply Hl.
  - exact Hi.
  - exact Hv.
  - apply Hn.
  - apply Hr, IH.
  - apply Hs. induction es as [|e es IHes]; constructor; [apply IH | exact IHes].
  - apply Ha. induction es as [|e es IHes]; constructor; [apply IH | exact IHes].
  - apply Hd.
Qed.

Lemma symbol_eqb_eq a b : symbol_eqb a b = true <-> a = b.
Proof.
  destruct a as [i d], b as [j e]. unfold symbol_eqb. simpl.
  rewrite andb_true_iff, Nat.eqb_eq. split.
  - intros [-> H]. destruct d, e; try discriminate; [|reflexivity].
    apply String.eqb_eq in H. now subst.
  - intros [= -> ->]. split; [reflexivity|]. destruct e; [apply String.eqb_refl | reflexivity].
Qed.

Lemma symbol_eqb_refl a : symbol_eqb a a = true.
Proof. now apply symbol_eqb_eq. Qed.

Lemma symbol_eqb_neq a b : symbol_eqb a b = false <-> a <> b.
Proof.
  rewrite <- symbol_eqb_eq. destruct (symbol_eqb a b); split; congruence.
Qed.

Lemma SeqFn_eqb_eq f g : SeqFn_eqb f g = true <-> f = g.
Proof.
  destruct f, g; simpl; split; try congruence; try reflexivity.
  - intros H. apply Nat.eqb_eq in H. now subst.
  - intros [= ->]. apply Nat.eqb_refl.
Qed.

Lemma SimpleAST_eqb_eq a : forall b, SimpleAST_eqb a b = true <-> a = b.
Proof.
  induction a as [v| | |v|e IHe|es IHes|es IHes|n f] using SimpleAST_ind';
    intros [w| | |w|e'|es'|es'|m g]; simpl; try (split; congruence).
  - rewrite String.eqb_eq. split; congruence.
  - rewrite symbol_eqb_eq. split; congruence.
  - rewrite IHe. split; congruence.
  - revert es'. induction IHes as [|x xs Hx _ IH]; intros [|y ys]; try (split; congruence).
    rewrite andb_true_iff, Hx. specialize (IH ys). simpl in IH. rewrite IH.
    split; [intros [-> [= ->]]; reflexivity | intros [= -> ->]; auto].
  - revert es'. induction IHes as [|x xs Hx _ IH]; intros [|y ys]; try (split; congruence).
    rewrite andb_true_iff, Hx. specialize (IH ys). simpl in IH. rewrite IH.
    split; [intros [-> [= ->]]; reflexivity | intros [= -> ->]; auto].
  - rewrite andb_true_iff, Nat.eqb_eq. split.
    + intros [-> H]. destruct f, g; simpl in H; try discriminate; [|reflexivity].
      apply SeqFn_eqb_eq in H. now subst.
    + intros [= -> ->]. split; [reflexivity|].
      destruct g; simpl; [now apply SeqFn_eqb_eq | reflexivity].
Qed.

Lemma SimpleAST_eqb_refl a : SimpleAST_eqb a a = true.
Proof. now apply SimpleAST_eqb_eq. Qed.

Lemma set_has_In s t : set_has s t = true <-> In t s.
Proof.
  unfold set_has. rewrite existsb_exists. split.
  - intros [x [Hx E]]. apply String.eqb_eq in E. now subst.
  - intros H. exists t. split; [exact H | apply String.eqb_refl].
Qed.

Lemma set_has_false s t : set_has s t = false <-> ~ In t s.
Proof.
  rewrite <- set_has_In. destruct (set_has s t); split; congruence.
Qed.

Lemma set_delete_In s t x : In x (set_delete s t) <-> In x s /\ x <> t.
Proof.
  unfold set_delete. rewrite filter_In, negb_true_iff.
  split; intros [H1 H2]; split; auto.
  - intros ->. now rewrite String.eqb_refl in H2.
  - apply String.eqb_neq. congruence.
Qed.

Lemma set_delete_NoDup s t : NoDup s -> NoDup (set_delete s t).
Proof. apply NoDup_filter. Qed.

Lemma set_of_list_In xs t : In t (set_of_list xs) <-> In t xs.
Proof.
  unfold set_of_list.
  assert (G : forall acc, In t (fold_left set_add xs acc) <-> In t acc \/ In t xs).
  { induction xs as [|x xs IH]; intros acc; simpl.
    - tauto.
    - rewrite IH. unfold set_add. destruct (set_has acc x) eqn:E.
      + apply set_has_In in E. split; [tauto|]. intros [H|[->|H]]; auto.
      + rewrite in_app_iff. simpl. tauto. }
  rewrite G. simpl. tauto.
Qed.

Lemma set_of_list_NoDup xs : NoDup xs -> set_of_list xs = xs.
Proof.
  unfold set_of_list.
  assert (G : forall acc, NoDup (acc ++ xs) -> fold_left set_add xs acc = acc ++ xs).
  { induction xs as [|x xs IH]; intros acc H; simpl.
    - now rewrite app_nil_r.
    - unfold set_add. destruct (set_has acc x) eqn:E.
      + apply set_has_In in E. apply NoDup_remove_2 in H.
        exfalso. apply H. apply in_or_app. now left.
      + rewrite IH; rewrite <- app_assoc; [reflexivity | exact H]. }
  intros H. now apply (G []).
Qed.

(** ** The cache *)

Lemma cache_get_set_same c node s : cache_get (cache_set c node s) node = Some s.
Proof.
  induction c as [|[n s'] c IH]; simpl.
  - now rewrite SimpleAST_eqb_refl.
  - destruct (SimpleAST_eqb node n) eqn:E; simpl; rewrite E; [reflexivity | exact IH].
Qed.

Lemma cache_get_set_other c node s m :
  m <> node -> cache_get (cache_set c node s) m = cache_get c m.
Proof.
  intros Hne. induction c as [|[n s'] c IH]; simpl.
  - destruct (SimpleAST_eqb m node) eqn:E; [|reflexivity].
    apply SimpleAST_eqb_eq in E. contradiction.
  - destruct (SimpleAST_eqb node n) eqn:E; simpl.
    + apply SimpleAST_eqb_eq in E. subst n.
      destruct (SimpleAST_eqb m node) eqn:E'; [|reflexivity].
      apply SimpleAST_eqb_eq in E'. contradiction.
    + destruct (SimpleAST_eqb m n); [reflexivity | exact IH].
Qed.

Lemma cache_ok_nil rules : cache_ok rules [].
Proof. intros node s H. discriminate. Qed.

Lemma cache_ok_set rules c node s :
  cache_ok rules c -> good rules node s -> cache_ok rules (cache_set c node s).
Proof.
  intros Hc Hg m t H.
  destruct (SimpleAST_eqb m node) eqn:E.
  - apply SimpleAST_eqb_eq in E. subst m.
    rewrite cache_get_set_same in H. now injection H as <-.
  - rewrite cache_get_set_other in H; [now apply Hc|].
    intros ->. now rewrite SimpleAST_eqb_refl in E.
Qed.

(** ** [get] and [getInner] *)

Lemma get_unfold rules fuel node recurSet c :
  get rules fuel node recurSet c =
  match cache_get c node with
  | Some s => Ok (s, c)
  | None =>
      let* (res, c') := getInner rules fuel node recurSet c in
      Ok (res, cache_set c' node res)
  end.
Proof.
  destruct fuel; destruct node; reflexivity.
Qed.

(** The loop that merges the terminals of a child. *)

Lemma merge_terminals_Ok conflict ts : forall set set',
  merge_terminals conflict set ts = Ok set' <->
  set' = set ++ ts /\ NoDup ts /\ (forall t, In t ts -> ~ In t set).
Proof.
  induction ts as [|t ts IH]; intros set set'; simpl.
  - rewrite app_nil_r. split.
    + intros [= ->]. repeat split; [constructor | intros t []].
    + intros [-> _]. reflexivity.
  - destruct (set_has set t) eqn:E.
    + apply set_has_In in E. split; [discriminate|].
      intros [_ [_ H]]. exfalso. apply (H t); auto.
    + unfold set_add. rewrite E. apply set_has_false in E.
      rewrite IH, <- app_assoc. simpl. split.
      * intros [-> [Hnd H]]. split; [reflexivity|]. split.
        -- constructor; [|exact Hnd]. intros Hin. apply (H t Hin).
           apply in_or_app. right. now left.
        -- intros x [<-|Hx]; [exact E|]. intros Hs. apply (H x Hx).
           apply in_or_app. now left.
      * intros [-> [Hnd H]]. split; [reflexivity|].
        inversion Hnd as [|? ? Hnt Hnd']; subst. split; [exact Hnd'|].
        intros x Hx Hin. apply in_app_or in Hin as [Hin|[<-|[]]].
        -- apply (H x); auto.
        -- contradiction.
Qed.

Lemma merge_terminals_Throw conflict ts : forall set e,
  merge_terminals conflict set ts = Throw e <->
  exists pre t post,
    ts = pre ++ t :: post /\ e = conflict t /\
    (In t set \/ In t pre) /\
    NoDup pre /\ (forall x, In x pre -> ~ In x set).
Proof.
  induction ts as [|t ts IH]; intros set e; simpl.
  - split; [discriminate|]. intros (pre & t & post & H & _). now destruct pre.
  - destruct (set_has set t) eqn:E.
    + apply set_has_In in E. split.
      * intros [= <-]. exists [], t, ts.
        split; [reflexivity|]. split; [reflexivity|]. split; [now left|].
        split; [constructor | intros x []].
      * intros (pre & t' & post & H & -> & Hin & Hnd & Hd).
        destruct pre as [|p pre]; simpl in H; injection H as -> ->; [reflexivity|].
        exfalso. apply (Hd p); [now left | exact E].
    + unfold set_add. rewrite E. apply set_has_false in E. rewrite IH. split.
      * intros (pre & t' & post & -> & -> & Hin & Hnd & Hd).
        exists (t :: pre), t', post. repeat split.
        -- destruct Hin as [Hin|Hin]; [|right; now right].
           apply in_app_or in Hin as [Hin|[<-|[]]]; [now left | right; now left].
        -- constructor; [|exact Hnd]. intros Hin'. apply (Hd t Hin').
           apply in_or_app. right. now left.
        -- intros x [<-|Hx]; [exact E|]. intros Hs. apply (Hd x Hx).
           apply in_or_app. now left.
      * intros (pre & t' & post & H & -> & Hin & Hnd & Hd).
        destruct pre as [|p pre]; simpl in H; injection H as -> ->.
        -- destruct Hin as [Hin|[]]. contradiction.
        -- inversion Hnd as [|? ? Hnp Hnd']; subst.
           exists pre, t', post. repeat split; auto.
           ++ destruct Hin as [Hin|[->|Hin]].
              ** left. apply in_or_app. now left.
              ** left. apply in_or_app. right. now left.
              ** now right.
           ++ intros x Hx Hin'. apply in_app_or in Hin' as [Hin'|[<-|[]]].
              ** apply (Hd x); auto. now right.
              ** contradiction.
Qed.

Lemma merge_terminals_fuel conflict ts set :
  merge_terminals conflict set ts <> OutOfFuel.
Proof.
  revert set. induction ts as [|t ts IH]; intros set; simpl; [discriminate|].
  destruct (set_has set t); [discriminate | apply IH].
Qed.

Lemma brandLiteral_not_eof v : brandLiteral v <> brandEof.
Proof. unfold brandLiteral, brandEof, dquote. simpl. discriminate. Qed.

Lemma brandType_not_eof t : brandType t <> brandEof.
Proof. destruct t; discriminate. Qed.

Lemma rules_get_In rules v body :
  rules_get rules v = Some body -> In (v, body) rules.
Proof.
  induction rules as [|[k n] rules IH]; simpl; [discriminate|].
  destruct (symbol_eqb v k) eqn:E.
  - apply symbol_eqb_eq in E. intros [= ->]. left. now subst.
  - intros H. right. now apply IH.
Qed.

(** ** What a successful analysis establishes *)

Section Analysis.

Variable rules : RuleMap.

Ltac bind_ok H E :=
  match type of H with
  | bind ?m _ = _ =>
      let a := fresh "a" in
      destruct m as [a| |] eqn:E; simpl in H; [|discriminate H|discriminate H]
  end.


Lemma alt_loop_ok fuel recurSet exprs :
  Forall (get_sound_at rules fuel) exprs ->
  forall set c s c',
    cache_ok rules c -> NoDup set ->
    alt_loop (get rules fuel) recurSet exprs set c = Ok (s, c') ->
    cache_ok rules c' /\ NoDup s /\
    (In brandEof s <->
     In brandEof set \/ exists e, In e exprs /\ Nullable rules e) /\
    (forall e, In e exprs -> LeftFinite rules e).
Proof.
  induction 1 as [|e es He Hes IH]; intros set c s c' Hc Hnd H; simpl in H.
  - injection H as <- <-. split; [exact Hc|]. split; [exact Hnd|]. split.
    + split; [now left|]. intros [H|(e & [] & _)]. exact H.
    + intros e [].
  - bind_ok H E1. destruct a as [ts c1].
    apply He in E1 as [Hc1 (Hts & Heof & Hlf)]; [|exact Hc].
    bind_ok H E2. apply merge_terminals_Ok in E2 as (-> & _ & Hdis).
    apply IH in H as (Hc' & Hs & Hiff & Hall); [|exact Hc1|].
    + split; [exact Hc'|]. split; [exact Hs|]. split.
      * rewrite Hiff, in_app_iff, Heof. split.
        -- intros [[H|H]|(x & Hx & Hn)]; auto.
           ++ right. exists e. split; [now left | exact H].
           ++ right. exists x. split; [now right | exact Hn].
        -- intros [H|(x & [<-|Hx] & Hn)]; auto.
           right. exists x. auto.
      * intros x [<-|Hx]; auto.
    + apply NoDup_app; [exact Hnd | exact Hts |].
      intros x Hx Hx'. exact (Hdis x Hx' Hx).
Qed.

Lemma seq_loop_ok fuel recurSet exprs :
  Forall (get_sound_at rules fuel) exprs ->
  forall set c s c',
    cache_ok rules c -> NoDup set ->
    seq_loop (get rules fuel) recurSet exprs set c = Ok (s, c') ->
    cache_ok rules c' /\ NoDup s /\
    (In brandEof s <->
     match exprs with
     | [] => In brandEof set
     | _ => forall e, In e exprs -> Nullable rules e
     end) /\
    LeftFinite rules (seq exprs).
Proof.
  induction 1 as [|e es He Hes IH]; intros set c s c' Hc Hnd H; simpl in H.
  - injection H as <- <-. split; [exact Hc|]. split; [exact Hnd|].
    split; [reflexivity | constructor].
  - bind_ok H E1. destruct a as [ts c1].
    apply He in E1 as [Hc1 (Hts & Heof & Hlf)]; [|exact Hc].
    bind_ok H E2. apply merge_terminals_Ok in E2 as (-> & _ & Hdis).
    assert (Hnd1 : NoDup (set_delete set brandEof ++ ts)).
    { apply NoDup_app; [now apply set_delete_NoDup | exact Hts |].
      intros x Hx Hx'. exact (Hdis x Hx' Hx). }
    assert (Hin : In brandEof (set_delete set brandEof ++ ts) <-> Nullable rules e).
    { rewrite in_app_iff, set_delete_In, Heof. tauto. }
    destruct (set_has (set_delete set brandEof ++ ts) brandEof) eqn:E3; simpl in H.
    + apply set_has_In in E3. apply IH in H as (Hc' & Hs & Hiff & Hfin);
        [|exact Hc1|exact Hnd1].
      split; [exact Hc'|]. split; [exact Hs|]. split.
      * rewrite Hiff. destruct es as [|e' es'].
        -- split; [|intros _; exact E3].
           intros _ x [<-|[]]. now apply Hin.
        -- split.
           ++ intros Hall x [<-|Hx]; [now apply Hin | now apply Hall].
           ++ intros Hall x Hx. apply Hall. now right.
      * constructor; [exact Hlf | intros _; exact Hfin].
    + apply set_has_false in E3. injection H as <- <-.
      split; [exact Hc1|]. split; [exact Hnd1|]. split.
      * split; [contradiction|]. intros Hall. apply Hin, Hall. now left.
      * constructor; [exact Hlf|]. intros Hn. exfalso. now apply E3, Hin.
Qed.

Lemma get_sound fuel : forall node, get_sound_at rules fuel node.
Proof.
  induction fuel as [fuel IHfuel] using lt_wf_ind.
  induction node as [v| | |v|e IHe|es IHes|es IHes|n f] using SimpleAST_ind';
    intros recurSet c s c' Hc H; rewrite get_unfold in H;
    (destruct (cache_get c _) as [s0|] eqn:Ecache;
     [injection H as <- <-; split; [exact Hc | now apply Hc] |]);
    bind_ok H E; destruct a as [res c1]; injection H as <- <-; simpl in E.
  - injection E as <- <-.
    assert (G : good rules (literal v) [brandLiteral v]).
    { split; [repeat constructor; intros []|]. split; [|constructor].
      split.
      - intros [H|[]]. now apply brandLiteral_not_eof in H.
      - intros H. inversion H. }
    split; [apply cache_ok_set; assumption | exact G].
  - injection E as <- <-.
    assert (G : good rules identifier [brandType t_identifier]).
    { split; [repeat constructor; intros []|]. split; [|constructor].
      split.
      - intros [H|[]]. discriminate H.
      - intros H. inversion H. }
    split; [apply cache_ok_set; assumption | exact G].
  - injection E as <- <-.
    assert (G : good rules value [brandType t_value]).
    { split; [repeat constructor; intros []|]. split; [|constructor].
      split.
      - intros [H|[]]. discriminate H.
      - intros H. inversion H. }
    split; [apply cache_ok_set; assumption | exact G].
  - destruct (recur_has recurSet v); [discriminate|].
    destruct (rules_get rules v) as [next|] eqn:Er; [|discriminate].
    destruct fuel as [|fuel']; [discriminate|]. simpl in E.
    apply IHfuel in E as [Hc1 (Hnd & Heof & Hlf)]; [|lia|exact Hc].
    assert (G : good rules (nonterminal v) res).
    { split; [exact Hnd|]. split; [|econstructor; eassumption].
      rewrite Heof. split.
      - intros H. econstructor; eassumption.
      - intros H. inversion H; subst. congruence. }
    split; [apply cache_ok_set; assumption | exact G].
  - bind_ok E E1. destruct a as [innerSet c2].
    apply IHe in E1 as [Hc2 (Hnd & Heof & Hlf)]; [|exact Hc].
    destruct (set_has innerSet brandEof) eqn:E2; [discriminate|].
    injection E as <- <-. apply set_has_false in E2.
    assert (Hnd' : NoDup (innerSet ++ [brandEof])).
    { apply NoDup_app; [exact Hnd | repeat constructor; intros [] |].
      intros x Hx [<-|[]]. contradiction. }
    rewrite (set_of_list_NoDup _ Hnd').
    assert (G : good rules (repeat0 e) (innerSet ++ [brandEof])).
    { split; [exact Hnd'|]. split; [|now constructor].
      split; [constructor|]. intros _. apply in_or_app. right. now left. }
    split; [apply cache_ok_set; assumption | exact G].
  - apply seq_loop_ok in E as (Hc1 & Hnd & Heof & Hlf);
      [|exact IHes|exact Hc|repeat constructor; intros []].
    assert (G : good rules (seq es) res).
    { split; [exact Hnd|]. split; [|exact Hlf]. rewrite Heof.
      destruct es as [|e es'].
      - split; [constructor; intros x []|]. intros _. now left.
      - split; [now constructor|]. intros H. now inversion H. }
    split; [apply cache_ok_set; assumption | exact G].
  - apply alt_loop_ok in E as (Hc1 & Hnd & Heof & Hlf);
      [|exact IHes|exact Hc|constructor].
    assert (G : good rules (alt es) res).
    { split; [exact Hnd|]. split; [|now constructor]. rewrite Heof. split.
      - intros [[]|(x & Hx & Hn)]. econstructor; eassumption.
      - intros H. inversion H; subst. right. eauto. }
    split; [apply cache_ok_set; assumption | exact G].
  - injection E as <- <-.
    assert (G : good rules (reduce n f) [brandEof]).
    { split; [repeat constructor; intros []|]. split; [|constructor].
      split; [constructor|]. intros _. now left. }
    split; [apply cache_ok_set; assumption | exact G].
Qed.

End Analysis.

(** ** Termination of the analysis and of the compiler *)

Section Termination.

Variable rules : RuleMap.

Lemma filter_length_lt {A} (p q : A -> bool) (l : list A) (x : A) :
  (forall y, q y = true -> p y = true) ->
  In x l -> p x = true -> q x = false ->
  List.length (filter q l) < List.length (filter p l).
Proof.
  intros Hqp. induction l as [|a l IH]; intros Hin Hp Hq; [destruct Hin|].
  assert (Hle : forall l', List.length (filter q l') <= List.length (filter p l')).
  { induction l' as [|b l' IH']; simpl; [lia|].
    destruct (q b) eqn:Eq.
    - rewrite (Hqp _ Eq). simpl. lia.
    - destruct (p b); simpl; lia. }
  simpl. destruct Hin as [->|Hin].
  - rewrite Hp, Hq. simpl. specialize (Hle l). lia.
  - specialize (IH Hin Hp Hq). destruct (q a) eqn:Eq.
    + rewrite (Hqp _ Eq). simpl. lia.
    + destruct (p a); simpl; lia.
Qed.

Lemma recur_has_app recurSet v k :
  recur_has (recurSet ++ [v]) k = recur_has recurSet k || symbol_eqb k v.
Proof.
  unfold recur_has. rewrite existsb_app. simpl. now rewrite orb_false_r.
Qed.

Lemma remaining_lt recurSet v body :
  recur_has recurSet v = false -> rules_get rules v = Some body ->
  remaining rules (recurSet ++ [v]) < remaining rules recurSet.
Proof.
  intros Hv Hr. unfold remaining. apply filter_length_lt with (x := v).
  - intros y. rewrite recur_has_app, !negb_true_iff, orb_false_iff. tauto.
  - apply rules_get_In in Hr. apply (in_map fst) in Hr. exact Hr.
  - now rewrite Hv.
  - now rewrite recur_has_app, symbol_eqb_refl, orb_true_r.
Qed.

Lemma remaining_nil : remaining rules [] <= fuel_of rules.
Proof.
  unfold remaining, fuel_of. rewrite <- (length_map fst rules).
  apply filter_length_le.
Qed.


Lemma alt_loop_total fuel recurSet exprs :
  remaining rules recurSet <= fuel ->
  Forall (get_total_at rules fuel) exprs ->
  forall set c, alt_loop (get rules fuel) recurSet exprs set c <> OutOfFuel.
Proof.
  intros Hf. induction 1 as [|e es He Hes IH]; intros set c; simpl; [discriminate|].
  destruct (get rules fuel e recurSet c) as [[ts c1]| |] eqn:E; simpl;
    [|discriminate|now apply He in E].
  destruct (merge_terminals FirstFirstConflict set ts) as [set1| |] eqn:E2; simpl;
    [apply IH|discriminate|now apply merge_terminals_fuel in E2].
Qed.

Lemma seq_loop_total fuel recurSet exprs :
  remaining rules recurSet <= fuel ->
  Forall (get_total_at rules fuel) exprs ->
  forall set c, seq_loop (get rules fuel) recurSet exprs set c <> OutOfFuel.
Proof.
  intros Hf. induction 1 as [|e es He Hes IH]; intros set c; simpl; [discriminate|].
  destruct (get rules fuel e recurSet c) as [[ts c1]| |] eqn:E; simpl;
    [|discriminate|now apply He in E].
  destruct (merge_terminals FirstFollowConflict _ ts) as [set1| |] eqn:E2; simpl;
    [|discriminate|now apply merge_terminals_fuel in E2].
  destruct (negb (set_has set1 brandEof)); [discriminate | apply IH].
Qed.

Lemma get_total fuel : forall node, get_total_at rules fuel node.
Proof.
  induction fuel as [fuel IHfuel] using lt_wf_ind.
  induction node as [v| | |v|e IHe|es IHes|es IHes|n f] using SimpleAST_ind';
    intros recurSet c Hf; rewrite get_unfold;
    (destruct (cache_get c _) as [s0|]; [discriminate|]);
    simpl; try discriminate.
  - destruct (recur_has recurSet v) eqn:Eh; [discriminate|].
    destruct (rules_get rules v) as [next|] eqn:Er; [|discriminate].
    pose proof (remaining_lt _ _ _ Eh Er) as Hlt.
    destruct fuel as [|fuel']; [lia|]. simpl.
    destruct (get rules fuel' next (recurSet ++ [v]) c) as [[res c1]| |] eqn:E;
      simpl; try discriminate.
    apply IHfuel in E; [destruct E | lia | lia].
  - destruct (get rules fuel e recurSet c) as [[inner c1]| |] eqn:E; simpl;
      [|discriminate|now apply IHe in E].
    destruct (set_has inner brandEof); discriminate.
  - destruct (seq_loop _ _ _ _ _) as [[res c1]| |] eqn:E; simpl; try discriminate.
    now apply seq_loop_total in E.
  - destruct (alt_loop _ _ _ _ _) as [[res c1]| |] eqn:E; simpl; try discriminate.
    now apply alt_loop_total in E.
Qed.

Lemma firstSet_get_total node c : firstSet_get rules node c <> OutOfFuel.
Proof. apply get_total, remaining_nil. Qed.

Lemma alt_set_terminals_total (k : FS Parser) ts :
  (forall c, k c <> OutOfFuel) ->
  forall m c, alt_set_terminals k ts m c <> OutOfFuel.
Proof.
  intros Hk. induction ts as [|t ts IH]; intros m c; simpl; [discriminate|].
  destruct (k c) as [[p c1]| |] eqn:E; simpl; [apply IH|discriminate|now apply Hk in E].
Qed.

Lemma compile_total : forall node c, compile rules node c <> OutOfFuel.
Proof.
  induction node as [v| | |v|e IHe|es IHes|es IHes|n f] using SimpleAST_ind';
    intros c; simpl; try discriminate.
  - destruct (firstSet_get rules (repeat0 e) c) as [[s c1]| |] eqn:E1; simpl;
      [|discriminate|now apply firstSet_get_total in E1].
    destruct (compile rules e c1) as [[p c2]| |] eqn:E2; simpl;
      [|discriminate|now apply IHe in E2].
    destruct (firstSet_get rules e c2) as [[ts c3]| |] eqn:E3; simpl;
      [discriminate|discriminate|now apply firstSet_get_total in E3].
  - destruct (firstSet_get rules (seq es) c) as [[s c1]| |] eqn:E1; simpl;
      [|discriminate|now apply firstSet_get_total in E1].
    assert (G : forall c, compile_all (compile rules) es c <> OutOfFuel).
    { clear E1. induction IHes as [|x xs Hx _ IH]; intros c0; simpl; [discriminate|].
      destruct (compile rules x c0) as [[p c2]| |] eqn:E2; simpl;
        [|discriminate|now apply Hx in E2].
      destruct (compile_all (compile rules) xs c2) as [[ps c3]| |] eqn:E3; simpl;
        [discriminate|discriminate|now apply IH in E3]. }
    destruct (compile_all (compile rules) es c1) as [[ps c2]| |] eqn:E2; simpl;
      [discriminate|discriminate|now apply G in E2].
  - destruct (firstSet_get rules (alt es) c) as [[s c1]| |] eqn:E1; simpl;
      [|discriminate|now apply firstSet_get_total in E1].
    assert (G : forall m c, alt_branches rules (compile rules) es m c <> OutOfFuel).
    { clear E1. induction IHes as [|x xs Hx _ IH]; intros m c0; simpl; [discriminate|].
      destruct (firstSet_get rules x c0) as [[ts c2]| |] eqn:E2; simpl;
        [|discriminate|now apply firstSet_get_total in E2].
      destruct (alt_set_terminals (compile rules x) ts m c2) as [[m' c3]| |] eqn:E3;
        simpl; [apply IH|discriminate|].
      now apply alt_set_terminals_total in E3. }
    destruct (alt_branches rules (compile rules) es [] c1) as [[m c2]| |] eqn:E2;
      simpl; [discriminate|discriminate|now apply G in E2].
Qed.

Lemma compile_rules_total entries : forall cr c,
  compile_rules rules entries cr c <> OutOfFuel.
Proof.
  induction entries as [|[name node] entries IH]; intros cr c; simpl; [discriminate|].
  destruct (compile rules node c) as [[p c1]| |] eqn:E; simpl;
    [apply IH|discriminate|now apply compile_total in E].
Qed.

Lemma compileRuleset_total : compileRuleset rules <> OutOfFuel.
Proof.
  unfold compileRuleset.
  destruct (compile_rules rules rules [] []) as [[cr c]| |] eqn:E; simpl;
    [discriminate|discriminate|now apply compile_rules_total in E].
Qed.

End Termination.

(** ** Left recursion: what the error means, and when it must be raised *)

Section LeftRecursionFacts.

Variable rules : RuleMap.

Lemma CallsStar_trans u v w :
  CallsStar rules u v -> CallsStar rules v w -> CallsStar rules u w.
Proof.
  induction 1 as [|a b d Hab Hbd IH]; intros H; [exact H|].
  econstructor; [exact Hab | now apply IH].
Qed.

Lemma recur_has_In recurSet v : recur_has recurSet v = true <-> In v recurSet.
Proof.
  unfold recur_has. rewrite existsb_exists. split.
  - intros [x [Hx E]]. apply symbol_eqb_eq in E. now subst.
  - intros H. exists v. split; [exact H | apply symbol_eqb_refl].
Qed.


Lemma alt_loop_LR fuel recurSet exprs x :
  Forall (get_LR_at rules fuel) exprs ->
  forall set c,
    cache_ok rules c ->
    alt_loop (get rules fuel) recurSet exprs set c = Throw (LeftRecursion x) ->
    exists e, In e exprs /\ LeftReach rules e x /\
              (In x recurSet \/ LeftRecursive rules x).
Proof.
  induction 1 as [|e es He Hes IH]; intros set c Hc H; simpl in H; [discriminate|].
  destruct (get rules fuel e recurSet c) as [[ts c1]|err|] eqn:E; simpl in H;
    [| |discriminate].
  - apply get_sound in E as [Hc1 _]; [|exact Hc].
    destruct (merge_terminals FirstFirstConflict set ts) as [set1|err|] eqn:E2;
      simpl in H; [| |discriminate].
    + apply IH in H as (e' & Hin & Hr); [|exact Hc1].
      exists e'. split; [now right | exact Hr].
    + apply merge_terminals_Throw in E2 as (_ & t & _ & _ & -> & _). discriminate.
  - injection H as ->. apply He in E as Hr; [|exact Hc].
    exists e. split; [now left | exact Hr].
Qed.

Lemma seq_loop_LR fuel recurSet exprs x :
  Forall (get_LR_at rules fuel) exprs ->
  forall set c,
    cache_ok rules c ->
    seq_loop (get rules fuel) recurSet exprs set c = Throw (LeftRecursion x) ->
    exists pre e post,
      exprs = pre ++ e :: post /\ (forall e', In e' pre -> Nullable rules e') /\
      LeftReach rules e x /\ (In x recurSet \/ LeftRecursive rules x).
Proof.
  induction 1 as [|e es He Hes IH]; intros set c Hc H; simpl in H; [discriminate|].
  destruct (get rules fuel e recurSet c) as [[ts c1]|err|] eqn:E; simpl in H;
    [| |discriminate].
  - apply get_sound in E as [Hc1 (_ & Heof & _)]; [|exact Hc].
    destruct (merge_terminals FirstFollowConflict _ ts) as [set1|err|] eqn:E2;
      simpl in H; [| |discriminate].
    + apply merge_terminals_Ok in E2 as (-> & _).
      destruct (set_has _ brandEof) eqn:E3; simpl in H; [|discriminate].
      apply set_has_In, in_app_or in E3.
      assert (Hn : Nullable rules e).
      { apply Heof. destruct E3 as [E3|E3]; [|exact E3].
        apply set_delete_In in E3 as [_ E3]. congruence. }
      apply IH in H as (pre & e' & post & -> & Hpre & Hr); [|exact Hc1].
      exists (e :: pre), e', post. split; [reflexivity|]. split; [|exact Hr].
      intros y [<-|Hy]; [exact Hn | now apply Hpre].
    + apply merge_terminals_Throw in E2 as (_ & t & _ & _ & -> & _). discriminate.
  - injection H as ->. apply He in E as Hr; [|exact Hc].
    exists [], e, es. split; [reflexivity|]. split; [intros y []| exact Hr].
Qed.

Lemma get_LR fuel : forall node, get_LR_at rules fuel node.
Proof.
  induction fuel as [fuel IHfuel] using lt_wf_ind.
  induction node as [v| | |v|e IHe|es IHes|es IHes|n f] using SimpleAST_ind';
    intros recurSet c x Hc H; rewrite get_unfold in H;
    (destruct (cache_get c _) as [s0|]; [discriminate|]);
    simpl in H; try discriminate.
  - destruct (recur_has recurSet v) eqn:Eh.
    + injection H as <-. apply recur_has_In in Eh. split; [|now left].
      exists v. split; constructor.
    + destruct (rules_get rules v) as [next|] eqn:Er; [|discriminate].
      destruct fuel as [|fuel']; [discriminate|]. simpl in H.
      destruct (get rules fuel' next (recurSet ++ [v]) c) as [[res c1]|err|] eqn:E;
        simpl in H; [discriminate| |discriminate].
      injection H as ->. apply IHfuel in E as [(u & Hcall & Hstar) Hx];
        [|lia|exact Hc].
      assert (Hvu : Calls rules v u) by (exists next; auto).
      split.
      * exists v. split; [constructor | econstructor; eassumption].
      * destruct Hx as [Hx|Hx]; [|now right].
        apply in_app_or in Hx as [Hx|[<-|[]]]; [now left|].
        right. exists u. auto.
  - destruct (get rules fuel e recurSet c) as [[inner c1]|err|] eqn:E; simpl in H;
      [| |discriminate].
    + destruct (set_has inner brandEof); discriminate.
    + injection H as ->. apply IHe in E as [(u & Hcall & Hstar) Hx]; [|exact Hc].
      split; [|exact Hx]. exists u. split; [now constructor | exact Hstar].
  - destruct (seq_loop _ _ _ _ _) as [[res c1]|err|] eqn:E; simpl in H;
      [discriminate| |discriminate].
    injection H as ->.
    apply seq_loop_LR in E as (pre & e & post & -> & Hpre & (u & Hcall & Hstar) & Hx);
      [|exact IHes|exact Hc].
    split; [|exact Hx]. exists u. split; [now constructor | exact Hstar].
  - destruct (alt_loop _ _ _ _ _) as [[res c1]|err|] eqn:E; simpl in H;
      [discriminate| |discriminate].
    injection H as ->.
    apply alt_loop_LR in E as (e & Hin & (u & Hcall & Hstar) & Hx);
      [|exact IHes|exact Hc].
    split; [|exact Hx]. exists u. split; [econstructor; eassumption | exact Hstar].
Qed.

(** A node with a finite expansion to the left reaches no rule that calls
    itself. *)


Lemma LeftFinite_Acc node :
  LeftFinite rules node -> forall u, LeftCall rules node u -> Acc (calls_back rules) u.
Proof.
  induction 1 as [v| | |n f|v body Hr Hb IH|e He IH|es Hes IH| |e rest He IHe Hrest IHrest];
    intros u Hu; inversion Hu; subst.
  - constructor. intros w (body' & Hr' & Hcall). apply IH.
    rewrite Hr in Hr'. injection Hr' as <-. exact Hcall.
  - now apply IH.
  - eapply IH; eassumption.
  - match goal with H : _ ++ _ :: _ = [] |- _ => now destruct pre end.
  - match goal with H : ?p ++ ?x :: ?q = e :: rest |- _ =>
      destruct p as [|a p']; simpl in H; injection H as -> <-
    end.
    + now apply IHe.
    + match goal with H : forall e0, In e0 (_ :: _) -> _ |- _ => rename H into Hpre end.
      apply IHrest.
      * apply Hpre. now left.
      * constructor; [|assumption]. intros y Hy. apply Hpre. now right.
Qed.

Lemma Acc_not_recursive u : Acc (calls_back rules) u -> ~ LeftRecursive rules u.
Proof.
  induction 1 as [u _ IH]. intros (v & Huv & Hvu).
  apply (IH v Huv). clear IH.
  (* v reaches u, and u calls v: v calls itself *)
  destruct Hvu as [|v w u Hvw Hwu].
  - exists u. split; [exact Huv | constructor].
  - exists w. split; [exact Hvw|].
    eapply CallsStar_trans; [exact Hwu|]. econstructor; [exact Huv | constructor].
Qed.

Lemma Acc_CallsStar u v : CallsStar rules u v -> Acc (calls_back rules) u -> Acc (calls_back rules) v.
Proof.
  induction 1 as [|a b d Hab Hbd IH]; intros H; [exact H|].
  apply IH. now apply (Acc_inv H).
Qed.

Lemma LeftFinite_not_recursive node v :
  LeftFinite rules node -> LeftReach rules node v -> ~ LeftRecursive rules v.
Proof.
  intros Hf (u & Hcall & Hstar). apply Acc_not_recursive.
  eapply Acc_CallsStar; [exact Hstar|]. eapply LeftFinite_Acc; eassumption.
Qed.

Lemma LeftFinite_rule v body :
  rules_get rules v = Some body -> LeftFinite rules body -> ~ LeftRecursive rules v.
Proof.
  intros Hr Hf. apply Acc_not_recursive. constructor.
  intros w (body' & Hr' & Hcall). rewrite Hr in Hr'. injection Hr' as <-.
  eapply LeftFinite_Acc; eassumption.
Qed.

(** The compiler analyses every node of kind [repeat0], [seq] or [alt] it
    is called on. *)

Lemma firstSet_get_sound node c s c' :
  cache_ok rules c -> firstSet_get rules node c = Ok (s, c') ->
  cache_ok rules c' /\ good rules node s.
Proof. intros Hc H. eapply get_sound; eassumption. Qed.

Lemma alt_set_terminals_cache (k : FS Parser) ts :
  (forall c p c', cache_ok rules c -> k c = Ok (p, c') -> cache_ok rules c') ->
  forall m c m' c',
    cache_ok rules c -> alt_set_terminals k ts m c = Ok (m', c') ->
    cache_ok rules c'.
Proof.
  intros Hk. induction ts as [|t ts IH]; intros m c m' c' Hc H; simpl in H.
  - now injection H as <- <-.
  - destruct (k c) as [[p c1]| |] eqn:E; simpl in H; try discriminate.
    eapply IH; [|exact H]. eapply Hk; eassumption.
Qed.

Lemma compile_sound : forall node c p c',
  cache_ok rules c -> compile rules node c = Ok (p, c') ->
  cache_ok rules c' /\ (analysed node = true -> LeftFinite rules node).
Proof.
  induction node as [v| | |v|e IHe|es IHes|es IHes|n f] using SimpleAST_ind';
    intros c p c' Hc H; simpl in H;
    try (injection H as <- <-; split; [exact Hc | discriminate]).
  - destruct (firstSet_get rules (repeat0 e) c) as [[s c1]| |] eqn:E1; simpl in H;
      try discriminate.
    apply firstSet_get_sound in E1 as [Hc1 (_ & _ & Hf)]; [|exact Hc].
    destruct (compile rules e c1) as [[q c2]| |] eqn:E2; simpl in H; try discriminate.
    apply IHe in E2 as [Hc2 _]; [|exact Hc1].
    destruct (firstSet_get rules e c2) as [[ts c3]| |] eqn:E3; simpl in H;
      try discriminate.
    apply firstSet_get_sound in E3 as [Hc3 _]; [|exact Hc2].
    injection H as <- <-. split; [exact Hc3 | intros _; exact Hf].
  - destruct (firstSet_get rules (seq es) c) as [[s c1]| |] eqn:E1; simpl in H;
      try discriminate.
    apply firstSet_get_sound in E1 as [Hc1 (_ & _ & Hf)]; [|exact Hc].
    destruct (compile_all (compile rules) es c1) as [[ps c2]| |] eqn:E2; simpl in H;
      try discriminate.
    injection H as <- <-. split; [|intros _; exact Hf].
    clear Hf. revert c1 ps c2 Hc1 E2.
    induction IHes as [|x xs Hx _ IH]; intros c1 ps c2 Hc1 E2; simpl in E2.
    + now injection E2 as <- <-.
    + destruct (compile rules x c1) as [[q c3]| |] eqn:E3; simpl in E2;
        try discriminate.
      apply Hx in E3 as [Hc3 _]; [|exact Hc1].
      destruct (compile_all (compile rules) xs c3) as [[qs c4]| |] eqn:E4;
        simpl in E2; try discriminate.
      injection E2 as <- <-. eapply IH; eassumption.
  - destruct (firstSet_get rules (alt es) c) as [[s c1]| |] eqn:E1; simpl in H;
      try discriminate.
    apply firstSet_get_sound in E1 as [Hc1 (_ & _ & Hf)]; [|exact Hc].
    destruct (alt_branches rules (compile rules) es [] c1) as [[m c2]| |] eqn:E2;
      simpl in H; try discriminate.
    injection H as <- <-. split; [|intros _; exact Hf].
    clear Hf. revert E2. generalize (@nil (Terminal * Parser)). revert c1 m c2 Hc1.
    induction IHes as [|x xs Hx _ IH]; intros c1 m c2 Hc1 m0 E2; simpl in E2.
    + now injection E2 as <- <-.
    + destruct (firstSet_get rules x c1) as [[ts c3]| |] eqn:E3; simpl in E2;
        try discriminate.
      apply firstSet_get_sound in E3 as [Hc3 _]; [|exact Hc1].
      destruct (alt_set_terminals (compile rules x) ts m0 c3) as [[m1 c4]| |] eqn:E4;
        simpl in E2; try discriminate.
      apply alt_set_terminals_cache in E4; [|intros a b d Ha Hb; now apply Hx in Hb|exact Hc3].
      eapply IH; eassumption.
Qed.

Lemma compile_rules_sound entries : forall cr c cr' c',
  cache_ok rules c -> compile_rules rules entries cr c = Ok (cr', c') ->
  forall name node, In (name, node) entries -> analysed node = true ->
  LeftFinite rules node.
Proof.
  induction entries as [|[k n] entries IH]; intros cr c cr' c' Hc H name node Hin Ha;
    [destruct Hin|].
  simpl in H. destruct (compile rules n c) as [[p c1]| |] eqn:E; simpl in H;
    try discriminate.
  apply compile_sound in E as [Hc1 Hf]; [|exact Hc].
  destruct Hin as [[= -> ->]|Hin]; [now apply Hf|].
  eapply IH; eassumption.
Qed.

Lemma compileRuleset_sound cr v body :
  compileRuleset rules = Ok cr ->
  rules_get rules v = Some body -> analysed body = true ->
  ~ LeftRecursive rules v.
Proof.
  unfold compileRuleset. intros H Hr Ha.
  destruct (compile_rules rules rules [] []) as [[cr' c]| |] eqn:E; simpl in H;
    try discriminate.
  apply (LeftFinite_rule v body Hr).
  eapply compile_rules_sound;
    [apply cache_ok_nil | exact E | apply rules_get_In; exact Hr | exact Ha].
Qed.

End LeftRecursionFacts.

Section CompilerErrors.

Variable rules : RuleMap.

Lemma firstSet_get_LR node c x :
  cache_ok rules c -> firstSet_get rules node c = Throw (LeftRecursion x) ->
  LeftReach rules node x /\ LeftRecursive rules x.
Proof.
  intros Hc H. apply get_LR in H as [Hr [[]|Hx]]; [|exact Hc]. now split.
Qed.

Lemma alt_set_terminals_LR (k : FS Parser) ts x :
  (forall c p c', cache_ok rules c -> k c = Ok (p, c') -> cache_ok rules c') ->
  (forall c, cache_ok rules c -> k c = Throw (LeftRecursion x) ->
             LeftRecursive rules x) ->
  forall m c,
    cache_ok rules c -> alt_set_terminals k ts m c = Throw (LeftRecursion x) ->
    LeftRecursive rules x.
Proof.
  intros Hk Hx. induction ts as [|t ts IH]; intros m c Hc H; simpl in H;
    [discriminate|].
  destruct (k c) as [[p c1]|err|] eqn:E; simpl in H; [| |discriminate].
  - eapply IH; [|exact H]. eapply Hk; eassumption.
  - injection H as ->. eapply Hx; eassumption.
Qed.

Lemma compile_LR : forall node c x,
  cache_ok rules c -> compile rules node c = Throw (LeftRecursion x) ->
  LeftRecursive rules x.
Proof.
  induction node as [v| | |v|e IHe|es IHes|es IHes|n f] using SimpleAST_ind';
    intros c x Hc H; simpl in H; try discriminate.
  - destruct (firstSet_get rules (repeat0 e) c) as [[s c1]|err|] eqn:E1; simpl in H;
      [| |discriminate].
    2:{ injection H as ->. now apply firstSet_get_LR in E1. }
    apply firstSet_get_sound in E1 as [Hc1 _]; [|exact Hc].
    destruct (compile rules e c1) as [[q c2]|err|] eqn:E2; simpl in H;
      [| |discriminate].
    2:{ injection H as ->. eapply IHe; eassumption. }
    apply compile_sound in E2 as [Hc2 _]; [|exact Hc1].
    destruct (firstSet_get rules e c2) as [[ts c3]|err|] eqn:E3; simpl in H;
      [discriminate| |discriminate].
    injection H as ->. now apply firstSet_get_LR in E3.
  - destruct (firstSet_get rules (seq es) c) as [[s c1]|err|] eqn:E1; simpl in H;
      [| |discriminate].
    2:{ injection H as ->. now apply firstSet_get_LR in E1. }
    apply firstSet_get_sound in E1 as [Hc1 _]; [|exact Hc].
    destruct (compile_all (compile rules) es c1) as [[ps c2]|err|] eqn:E2;
      simpl in H; [discriminate| |discriminate].
    injection H as ->. revert c1 Hc1 E2.
    induction IHes as [|y ys Hy _ IH]; intros c1 Hc1 E2; simpl in E2; [discriminate|].
    destruct (compile rules y c1) as [[q c3]|err|] eqn:E3; simpl in E2;
      [| |discriminate].
    2:{ injection E2 as ->. eapply Hy; eassumption. }
    apply compile_sound in E3 as [Hc3 _]; [|exact Hc1].
    destruct (compile_all (compile rules) ys c3) as [[qs c4]|err|] eqn:E4;
      simpl in E2; [discriminate| |discriminate].
    injection E2 as ->. eapply IH; eassumption.
  - destruct (firstSet_get rules (alt es) c) as [[s c1]|err|] eqn:E1; simpl in H;
      [| |discriminate].
    2:{ injection H as ->. now apply firstSet_get_LR in E1. }
    apply firstSet_get_sound in E1 as [Hc1 _]; [|exact Hc].
    destruct (alt_branches rules (compile rules) es [] c1) as [[m c2]|err|] eqn:E2;
      simpl in H; [discriminate| |discriminate].
    injection H as ->. revert E2. generalize (@nil (Terminal * Parser)).
    revert c1 Hc1.
    induction IHes as [|y ys Hy _ IH]; intros c1 Hc1 m0 E2; simpl in E2;
      [discriminate|].
    destruct (firstSet_get rules y c1) as [[ts c3]|err|] eqn:E3; simpl in E2;
      [| |discriminate].
    2:{ injection E2 as ->. now apply firstSet_get_LR in E3. }
    apply firstSet_get_sound in E3 as [Hc3 _]; [|exact Hc1].
    destruct (alt_set_terminals (compile rules y) ts m0 c3) as [[m1 c4]|err|] eqn:E4;
      simpl in E2; [| |discriminate].
    + apply (alt_set_terminals_cache rules) in E4;
        [|intros a b d Ha Hb; now apply compile_sound in Hb|exact Hc3].
      eapply IH; eassumption.
    + injection E2 as ->. eapply alt_set_terminals_LR; [| |exact Hc3|exact E4].
      * intros a b d Ha Hb. now apply compile_sound in Hb.
      * intros a Ha Hb. eapply Hy; eassumption.
Qed.

Lemma compile_rules_LR entries x : forall cr c,
  cache_ok rules c ->
  compile_rules rules entries cr c = Throw (LeftRecursion x) ->
  LeftRecursive rules x.
Proof.
  induction entries as [|[k n] entries IH]; intros cr c Hc H; simpl in H;
    [discriminate|].
  destruct (compile rules n c) as [[p c1]|err|] eqn:E; simpl in H; [| |discriminate].
  - apply compile_sound in E as [Hc1 _]; [|exact Hc]. eapply IH; eassumption.
  - injection H as ->. eapply compile_LR; eassumption.
Qed.

Lemma compileRuleset_LR x :
  compileRuleset rules = Throw (LeftRecursion x) -> LeftRecursive rules x.
Proof.
  unfold compileRuleset. intros H.
  destruct (compile_rules rules rules [] []) as [[cr c]|err|] eqn:E; simpl in H;
    [discriminate| |discriminate].
  injection H as ->. eapply compile_rules_LR; [apply cache_ok_nil | exact E].
Qed.

End CompilerErrors.

(** ** C1: left recursion *)

Section C1.

Import Examples.

Lemma A_calls_A_in_left_recursive_rules : LeftRecursive left_recursive_rules A.
Proof.
  exists A. split; [|constructor].
  eexists. split; [reflexivity|].
  eapply LC_alt; [now left|].
  apply (LC_seq _ [] (nonterminal A) [literal "x"; reduce 2 None]);
    [intros e [] | constructor].
Qed.

Lemma A_calls_A_in_two_defects : LeftRecursive two_defects A.
Proof.
  exists A. split; [|constructor].
  eexists. split; [reflexivity|].
  eapply LC_alt; [now left|].
  apply (LC_seq _ [] (nonterminal A) [literal "x"]); [intros e [] | constructor].
Qed.

Lemma LeftCall_literal rules v x : ~ LeftCall rules (literal v) x.
Proof. intros H. inversion H. Qed.

Lemma LeftCall_seq_head rules e rest x :
  LeftCall rules (seq (e :: rest)) x ->
  LeftCall rules e x \/ (Nullable rules e /\ LeftCall rules (seq rest) x).
Proof.
  intros H. inversion H as [| | |pre e0 post v Hpre Hc Heq]; subst.
  destruct pre as [|a pre]; simpl in Heq; injection Heq as -> <-.
  - now left.
  - right. split; [apply Hpre; now left|].
    constructor; [|exact Hc]. intros y Hy. apply Hpre. now right.
Qed.

Lemma B_calls_only_B x : Calls calls_left_recursive B x -> x = B.
Proof.
  intros (body & Hr & Hc). injection Hr as <-.
  inversion Hc as [| |es e v Hin Hc'|]; subst.
  destruct Hin as [<-|[<-|[]]].
  - apply LeftCall_seq_head in Hc' as [Hc'|[Hn _]].
    + now inversion Hc'.
    + exfalso. inversion Hn as [| |v body Hr Hb| |]; subst. injection Hr as <-.
      inversion Hb as [| | |es e He Hne|]; subst.
      destruct He as [<-|[<-|[]]]; [|inversion Hne].
      inversion Hne as [| | | |es He]; subst.
      specialize (He (literal "x")). simpl in He.
      assert (Hl : Nullable calls_left_recursive (literal "x")) by (apply He; auto).
      inversion Hl.
  - now apply LeftCall_literal in Hc'.
Qed.

Lemma A_not_left_recursive : ~ LeftRecursive calls_left_recursive A.
Proof.
  intros (v & (body & Hr & Hc) & Hstar). injection Hr as <-.
  assert (Hv : v = B).
  { apply LeftCall_seq_head in Hc as [Hc|[_ Hc]]; [now inversion Hc|].
    apply LeftCall_seq_head in Hc as [Hc|[_ Hc]]; [now inversion Hc|].
    inversion Hc as [| | |pre e0 post w Hpre Hc' Heq]. now destruct pre. }
  subst v.
  assert (G : forall u w, CallsStar calls_left_recursive u w -> u = B -> w = B).
  { induction 1 as [|u v w Huv Hvw IH]; intros ->; [reflexivity|].
    apply IH. now apply B_calls_only_B. }
  specialize (G _ _ Hstar eq_refl). discriminate.
Qed.

(** C1, as stated, fails.  In a table with a first/first conflict ahead
    of a left-recursive rule, compilation raises the conflict and not the
    left-recursion error; the first-set computation of the rule
    [A = B "z"], which is not left-recursive, raises the left-recursion
    error of the rule [B] it calls; and the table [A = A], whose rule is
    left-recursive, compiles. *)
Lemma C1_counterexample :
  (LeftRecursive two_defects A /\
   compileRuleset two_defects = Throw (FirstFirstConflict (brandLiteral "x"))) /\
  (~ LeftRecursive calls_left_recursive A /\
   firstSet_get calls_left_recursive A_body [] = Throw (LeftRecursion B)) /\
  (LeftRecursive bare_cycle A /\
   compileRuleset bare_cycle = Ok [(A, MatchRule A)]).
Proof.
  split; [|split].
  - split; [exact A_calls_A_in_two_defects | reflexivity].
  - split; [exact A_not_left_recursive | reflexivity].
  - split; [|reflexivity].
    exists A. split; [|constructor]. eexists. split; [reflexivity | constructor].
Qed.

(** C1, amended.  The compiler terminates on every rule table.  If a
    left-recursive rule has a body of kind seq, alt or repeat0, compilation
    fails with an error.  Whenever the first-set computation of a node, or
    the compilation of the table, raises the left-recursion error, the rule
    named is left-recursive (and, for a node, reached from it on the left);
    so the first-set computation of a node that reaches no left-recursive
    rule never raises this error. *)
Theorem left_recursion_rejected (rules : RuleMap) :
  compileRuleset rules <> OutOfFuel /\
  (forall v body,
      rules_get rules v = Some body -> analysed body = true ->
      LeftRecursive rules v ->
      exists e, compileRuleset rules = Throw e) /\
  (forall x, compileRuleset rules = Throw (LeftRecursion x) ->
             LeftRecursive rules x) /\
  (forall node c x,
      cache_ok rules c ->
      firstSet_get rules node c = Throw (LeftRecursion x) ->
      LeftReach rules node x /\ LeftRecursive rules x) /\
  (forall node c,
      cache_ok rules c ->
      (forall x, LeftReach rules node x -> ~ LeftRecursive rules x) ->
      forall x, firstSet_get rules node c <> Throw (LeftRecursion x)).
Proof.
  split; [apply compileRuleset_total|].
  split; [|split; [apply compileRuleset_LR|split]].
  - intros v body Hr Ha Hlr.
    destruct (compileRuleset rules) as [cr|e|] eqn:E.
    + exfalso. eapply compileRuleset_sound; eassumption.
    + now exists e.
    + now apply compileRuleset_total in E.
  - intros node c x Hc H. eapply firstSet_get_LR; eassumption.
  - intros node c Hc Hno x H.
    apply firstSet_get_LR in H as [Hr Hx]; [|exact Hc]. exact (Hno x Hr Hx).
Qed.

(** The grammar [A = A "x" | "y"] of the specification: compilation
    fails, and the error is the left recursion on [A]. *)
Lemma left_recursion_rejected_witness :
  (exists e, compileRuleset left_recursive_rules = Throw e) /\
  compileRuleset left_recursive_rules = Throw (LeftRecursion A) /\
  LeftRecursive left_recursive_rules A.
Proof.
  split; [|split].
  - exact (proj1 (proj2 (left_recursion_rejected left_recursive_rules))
             A _ eq_refl eq_refl A_calls_A_in_left_recursive_rules).
  - reflexivity.
  - exact (proj1 (proj2 (proj2 (left_recursion_rejected left_recursive_rules)))
             A eq_refl).
Defined.

End C1.

(** ** The sets of the children *)

Lemma shares_cons s sets t :
  shares (s :: sets) t <->
  (In t s /\ exists s', In s' sets /\ In t s') \/ shares sets t.
Proof.
  split.
  - intros (l1 & s1 & l2 & s2 & l3 & Heq & H1 & H2).
    destruct l1 as [|a l1]; simpl in Heq; injection Heq as -> ->.
    + left. split; [exact H1|]. exists s2. split; [|exact H2].
      apply in_or_app. right. now left.
    + right. now exists l1, s1, l2, s2, l3.
  - intros [[H1 (s' & Hin & H2)]|(l1 & s1 & l2 & s2 & l3 & -> & H1 & H2)].
    + apply in_split in Hin as (l2 & l3 & ->).
      now exists [], s, l2, s', l3.
    + now exists (s :: l1), s1, l2, s2, l3.
Qed.

Lemma shares_nil t : ~ shares [] t.
Proof. intros (l1 & s1 & l2 & s2 & l3 & Heq & _). now destruct l1. Qed.

Lemma NoDup_concat_disjoint sets :
  Forall (@NoDup Terminal) sets ->
  (NoDup (List.concat sets) <-> pairwise_disjoint sets).
Proof.
  unfold pairwise_disjoint.
  induction 1 as [|s sets Hs Hsets IH]; simpl.
  - split; [intros _ t; apply shares_nil | constructor].
  - split.
    + intros Hnd t Hsh. apply shares_cons in Hsh as [[H1 (s' & Hin & H2)]|Hsh].
      * apply NoDup_app_remove_l in Hnd as Hnd'.
        assert (Hc : In t (List.concat sets)) by (apply in_concat; eauto).
        clear - Hnd H1 Hc. induction s as [|a s IHs]; [destruct H1|].
        simpl in Hnd. inversion Hnd as [|? ? Hna Hnd']; subst.
        destruct H1 as [->|H1]; [|now apply IHs].
        apply Hna. apply in_or_app. now right.
      * apply NoDup_app_remove_l in Hnd. exact (proj1 IH Hnd t Hsh).
    + intros Hdis. apply NoDup_app.
      * exact Hs.
      * apply IH. intros t Hsh. apply (Hdis t). apply shares_cons. now right.
      * intros t H1 Hc. apply in_concat in Hc as (s' & Hin & H2).
        apply (Hdis t). apply shares_cons. left. eauto.
Qed.

Lemma merge_all_fuel conflict sets : forall set,
  merge_all conflict set sets <> OutOfFuel.
Proof.
  induction sets as [|ts sets IH]; intros set; simpl; [discriminate|].
  destruct (merge_terminals conflict set ts) as [set1| |] eqn:E; simpl;
    [apply IH | discriminate | now apply merge_terminals_fuel in E].
Qed.

Lemma merge_all_Ok conflict sets : forall set s,
  NoDup set ->
  (merge_all conflict set sets = Ok s <->
   s = set ++ List.concat sets /\ NoDup (set ++ List.concat sets)).
Proof.
  induction sets as [|ts sets IH]; intros set s Hnd; simpl.
  - rewrite app_nil_r. split; [intros [= <-]; auto | intros [-> _]; reflexivity].
  - destruct (merge_terminals conflict set ts) as [set1|e|] eqn:E; simpl.
    + apply merge_terminals_Ok in E as (-> & Hts & Hdis).
      assert (Hnd1 : NoDup (set ++ ts)).
      { apply NoDup_app; [exact Hnd | exact Hts |].
        intros x Hx Hx'. exact (Hdis x Hx' Hx). }
      rewrite (IH _ _ Hnd1), <- app_assoc. reflexivity.
    + split; [discriminate|]. intros [_ H]. exfalso.
      rewrite app_assoc in H. apply NoDup_app_remove_r in H.
      assert (G : merge_terminals conflict set ts = Ok (set ++ ts)).
      { apply merge_terminals_Ok. split; [reflexivity|]. split.
        - now apply NoDup_app_remove_l in H.
        - intros t Ht Hs. clear - H Ht Hs. induction set as [|a set IHs]; [destruct Hs|].
          simpl in H. inversion H as [|? ? Hna H']; subst.
          destruct Hs as [->|Hs]; [|now apply IHs].
          apply Hna. apply in_or_app. now right. }
      congruence.
    + now apply merge_terminals_fuel in E.
Qed.

Lemma merge_all_Throw conflict sets : forall set e,
  NoDup set -> Forall (@NoDup Terminal) sets ->
  merge_all conflict set sets = Throw e ->
  exists t l1 s1 l2,
    e = conflict t /\ sets = l1 ++ s1 :: l2 /\ In t s1 /\
    (In t set \/ exists s0, In s0 l1 /\ In t s0).
Proof.
  induction sets as [|ts sets IH]; intros set e Hnd Hall H; simpl in H; [discriminate|].
  inversion Hall as [|? ? Hts Hall']; subst.
  destruct (merge_terminals conflict set ts) as [set1|e1|] eqn:E; simpl in H.
  - apply merge_terminals_Ok in E as (-> & _ & Hdis).
    apply IH in H as (t & l1 & s1 & l2 & -> & -> & H1 & H2); [|
      apply NoDup_app; [exact Hnd | exact Hts | intros x Hx Hx'; exact (Hdis x Hx' Hx)] |
      exact Hall'].
    exists t, (ts :: l1), s1, l2. split; [reflexivity|]. split; [reflexivity|].
    split; [exact H1|]. destruct H2 as [H2|(s0 & Hin & H2)].
    + apply in_app_or in H2 as [H2|H2]; [now left|].
      right. exists ts. split; [now left | exact H2].
    + right. exists s0. split; [now right | exact H2].
  - injection H as <-.
    apply merge_terminals_Throw in E as (pre & t & post & -> & -> & Hin & _).
    exists t, [], (pre ++ t :: post), sets. split; [reflexivity|].
    split; [reflexivity|]. split; [apply in_or_app; right; now left|].
    destruct Hin as [Hin|Hin]; [now left|].
    exfalso. apply NoDup_remove_2 in Hts. apply Hts. apply in_or_app. now left.
  - discriminate.
Qed.

Section ChildrenFacts.

Variable rules : RuleMap.
Variable fuel : nat.
Variable recurSet : list symbol.

Lemma get_all_sound exprs : forall c sets c1,
  cache_ok rules c -> get_all rules fuel recurSet exprs c = Ok (sets, c1) ->
  cache_ok rules c1 /\ Forall (@NoDup Terminal) sets.
Proof.
  induction exprs as [|e es IH]; intros c sets c1 Hc H; simpl in H.
  - injection H as <- <-. split; [exact Hc | constructor].
  - destruct (get rules fuel e recurSet c) as [[s c2]| |] eqn:E; simpl in H;
      try discriminate.
    apply get_sound in E as [Hc2 (Hnd & _)]; [|exact Hc].
    destruct (get_all rules fuel recurSet es c2) as [[ss c3]| |] eqn:E2; simpl in H;
      try discriminate.
    injection H as <- <-. apply IH in E2 as [Hc3 Hall]; [|exact Hc2].
    split; [exact Hc3 | now constructor].
Qed.

Lemma alt_loop_get_all exprs : forall set c sets c1,
  get_all rules fuel recurSet exprs c = Ok (sets, c1) ->
  alt_loop (get rules fuel) recurSet exprs set c =
  let* s := merge_all FirstFirstConflict set sets in Ok (s, c1).
Proof.
  induction exprs as [|e es IH]; intros set c sets c1 H; simpl in H.
  - now injection H as <- <-.
  - destruct (get rules fuel e recurSet c) as [[s c2]| |] eqn:E; simpl in H;
      try discriminate.
    destruct (get_all rules fuel recurSet es c2) as [[ss c3]| |] eqn:E2; simpl in H;
      try discriminate.
    injection H as <- <-. simpl. rewrite E. simpl.
    destruct (merge_terminals FirstFirstConflict set s) as [set1| |]; simpl;
      [|reflexivity|reflexivity].
    now apply IH.
Qed.

Lemma alt_loop_Ok_inv exprs : forall set c s c1,
  alt_loop (get rules fuel) recurSet exprs set c = Ok (s, c1) ->
  exists sets,
    get_all rules fuel recurSet exprs c = Ok (sets, c1) /\
    merge_all FirstFirstConflict set sets = Ok s.
Proof.
  induction exprs as [|e es IH]; intros set c s c1 H; simpl in H.
  - injection H as <- <-. now exists [].
  - destruct (get rules fuel e recurSet c) as [[ts c2]| |] eqn:E; simpl in H;
      try discriminate.
    destruct (merge_terminals FirstFirstConflict set ts) as [set1| |] eqn:E2;
      simpl in H; try discriminate.
    apply IH in H as (sets & Hall & Hm).
    exists (ts :: sets). simpl. rewrite E. simpl. rewrite Hall. simpl.
    rewrite E2. simpl. auto.
Qed.

End ChildrenFacts.

(** ** C2: first/first conflicts *)

(** C2.  For an alt node, let the first-sets of the branches be the sets the
    analyser computes for them.  The analysis of the node succeeds only if
    these sets are pairwise disjoint, and the first-set of the node is then
    their union; if they are pairwise disjoint it succeeds; if some terminal
    occurs in the sets of two branches it raises the first/first conflict on
    a terminal that two branches share (on that terminal, when it is the
    only one).  The compiler, called on an alt node it has not analysed
    before, succeeds only if the sets are pairwise disjoint, and raises the
    same conflict otherwise. *)
Theorem alt_first_first (rules : RuleMap) (fuel : nat) (recurSet : list symbol)
    (exprs : list SimpleAST) (c : Cache) :
  cache_ok rules c ->
  (forall s c1,
      getInner rules fuel (alt exprs) recurSet c = Ok (s, c1) ->
      exists sets,
        get_all rules fuel recurSet exprs c = Ok (sets, c1) /\
        pairwise_disjoint sets /\ s = List.concat sets) /\
  (forall sets c1,
      get_all rules fuel recurSet exprs c = Ok (sets, c1) ->
      (pairwise_disjoint sets ->
       getInner rules fuel (alt exprs) recurSet c = Ok (List.concat sets, c1)) /\
      (forall t, shares sets t ->
         exists t',
           shares sets t' /\
           getInner rules fuel (alt exprs) recurSet c =
             Throw (FirstFirstConflict t') /\
           (cache_get c (alt exprs) = None ->
            get rules fuel (alt exprs) recurSet c =
              Throw (FirstFirstConflict t'))) /\
      (forall t, shares sets t -> (forall t', shares sets t' -> t' = t) ->
         getInner rules fuel (alt exprs) recurSet c =
           Throw (FirstFirstConflict t))) /\
  (cache_get c (alt exprs) = None ->
   (forall p c1,
       compile rules (alt exprs) c = Ok (p, c1) ->
       exists sets c2,
         get_all rules (fuel_of rules) [] exprs c = Ok (sets, c2) /\
         pairwise_disjoint sets) /\
   (forall sets c1 t,
       get_all rules (fuel_of rules) [] exprs c = Ok (sets, c1) ->
       shares sets t ->
       exists t',
         shares sets t' /\
         compile rules (alt exprs) c = Throw (FirstFirstConflict t'))).
Proof.
  intros Hc.
  assert (Inv : forall fuel recurSet s c1,
             getInner rules fuel (alt exprs) recurSet c = Ok (s, c1) ->
             exists sets,
               get_all rules fuel recurSet exprs c = Ok (sets, c1) /\
               pairwise_disjoint sets /\ s = List.concat sets).
  { intros fuel0 R s c1 H. simpl in H.
    apply alt_loop_Ok_inv in H as (sets & Hall & Hm).
    exists sets. split; [exact Hall|].
    apply get_all_sound in Hall as [_ Hnd]; [|exact Hc].
    apply merge_all_Ok in Hm as [-> Hm]; [|constructor]. simpl in Hm.
    split; [now apply NoDup_concat_disjoint | reflexivity]. }
  assert (Conflict : forall fuel recurSet sets c1 t,
             get_all rules fuel recurSet exprs c = Ok (sets, c1) ->
             shares sets t ->
             exists t',
               shares sets t' /\
               getInner rules fuel (alt exprs) recurSet c =
                 Throw (FirstFirstConflict t')).
  { intros fuel0 R sets c1 t Hall Hsh. simpl.
    rewrite (alt_loop_get_all _ _ _ _ _ _ _ _ Hall).
    apply get_all_sound in Hall as [_ Hnd]; [|exact Hc].
    destruct (merge_all FirstFirstConflict [] sets) as [s|e|] eqn:Em; simpl.
    - exfalso. apply merge_all_Ok in Em as [_ Em]; [|constructor]. simpl in Em.
      apply NoDup_concat_disjoint in Em; [|exact Hnd]. exact (Em t Hsh).
    - apply merge_all_Throw in Em as (t' & l1 & s1 & l2 & -> & -> & H1 & H2);
        [|constructor|exact Hnd].
      destruct H2 as [[]|(s0 & Hin & H2)].
      apply in_split in Hin as (l1a & l1b & ->).
      exists t'. split; [|reflexivity].
      exists l1a, s0, l1b, s1, l2. rewrite <- app_assoc. simpl. auto.
    - now apply merge_all_fuel in Em. }
  split; [apply Inv|]. split.
  - intros sets c1 Hall. split; [|split].
    + intros Hdis. simpl. rewrite (alt_loop_get_all _ _ _ _ _ _ _ _ Hall).
      apply get_all_sound in Hall as [_ Hnd]; [|exact Hc].
      assert (Hm : merge_all FirstFirstConflict [] sets = Ok (List.concat sets)).
      { apply merge_all_Ok; [constructor|]. simpl. split; [reflexivity|].
        now apply NoDup_concat_disjoint. }
      now rewrite Hm.
    + intros t Hsh. destruct (Conflict _ _ _ _ _ Hall Hsh) as (t' & Hsh' & Ht').
      exists t'. split; [exact Hsh'|]. split; [exact Ht'|].
      intros Hnone. rewrite get_unfold, Hnone, Ht'. reflexivity.
    + intros t Hsh Huniq. destruct (Conflict _ _ _ _ _ Hall Hsh) as (t' & Hsh' & Ht').
      now rewrite <- (Huniq t' Hsh').
  - intros Hnone. split.
    + intros p c1 H. simpl in H. unfold firstSet_get in H at 1.
      rewrite get_unfold, Hnone in H.
      destruct (getInner rules (fuel_of rules) (alt exprs) [] c) as [[s c2]| |] eqn:E;
        simpl in H; try discriminate.
      apply Inv in E as (sets & Hall & Hdis & _). now exists sets, c2.
    + intros sets c1 t Hall Hsh.
      destruct (Conflict _ _ _ _ _ Hall Hsh) as (t' & Hsh' & Ht').
      exists t'. split; [exact Hsh'|]. simpl. unfold firstSet_get at 1.
      now rewrite get_unfold, Hnone, Ht'.
Qed.

Lemma shares_In sets t : shares sets t -> exists s, In s sets /\ In t s.
Proof.
  intros (l1 & s1 & l2 & s2 & l3 & -> & H1 & _). exists s1. split; [|exact H1].
  apply in_or_app. right. now left.
Qed.

(** The two branches ["x" "y" | "x" "z"] of the specification: the conflict
    names the literal ["x"]. *)
Lemma alt_first_first_witness :
  getInner [] 0 (alt [seq [literal "x"; literal "y"]; seq [literal "x"; literal "z"]])
    [] [] = Throw (FirstFirstConflict (brandLiteral "x")).
Proof.
  pose proof (alt_first_first [] 0 []
                [seq [literal "x"; literal "y"]; seq [literal "x"; literal "z"]] []
                (cache_ok_nil [])) as [_ [H _]].
  refine (proj2 (proj2 (H [[brandLiteral "x"]; [brandLiteral "x"]] _ eq_refl))
            (brandLiteral "x") _ _).
  - exists [], [brandLiteral "x"], [], [brandLiteral "x"], [].
    split; [reflexivity|]. split; now left.
  - intros t' Hsh. apply shares_In in Hsh as (s & [<-|[<-|[]]] & [H'|[]]); now rewrite H'.
Defined.

(** ** C3: a repeat0 whose child matches the empty sequence *)

(** C3.  For a repeat0 node, let the first-set of the child be the set the
    analyser computes for it.  If it contains the end-of-input marker, the
    analysis of the node raises the epsilon-repeat error, and so does the
    compiler called on a node it has not analysed before.  If it does not,
    no error is raised, and the first-set of the node is the set of the
    child with the end-of-input marker added. *)
Theorem repeat0_first_set (rules : RuleMap) (fuel : nat) (recurSet : list symbol)
    (expr : SimpleAST) (c : Cache) (innerSet : TSet) (c1 : Cache) :
  cache_ok rules c ->
  get rules fuel expr recurSet c = Ok (innerSet, c1) ->
  (In brandEof innerSet ->
     getInner rules fuel (repeat0 expr) recurSet c = Throw EpsilonRepeat /\
     (cache_get c (repeat0 expr) = None ->
      get rules fuel (repeat0 expr) recurSet c = Throw EpsilonRepeat /\
      (fuel = fuel_of rules -> recurSet = [] ->
       compile rules (repeat0 expr) c = Throw EpsilonRepeat))) /\
  (~ In brandEof innerSet ->
     getInner rules fuel (repeat0 expr) recurSet c =
       Ok (innerSet ++ [brandEof], c1) /\
     (cache_get c (repeat0 expr) = None ->
      get rules fuel (repeat0 expr) recurSet c =
        Ok (innerSet ++ [brandEof],
            cache_set c1 (repeat0 expr) (innerSet ++ [brandEof])))).
Proof.
  intros Hc H. pose proof (get_sound _ _ _ _ _ _ _ Hc H) as [_ (Hnd & _)].
  split.
  - intros Hin. apply set_has_In in Hin.
    assert (G : getInner rules fuel (repeat0 expr) recurSet c = Throw EpsilonRepeat).
    { simpl. rewrite H. simpl. now rewrite Hin. }
    split; [exact G|]. intros Hnone.
    assert (G' : get rules fuel (repeat0 expr) recurSet c = Throw EpsilonRepeat).
    { now rewrite get_unfold, Hnone, G. }
    split; [exact G'|]. intros -> ->. simpl. unfold firstSet_get at 1.
    now rewrite G'.
  - intros Hnin. apply set_has_false in Hnin as Hhas.
    assert (Hnd' : NoDup (innerSet ++ [brandEof])).
    { apply NoDup_app; [exact Hnd | repeat constructor; intros [] |].
      intros x Hx [<-|[]]. contradiction. }
    assert (G : getInner rules fuel (repeat0 expr) recurSet c =
                Ok (innerSet ++ [brandEof], c1)).
    { simpl. rewrite H. simpl. rewrite Hhas. now rewrite (set_of_list_NoDup _ Hnd'). }
    split; [exact G|]. intros Hnone. now rewrite get_unfold, Hnone, G.
Qed.

(** [("x"?)*] of the specification: the child ["x"?] can match nothing. *)
Lemma repeat0_first_set_witness :
  compile [] (repeat0 (alt [literal "x"; pushNull])) [] = Throw EpsilonRepeat.
Proof.
  refine (proj2 (proj2 (proj1 (repeat0_first_set [] 0 []
            (alt [literal "x"; pushNull]) [] [brandLiteral "x"; brandEof] _
            (cache_ok_nil []) eq_refl) _) eq_refl) eq_refl eq_refl).
  right. now left.
Defined.

(** ** C4: the first-set of a seq *)

Lemma set_delete_app a b t : set_delete (a ++ b) t = set_delete a t ++ set_delete b t.
Proof. apply filter_app. Qed.

Lemma set_delete_idem a t : set_delete (set_delete a t) t = set_delete a t.
Proof.
  unfold set_delete. induction a as [|x a IH]; simpl; [reflexivity|].
  destruct (negb (String.eqb t x)) eqn:E; simpl; [rewrite E|]; now rewrite IH.
Qed.

Lemma set_delete_absent a t : ~ In t a -> set_delete a t = a.
Proof.
  unfold set_delete. induction a as [|x a IH]; simpl; intros H; [reflexivity|].
  destruct (String.eqb t x) eqn:E; simpl.
  - apply String.eqb_eq in E. exfalso. apply H. now left.
  - rewrite IH; auto.
Qed.

Lemma not_In_set_delete a t : ~ In t (set_delete a t).
Proof. intros H. apply set_delete_In in H as [_ H]. now apply H. Qed.

Lemma not_In_concat_without_eof sets : ~ In brandEof (List.concat (without_eof sets)).
Proof.
  intros H. apply in_concat in H as (s & Hs & Hin).
  apply in_map_iff in Hs as (s0 & <- & _). now apply not_In_set_delete in Hin.
Qed.

Lemma NoDup_app_delete (a ts : TSet) t :
  NoDup ts -> ~ In t a ->
  ((forall x, In x ts -> ~ In x a) <-> (forall x, In x (set_delete ts t) -> ~ In x a)).
Proof.
  intros Hts Ha. split.
  - intros H x Hx. apply set_delete_In in Hx as [Hx _]. now apply H.
  - intros H x Hx Hin. destruct (String.eqb x t) eqn:E.
    + apply String.eqb_eq in E. subst. contradiction.
    + apply String.eqb_neq in E. apply (H x); [|exact Hin].
      apply set_delete_In. now split.
Qed.

Lemma seq_merge_fuel sets : forall set, seq_merge set sets <> OutOfFuel.
Proof.
  induction sets as [|ts sets IH]; intros set; simpl; [discriminate|].
  destruct (merge_terminals _ _ ts) as [set1| |] eqn:E; simpl;
    [apply IH | discriminate | now apply merge_terminals_fuel in E].
Qed.

(** The accumulated set after the children with the sets [sets], and when
    the merges succeed. *)
Lemma seq_merge_Ok sets : forall set s,
  NoDup set -> Forall (@NoDup Terminal) sets -> sets <> [] ->
  (seq_merge set sets = Ok s <->
   s = set_delete set brandEof ++
       List.concat (without_eof (removelast sets)) ++ last sets [] /\
   NoDup (set_delete set brandEof ++ List.concat (without_eof sets))).
Proof.
  induction sets as [|ts sets IH]; intros set s Hnd Hall Hne; [contradiction|].
  inversion Hall as [|? ? Hts Hall']; subst. cbn [seq_merge].
  set (acc := set_delete set brandEof).
  assert (Hacc : NoDup acc) by now apply set_delete_NoDup.
  assert (Hnoeof : ~ In brandEof acc) by apply not_In_set_delete.
  destruct (merge_terminals FirstFollowConflict acc ts) as [set1|e|] eqn:E; simpl.
  - apply merge_terminals_Ok in E as (-> & _ & Hdis).
    assert (Hnd1 : NoDup (acc ++ ts)).
    { apply NoDup_app; [exact Hacc | exact Hts |].
      intros x Hx Hx'. exact (Hdis x Hx' Hx). }
    assert (Hdel : set_delete (acc ++ ts) brandEof = acc ++ set_delete ts brandEof).
    { rewrite set_delete_app. unfold acc. now rewrite set_delete_idem. }
    destruct sets as [|ts' sets'].
    + simpl. rewrite app_nil_r. split.
      * intros [= <-]. split; [reflexivity|].
        apply NoDup_app; [exact Hacc | now apply set_delete_NoDup |].
        intros x Hx Hx'. apply set_delete_In in Hx' as [Hx' _]. exact (Hdis x Hx' Hx).
      * intros [-> _]. reflexivity.
    + rewrite (IH _ _ Hnd1 Hall'); [|discriminate]. rewrite Hdel.
      change (removelast (ts :: ts' :: sets')) with (ts :: removelast (ts' :: sets')).
      change (last (ts :: ts' :: sets') []) with (last (ts' :: sets') []).
      cbn [without_eof map List.concat]. fold (without_eof (removelast (ts' :: sets'))).
      fold (without_eof (ts' :: sets')). rewrite <- !app_assoc. reflexivity.
  - split; [discriminate|]. intros [_ H]. exfalso.
    cbn [without_eof map List.concat] in H. rewrite app_assoc in H.
    apply NoDup_app_remove_r in H.
    assert (G : merge_terminals FirstFollowConflict acc ts = Ok (acc ++ ts)).
    { apply merge_terminals_Ok. split; [reflexivity|]. split; [exact Hts|].
      apply (NoDup_app_delete acc ts brandEof Hts Hnoeof).
      intros x Hx Hin. clear - H Hx Hin.
      induction acc as [|a acc IHa]; [destruct Hin|].
      simpl in H. inversion H as [|? ? Hna H']; subst.
      destruct Hin as [->|Hin]; [|now apply IHa].
      apply Hna. apply in_or_app. now right. }
    congruence.
  - now apply merge_terminals_fuel in E.
Qed.

Lemma seq_merge_Throw sets : forall set e,
  NoDup set -> Forall (@NoDup Terminal) sets ->
  seq_merge set sets = Throw e ->
  exists t l1 s1 l2,
    e = FirstFollowConflict t /\ sets = l1 ++ s1 :: l2 /\ In t s1 /\ t <> brandEof /\
    (In t set \/ exists s0, In s0 l1 /\ In t s0).
Proof.
  induction sets as [|ts sets IH]; intros set e Hnd Hall H; [discriminate|].
  inversion Hall as [|? ? Hts Hall']; subst. cbn [seq_merge] in H.
  destruct (merge_terminals FirstFollowConflict (set_delete set brandEof) ts)
    as [set1|e1|] eqn:E; simpl in H.
  - apply merge_terminals_Ok in E as (-> & _ & Hdis).
    apply IH in H as (t & l1 & s1 & l2 & -> & -> & H1 & Hne & H2); [| |exact Hall'].
    + exists t, (ts :: l1), s1, l2. split; [reflexivity|]. split; [reflexivity|].
      split; [exact H1|]. split; [exact Hne|].
      destruct H2 as [H2|(s0 & Hin & H2)].
      * apply in_app_or in H2 as [H2|H2].
        -- left. now apply set_delete_In in H2 as [H2 _].
        -- right. exists ts. split; [now left | exact H2].
      * right. exists s0. split; [now right | exact H2].
    + apply NoDup_app; [now apply set_delete_NoDup | exact Hts |].
      intros x Hx Hx'. exact (Hdis x Hx' Hx).
  - injection H as <-.
    apply merge_terminals_Throw in E as (pre & t & post & -> & -> & Hin & _).
    destruct Hin as [Hin|Hin].
    + apply set_delete_In in Hin as [Hin Hne].
      exists t, [], (pre ++ t :: post), sets. split; [reflexivity|].
      split; [reflexivity|]. split; [apply in_or_app; right; now left|].
      split; [exact Hne | now left].
    + exfalso. apply NoDup_remove_2 in Hts. apply Hts. apply in_or_app. now left.
  - discriminate.
Qed.

Section SeqFacts.

Variable rules : RuleMap.
Variable fuel : nat.
Variable recurSet : list symbol.

Lemma get_seq_sound exprs : forall c sets c1,
  cache_ok rules c -> get_seq rules fuel recurSet exprs c = Ok (sets, c1) ->
  cache_ok rules c1 /\ Forall (@NoDup Terminal) sets.
Proof.
  induction exprs as [|e es IH]; intros c sets c1 Hc H; simpl in H.
  - injection H as <- <-. split; [exact Hc | constructor].
  - destruct (get rules fuel e recurSet c) as [[s c2]| |] eqn:E; simpl in H;
      try discriminate.
    apply get_sound in E as [Hc2 (Hnd & _)]; [|exact Hc].
    destruct (set_has s brandEof).
    + destruct (get_seq rules fuel recurSet es c2) as [[ss c3]| |] eqn:E2;
        simpl in H; try discriminate.
      injection H as <- <-. apply IH in E2 as [Hc3 Hall]; [|exact Hc2].
      split; [exact Hc3 | now constructor].
    + injection H as <- <-. split; [exact Hc2 | repeat constructor; exact Hnd].
Qed.

(** The children a [seq] visits: all have the end of input in their set,
    but for the last one when children are left over. *)
Lemma get_seq_shape exprs : forall c sets c1,
  get_seq rules fuel recurSet exprs c = Ok (sets, c1) ->
  Forall (fun ts => In brandEof ts) (removelast sets) /\
  (exprs <> [] -> sets <> []) /\
  (In brandEof (last sets [brandEof]) ->
   get_all rules fuel recurSet exprs c = Ok (sets, c1) /\
   Forall (fun ts => In brandEof ts) sets).
Proof.
  induction exprs as [|e es IH]; intros c sets c1 H; simpl in H.
  - injection H as <- <-. simpl. split; [constructor|]. split; [congruence|].
    intros _. split; [reflexivity | constructor].
  - destruct (get rules fuel e recurSet c) as [[s c2]| |] eqn:E; simpl in H;
      try discriminate.
    destruct (set_has s brandEof) eqn:Es.
    + destruct (get_seq rules fuel recurSet es c2) as [[ss c3]| |] eqn:E2;
        simpl in H; try discriminate.
      injection H as <- <-. apply set_has_In in Es.
      apply IH in E2 as (Hrl & Hne & Hlast).
      split; [|split; [discriminate|]].
      * destruct ss as [|s' ss']; [constructor|].
        change (removelast (s :: s' :: ss')) with (s :: removelast (s' :: ss')).
        now constructor.
      * intros Hl. simpl. rewrite E. simpl.
        destruct ss as [|s' ss'].
        -- destruct (Hlast (or_introl eq_refl)) as [-> _]. simpl.
           split; [reflexivity | now repeat constructor].
        -- destruct (Hlast Hl) as [-> Hall]. simpl.
           split; [reflexivity | now constructor].
    + injection H as <- <-. apply set_has_false in Es. simpl.
      split; [constructor|]. split; [discriminate|]. contradiction.
Qed.

Lemma seq_loop_get_seq exprs : forall set c sets c1,
  cache_ok rules c ->
  get_seq rules fuel recurSet exprs c = Ok (sets, c1) ->
  seq_loop (get rules fuel) recurSet exprs set c =
  let* s := seq_merge set sets in Ok (s, c1).
Proof.
  induction exprs as [|e es IH]; intros set c sets c1 Hc H; simpl in H.
  - now injection H as <- <-.
  - destruct (get rules fuel e recurSet c) as [[ts c2]| |] eqn:E; simpl in H;
      try discriminate.
    simpl. rewrite E. simpl.
    apply get_sound in E as [Hc2 _]; [|exact Hc].
    destruct (set_has ts brandEof) eqn:Es.
    + destruct (get_seq rules fuel recurSet es c2) as [[ss c3]| |] eqn:E2;
        simpl in H; try discriminate.
      injection H as <- <-. cbn [seq_merge].
      destruct (merge_terminals _ _ ts) as [set1| |] eqn:Em; simpl;
        [|reflexivity|reflexivity].
      apply merge_terminals_Ok in Em as (-> & _).
      assert (Hh : set_has (set_delete set brandEof ++ ts) brandEof = true).
      { apply set_has_In, in_or_app. right. now apply set_has_In. }
      rewrite Hh. simpl. now apply IH.
    + injection H as <- <-. cbn [seq_merge].
      destruct (merge_terminals _ _ ts) as [set1| |] eqn:Em; simpl;
        [|reflexivity|reflexivity].
      apply merge_terminals_Ok in Em as (-> & _).
      assert (Hh : set_has (set_delete set brandEof ++ ts) brandEof = false).
      { apply set_has_false. intros Hin. apply in_app_or in Hin as [Hin|Hin].
        - now apply not_In_set_delete in Hin.
        - apply set_has_false in Es. contradiction. }
      now rewrite Hh.
Qed.

Lemma seq_loop_Ok_inv exprs : forall set c s c1,
  seq_loop (get rules fuel) recurSet exprs set c = Ok (s, c1) ->
  exists sets, get_seq rules fuel recurSet exprs c = Ok (sets, c1).
Proof.
  induction exprs as [|e es IH]; intros set c s c1 H; simpl in H.
  - injection H as <- <-. now exists [].
  - destruct (get rules fuel e recurSet c) as [[ts c2]| |] eqn:E; simpl in H;
      try discriminate.
    destruct (merge_terminals _ _ ts) as [set1| |] eqn:Em; simpl in H;
      try discriminate.
    apply merge_terminals_Ok in Em as (-> & _).
    simpl. rewrite E. simpl.
    destruct (set_has (set_delete set brandEof ++ ts) brandEof) eqn:Eh; simpl in H.
    + assert (Hts : set_has ts brandEof = true).
      { apply set_has_In. apply set_has_In, in_app_or in Eh as [Eh|Eh]; [|exact Eh].
        now apply not_In_set_delete in Eh. }
      rewrite Hts. apply IH in H as (sets & ->). simpl. eauto.
    + injection H as <- <-.
      assert (Hts : set_has ts brandEof = false).
      { apply set_has_false. intros Hin. apply set_has_false in Eh. apply Eh.
        apply in_or_app. now right. }
      rewrite Hts. eauto.
Qed.

End SeqFacts.

Lemma without_eof_NoDup sets :
  Forall (@NoDup Terminal) sets -> Forall (@NoDup Terminal) (without_eof sets).
Proof.
  induction 1; simpl; constructor; [now apply set_delete_NoDup | assumption].
Qed.

Lemma last_default {A} (l : list A) (d d' : A) : l <> [] -> last l d = last l d'.
Proof.
  induction l as [|a l IH]; [contradiction|]. intros _.
  destruct l as [|b l]; [reflexivity|]. apply IH. discriminate.
Qed.

(** C4.  For a seq node, let the sets of the children be the first-sets the
    analyser computes for them in order, up to and including the first child
    whose set lacks the end-of-input marker; every child before that one has
    the marker in its set.  The marker leaves the accumulated set before
    each merge: the analysis succeeds exactly when the sets, the marker
    apart, are pairwise disjoint, and raises the first/follow conflict on a
    shared terminal otherwise.  On success the first-set of the node is what
    these sets accumulate to, no later child contributes, and it contains the
    marker only if the set of every child of the node does. *)
Theorem seq_first_set (rules : RuleMap) (fuel : nat) (recurSet : list symbol)
    (exprs : list SimpleAST) (c : Cache) :
  cache_ok rules c ->
  (forall s c1,
      getInner rules fuel (seq exprs) recurSet c = Ok (s, c1) ->
      exists sets,
        get_seq rules fuel recurSet exprs c = Ok (sets, c1) /\
        pairwise_disjoint (without_eof sets) /\
        s = seq_result sets /\
        (In brandEof s ->
         get_all rules fuel recurSet exprs c = Ok (sets, c1) /\
         Forall (fun ts => In brandEof ts) sets)) /\
  (forall sets c1,
      get_seq rules fuel recurSet exprs c = Ok (sets, c1) ->
      Forall (fun ts => In brandEof ts) (removelast sets) /\
      (pairwise_disjoint (without_eof sets) ->
       getInner rules fuel (seq exprs) recurSet c = Ok (seq_result sets, c1)) /\
      (forall t, shares (without_eof sets) t ->
         exists t',
           shares (without_eof sets) t' /\
           getInner rules fuel (seq exprs) recurSet c =
             Throw (FirstFollowConflict t')) /\
      (forall e,
          getInner rules fuel (seq exprs) recurSet c = Throw e ->
          exists t, e = FirstFollowConflict t /\ shares (without_eof sets) t)).
Proof.
  intros Hc.
  assert (Hdel : set_delete [brandEof] brandEof = []) by reflexivity.
  assert (Hone : NoDup [brandEof]) by (repeat constructor; intros []).
  (* the loop, on the sets of the children *)
  assert (Loop : forall sets c1,
             get_seq rules fuel recurSet exprs c = Ok (sets, c1) ->
             getInner rules fuel (seq exprs) recurSet c =
             let* s := seq_merge [brandEof] sets in Ok (s, c1)).
  { intros sets c1 H. simpl. now apply seq_loop_get_seq. }
  (* success, on the sets of the children *)
  assert (Succ : forall sets s,
             Forall (@NoDup Terminal) sets ->
             (seq_merge [brandEof] sets = Ok s <->
              s = seq_result sets /\ pairwise_disjoint (without_eof sets))).
  { intros sets s Hnd. destruct sets as [|ts sets].
    - simpl. split.
      + intros [= <-]. split; [reflexivity | intros t; apply shares_nil].
      + intros [-> _]. reflexivity.
    - rewrite seq_merge_Ok; [|exact Hone|exact Hnd|discriminate].
      rewrite Hdel. simpl app.
      rewrite (NoDup_concat_disjoint _ (without_eof_NoDup _ Hnd)).
      unfold seq_result. reflexivity. }
  assert (Fail : forall sets e,
             Forall (@NoDup Terminal) sets ->
             seq_merge [brandEof] sets = Throw e ->
             exists t, e = FirstFollowConflict t /\ shares (without_eof sets) t).
  { intros sets e Hnd H.
    apply seq_merge_Throw in H as (t & l1 & s1 & l2 & -> & -> & H1 & Hne & H2);
      [|exact Hone|exact Hnd].
    exists t. split; [reflexivity|].
    destruct H2 as [[H2|[]]|(s0 & Hin & H2)]; [congruence|].
    apply in_split in Hin as (l1a & l1b & ->).
    exists (without_eof l1a), (set_delete s0 brandEof), (without_eof l1b),
      (set_delete s1 brandEof), (without_eof l2).
    split; [|split; apply set_delete_In; now split].
    unfold without_eof. rewrite <- app_assoc. simpl.
    rewrite !map_app. simpl. rewrite !map_app. reflexivity. }
  split.
  - intros s c1 H. simpl in H.
    destruct (seq_loop_Ok_inv _ _ _ _ _ _ _ _ H) as (sets & Hseq).
    exists sets. split; [exact Hseq|].
    pose proof (get_seq_sound _ _ _ _ _ _ _ Hc Hseq) as [_ Hnd].
    pose proof (Loop _ _ Hseq) as HL. simpl in HL. rewrite H in HL.
    destruct (seq_merge [brandEof] sets) as [s'| |] eqn:Em; simpl in HL;
      try discriminate.
    injection HL as ->. apply (Succ _ _ Hnd) in Em as [-> Hdis].
    split; [exact Hdis|]. split; [reflexivity|].
    intros Hin. apply (get_seq_shape _ _ _ _ _ _ _ Hseq).
    destruct sets as [|ts sets]; [now left|].
    unfold seq_result in Hin. apply in_app_or in Hin as [Hin|Hin].
    + now apply not_In_concat_without_eof in Hin.
    + erewrite last_default in Hin; [exact Hin | discriminate].
  - intros sets c1 Hseq.
    pose proof (get_seq_sound _ _ _ _ _ _ _ Hc Hseq) as [_ Hnd].
    split; [apply (get_seq_shape _ _ _ _ _ _ _ Hseq)|].
    rewrite (Loop _ _ Hseq). split; [|split].
    + intros Hdis.
      assert (Hm : seq_merge [brandEof] sets = Ok (seq_result sets))
        by now apply Succ.
      now rewrite Hm.
    + intros t Hsh.
      destruct (seq_merge [brandEof] sets) as [s|e|] eqn:Em; simpl.
      * exfalso. apply (Succ _ _ Hnd) in Em as [_ Hdis]. exact (Hdis t Hsh).
      * apply (Fail _ _ Hnd) in Em as (t' & -> & Hsh'). now exists t'.
      * now apply seq_merge_fuel in Em.
    + intros e H.
      destruct (seq_merge [brandEof] sets) as [s|e'|] eqn:Em; simpl in H;
        try discriminate.
      injection H as <-. now apply Fail.
Qed.

(** ["x"? "y" "z"]: the optional child lets the second one in, the third
    one is not looked at, and the set has no end-of-input marker. *)
Lemma seq_first_set_witness :
  exists c1,
    getInner [] 0 (seq [alt [literal "x"; pushNull]; literal "y"; literal "z"]) [] []
    = Ok ([brandLiteral "x"; brandLiteral "y"], c1).
Proof.
  eexists.
  refine (proj1 (proj2 (proj2 (seq_first_set [] 0 []
            [alt [literal "x"; pushNull]; literal "y"; literal "z"] []
            (cache_ok_nil [])) [[brandLiteral "x"; brandEof]; [brandLiteral "y"]]
            _ eq_refl)) _).
  intros t Hsh. apply shares_cons in Hsh as [[H1 (s' & [<-|[]] & H2)]|Hsh].
  - destruct H1 as [<-|[]]. destruct H2 as [H2|[]]. discriminate H2.
  - apply shares_cons in Hsh as [[_ (s' & [] & _)]|Hsh]. now apply shares_nil in Hsh.
Defined.

(** ** C5: the simplification of a structure *)

Section C5.

Variable identifierPattern : string -> bool.

(** C5, as stated, fails: the reducer of a structure node is not used.
    With a reducer that always answers 42, the structure [( value )]
    simplifies to a sequence whose reduce node carries the projection
    alone; on the values ["("], 7 and [")"] it gives 7, where the
    composition with the reducer gives 42 or [undefined]. *)
Lemma C5_counterexample :
  let host_fn := fun (_ : nat) (_ : list JSValue) => JNumber 42 in
  let args := [JString "("; JNumber 7; JString ")"] in
  exists s1,
    simplify (fun _ => false)
      (AST.structure "(" (AST.terminal t_value) ")" (Some (fn_user 0)))
      new_ASTSimplifier
    = Ok (seq [literal "("; value; literal ")"; reduce 3 (Some fn__2)], s1) /\
    apply_fn host_fn (Some fn__2) args = Ok (JNumber 7) /\
    reducer_of_projection host_fn 0 args = JNumber 42 /\
    projection_of_reducer host_fn 0 args = JUndefined.
Proof. eexists. repeat split. Qed.

(** C5, amended.  The simplifier rewrites every structure node, with or
    without a reducer, into the sequence of the open literal, the
    simplified content, the close literal and a reduce node of arity 3
    whose function is the projection of the second argument; both
    literals are registered in the literal table. *)
Theorem structure_simplify (startToken endToken : string) (expr : AST)
    (fn : option SeqFn) (s s1 : ASTSimplifier) (e : SimpleAST) :
  simplify identifierPattern expr (snd (literals_add identifierPattern startToken s))
    = Ok (e, s1) ->
  simplify identifierPattern (AST.structure startToken expr endToken fn) s
    = Ok (seq [literal startToken; e; literal endToken; reduce 3 (Some fn__2)],
          snd (literals_add identifierPattern endToken s1)) /\
  forall host_fn args, apply_fn host_fn (Some fn__2) args = Ok (arg 1 args).
Proof.
  intros H. split; [|reflexivity]. simpl. simpl in H. rewrite H. reflexivity.
Qed.

End C5.

Lemma structure_simplify_witness :
  exists s1,
    simplify (fun _ => false)
      (AST.structure "(" (AST.terminal t_value) ")" (Some (fn_user 0)))
      new_ASTSimplifier
    = Ok (seq [literal "("; value; literal ")"; reduce 3 (Some fn__2)], s1).
Proof.
  eexists.
  exact (proj1 (structure_simplify (fun _ => false) "(" ")" (AST.terminal t_value)
                  (Some (fn_user 0)) new_ASTSimplifier _ value eq_refl)).
Defined.

(** ** C7: the dispatch of an alt matcher *)

Lemma pm_get_keys m k : (exists p, pm_get m k = Some p) <-> In k (pm_keys m).
Proof.
  induction m as [|[k' p'] m IH]; simpl.
  - split; [intros [p H]; discriminate | intros []].
  - destruct (String.eqb k k') eqn:E.
    + apply String.eqb_eq in E. subst. split; [now left | eauto].
    + apply String.eqb_neq in E. rewrite IH. split; [now right|].
      intros [H|H]; [congruence | exact H].
Qed.

(** C7.  An alt matcher looks at the token at the cursor, which stays where
    it is; the entry of the dispatch table for the terminal of that token
    runs on the unchanged state; without such an entry the entry for the
    end of input runs; without either the matcher raises a match error whose
    expected part lists all the keys of the table, separated by commas, and
    whose received part is the token. *)
Theorem Alt_dispatch (host_fn : nat -> list JSValue -> JSValue)
    (parsers : CompiledRules) (fuel : nat) (parserMap : ParserMap)
    (st : ParseState) :
  let token := nth_error (tokens st) (ps_index st) in
  peek st = token /\
  (forall p, pm_get parserMap (brandToken token) = Some p ->
     parse host_fn parsers (S fuel) (Alt parserMap) st
     = parse host_fn parsers fuel p st) /\
  (pm_get parserMap (brandToken token) = None ->
   forall p, pm_get parserMap brandEof = Some p ->
     parse host_fn parsers (S fuel) (Alt parserMap) st
     = parse host_fn parsers fuel p st) /\
  (pm_get parserMap (brandToken token) = None ->
   pm_get parserMap brandEof = None ->
     parse host_fn parsers (S fuel) (Alt parserMap) st
     = Throw (MatchError (String.concat "," (pm_keys parserMap)) token
                (received_frame token))) /\
  (forall k, In k (pm_keys parserMap) <-> exists p, pm_get parserMap k = Some p).
Proof.
  cbn zeta. split; [reflexivity|].
  split; [|split; [|split]].
  - intros p H. simpl. unfold Alt_parse, peek. now rewrite H.
  - intros H p H'. simpl. unfold Alt_parse, peek. now rewrite H, H'.
  - intros H H'. simpl. unfold Alt_parse, peek. now rewrite H, H'.
  - intros k. symmetry. apply pm_get_keys.
Qed.

(** ** C10: trailing tokens *)

(** C10.  When the root matcher succeeds, the parser returns the value on
    top of the value stack, whatever part of the tokens it has consumed:
    tokens after the cursor are not looked at and raise no error. *)
Theorem trailing_tokens_ignored (host_fn : nat -> list JSValue -> JSValue)
    (parsers : CompiledRules) (fuel : nat) (startRule : symbol)
    (parser : Parser) (tokens : list Token) (st' : ParseState) :
  cr_get parsers startRule = Some parser ->
  parse host_fn parsers fuel parser (new_ParseState tokens) = Ok st' ->
  ps_index st' < List.length tokens ->
  run_parser host_fn parsers fuel startRule tokens = Ok (done st') /\
  done st' = hd JUndefined (results st').
Proof.
  intros Hr Hp _. unfold run_parser. rewrite Hr, Hp. simpl.
  split; [reflexivity|]. unfold done. now destruct (results st').
Qed.

(** The grammar of one value on two tokens: the first is the result. *)
Lemma trailing_tokens_ignored_witness :
  let start := Symbol 2 (Some "start") in
  let toks := [mkToken (tok_value (JNumber 1)) 0 0 1;
               mkToken (tok_value (JNumber 2)) 2 0 1] in
  run_parser (fun _ _ => JUndefined) [(start, MatchType t_value)] 1 start toks
  = Ok (JNumber 1).
Proof.
  intros start toks.
  refine (proj1 (trailing_tokens_ignored (fun _ _ => JUndefined)
            [(start, MatchType t_value)] 1 start (MatchType t_value) toks
            (mkParseState toks 1 [JNumber 1]) eq_refl eq_refl _)).
  simpl. lia.
Defined.

(** ** The lexer: what a run adds to the tokens *)

Lemma extends_refl st : extends st st.
Proof.
  split; [reflexivity|]. split; [reflexivity|]. split; [lia|].
  exists []. split; [now rewrite app_nil_r | constructor].
Qed.

Lemma extends_trans st1 st2 st3 : extends st1 st2 -> extends st2 st3 -> extends st1 st3.
Proof.
  intros (Hs & Hi & Ho & a & Ht & Ha) (Hs' & Hi' & Ho' & b & Ht' & Hb).
  split; [congruence|]. split; [congruence|]. split; [lia|].
  exists (a ++ b). split; [rewrite Ht', Ht; now rewrite app_assoc|].
  apply Forall_app. split.
  - eapply Forall_impl; [|exact Ha]. simpl. intros t [? ?]. lia.
  - eapply Forall_impl; [|exact Hb]. simpl. intros t [? ?]. lia.
Qed.

Lemma matchPattern_state pattern st r st1 :
  matchPattern pattern st = (r, st1) ->
  strings st1 = strings st /\ interps st1 = interps st /\
  lx_outerIndex st1 = lx_outerIndex st /\ lx_tokens st1 = lx_tokens st.
Proof.
  unfold matchPattern. destruct (pattern _) as [[g m]|]; intros [= <- <-]; auto.
Qed.

Section LexerRuns.

Variable ID_Start ID_Continue : ascii -> bool.
Variable Number_ : string -> JSValue.
Variable String_ : JSValue -> string.

Lemma quote_scan_ext fuel pattern : forall token st closed token' st',
  quote_scan String_ fuel pattern token st = Ok (closed, token', st') ->
  strings st' = strings st /\ interps st' = interps st /\
  lx_outerIndex st' = lx_outerIndex st /\
  Tk.outerIndex token' = Tk.outerIndex token /\
  Tk.index token' = Tk.index token /\
  lx_tokens st' = lx_tokens st ++ (if closed then [token'] else []).
Proof.
  induction fuel as [|fuel IH]; intros token st closed token' st' H; [discriminate|].
  simpl in H. destruct (nextChar st).
  - destruct (matchPattern pattern st) as [[[g m]|] st1] eqn:Em; [|discriminate].
    apply matchPattern_state in Em as (Hs & Hi & Ho & Ht).
    destruct g as [|[|g]].
    + injection H as <- <- <-. simpl. rewrite Hs, Hi, Ho, Ht. auto 10.
    + apply IH in H as (Hs' & Hi' & Ho' & Hto & Hti & Htk). simpl in Hto, Hti.
      rewrite Hs', Hi', Ho', Htk, Hs, Hi, Ho, Ht. auto 10.
    + injection H as <- <- <-. simpl. rewrite Hs, Hi, Ho, Ht. auto 10.
  - injection H as <- <- <-. rewrite app_nil_r. auto 10.
Qed.

Lemma quote_loop_ext fuel pattern : forall token st st',
  quote_loop String_ fuel pattern token st = Ok st' ->
  strings st' = strings st /\ interps st' = interps st /\
  lx_outerIndex st <= lx_outerIndex st' /\
  exists tok,
    lx_tokens st' = lx_tokens st ++ [tok] /\
    Tk.outerIndex tok = Tk.outerIndex token /\ Tk.index tok = Tk.index token.
Proof.
  induction fuel as [|fuel IH]; intros token st st' H; [discriminate|].
  simpl in H. destruct (hasStrings st); [|discriminate].
  destruct (quote_scan String_ fuel pattern token st) as [[[closed token1] st1]| |] eqn:E;
    simpl in H; try discriminate.
  apply quote_scan_ext in E as (Hs & Hi & Ho & Hto & Hti & Htk).
  destruct closed.
  - injection H as <-. rewrite Hs, Hi, Ho. split; [reflexivity|].
    split; [reflexivity|]. split; [lia|]. now exists token1.
  - rewrite app_nil_r in Htk.
    destruct (nth_error (interps st1) (lx_outerIndex st1)); simpl in H;
      apply IH in H as (Hs' & Hi' & Ho' & tok & Htk' & Hto' & Hti');
      simpl in Hs', Hi', Ho', Htk', Hto', Hti';
      (split; [congruence|]; split; [congruence|]; split; [lia|];
       exists tok; split; [congruence|]; split; congruence).
Qed.

Lemma quote_ext fuel pattern st st' :
  quote String_ fuel pattern st = Ok st' -> extends st st'.
Proof.
  unfold quote. intros H.
  apply quote_loop_ext in H as (Hs & Hi & Ho & tok & Htk & Hto & _). simpl in Hto.
  split; [exact Hs|]. split; [exact Hi|]. split; [exact Ho|].
  exists [tok]. split; [exact Htk|]. constructor; [lia | constructor].
Qed.

Lemma no_tokens_extends st st' :
  strings st' = strings st -> interps st' = interps st ->
  lx_outerIndex st <= lx_outerIndex st' -> lx_tokens st' = lx_tokens st ->
  extends st st'.
Proof.
  intros Hs Hi Ho Ht. split; [exact Hs|]. split; [exact Hi|]. split; [exact Ho|].
  exists []. split; [now rewrite app_nil_r | constructor].
Qed.

Lemma comment_scan_ext fuel pattern : forall st ended st',
  comment_scan fuel pattern st = Ok (ended, st') ->
  strings st' = strings st /\ interps st' = interps st /\
  lx_outerIndex st' = lx_outerIndex st /\ lx_tokens st' = lx_tokens st.
Proof.
  induction fuel as [|fuel IH]; intros st ended st' H; [discriminate|].
  simpl in H. destruct (nextChar st).
  - destruct (matchPattern pattern st) as [[[g m]|] st1] eqn:Em.
    + apply matchPattern_state in Em as (Hs & Hi & Ho & Ht).
      destruct g as [|[|g]].
      * injection H as <- <-. auto.
      * apply IH in H as (Hs' & Hi' & Ho' & Ht'). repeat split; congruence.
      * injection H as <- <-. auto.
    + apply matchPattern_state in Em. now injection H as <- <-.
  - injection H as <- <-. auto.
Qed.

Lemma comment_ext fuel pattern : forall st st',
  comment fuel pattern st = Ok st' -> extends st st'.
Proof.
  induction fuel as [|fuel IH]; intros st st' H; [discriminate|].
  simpl in H. destruct (hasStrings st).
  - destruct (comment_scan fuel pattern st) as [[ended st1]| |] eqn:E; simpl in H;
      try discriminate.
    apply comment_scan_ext in E as (Hs & Hi & Ho & Ht).
    destruct ended.
    + injection H as <-. apply no_tokens_extends; auto. lia.
    + apply IH in H. eapply extends_trans; [|exact H].
      apply no_tokens_extends; simpl; auto. lia.
  - injection H as <-. apply extends_refl.
Qed.

Lemma push_text_extends st st1 t :
  strings st1 = strings st -> interps st1 = interps st ->
  lx_outerIndex st1 = lx_outerIndex st -> lx_tokens st1 = lx_tokens st ->
  Tk.outerIndex t = lx_outerIndex st ->
  extends st (lx_push (Some t) st1).
Proof.
  intros Hs Hi Ho Ht Hto. split; [exact Hs|]. split; [exact Hi|]. simpl.
  split; [lia|]. exists [t]. split; [now rewrite Ht|].
  constructor; [lia | constructor].
Qed.

Lemma main_step_ext fuel ch st st' :
  main_step ID_Start ID_Continue Number_ String_ fuel ch st = Ok st' ->
  extends st st'.
Proof.
  unfold main_step. intros H.
  destruct (Ascii.eqb ch squote_char).
  { apply quote_ext in H. eapply extends_trans; [|exact H].
    apply no_tokens_extends; auto. }
  destruct (Ascii.eqb ch dquote_char).
  { apply quote_ext in H. eapply extends_trans; [|exact H].
    apply no_tokens_extends; auto. }
  destruct (matchPattern _ st) as [[[g m]|] st1] eqn:Em; [|discriminate].
  apply matchPattern_state in Em as (Hs & Hi & Ho & Ht).
  assert (Hst1 : extends st st1) by (apply no_tokens_extends; auto; lia).
  do 10 (try destruct g as [|g]);
    try (injection H as <-; first [exact Hst1 | now apply push_text_extends]).
  - apply comment_ext in H. eapply extends_trans; eassumption.
  - apply comment_ext in H. eapply extends_trans; eassumption.
Qed.

Lemma main_scan_ext fuel : forall st st',
  main_scan ID_Start ID_Continue Number_ String_ fuel st = Ok st' ->
  extends st st'.
Proof.
  induction fuel as [|fuel IH]; intros st st' H; [discriminate|].
  simpl in H. destruct (nextChar st) as [ch|].
  - destruct (main_step _ _ _ _ fuel ch st) as [st1| |] eqn:E; simpl in H;
      try discriminate.
    apply main_step_ext in E. apply IH in H. eapply extends_trans; eassumption.
  - injection H as <-. apply extends_refl.
Qed.

Lemma push_interpolation_ext st :
  extends st (push_interpolation st) /\
  lx_outerIndex (push_interpolation st) = S (lx_outerIndex st).
Proof.
  unfold push_interpolation, getInterpolation.
  destruct (nth_error (interps st) (lx_outerIndex st)) as [v|]; simpl.
  - split; [|reflexivity]. split; [reflexivity|]. split; [reflexivity|]. simpl.
    split; [lia|]. eexists. split; [reflexivity|].
    constructor; [simpl; lia | constructor].
  - split; [|reflexivity]. apply no_tokens_extends; simpl; auto.
Qed.

Lemma mainState_ext fuel : forall st st',
  mainState ID_Start ID_Continue Number_ String_ fuel st = Ok st' ->
  extends st st'.
Proof.
  induction fuel as [|fuel IH]; intros st st' H; [discriminate|].
  simpl in H. destruct (hasStrings st).
  - destruct (main_scan _ _ _ _ fuel st) as [st1| |] eqn:E; simpl in H;
      try discriminate.
    apply main_scan_ext in E. apply IH in H.
    eapply extends_trans; [exact E|]. eapply extends_trans; [|exact H].
    apply push_interpolation_ext.
  - injection H as <-. apply extends_refl.
Qed.

End LexerRuns.

(** ** C9: the token of an interpolation slot *)

Lemma segments_ordered_extends st st' :
  segments_ordered st -> extends st st' -> segments_ordered st'.
Proof.
  unfold segments_ordered. intros H (_ & _ & Ho & added & -> & Ha).
  apply Forall_app. split.
  - eapply Forall_impl; [|exact H]. simpl. intros t Ht. lia.
  - eapply Forall_impl; [|exact Ha]. simpl. intros t [_ Ht]. exact Ht.
Qed.

(** C9, as stated, fails: in [a ${v} b] the value token has segment index
    1, and so has the token of [b], which comes from the text fragment
    after the slot. *)
Lemma C9_counterexample :
  Host.tokenize 10 ["a "; " b"] [JHost 7]
  = Ok [mkToken (tok_identifier "a") 0 0 1;
        mkToken (tok_value (JHost 7)) 0 1 0;
        mkToken (tok_identifier "b") 1 1 1] /\
  Tk.outerIndex (mkToken (tok_value (JHost 7)) 0 1 0)
  = Tk.outerIndex (mkToken (tok_identifier "b") 1 1 1).
Proof. split; reflexivity. Qed.

(** ** C8: an interpolation inside a quoted string *)

Lemma string_length_app a b :
  String.length (a ++ b)%string = String.length a + String.length b.
Proof. induction a as [|ch a IH]; simpl; [reflexivity | now rewrite IH]. Qed.

Lemma drop_length n : forall s, String.length (drop n s) = String.length s - n.
Proof.
  induction n as [|n IH]; intros [|ch s]; simpl; try reflexivity. apply IH.
Qed.

Lemma get_None n : forall s, String.get n s = None -> String.length s <= n.
Proof.
  induction n as [|n IH]; intros [|ch s] H; simpl in *; try lia; try discriminate.
  apply IH in H. lia.
Qed.

Lemma get_Some n : forall s ch, String.get n s = Some ch -> n < String.length s.
Proof.
  induction n as [|n IH]; intros [|ch s] c H; simpl in *; try lia; try discriminate.
  apply IH in H. lia.
Qed.

Lemma quote_body_length q s : String.length (quote_body q s) <= String.length s.
Proof.
  assert (G : forall m s, String.length s <= m ->
                          String.length (quote_body q s) <= String.length s).
  { clear. induction m as [|m IH]; intros [|ch s] Hm; simpl in *; try lia.
    destruct (Ascii.eqb ch backslash).
    - destruct s as [|ch2 s2]; simpl; [lia|].
      destruct (Ascii.eqb ch2 q || Ascii.eqb ch2 backslash); simpl; [|lia].
      assert (String.length (quote_body q s2) <= String.length s2)
        by (apply IH; simpl in Hm; lia).
      lia.
    - destruct (Ascii.eqb ch newline || Ascii.eqb ch q); simpl; [lia|].
      assert (String.length (quote_body q s) <= String.length s) by (apply IH; lia).
      lia. }
  apply (G (String.length s)). lia.
Qed.

Lemma quotePattern_length q s g m :
  quotePattern q s = Some (g, m) ->
  String.length m <= String.length s /\ (g <> 1 -> String.length m = 1).
Proof.
  unfold quotePattern. pose proof (quote_body_length q s) as Hb.
  destruct (quote_body q s) as [|b body] eqn:E.
  - destruct s as [|ch s]; [discriminate|].
    destruct (Ascii.eqb ch q); [|discriminate].
    intros [= <- <-]. simpl. split; [lia | reflexivity].
  - intros [= <- <-]. split; [exact Hb | congruence].
Qed.

Lemma firstn_S_nth {A} (l : list A) n x :
  nth_error l n = Some x -> firstn (S n) l = firstn n l ++ [x].
Proof.
  revert l. induction n as [|n IH]; intros [|a l] H; simpl in *; try discriminate.
  - now injection H as ->.
  - f_equal. now apply IH.
Qed.

Lemma list_sum_app' a b : list_sum (a ++ b) = list_sum a + list_sum b.
Proof. induction a as [|x a IH]; simpl; [reflexivity | rewrite IH; lia]. Qed.

Section QuoteLength.

Variable String_ : JSValue -> string.
Variable q : ascii.

Lemma nextChar_buf st ch :
  nextChar st = Some ch ->
  nth_error (strings st) (lx_outerIndex st) = Some (current_buf st) /\
  lx_index st < String.length (current_buf st).
Proof.
  unfold nextChar, current_buf.
  destruct (nth_error (strings st) (lx_outerIndex st)) as [buf|] eqn:E; [|discriminate].
  intros H. rewrite (nth_error_nth _ _ _ E). split; [reflexivity|].
  eapply get_Some; eassumption.
Qed.

Lemma quote_scan_len fuel : forall token st closed token' st',
  in_buf st ->
  quote_scan String_ fuel (quotePattern q) token st = Ok (closed, token', st') ->
  in_buf st' /\ lx_index st <= lx_index st' /\
  Tk.length token' + lx_index st = Tk.length token + lx_index st' /\
  (closed = false -> nextChar st' = None).
Proof.
  induction fuel as [|fuel IH]; intros token st closed token' st' Hin H; [discriminate|].
  simpl in H. destruct (nextChar st) as [ch|] eqn:En.
  - apply nextChar_buf in En as [Hbuf Hlt].
    unfold matchPattern in H. rewrite Hbuf in H.
    destruct (quotePattern q (drop (lx_index st) (current_buf st))) as [[g m]|] eqn:Ep;
      [|discriminate].
    apply quotePattern_length in Ep as [Hm Hone]. rewrite drop_length in Hm.
    set (st1 := set_index (lx_index st + String.length m) st) in *.
    assert (Hin1 : in_buf st1) by (unfold in_buf, current_buf in *; simpl; lia).
    destruct g as [|[|g]].
    + injection H as <- <- <-. specialize (Hone ltac:(discriminate)).
      unfold in_buf, current_buf in *. simpl in *.
      split; [lia|]. split; [lia|]. split; [lia | discriminate].
    + apply IH in H as (Hin' & Hle & Hlen & Hnone); [|exact Hin1].
      simpl in Hle, Hlen. split; [exact Hin'|]. split; [lia|]. split; [lia | exact Hnone].
    + injection H as <- <- <-. specialize (Hone ltac:(discriminate)).
      unfold in_buf, current_buf in *. simpl in *.
      split; [lia|]. split; [lia|]. split; [lia | discriminate].
  - injection H as <- <- <-. split; [exact Hin|]. split; [lia|]. split; [lia|].
    intros _. exact En.
Qed.

Lemma quote_loop_len fuel : forall token st st',
  in_buf st ->
  quote_loop String_ fuel (quotePattern q) token st = Ok st' ->
  exists tok,
    lx_tokens st' = lx_tokens st ++ [tok] /\
    Tk.length tok + position st = Tk.length token + position st'.
Proof.
  induction fuel as [|fuel IH]; intros token st st' Hin H; [discriminate|].
  simpl in H. destruct (hasStrings st) eqn:Eh; [|discriminate].
  destruct (quote_scan String_ fuel (quotePattern q) token st)
    as [[[closed token1] st1]| |] eqn:E; simpl in H; try discriminate.
  pose proof (quote_scan_ext _ _ _ _ _ _ _ _ E) as (Hs & Hi & Ho & _ & _ & Htk).
  apply quote_scan_len in E as (Hin1 & Hle & Hlen & Hnone); [|exact Hin].
  assert (Hpos : position st1 + lx_index st = position st + lx_index st1).
  { unfold position. rewrite Hs, Ho. lia. }
  destruct closed.
  - injection H as <-. exists token1. split; [exact Htk|]. lia.
  - rewrite app_nil_r in Htk. specialize (Hnone eq_refl).
    (* the fragment is exhausted: the cursor is at its end *)
    unfold hasStrings in Eh. apply Nat.ltb_lt in Eh.
    destruct (nth_error (strings st1) (lx_outerIndex st1)) as [buf|] eqn:Eb.
    2:{ apply nth_error_None in Eb. rewrite Hs, Ho in Eb. lia. }
    assert (Hend : lx_index st1 = String.length buf).
    { unfold nextChar in Hnone. rewrite Eb in Hnone. apply get_None in Hnone.
      unfold in_buf, current_buf in Hin1. rewrite (nth_error_nth _ _ _ Eb) in Hin1. lia. }
    set (st2 := mkLexerState 0 (S (lx_outerIndex st1)) (lx_tokens st1)
                  (strings st1) (interps st1)).
    assert (Hpos2 : position st2 = position st1).
    { unfold position, st2. simpl lx_outerIndex. simpl strings. simpl lx_index.
      rewrite (firstn_S_nth _ _ _ Eb), map_app, list_sum_app'. simpl. lia. }
    assert (Hin2 : in_buf st2) by (unfold in_buf, st2; simpl; lia).
    unfold getInterpolation in H.
    destruct (nth_error (interps st1) (lx_outerIndex st1)); simpl in H;
      apply IH in H as (tok & Htk' & Hlen'); try exact Hin2;
      fold st2 in Htk', Hlen'; simpl in Htk', Hlen';
      exists tok; (split; [now rewrite Htk', Htk|]); lia.
Qed.

End QuoteLength.

(** C8, as stated, fails: in the string ["foo${x}bar"] with the value
    [xyz] in the slot, the value is spliced into the body, and the length of
    the token is 8, the sum of the lengths of the two fragments; the three
    characters of the stringified value are not counted. *)
Lemma C8_counterexample :
  Host.tokenize 10 [open_foo; bar_close] [JString "xyz"]
  = Ok [mkToken (tok_value (JString "fooxyzbar")) 0 0 8] /\
  8 = String.length open_foo + String.length bar_close /\
  8 <> String.length open_foo + String.length bar_close + String.length "xyz".
Proof. split; [reflexivity|]. split; [reflexivity | discriminate]. Qed.

(** ** The simplifier: the symbols it creates are new *)

Lemma AST_ind' (P : AST -> Prop) :
  (forall message, P (AST.error message)) ->
  (forall rules, Forall (fun r => P (snd r)) rules -> P (AST.ruleset rules)) ->
  (forall v, P (AST.literal v)) ->
  (forall v, P (AST.terminal v)) ->
  (forall v, P (AST.identifier v)) ->
  (forall startToken expr endToken fn,
      P expr -> P (AST.structure startToken expr endToken fn)) ->
  (forall exprs fn, Forall P exprs -> P (AST.seq exprs fn)) ->
  (forall exprs, Forall P exprs -> P (AST.alt exprs)) ->
  (forall expr, P expr -> P (AST.repeat0 expr)) ->
  (forall expr, P expr -> P (AST.repeat1 expr)) ->
  (forall expr, P expr -> P (AST.maybe expr)) ->
  (forall expr separator, P expr -> P separator -> P (AST.sepBy0 expr separator)) ->
  (forall expr separator, P expr -> P separator -> P (AST.sepBy1 expr separator)) ->
  forall node, P node.
Proof.
  intros He Hrs Hl Ht Hi Hst Hsq Hal Hr0 Hr1 Hm Hs0 Hs1.
  fix IH 1. intros [m|rules|v|v|v|a e b f|es f|es|e|e|e|e s|e s].
  - apply He.
  - apply Hrs. induction rules as [|[n e] rules IHr]; constructor;
      [apply IH | exact IHr].
  - apply Hl.
  - apply Ht.
  - apply Hi.
  - apply Hst, IH.
  - apply Hsq. induction es as [|e es IHes]; constructor; [apply IH | exact IHes].
  - apply Hal. induction es as [|e es IHes]; constructor; [apply IH | exact IHes].
  - apply Hr0, IH.
  - apply Hr1, IH.
  - apply Hm, IH.
  - apply Hs0; apply IH.
  - apply Hs1; apply IH.
Qed.

Lemma rules_set_get_same rules k n : rules_get (rules_set rules k n) k = Some n.
Proof.
  induction rules as [|[k' n'] rules IH]; simpl.
  - now rewrite symbol_eqb_refl.
  - destruct (symbol_eqb k k') eqn:E; simpl; [now rewrite symbol_eqb_refl|].
    now rewrite E.
Qed.

Lemma rules_set_keys rules k n k' :
  In k' (map fst (rules_set rules k n)) <-> k' = k \/ In k' (map fst rules).
Proof.
  induction rules as [|[a b] rules IH]; simpl.
  - intuition.
  - destruct (symbol_eqb k a) eqn:E; simpl.
    + apply symbol_eqb_eq in E. subst. intuition.
    + rewrite IH. intuition.
Qed.

Lemma rules_get_None rules k : rules_get rules k = None <-> ~ In k (map fst rules).
Proof.
  induction rules as [|[a b] rules IH]; simpl; [intuition|].
  destruct (symbol_eqb k a) eqn:E.
  - apply symbol_eqb_eq in E. subst. split; [discriminate|]. intros H. exfalso. auto.
  - apply symbol_eqb_neq in E. rewrite IH. intuition.
Qed.

Lemma grows_above_refl lo s : grows_above lo s s.
Proof. split; [lia | auto]. Qed.

Lemma grows_above_trans lo s1 s2 s3 :
  grows_above lo s1 s2 -> grows_above lo s2 s3 -> grows_above lo s1 s3.
Proof.
  intros [Hn H] [Hn' H']. split; [lia|]. intros k Hk.
  destruct (H' k Hk) as [Hk'|Hk']; [|now right].
  destruct (H k Hk') as [Hk''|[Ha Hb]]; [now left | right; lia].
Qed.

Lemma grows_above_weaken lo lo' s s' :
  lo <= lo' -> grows_above lo' s s' -> grows_above lo s s'.
Proof.
  intros Hle [Hn H]. split; [exact Hn|]. intros k Hk.
  destruct (H k Hk) as [Hk'|[Ha Hb]]; [now left | right; lia].
Qed.

Lemma grows_above_same lo s s' :
  sim_rules s' = sim_rules s -> sim_next s <= sim_next s' -> grows_above lo s s'.
Proof. intros Hr Hn. split; [exact Hn|]. intros k Hk. left. now rewrite <- Hr. Qed.

Lemma grows_above_set_rule lo s name node :
  lo <= sym_id name -> sym_id name < sim_next s ->
  grows_above lo s (set_rule name node s).
Proof.
  intros Hlo Hhi. split; [simpl; lia|]. simpl. intros k Hk.
  apply rules_set_keys in Hk as [->|Hk]; [right; lia | now left].
Qed.

Section SimplifierFacts.

Variable identifierPattern : string -> bool.

Lemma literals_add_state lit s :
  sim_rules (snd (literals_add identifierPattern lit s)) = sim_rules s /\
  sim_next (snd (literals_add identifierPattern lit s)) = sim_next s.
Proof. unfold literals_add. simpl. now destruct (identifierPattern lit). Qed.

Lemma build_scope_spec rules : forall nextScope s sc names s',
  build_scope rules nextScope s = (sc, names, s') ->
  sim_rules s' = sim_rules s /\ sim_next s <= sim_next s' /\
  Forall (fun n => sim_next s <= sym_id n /\ sym_id n < sim_next s') names.
Proof.
  induction rules as [|[name e] rules IH]; intros nextScope s sc names s' H; simpl in H.
  - injection H as <- <- <-. split; [reflexivity|]. split; [lia | constructor].
  - destruct (build_scope rules _ _) as [[sc1 names1] s1] eqn:E.
    injection H as <- <- <-. apply IH in E as (Hr & Hn & Hall). simpl in Hr, Hn, Hall.
    split; [exact Hr|]. split; [lia|]. constructor; [simpl; lia|].
    eapply Forall_impl; [|exact Hall]. simpl. intros n [? ?]. lia.
Qed.


Lemma simplify_all_grows exprs :
  Forall (simplify_grows_at identifierPattern) exprs ->
  forall lo s es s',
    lo <= sim_next s ->
    simplify_all (simplify identifierPattern) exprs s = Ok (es, s') ->
    grows_above lo s s'.
Proof.
  induction 1 as [|x xs Hx Hxs IH]; intros lo s es s' Hlo H; simpl in H.
  - injection H as <- <-. apply grows_above_refl.
  - destruct (simplify identifierPattern x s) as [[e1 s1]| |] eqn:E1; simpl in H;
      try discriminate.
    destruct (simplify_all _ xs s1) as [[es1 s2]| |] eqn:E2; simpl in H;
      try discriminate.
    injection H as <- <-. apply Hx in E1.
    eapply grows_above_trans.
    + eapply grows_above_weaken; [exact Hlo | exact E1].
    + eapply IH; [|exact E2]. destruct E1. lia.
Qed.

Lemma add_rules_grows rules :
  Forall (fun r => simplify_grows_at identifierPattern (snd r)) rules ->
  forall lo names s u s',
    lo <= sim_next s ->
    Forall (fun n => lo <= sym_id n /\ sym_id n < sim_next s) names ->
    add_rules (simplify identifierPattern) rules names s = Ok (u, s') ->
    grows_above lo s s'.
Proof.
  induction 1 as [|[name x] xs Hx Hxs IH]; intros lo names s u s' Hlo Hnames H;
    simpl in H.
  - injection H as <- <-. apply grows_above_refl.
  - destruct names as [|n names]; [injection H as <- <-; apply grows_above_refl|].
    destruct (simplify identifierPattern x s) as [[e1 s1]| |] eqn:E1; simpl in H;
      try discriminate.
    simpl in Hx. apply Hx in E1. inversion Hnames as [|? ? [Hn1 Hn2] Hnames']; subst.
    assert (Hle : sim_next s <= sim_next s1) by (destruct E1; lia).
    eapply grows_above_trans;
      [eapply grows_above_weaken; [exact Hlo | exact E1]|].
    eapply grows_above_trans;
      [apply (grows_above_set_rule lo s1 n e1); lia|].
    eapply IH; [| |exact H].
    + simpl. lia.
    + eapply Forall_impl; [|exact Hnames']. simpl. intros m [? ?]. lia.
Qed.

Lemma simplify_grows : forall node, simplify_grows_at identifierPattern node.
Proof.
  induction node as [m|rules IH|v|v|v|a x b f IH|xs f IH|xs IH|x IH|x IH|x IH
                     |x sp IHx IHs|x sp IHx IHs] using AST_ind';
    intros s e s' H; simpl in H.
  - discriminate.
  - destruct rules as [|[firstName x0] rest]; [discriminate|].
    destruct (build_scope _ [] s) as [[sc names] s1] eqn:Eb.
    apply build_scope_spec in Eb as (Hr & Hn & Hnames).
    destruct (add_rules _ _ names _) as [[u s2]| |] eqn:Ea; simpl in H;
      try discriminate.
    destruct (scope_get sc firstName); [|discriminate]. injection H as <- <-.
    apply add_rules_grows with (lo := sim_next s) in Ea;
      [|exact IH|simpl; lia|exact Hnames].
    eapply grows_above_trans; [apply grows_above_same; [exact Hr | exact Hn]|].
    eapply grows_above_trans; [|eapply grows_above_trans; [exact Ea|]];
      apply grows_above_same; simpl; auto.
  - unfold literals_add in H.
    destruct (identifierPattern v); injection H as <- <-;
      apply grows_above_same; simpl; auto.
  - injection H as <- <-. apply grows_above_refl.
  - destruct (lookup (sim_scope s) v); simpl in H; try discriminate.
    injection H as <- <-. apply grows_above_refl.
  - destruct (literals_add_state a s) as [Hr Hn]. simpl in Hr, Hn.
    destruct (simplify identifierPattern x _) as [[e1 s1]| |] eqn:E1; simpl in H;
      try discriminate.
    injection H as <- <-. apply IH in E1. simpl in E1. rewrite Hn in E1.
    destruct (literals_add_state b s1) as [Hr' Hn']. simpl in Hr', Hn'.
    eapply grows_above_trans; [apply grows_above_same; [exact Hr | lia]|].
    eapply grows_above_trans; [exact E1|].
    apply grows_above_same; [exact Hr' | lia].
  - destruct (simplify_all _ xs s) as [[es s1]| |] eqn:E1; simpl in H;
      try discriminate.
    injection H as <- <-. eapply simplify_all_grows; [exact IH| |exact E1]. lia.
  - destruct (simplify_all _ xs s) as [[es s1]| |] eqn:E1; simpl in H;
      try discriminate.
    injection H as <- <-. eapply simplify_all_grows; [exact IH| |exact E1]. lia.
  - destruct (simplify identifierPattern x s) as [[e1 s1]| |] eqn:E1; simpl in H;
      try discriminate.
    injection H as <- <-. exact (IH _ _ _ E1).
  - destruct (simplify identifierPattern x s) as [[e1 s1]| |] eqn:E1; simpl in H;
      try discriminate.
    injection H as <- <-. exact (IH _ _ _ E1).
  - destruct (simplify identifierPattern x s) as [[e1 s1]| |] eqn:E1; simpl in H;
      try discriminate.
    injection H as <- <-. exact (IH _ _ _ E1).
  - destruct (simplify identifierPattern x _) as [[e1 s1]| |] eqn:E1; simpl in H;
      try discriminate.
    destruct (simplify identifierPattern sp s1) as [[e2 s2]| |] eqn:E2; simpl in H;
      try discriminate.
    injection H as <- <-. apply IHx in E1. apply IHs in E2. simpl in E1.
    assert (sim_next s < sim_next s1) by (destruct E1; simpl in *; lia).
    assert (sim_next s1 <= sim_next s2) by (destruct E2; lia).
    eapply grows_above_trans;
      [apply (grows_above_same _ s (snd (new_Symbol None s))); simpl; auto|].
    eapply grows_above_trans; [eapply grows_above_weaken; [|exact E1]; simpl; lia|].
    eapply grows_above_trans; [eapply grows_above_weaken; [|exact E2]; lia|].
    apply grows_above_set_rule; simpl; lia.
  - destruct (simplify identifierPattern x _) as [[e1 s1]| |] eqn:E1; simpl in H;
      try discriminate.
    destruct (simplify identifierPattern sp s1) as [[e2 s2]| |] eqn:E2; simpl in H;
      try discriminate.
    injection H as <- <-. apply IHx in E1. apply IHs in E2. simpl in E1.
    assert (sim_next s < sim_next s1) by (destruct E1; simpl in *; lia).
    assert (sim_next s1 <= sim_next s2) by (destruct E2; lia).
    eapply grows_above_trans;
      [apply (grows_above_same _ s (snd (new_Symbol None s))); simpl; auto|].
    eapply grows_above_trans; [eapply grows_above_weaken; [|exact E1]; simpl; lia|].
    eapply grows_above_trans; [eapply grows_above_weaken; [|exact E2]; lia|].
    apply grows_above_set_rule; simpl; lia.
Qed.

Lemma simplify_sim_wf node s e s' :
  sim_wf s -> simplify identifierPattern node s = Ok (e, s') -> sim_wf s'.
Proof.
  intros Hwf H k n Hin. apply simplify_grows in H as [Hn Hk].
  destruct (Hk k) as [Hk'|[_ Hk']]; [apply (in_map fst) in Hin; exact Hin| |lia].
  apply in_map_iff in Hk' as ([k' n'] & <- & Hin'). apply Hwf in Hin'. simpl. lia.
Qed.

End SimplifierFacts.

(** ** The matcher of a separated list *)

Lemma pm_get_In m k p : pm_get m k = Some p -> In p (map snd m).
Proof.
  induction m as [|[k' p'] m IH]; simpl; [discriminate|].
  destruct (String.eqb k k'); [intros [= ->]; now left | intros H; right; auto].
Qed.

Lemma pm_set_values m k p q :
  In q (map snd (pm_set m k p)) -> q = p \/ In q (map snd m).
Proof.
  induction m as [|[k' p'] m IH]; simpl.
  - intros [<-|[]]. now left.
  - destruct (String.eqb k k'); simpl.
    + intros [<-|H]; auto.
    + intros [<-|H]; auto. apply IH in H as [->|H]; auto.
Qed.

Section CompiledShape.

Variable rules : RuleMap.

Lemma alt_set_terminals_values (k : FS Parser) ts : forall m c m' c' q,
  alt_set_terminals k ts m c = Ok (m', c') ->
  In q (map snd m') ->
  In q (map snd m) \/ exists c1 c2, k c1 = Ok (q, c2).
Proof.
  induction ts as [|t ts IH]; intros m c m' c' q H Hq; simpl in H.
  - injection H as <- <-. now left.
  - destruct (k c) as [[p c1]| |] eqn:E; simpl in H; try discriminate.
    destruct (IH _ _ _ _ _ H Hq) as [Hin|Hex]; [|now right].
    apply pm_set_values in Hin as [->|Hin]; [right; eauto | now left].
Qed.

Lemma alt_branches_values exprs : forall m c m' c' q,
  alt_branches rules (compile rules) exprs m c = Ok (m', c') ->
  In q (map snd m') ->
  In q (map snd m) \/ exists e, In e exprs /\ Compiled rules e q.
Proof.
  induction exprs as [|e es IH]; intros m c m' c' q H Hq; simpl in H.
  - injection H as <- <-. now left.
  - destruct (firstSet_get rules e c) as [[ts c1]| |]; simpl in H; try discriminate.
    destruct (alt_set_terminals (compile rules e) ts m c1) as [[m1 c2]| |] eqn:E;
      simpl in H; try discriminate.
    destruct (IH _ _ _ _ _ H Hq) as [Hin|(e' & He' & Hc)].
    + destruct (alt_set_terminals_values _ _ _ _ _ _ _ E Hin) as [Hin'|(c3 & c4 & Hc)].
      * now left.
      * right. exists e. split; [now left | now exists c3, c4].
    + right. exists e'. split; [now right | exact Hc].
Qed.

Lemma compile_alt_values exprs c p c' :
  compile rules (alt exprs) c = Ok (p, c') ->
  exists m, p = Alt m /\
            forall k q, pm_get m k = Some q ->
                        exists e, In e exprs /\ Compiled rules e q.
Proof.
  simpl. intros H.
  destruct (firstSet_get rules (alt exprs) c) as [[s c1]| |]; simpl in H;
    try discriminate.
  destruct (alt_branches rules (compile rules) exprs [] c1) as [[m c2]| |] eqn:E;
    simpl in H; try discriminate.
  injection H as <- <-. exists m. split; [reflexivity|].
  intros k q Hq. apply pm_get_In in Hq.
  destruct (alt_branches_values _ _ _ _ _ _ E Hq) as [[]|Hex]. exact Hex.
Qed.

Lemma compile_seq3 a b d c p c' :
  compile rules (seq [a; b; d]) c = Ok (p, c') ->
  exists pa pb pd,
    p = Seq [pa; pb; pd] /\ Compiled rules a pa /\ Compiled rules b pb /\
    Compiled rules d pd.
Proof.
  simpl. intros H.
  destruct (firstSet_get rules (seq [a; b; d]) c) as [[s c1]| |]; simpl in H;
    try discriminate.
  destruct (compile rules a c1) as [[pa c2]| |] eqn:Ea; simpl in H; try discriminate.
  destruct (compile rules b c2) as [[pb c3]| |] eqn:Eb; simpl in H; try discriminate.
  destruct (compile rules d c3) as [[pd c4]| |] eqn:Ed; simpl in H; try discriminate.
  injection H as <- <-. exists pa, pb, pd.
  split; [reflexivity|]. split; [|split]; eexists; eexists; eassumption.
Qed.

Lemma Compiled_reduce arity fn p :
  Compiled rules (reduce arity fn) p -> p = Reduce arity fn.
Proof. intros (c & c' & H). simpl in H. now injection H as <- <-. Qed.

Lemma Compiled_nonterminal v p :
  Compiled rules (nonterminal v) p -> p = MatchRule v.
Proof. intros (c & c' & H). simpl in H. now injection H as <- <-. Qed.

(** The matcher of the rule [R = item (sep R?)?]. *)
Lemma compile_sepRule_shape R e sep c P c' :
  compile rules (sepRule (nonterminal R) e sep) c = Ok (P, c') ->
  sep_rule_shape (Compiled rules e) (Compiled rules sep) R P.
Proof.
  unfold sepRule. intros H.
  apply compile_seq3 in H as (pe & pb & pd & -> & He & (c1 & c2 & Hb) & Hd).
  apply Compiled_reduce in Hd as ->.
  apply compile_alt_values in Hb as (m1 & -> & Hm1).
  exists pe, m1. split; [reflexivity|]. split; [exact He|].
  intros k p Hp. apply Hm1 in Hp as (x & [<-|[<-|[]]] & Hx).
  - right. destruct Hx as (c3 & c4 & Hx).
    apply compile_seq3 in Hx as (ps & pt & pr & -> & Hs & (c5 & c6 & Ht) & Hr).
    apply Compiled_reduce in Hr as ->.
    apply compile_alt_values in Ht as (m2 & -> & Hm2).
    exists ps, m2. split; [reflexivity|]. split; [exact Hs|].
    intros k' q Hq. apply Hm2 in Hq as (y & [<-|[<-|[]]] & Hy).
    + right. now apply Compiled_nonterminal.
    + left. now apply Compiled_reduce.
  - left. now apply Compiled_reduce.
Qed.

End CompiledShape.

Section SepByParse.

Variable host_fn : nat -> list JSValue -> JSValue.
Variable parsers : CompiledRules.
Variable IsItem IsSep : Parser -> Prop.
Variable R : symbol.
Variable P : Parser.

Hypothesis shape : sep_rule_shape IsItem IsSep R P.
Hypothesis rule_R : cr_get parsers R = Some P.
Hypothesis item_one : forall p, IsItem p -> pushes_one host_fn parsers p.
Hypothesis sep_one : forall p, IsSep p -> pushes_one host_fn parsers p.

Lemma add_rule_frame_Ok name r st : add_rule_frame name r = Ok st -> r = Ok st.
Proof. destruct r as [a|[]|]; simpl; congruence. Qed.

Lemma parse_Seq3_inv fuel a b d st st' :
  parse host_fn parsers fuel (Seq [a; b; d]) st = Ok st' ->
  exists f st1 st2,
    fuel = S f /\ parse host_fn parsers f a st = Ok st1 /\
    parse host_fn parsers f b st1 = Ok st2 /\
    parse host_fn parsers f d st2 = Ok st'.
Proof.
  destruct fuel as [|f]; [discriminate|]. simpl. intros H.
  destruct (parse host_fn parsers f a st) as [st1| |] eqn:Ea; simpl in H;
    try discriminate.
  destruct (parse host_fn parsers f b st1) as [st2| |] eqn:Eb; simpl in H;
    try discriminate.
  destruct (parse host_fn parsers f d st2) as [st3| |] eqn:Ed; simpl in H;
    try discriminate.
  injection H as <-. now exists f, st1, st2.
Qed.

Lemma parse_Alt_inv fuel m st st' :
  parse host_fn parsers fuel (Alt m) st = Ok st' ->
  exists f k p,
    fuel = S f /\ pm_get m k = Some p /\ parse host_fn parsers f p st = Ok st'.
Proof.
  destruct fuel as [|f]; [discriminate|]. simpl. unfold Alt_parse. intros H.
  destruct (pm_get m (brandToken (peek st))) as [p|] eqn:E1.
  - now exists f, (brandToken (peek st)), p.
  - destruct (pm_get m brandEof) as [p|] eqn:E2; [|discriminate].
    now exists f, brandEof, p.
Qed.

Lemma parse_Reduce_inv fuel arity fn st st' :
  parse host_fn parsers fuel (Reduce arity fn) st = Ok st' ->
  state_reduce arity (apply_fn host_fn fn) st = Ok st'.
Proof. destruct fuel as [|f]; [discriminate|]. simpl. auto. Qed.

Lemma parse_pushArr fuel st st' :
  parse host_fn parsers fuel (Reduce 0 (Some fn_arr)) st = Ok st' ->
  st' = push st (JArray []).
Proof. intros H. apply parse_Reduce_inv in H. now injection H as <-. Qed.

(** A match of the rule pushes the list of the item values. *)
Lemma sepBy_parse fuel : forall st st',
  parse host_fn parsers fuel (MatchRule R) st = Ok st' ->
  tokens st' = tokens st /\
  exists vs, SepList host_fn parsers IsItem IsSep st vs (ps_index st') /\
             results st' = JArray vs :: results st.
Proof.
  induction fuel as [fuel IH] using lt_wf_ind. intros st st' H.
  destruct fuel as [|f]; [discriminate|]. simpl in H. rewrite rule_R in H.
  apply add_rule_frame_Ok in H.
  destruct shape as (pe & m1 & -> & Hitem & Hm1).
  apply parse_Seq3_inv in H as (f1 & st1 & st2 & -> & Hpe & Halt & Hcons).
  pose proof (item_one _ Hitem _ _ _ Hpe) as [Htok1 [v Hv]].
  assert (Hrun : item_run host_fn parsers IsItem st v st1)
    by (exists pe, f1; auto).
  apply parse_Reduce_inv in Hcons.
  apply parse_Alt_inv in Halt as (f2 & k & p & -> & Hk & Hp).
  destruct (Hm1 _ _ Hk) as [->|(ps & m2 & -> & Hsep & Hm2)].
  - (* no separator: the list ends here *)
    apply parse_pushArr in Hp. subst st2.
    unfold state_reduce in Hcons. simpl in Hcons. rewrite Hv in Hcons.
    simpl in Hcons. injection Hcons as <-. simpl.
    split; [exact Htok1|]. exists [v]. split; [|reflexivity].
    now apply SL_one with (st1 := st1).
  - apply parse_Seq3_inv in Hp as (f3 & sa & sb & -> & Hps & Halt2 & Hproj).
    pose proof (sep_one _ Hsep _ _ _ Hps) as [Htoka [sv Hsv]].
    assert (Hsrun : sep_run host_fn parsers IsSep st1 sa) by (exists ps, f3; auto).
    apply parse_Reduce_inv in Hproj.
    apply parse_Alt_inv in Halt2 as (f4 & k2 & p2 & -> & Hk2 & Hp2).
    destruct (Hm2 _ _ Hk2) as [->| ->].
    + (* a separator and nothing after it *)
      apply parse_pushArr in Hp2. subst sb.
      unfold state_reduce in Hproj. simpl in Hproj. rewrite Hsv in Hproj.
      simpl in Hproj. injection Hproj as <-.
      unfold state_reduce in Hcons. simpl in Hcons. rewrite Hv in Hcons.
      simpl in Hcons. injection Hcons as <-. simpl.
      split; [congruence|]. exists [v]. split; [|reflexivity].
      now apply SL_trailing with (st1 := st1) (st2 := sa).
    + (* a separator and the rest of the list *)
      apply IH in Hp2 as [Htokb (vs & Hlist & Hres)]; [|lia].
      unfold state_reduce in Hproj. simpl in Hproj. rewrite Hres, Hsv in Hproj.
      simpl in Hproj. injection Hproj as <-.
      unfold state_reduce in Hcons. simpl in Hcons. rewrite Hv in Hcons.
      simpl in Hcons. injection Hcons as <-. simpl.
      split; [congruence|]. exists (v :: vs). split; [|reflexivity].
      now apply SL_cons with (st1 := st1) (st2 := sa).
Qed.

End SepByParse.

(** ** C6: the simplification of a separated list *)

Lemma rules_set_get_other rules k n k' :
  k' <> k -> rules_get (rules_set rules k n) k' = rules_get rules k'.
Proof.
  intros Hne. induction rules as [|[a b] rules IH]; simpl.
  - apply symbol_eqb_neq in Hne. now rewrite Hne.
  - destruct (symbol_eqb k a) eqn:E; simpl.
    + apply symbol_eqb_eq in E. subst a. apply symbol_eqb_neq in Hne. now rewrite Hne.
    + destruct (symbol_eqb k' a); [reflexivity | exact IH].
Qed.

(** C6.  The simplifier rewrites a sepBy1 node into a reference to a rule
    named by a new symbol, and a sepBy0 node into the alternative of that
    reference and of the node that matches nothing and pushes the empty
    list.  The symbol names no rule before, and the one rule the node adds
    is [R = item (sep R?)?], with a cons of the item and the rest, and the
    empty list where the rest is missing.  A successful match of the
    compiled rule leaves on the stack the list of the values of the items
    matched, in the order of the input. *)
Theorem sepBy_simplify (identifierPattern : string -> bool)
    (expr separator : AST) (s s1 s2 : ASTSimplifier) (e sep : SimpleAST) :
  let ruleName := Symbol (sim_next s) None in
  let rule := sepRule (nonterminal ruleName) e sep in
  sim_wf s ->
  simplify identifierPattern expr (snd (new_Symbol None s)) = Ok (e, s1) ->
  simplify identifierPattern separator s1 = Ok (sep, s2) ->
  simplify identifierPattern (AST.sepBy1 expr separator) s
    = Ok (nonterminal ruleName, set_rule ruleName rule s2) /\
  simplify identifierPattern (AST.sepBy0 expr separator) s
    = Ok (alt [nonterminal ruleName; pushArr], set_rule ruleName rule s2) /\
  rules_get (sim_rules s) ruleName = None /\
  rules_get (sim_rules s2) ruleName = None /\
  rules_get (sim_rules (set_rule ruleName rule s2)) ruleName = Some rule /\
  (forall k, k <> ruleName ->
     rules_get (sim_rules (set_rule ruleName rule s2)) k
     = rules_get (sim_rules s2) k) /\
  rule = seq [e;
              alt [seq [sep; alt [nonterminal ruleName; pushArr];
                        reduce 2 (Some fn__2)];
                   pushArr];
              reduce 2 (Some fn_cons)] /\
  (forall host_fn parsers fuel st,
     parse host_fn parsers (S fuel) (Reduce 0 (Some fn_arr)) st
     = Ok (push st (JArray []))) /\
  (forall rules c P c' host_fn parsers,
     compile rules rule c = Ok (P, c') ->
     cr_get parsers ruleName = Some P ->
     (forall p, Compiled rules e p -> pushes_one host_fn parsers p) ->
     (forall p, Compiled rules sep p -> pushes_one host_fn parsers p) ->
     forall fuel st st',
       parse host_fn parsers fuel (MatchRule ruleName) st = Ok st' ->
       tokens st' = tokens st /\
       exists vs,
         SepList host_fn parsers (Compiled rules e) (Compiled rules sep)
           st vs (ps_index st') /\
         results st' = JArray vs :: results st).
Proof.
  intros ruleName rule Hwf He Hs.
  split; [simpl; simpl in He; rewrite He; simpl; now rewrite Hs|].
  split; [simpl; simpl in He; rewrite He; simpl; now rewrite Hs|].
  assert (Hold : ~ In ruleName (map fst (sim_rules s))).
  { intros Hin. apply in_map_iff in Hin as ([k n] & Hk & Hin). simpl in Hk. subst k.
    apply Hwf in Hin. simpl in Hin. lia. }
  split; [now apply rules_get_None|].
  split.
  { apply rules_get_None. intros Hin.
    apply simplify_grows in He as [Hn1 Hk1]. apply simplify_grows in Hs as [Hn2 Hk2].
    simpl in Hn1, Hk1.
    destruct (Hk2 _ Hin) as [Hin1|[Ha _]]; [|simpl in Ha; lia].
    destruct (Hk1 _ Hin1) as [Hin0|[Ha _]]; [contradiction | simpl in Ha; lia]. }
  split; [apply rules_set_get_same|].
  split; [intros k Hk; now apply rules_set_get_other|].
  split; [reflexivity|].
  split; [reflexivity|].
  intros rules c P c' host_fn parsers Hc HR Hitem Hsep fuel st st' Hp.
  apply compile_sepRule_shape in Hc.
  eapply sepBy_parse; eassumption.
Qed.

Lemma MatchType_pushes_one host_fn parsers type :
  pushes_one host_fn parsers (MatchType type).
Proof.
  intros [|fuel] st st' H; [discriminate|]. simpl in H. unfold MatchType_parse in H.
  simpl in H. destruct (nth_error (tokens st) (ps_index st)) as [t|]; [|discriminate].
  destruct (TokenType_eqb (token_type t) type); [|discriminate].
  injection H as <-. simpl. eauto.
Qed.

Lemma MatchLiteral_pushes_one host_fn parsers v :
  pushes_one host_fn parsers (MatchLiteral v).
Proof.
  intros [|fuel] st st' H; [discriminate|]. simpl in H. unfold MatchLiteral_parse in H.
  simpl in H. destruct (nth_error (tokens st) (ps_index st)) as [t|]; [|discriminate].
  destruct (is_operator_or_keyword t) as [x|]; [|discriminate].
  destruct (String.eqb x v); [|discriminate].
  injection H as <-. simpl. eauto.
Qed.

(** [%value / ","] on the tokens of [1, 2, 3]: the rule is named by the
    symbol 3, and a match pushes the three values in order. *)
Lemma sepBy_simplify_witness :
  let s := snd (new_Symbol (Some "start") new_ASTSimplifier) in
  let R := Symbol 3 None in
  let rule := sepRule (nonterminal R) value (literal ",") in
  let num z := mkToken (tok_value (JNumber z)) 0 0 1 in
  let comma := mkToken (tok_operator ",") 0 0 1 in
  let toks := [num 1%Z; comma; num 2%Z; comma; num 3%Z] in
  let host_fn := fun (_ : nat) (_ : list JSValue) => JUndefined in
  (exists s', simplify (fun _ => false)
                (AST.sepBy1 (AST.terminal t_value) (AST.literal ",")) s
              = Ok (nonterminal R, s') /\
              rules_get (sim_rules s') R = Some rule) /\
  exists P c' st',
    compile [(R, rule)] rule [] = Ok (P, c') /\
    parse host_fn [(R, P)] 30 (MatchRule R) (new_ParseState toks) = Ok st' /\
    results st' = [JArray [JNumber 1; JNumber 2; JNumber 3]] /\
    exists vs,
      SepList host_fn [(R, P)] (Compiled [(R, rule)] value)
        (Compiled [(R, rule)] (literal ",")) (new_ParseState toks) vs
        (ps_index st') /\
      results st' = [JArray vs].
Proof.
  intros s R rule num comma toks host_fn.
  pose proof (sepBy_simplify (fun _ => false) (AST.terminal t_value) (AST.literal ",")
                s (snd (new_Symbol None s))
                (snd (literals_add (fun _ => false) "," (snd (new_Symbol None s))))
                value (literal ",")) as H.
  cbn zeta in H. specialize (H ltac:(intros k n []) eq_refl eq_refl).
  destruct H as (H1 & _ & _ & _ & H5 & _ & _ & _ & H9).
  split; [eexists; split; [exact H1 | exact H5]|].
  eexists. eexists. eexists. split; [reflexivity|]. split; [reflexivity|].
  split; [reflexivity|].
  refine (proj2 (H9 [(R, rule)] [] _ _ host_fn [(R, _)] eq_refl eq_refl _ _ 30
                   (new_ParseState toks) _ eq_refl)).
  - intros p (c & c' & Hp). simpl in Hp. injection Hp as <- _.
    apply MatchType_pushes_one.
  - intros p (c & c' & Hp). simpl in Hp. injection Hp as <- _.
    apply MatchLiteral_pushes_one.
Defined.

(** ** The lexer terminates *)

Lemma span_app p s : forall a b, span p s = (a, b) -> s = (a ++ b)%string.
Proof.
  induction s as [|ch s IH]; intros a b H; simpl in H.
  - now injection H as <- <-.
  - destruct (p ch).
    + destruct (span p s) as [a' b'] eqn:E. injection H as <- <-.
      simpl. f_equal. now apply IH.
    + now injection H as <- <-.
Qed.

Lemma span_length p s a b :
  span p s = (a, b) -> String.length a <= String.length s.
Proof.
  intros H. apply span_app in H. subst s. rewrite string_length_app. lia.
Qed.

Lemma prefix_length a : forall s,
  String.prefix a s = true -> String.length a <= String.length s.
Proof.
  induction a as [|ch a IH]; intros [|ch' s] H; simpl in *; try lia; try discriminate.
  destruct (ascii_dec ch ch'); [|discriminate]. apply IH in H. lia.
Qed.

Lemma nonempty_span_ok class s m :
  nonempty_span class s = Some m ->
  1 <= String.length m /\ String.length m <= String.length s.
Proof.
  unfold nonempty_span. destruct (span class s) as [a b] eqn:E.
  apply span_length in E. destruct a as [|ch a]; [discriminate|].
  intros [= <-]. simpl in *. lia.
Qed.

Lemma literally_ok text s m :
  1 <= String.length text -> literally text s = Some m ->
  1 <= String.length m /\ String.length m <= String.length s.
Proof.
  unfold literally. intros Ht. destruct (String.prefix text s) eqn:E; [|discriminate].
  intros [= <-]. apply prefix_length in E. lia.
Qed.

Lemma prefixed_ok prefix class s m :
  prefixed prefix class s = Some m ->
  1 <= String.length m /\ String.length m <= String.length s.
Proof.
  unfold prefixed. destruct (String.prefix prefix s) eqn:E; [|discriminate].
  apply prefix_length in E.
  destruct (span class (drop (String.length prefix) s)) as [d r] eqn:Es.
  apply span_length in Es. rewrite drop_length in Es.
  destruct d as [|ch d]; [discriminate|]. intros [= <-].
  rewrite string_length_app. simpl in *. lia.
Qed.

Lemma decimal_ok s m :
  decimal s = Some m ->
  1 <= String.length m /\ String.length m <= String.length s.
Proof.
  unfold decimal.
  set (signed := match s with String "-" rest => ("-", rest) | _ => (EmptyString, s) end).
  assert (Hs : String.length s
               = String.length (fst signed) + String.length (snd signed)).
  { unfold signed. destruct s as [|ch s']; [reflexivity|].
    destruct ch as [[] [] [] [] [] [] [] []]; reflexivity. }
  destruct signed as [sign s1]. simpl in Hs.
  destruct (span is_dec_ s1) as [int s2] eqn:E1.
  apply span_app in E1 as H1.
  destruct int as [|d0 int]; [discriminate|].
  set (fr := match s2 with
             | String "." rest => let (d, r) := span is_dec_ rest in (String "." d, r)
             | _ => (EmptyString, s2)
             end).
  assert (H2 : String.length s2 = String.length (fst fr) + String.length (snd fr)).
  { unfold fr. destruct s2 as [|ch s2']; [reflexivity|].
    destruct (span is_dec_ s2') as [d r] eqn:E2. apply span_app in E2. subst s2'.
    destruct ch as [[] [] [] [] [] [] [] []]; simpl; rewrite ?string_length_app; lia. }
  destruct fr as [frac s3]. simpl in H2.
  set (ex := match s3 with
             | String e (String "-" (String d _)) =>
                 if one_of "eE" e && is_dec_ d
                 then String e (String "-" (String d EmptyString))
                 else EmptyString
             | String e (String d _) =>
                 if one_of "eE" e && is_dec_ d then String e (String d EmptyString)
                 else EmptyString
             | _ => EmptyString
             end).
  assert (H3 : String.length ex <= String.length s3).
  { unfold ex. destruct s3 as [|e [|d [|d' s3']]]; simpl; try lia.
    - destruct d as [[] [] [] [] [] [] [] []];
        try (destruct (one_of "eE" e && is_dec_ _); simpl; lia); simpl; lia.
    - destruct d as [[] [] [] [] [] [] [] []];
        try (destruct (one_of "eE" e && is_dec_ _); simpl; lia);
        destruct (one_of "eE" e && is_dec_ d'); simpl; lia. }
  clearbody ex. intros [= <-]. subst s1.
  rewrite !string_length_app in *. simpl in *. rewrite !string_length_app. lia.
Qed.

Lemma identifier_text_ok ID_Start ID_Continue s m :
  identifier_text ID_Start ID_Continue s = Some m ->
  1 <= String.length m /\ String.length m <= String.length s.
Proof.
  unfold identifier_text. destruct s as [|ch s]; [discriminate|].
  destruct (Ascii.eqb ch "$" || Ascii.eqb ch "_" || ID_Start ch); [|discriminate].
  destruct (span _ s) as [tail r] eqn:E. apply span_length in E.
  intros [= <-]. simpl. lia.
Qed.

Lemma operator_text_ok s m :
  operator_text s = Some m ->
  1 <= String.length m /\ String.length m <= String.length s.
Proof.
  unfold operator_text. destruct s as [|ch s]; [discriminate|].
  destruct (is_separator ch); [intros [= <-]; simpl; lia|].
  destruct (span is_punct (String ch s)) as [run r] eqn:E. apply span_length in E.
  destruct run as [|c run]; [discriminate|]. intros [= <-]. simpl in *. lia.
Qed.

Lemma first_group_ok alts :
  Forall (fun a => forall s m, snd a s = Some m ->
                   1 <= String.length m /\ String.length m <= String.length s) alts ->
  pattern_ok (first_group alts).
Proof.
  induction 1 as [|[g re] alts Hre Halts IH]; intros s g' m H; simpl in H;
    [discriminate|].
  destruct (re s) as [m'|] eqn:E.
  - injection H as <- <-. now apply Hre.
  - now apply IH in H.
Qed.

Lemma mainPattern_ok ID_Start ID_Continue :
  pattern_ok (mainPattern ID_Start ID_Continue).
Proof.
  apply first_group_ok.
  repeat (apply Forall_cons; [simpl; intros s m H|]); [..|apply Forall_nil].
  - now apply nonempty_span_ok in H.
  - apply literally_ok in H; [exact H | simpl; lia].
  - apply literally_ok in H; [exact H | simpl; lia].
  - now apply prefixed_ok in H.
  - now apply prefixed_ok in H.
  - now apply prefixed_ok in H.
  - now apply decimal_ok.
  - now apply identifier_text_ok in H.
  - now apply operator_text_ok.
Qed.

Lemma quotePattern_ok q : pattern_ok (quotePattern q).
Proof.
  intros s g m H. unfold quotePattern in H.
  pose proof (quote_body_length q s) as Hb.
  destruct (quote_body q s) as [|b body] eqn:E.
  - destruct s as [|ch s]; [discriminate|].
    destruct (Ascii.eqb ch q); [|discriminate].
    injection H as <- <-. simpl. lia.
  - injection H as <- <-. simpl in *. lia.
Qed.

Lemma lineCommentPattern_ok : pattern_ok lineCommentPattern.
Proof.
  intros s g m H. unfold lineCommentPattern in H.
  destruct (span _ s) as [run r] eqn:E. apply span_length in E.
  destruct run as [|c run].
  - destruct s as [|ch s]; [discriminate|].
    destruct (Ascii.eqb ch newline); [|discriminate].
    injection H as <- <-. simpl. lia.
  - injection H as <- <-. simpl in *. lia.
Qed.

Lemma block_body_length s : String.length (block_body s) <= String.length s.
Proof.
  assert (G : forall n s, String.length s <= n ->
                          String.length (block_body s) <= String.length s).
  { clear. induction n as [|n IH]; intros [|ch s] Hn; simpl in *; try lia.
    destruct (Ascii.eqb ch "*").
    - destruct s as [|ch2 s2]; simpl; [lia|].
      destruct (Ascii.eqb ch2 "/"); simpl; [lia|].
      assert (String.length (block_body s2) <= String.length s2)
        by (apply IH; simpl in Hn; lia).
      lia.
    - simpl. assert (String.length (block_body s) <= String.length s)
        by (apply IH; lia).
      lia. }
  apply (G (String.length s)). lia.
Qed.

Lemma blockCommentPattern_ok : pattern_ok blockCommentPattern.
Proof.
  intros s g m H. unfold blockCommentPattern in H.
  pose proof (block_body_length s) as Hb.
  destruct (block_body s) as [|b body] eqn:E.
  - destruct (String.prefix "*/" s) eqn:Ep; [|discriminate].
    apply prefix_length in Ep. injection H as <- <-. simpl in *. lia.
  - injection H as <- <-. simpl in *. lia.
Qed.

Lemma list_sum_firstn_le n : forall l, list_sum (firstn n l) <= list_sum l.
Proof.
  induction n as [|n IH]; intros [|a l]; simpl; try lia. specialize (IH l). lia.
Qed.

Lemma firstn_all_sum {A} (f : A -> nat) l n :
  List.length l <= n -> list_sum (map f (firstn n l)) = list_sum (map f l).
Proof. intros H. now rewrite firstn_all2. Qed.

Lemma position_le st : in_text st -> position st <= text_size st.
Proof.
  unfold in_text, in_buf, position, text_size, current_buf. intros [Hb Ho].
  destruct (nth_error (strings st) (lx_outerIndex st)) as [buf|] eqn:E.
  - rewrite (nth_error_nth _ _ _ E) in Hb.
    pose proof (list_sum_firstn_le (S (lx_outerIndex st))
                  (map String.length (strings st))) as Hle.
    rewrite firstn_map in Hle.
    rewrite (firstn_S_nth _ _ _ E), map_app, list_sum_app' in Hle. simpl in Hle. lia.
  - apply nth_error_None in E. rewrite nth_overflow in Hb by exact E. simpl in Hb.
    rewrite firstn_all2 by exact E. lia.
Qed.

Lemma nextChar_Some st ch :
  nextChar st = Some ch -> in_text st ->
  lx_outerIndex st < List.length (strings st) /\
  nth_error (strings st) (lx_outerIndex st) = Some (current_buf st) /\
  lx_index st < String.length (current_buf st).
Proof.
  intros H _. apply nextChar_buf in H as [Hb Hlt].
  split; [|split; assumption].
  apply nth_error_Some. congruence.
Qed.

(** A match moves the cursor on, within the text. *)
Lemma matchPattern_progress pattern st ch g m st1 :
  pattern_ok pattern -> in_text st -> nextChar st = Some ch ->
  matchPattern pattern st = (Some (g, m), st1) ->
  st1 = set_index (lx_index st + String.length m) st /\
  in_text st1 /\ budget st1 < budget st.
Proof.
  intros Hok Hin Hch H.
  destruct (nextChar_Some _ _ Hch Hin) as (Ho & Hb & Hlt).
  unfold matchPattern in H. rewrite Hb in H.
  destruct (pattern _) as [[g' m']|] eqn:Ep; [|discriminate].
  injection H as <- <- <-. apply Hok in Ep as [H1 H2]. rewrite drop_length in H2.
  split; [reflexivity|].
  assert (Hin1 : in_text (set_index (lx_index st + String.length m') st)).
  { destruct Hin as [Hbuf Hk]. split; [|exact Hk].
    unfold in_buf, current_buf in *. simpl. lia. }
  split; [exact Hin1|].
  pose proof (position_le _ Hin1) as Hp. unfold budget, position, text_size in *.
  simpl in *. lia.
Qed.

(** The end of a fragment: the next one starts where this one ends. *)
Lemma next_fragment st :
  in_text st -> hasStrings st = true -> nextChar st = None ->
  let st2 := snd (getInterpolation st) in
  in_text st2 /\ S (budget st2) = budget st /\ position st2 = position st.
Proof.
  intros [Hb Hk] Hhas Hnone. unfold hasStrings in Hhas. apply Nat.ltb_lt in Hhas.
  destruct (nth_error (strings st) (lx_outerIndex st)) as [buf|] eqn:E.
  2:{ apply nth_error_None in E. lia. }
  assert (Hend : lx_index st = String.length buf).
  { unfold nextChar in Hnone. rewrite E in Hnone. apply get_None in Hnone.
    unfold in_buf, current_buf in Hb. rewrite (nth_error_nth _ _ _ E) in Hb. lia. }
  assert (Hpos : position (snd (getInterpolation st)) = position st).
  { unfold position, getInterpolation. cbn [snd lx_outerIndex lx_index strings].
    rewrite (firstn_S_nth _ _ _ E), map_app, list_sum_app'. simpl. lia. }
  assert (Hin2 : in_text (snd (getInterpolation st))).
  { split; [unfold in_buf; simpl; lia | simpl; lia]. }
  cbn zeta. split; [exact Hin2|]. split; [|exact Hpos].
  pose proof (position_le _ Hin2) as Hp.
  unfold budget, text_size in *. rewrite Hpos in *. simpl in *.
  destruct (lx_outerIndex st); lia.
Qed.

Section LexerTermination.

Variable ID_Start ID_Continue : ascii -> bool.
Variable Number_ : string -> JSValue.
Variable String_ : JSValue -> string.

Lemma quote_scan_total pattern : pattern_ok pattern ->
  forall fuel token st,
    in_text st -> budget st <= fuel ->
    quote_scan String_ fuel pattern token st <> OutOfFuel /\
    forall closed token' st',
      quote_scan String_ fuel pattern token st = Ok (closed, token', st') ->
      in_text st' /\ budget st' <= budget st /\
      lx_outerIndex st' = lx_outerIndex st /\ strings st' = strings st /\
      (closed = false -> nextChar st' = None).
Proof.
  intros Hok. induction fuel as [|fuel IH]; intros token st Hin Hf.
  { unfold budget in Hf. destruct Hin as [_ Hk]. lia. }
  simpl. destruct (nextChar st) as [ch|] eqn:Ech.
  - destruct (matchPattern pattern st) as [[[g m]|] st1] eqn:Em.
    + destruct (matchPattern_progress _ _ _ _ _ _ Hok Hin Ech Em) as (-> & Hin1 & Hlt).
      destruct g as [|[|g]].
      * split; [discriminate|]. intros closed token' st' [= <- <- <-].
        simpl. split; [exact Hin1|]. split; [unfold budget, position, text_size in *; simpl in *; lia|].
        split; [reflexivity|]. split; [reflexivity | discriminate].
      * destruct (IH (grow String_ token m (String.length m)) _ Hin1 ltac:(lia))
          as [Hne Hres].
        split; [exact Hne|]. intros closed token' st' H.
        apply Hres in H as (Hin' & Hb' & Ho' & Hs' & Hn').
        split; [exact Hin'|]. split; [lia|]. split; [exact Ho'|].
        split; [exact Hs' | exact Hn'].
      * split; [discriminate|]. intros closed token' st' [= <- <- <-].
        simpl. split; [exact Hin1|]. split; [unfold budget, position, text_size in *; simpl in *; lia|].
        split; [reflexivity|]. split; [reflexivity | discriminate].
    + split; discriminate.
  - split; [discriminate|]. intros closed token' st' [= <- <- <-].
    split; [exact Hin|]. split; [lia|]. split; [reflexivity|].
    split; [reflexivity|]. intros _. exact Ech.
Qed.

Lemma quote_loop_total pattern : pattern_ok pattern ->
  forall fuel token st,
    in_text st -> budget st + 1 <= fuel ->
    quote_loop String_ fuel pattern token st <> OutOfFuel /\
    forall st',
      quote_loop String_ fuel pattern token st = Ok st' ->
      in_text st' /\ budget st' <= budget st.
Proof.
  intros Hok. induction fuel as [|fuel IH]; intros token st Hin Hf; [lia|].
  simpl. destruct (hasStrings st) eqn:Eh; [|split; discriminate].
  destruct (quote_scan_total _ Hok fuel token st Hin ltac:(lia)) as [Hne Hres].
  destruct (quote_scan String_ fuel pattern token st) as [[[closed token1] st1]| |] eqn:E;
    simpl; [|split; discriminate|contradiction].
  destruct (Hres _ _ _ eq_refl) as (Hin1 & Hb1 & Ho1 & Hs1 & Hn1).
  destruct closed.
  - split; [discriminate|]. intros st' [= <-]. split; [exact Hin1 | exact Hb1].
  - assert (Hh1 : hasStrings st1 = true) by (unfold hasStrings in *; now rewrite Hs1, Ho1).
    destruct (next_fragment _ Hin1 Hh1 (Hn1 eq_refl)) as (Hin2 & Hb2 & _).
    unfold getInterpolation in *. cbn [snd] in Hin2, Hb2.
    match goal with |- quote_loop _ _ _ ?tok ?s <> _ /\ _ =>
      destruct (IH tok s Hin2 ltac:(lia)) as [Hne2 Hres2] end.
    split; [exact Hne2|]. intros st' H. apply Hres2 in H as [Hin' Hb'].
    split; [exact Hin' | lia].
Qed.

Lemma comment_scan_total pattern : pattern_ok pattern ->
  forall fuel st,
    in_text st -> budget st <= fuel ->
    comment_scan fuel pattern st <> OutOfFuel /\
    forall ended st',
      comment_scan fuel pattern st = Ok (ended, st') ->
      in_text st' /\ budget st' <= budget st /\
      lx_outerIndex st' = lx_outerIndex st /\ strings st' = strings st /\
      (ended = false -> nextChar st' = None).
Proof.
  intros Hok. induction fuel as [|fuel IH]; intros st Hin Hf.
  { unfold budget in Hf. destruct Hin as [_ Hk]. lia. }
  simpl. destruct (nextChar st) as [ch|] eqn:Ech.
  - destruct (matchPattern pattern st) as [[[g m]|] st1] eqn:Em.
    + destruct (matchPattern_progress _ _ _ _ _ _ Hok Hin Ech Em) as (-> & Hin1 & Hlt).
      destruct g as [|[|g]].
      * split; [discriminate|]. intros ended st' [= <- <-].
        split; [exact Hin1|]. split; [lia|]. split; [reflexivity|].
        split; [reflexivity | discriminate].
      * destruct (IH _ Hin1 ltac:(lia)) as [Hne Hres].
        split; [exact Hne|]. intros ended st' H.
        apply Hres in H as (Hin' & Hb' & Ho' & Hs' & Hn').
        split; [exact Hin'|]. split; [lia|]. split; [exact Ho'|].
        split; [exact Hs' | exact Hn'].
      * split; [discriminate|]. intros ended st' [= <- <-].
        split; [exact Hin1|]. split; [lia|]. split; [reflexivity|].
        split; [reflexivity | discriminate].
    + unfold matchPattern in Em. destruct (pattern _) as [[g m]|]; [discriminate|].
      injection Em as <-. split; [discriminate|]. intros ended st' [= <- <-].
      split; [exact Hin|]. split; [lia|]. split; [reflexivity|].
      split; [reflexivity | discriminate].
  - split; [discriminate|]. intros ended st' [= <- <-].
    split; [exact Hin|]. split; [lia|]. split; [reflexivity|].
    split; [reflexivity|]. intros _. exact Ech.
Qed.

Lemma comment_total pattern : pattern_ok pattern ->
  forall fuel st,
    in_text st -> budget st + 1 <= fuel ->
    comment fuel pattern st <> OutOfFuel /\
    forall st', comment fuel pattern st = Ok st' ->
                in_text st' /\ budget st' <= budget st.
Proof.
  intros Hok. induction fuel as [|fuel IH]; intros st Hin Hf; [lia|].
  simpl. destruct (hasStrings st) eqn:Eh.
  2:{ split; [discriminate|]. intros st' [= <-]. split; [exact Hin | lia]. }
  destruct (comment_scan_total _ Hok fuel st Hin ltac:(lia)) as [Hne Hres].
  destruct (comment_scan fuel pattern st) as [[ended st1]| |] eqn:E;
    simpl; [|split; discriminate|contradiction].
  destruct (Hres _ _ eq_refl) as (Hin1 & Hb1 & Ho1 & Hs1 & Hn1).
  destruct ended.
  - split; [discriminate|]. intros st' [= <-]. split; [exact Hin1 | exact Hb1].
  - assert (Hh1 : hasStrings st1 = true) by (unfold hasStrings in *; now rewrite Hs1, Ho1).
    destruct (next_fragment _ Hin1 Hh1 (Hn1 eq_refl)) as (Hin2 & Hb2 & _).
    destruct (IH _ Hin2 ltac:(lia)) as [Hne2 Hres2].
    split; [exact Hne2|]. intros st' H. apply Hres2 in H as [Hin' Hb'].
    split; [exact Hin' | lia].
Qed.

Lemma lx_push_in_text t st :
  in_text (lx_push t st) <-> in_text st.
Proof. destruct t; reflexivity. Qed.

Lemma lx_push_budget t st : budget (lx_push t st) = budget st.
Proof. destruct t; reflexivity. Qed.

Lemma quote_start st ch :
  in_text st -> nextChar st = Some ch ->
  in_text (set_index (lx_index st + 1) st) /\
  S (budget (set_index (lx_index st + 1) st)) = budget st.
Proof.
  intros Hin Hch. destruct (nextChar_Some _ _ Hch Hin) as (Ho & Hb & Hlt).
  assert (Hin1 : in_text (set_index (lx_index st + 1) st)).
  { destruct Hin as [Hbuf Hk]. split; [|exact Hk].
    unfold in_buf, current_buf in *. simpl. lia. }
  split; [exact Hin1|]. pose proof (position_le _ Hin1) as Hp.
  destruct Hin as [_ Hk].
  unfold budget, position, text_size in *. cbn [set_index lx_index lx_outerIndex strings] in *.
  lia.
Qed.

Lemma main_step_total fuel ch st :
  in_text st -> nextChar st = Some ch -> budget st <= fuel ->
  main_step ID_Start ID_Continue Number_ String_ fuel ch st <> OutOfFuel /\
  forall st',
    main_step ID_Start ID_Continue Number_ String_ fuel ch st = Ok st' ->
    in_text st' /\ budget st' < budget st.
Proof.
  intros Hin Hch Hf. unfold main_step.
  destruct (quote_start _ _ Hin Hch) as [Hq Hqb].
  destruct (Ascii.eqb ch squote_char).
  { unfold quote.
    match goal with |- quote_loop _ _ _ ?tok ?s <> _ /\ _ =>
      destruct (quote_loop_total _ (quotePattern_ok squote_char) fuel tok s Hq
                  ltac:(lia)) as [Hne Hres] end.
    split; [exact Hne|]. intros st' H. apply Hres in H as [Hin' Hb']. split; [exact Hin' | lia]. }
  destruct (Ascii.eqb ch dquote_char).
  { unfold quote.
    match goal with |- quote_loop _ _ _ ?tok ?s <> _ /\ _ =>
      destruct (quote_loop_total _ (quotePattern_ok dquote_char) fuel tok s Hq
                  ltac:(lia)) as [Hne Hres] end.
    split; [exact Hne|]. intros st' H. apply Hres in H as [Hin' Hb']. split; [exact Hin' | lia]. }
  destruct (matchPattern _ st) as [[[g m]|] st1] eqn:Em; [|split; discriminate].
  destruct (matchPattern_progress _ _ _ _ _ _ (mainPattern_ok ID_Start ID_Continue)
              Hin Hch Em) as (_ & Hin1 & Hlt).
  assert (Hpush : forall t st',
             Ok (lx_push (Some t) st1) = Ok st' ->
             in_text st' /\ budget st' < budget st).
  { intros t st' H.
    assert (Hst : st' = lx_push (Some t) st1) by congruence.
    rewrite Hst. split; [now apply lx_push_in_text|].
    now rewrite lx_push_budget. }
  assert (Hcomment : forall pattern, pattern_ok pattern ->
             comment fuel pattern st1 <> OutOfFuel /\
             forall st', comment fuel pattern st1 = Ok st' ->
                         in_text st' /\ budget st' < budget st).
  { intros pattern Hok.
    destruct (comment_total _ Hok fuel st1 Hin1 ltac:(lia)) as [Hne Hres].
    split; [exact Hne|]. intros st' H. apply Hres in H as [Hin' Hb'].
    split; [exact Hin' | lia]. }
  do 10 (try destruct g as [|g]);
    try (split; [discriminate|]; first [apply Hpush | intros st' [= <-]; now split]).
  - apply Hcomment, lineCommentPattern_ok.
  - apply Hcomment, blockCommentPattern_ok.
Qed.

Lemma main_scan_total fuel : forall st,
  in_text st -> budget st + 1 <= fuel ->
  main_scan ID_Start ID_Continue Number_ String_ fuel st <> OutOfFuel /\
  forall st',
    main_scan ID_Start ID_Continue Number_ String_ fuel st = Ok st' ->
    in_text st' /\ budget st' <= budget st /\ nextChar st' = None.
Proof.
  induction fuel as [|fuel IH]; intros st Hin Hf; [lia|].
  simpl. destruct (nextChar st) as [ch|] eqn:Ech.
  - destruct (main_step_total fuel ch st Hin Ech ltac:(lia)) as [Hne Hres].
    destruct (main_step _ _ _ _ fuel ch st) as [st1| |] eqn:E; simpl;
      [|split; discriminate|contradiction].
    destruct (Hres _ eq_refl) as [Hin1 Hb1].
    destruct (IH st1 Hin1 ltac:(lia)) as [Hne2 Hres2].
    split; [exact Hne2|]. intros st' H. apply Hres2 in H as (Hin' & Hb' & Hn').
    split; [exact Hin'|]. split; [lia | exact Hn'].
  - split; [discriminate|]. intros st' [= <-]. split; [exact Hin|]. split; [lia | exact Ech].
Qed.

Lemma mainState_total fuel : forall st,
  (in_text st /\ budget st + 2 <= fuel) \/ (hasStrings st = false /\ 1 <= fuel) ->
  mainState ID_Start ID_Continue Number_ String_ fuel st <> OutOfFuel.
Proof.
  induction fuel as [|fuel IH]; intros st H; [destruct H as [[_ H]|[_ H]]; lia|].
  simpl. destruct (hasStrings st) eqn:Eh; [|discriminate].
  destruct H as [[Hin Hf]|[H _]]; [|discriminate].
  destruct (main_scan_total fuel st Hin ltac:(lia)) as [Hne Hres].
  destruct (main_scan _ _ _ _ fuel st) as [st1| |] eqn:E; simpl;
    [|discriminate|contradiction].
  destruct (Hres _ eq_refl) as (Hin1 & Hb1 & Hn1).
  apply IH. unfold push_interpolation.
  destruct (getInterpolation st1) as [tok st2] eqn:Eg.
  assert (Hst2 : st2 = snd (getInterpolation st1)) by now rewrite Eg.
  destruct (hasStrings st1) eqn:Eh1.
  - left. destruct (next_fragment _ Hin1 Eh1 Hn1) as (Hin2 & Hb2 & _).
    rewrite <- Hst2 in Hin2, Hb2.
    split; [now apply lx_push_in_text | rewrite lx_push_budget; lia].
  - right. split; [|destruct Hin as [_ Hk]; unfold budget in Hf; lia].
    unfold getInterpolation in Eg. injection Eg as _ <-.
    unfold hasStrings in *. apply Nat.ltb_ge in Eh1. apply Nat.ltb_ge.
    destruct tok; simpl; lia.
Qed.

(** The tokenizer returns or raises: it does not run out of the fuel that
    the size of the text gives it. *)
Lemma tokenize_total strs interps :
  tokenize ID_Start ID_Continue Number_ String_ (fuel_for strs) strs interps
  <> OutOfFuel.
Proof.
  unfold tokenize.
  destruct (mainState _ _ _ _ (fuel_for strs) (new_LexerState strs interps))
    as [st| |] eqn:E; simpl; try discriminate.
  exfalso. revert E. apply mainState_total. left. split.
  - split; [unfold in_buf; simpl; lia | simpl; lia].
  - unfold budget, position, text_size, fuel_for. simpl. lia.
Qed.

End LexerTermination.

(** ** C8 and C9: the amended statements *)

(** C8, amended.  When the lexer reaches the end of a text fragment inside
    an open quoted string and an interpolated value is available, the value
    is stringified and appended to the accumulated body of the string token;
    no token is produced for it, and the length of the string token does not
    change.  The length of the token that the closing quote emits is the
    number of characters of the text fragments from the opening to the
    closing quote, both included: interpolated values contribute 0.  The
    scan of a string returns or raises within the fuel that the size of the
    remaining text gives it. *)
Theorem string_interpolation (String_ : JSValue -> string) :
  (forall fuel pattern token st token' st' v body,
      hasStrings st = true ->
      quote_scan String_ fuel pattern token st = Ok (false, token', st') ->
      nth_error (interps st') (lx_outerIndex st') = Some v ->
      token_value token' = JString body ->
      let spliced :=
        mkToken (tok_value (JString (body ++ String_ v))) (Tk.index token')
          (Tk.outerIndex token') (Tk.length token' + 0) in
      quote_loop String_ (S fuel) pattern token st
      = quote_loop String_ fuel pattern spliced
          (mkLexerState 0 (S (lx_outerIndex st')) (lx_tokens st')
             (strings st') (interps st')) /\
      lx_tokens st' = lx_tokens st /\
      Tk.length spliced = Tk.length token') /\
  (forall fuel q st st',
      in_buf st ->
      quote String_ fuel (quotePattern q) st = Ok st' ->
      exists tok,
        lx_tokens st' = lx_tokens st ++ [tok] /\
        Tk.length tok + position st = position st' + 1) /\
  (forall fuel q st,
      in_text st -> budget st + 1 <= fuel ->
      quote String_ fuel (quotePattern q) st <> OutOfFuel).
Proof.
  split; [|split].
  3:{ intros fuel q st Hin Hb. unfold quote.
      now apply quote_loop_total; [apply quotePattern_ok| |]. }
  - intros fuel pattern token st token' st' v body Hhas Hscan Hv Hbody spliced.
    split; [|split].
    + simpl. rewrite Hhas, Hscan. simpl. unfold getInterpolation. rewrite Hv.
      unfold grow. simpl. rewrite Hbody. reflexivity.
    + apply quote_scan_ext in Hscan as (_ & _ & _ & _ & _ & Ht).
      now rewrite app_nil_r in Ht.
    + simpl. lia.
  - intros fuel q st st' Hin H. unfold quote in H.
    apply quote_loop_len in H as (tok & Ht & Hlen); [|exact Hin].
    exists tok. split; [exact Ht|]. simpl in Hlen. lia.
Qed.

(** The string ["foo${x}bar"]: after the opening quote the cursor is at
    position 1; the closing quote leaves it at position 8, and the token has
    length 8. *)
Lemma string_interpolation_witness :
  let st := mkLexerState 1 0 [] [open_foo; bar_close] [JString "xyz"] in
  in_text st /\ budget st + 1 <= 11 /\
  quote Host.String_ 11 doubleQuotePattern st <> OutOfFuel /\
  exists tok st',
    quote Host.String_ 9 doubleQuotePattern st = Ok st' /\
    lx_tokens st' = [tok] /\ Tk.length tok + 1 = 8 + 1.
Proof.
  intros st.
  assert (Hin : in_text st) by (split; [unfold in_buf; simpl; lia | simpl; lia]).
  assert (Hb : budget st + 1 <= 11) by (vm_compute; lia).
  destruct (string_interpolation Host.String_) as (_ & Hlen & Htot).
  split; [exact Hin|]. split; [exact Hb|].
  split; [exact (Htot 11 dquote_char st Hin Hb)|].
  destruct (Hlen 9 dquote_char st
              (mkLexerState 4 1 [mkToken (tok_value (JString "fooxyzbar")) 0 0 8]
                 [open_foo; bar_close] [JString "xyz"])) as (tok & Ht & Hl).
  - unfold in_buf. simpl. lia.
  - reflexivity.
  - exists tok. eexists. split; [reflexivity|]. split; [exact Ht | exact Hl].
Defined.

(** C9, amended.  When the scan of the text outside strings and comments
    reaches the end of fragment number [k] and the interpolated value number
    [k] is available, the tokenizer emits one value token whose payload is
    that value unchanged, whose offset is 0 and whose length is 0.  Its
    segment index is [k + 1]: greater than the segment index of every token
    emitted before it, and not greater than the segment index of any token
    emitted after it (the tokens of the next text fragment carry the same
    segment index).  The rest of the run returns or raises within the fuel
    that the size of the remaining text gives it. *)
Theorem interpolation_token (ID_Start ID_Continue : ascii -> bool)
    (Number_ : string -> JSValue) (String_ : JSValue -> string)
    (fuel : nat) (st st1 : LexerState) (v : JSValue) :
  segments_ordered st ->
  hasStrings st = true ->
  main_scan ID_Start ID_Continue Number_ String_ fuel st = Ok st1 ->
  nth_error (interps st1) (lx_outerIndex st1) = Some v ->
  let k := lx_outerIndex st1 in
  let tok := mkToken (tok_value v) 0 (k + 1) 0 in
  let st2 := mkLexerState 0 (S k) (lx_tokens st1 ++ [tok]) (strings st1) (interps st1) in
  mainState ID_Start ID_Continue Number_ String_ (S fuel) st
    = mainState ID_Start ID_Continue Number_ String_ fuel st2 /\
  Forall (fun t => Tk.outerIndex t < Tk.outerIndex tok) (lx_tokens st1) /\
  (forall st',
      mainState ID_Start ID_Continue Number_ String_ fuel st2 = Ok st' ->
      exists after,
        lx_tokens st' = lx_tokens st1 ++ tok :: after /\
        Forall (fun t => Tk.outerIndex tok <= Tk.outerIndex t) after) /\
  (in_text st -> budget st + 2 <= S fuel ->
   mainState ID_Start ID_Continue Number_ String_ fuel st2 <> OutOfFuel).
Proof.
  intros Hord Hhas Hscan Hv k tok st2.
  assert (Hstep : mainState ID_Start ID_Continue Number_ String_ (S fuel) st
                  = mainState ID_Start ID_Continue Number_ String_ fuel st2).
  { simpl. rewrite Hhas, Hscan. simpl.
    unfold push_interpolation, getInterpolation. now rewrite Hv. }
  split; [exact Hstep|]. split; [|split].
  3:{ intros Hin Hb. rewrite <- Hstep. apply mainState_total. left. now split. }
  - apply main_scan_ext in Hscan.
    pose proof (segments_ordered_extends _ _ Hord Hscan) as Hord1.
    eapply Forall_impl; [|exact Hord1]. simpl. intros t Ht. subst k. lia.
  - intros st' H. apply mainState_ext in H as (_ & _ & _ & after & Ht & Ha).
    simpl in Ht, Ha. exists after. split; [now rewrite Ht, <- app_assoc|].
    eapply Forall_impl; [|exact Ha]. simpl. intros t [Ht' _]. subst k. lia.
Qed.

(** [a ${v} b]: the scan of the first fragment leaves the token of [a];
    the slot adds the value token with segment index 1, and the rest of the
    run does not exhaust its fuel. *)
Lemma interpolation_token_witness :
  let st := new_LexerState ["a "; " b"] [JHost 7] in
  let a := mkToken (tok_identifier "a") 0 0 1 in
  let tok := mkToken (tok_value (JHost 7)) 0 1 0 in
  let st2 := mkLexerState 0 1 [a; tok] ["a "; " b"] [JHost 7] in
  segments_ordered st /\ in_text st /\ budget st + 2 <= 10 /\
  mainState Host.ID_Start Host.ID_Continue Host.Number_ Host.String_ 10 st
  = mainState Host.ID_Start Host.ID_Continue Host.Number_ Host.String_ 9 st2 /\
  mainState Host.ID_Start Host.ID_Continue Host.Number_ Host.String_ 9 st2
  <> OutOfFuel.
Proof.
  intros st a tok st2.
  assert (Hord : segments_ordered st) by constructor.
  assert (Hin : in_text st) by (split; [unfold in_buf; simpl; lia | simpl; lia]).
  assert (Hb : budget st + 2 <= 10) by (vm_compute; lia).
  destruct (interpolation_token Host.ID_Start Host.ID_Continue Host.Number_
              Host.String_ 9 st (mkLexerState 2 0 [a] ["a "; " b"] [JHost 7])
              (JHost 7) Hord eq_refl eq_refl eq_refl) as (Hstep & _ & _ & Htot).
  split; [exact Hord|]. split; [exact Hin|]. split; [exact Hb|].
  split; [exact Hstep | exact (Htot Hin Hb)].
Defined.

(** ** The value stack of the runtime *)

Lemma pop_args_spec arity : forall args rs,
  pop_args arity args rs =
  (repeat JUndefined (arity - List.length rs) ++ rev (firstn arity rs) ++ args,
   skipn arity rs).
Proof.
  induction arity as [|n IH]; intros args rs; [reflexivity|].
  destruct rs as [|x rs]; simpl; rewrite IH.
  - rewrite firstn_nil, skipn_nil, Nat.sub_0_r. simpl.
    f_equal. change (JUndefined :: args) with ([JUndefined] ++ args).
    rewrite app_assoc, <- repeat_cons. reflexivity.
  - simpl. now rewrite <- app_assoc.
Qed.

(** X1.  [ParseState.reduce] takes the [arity] topmost values of the value
    stack and passes them to the function in the order they were pushed,
    the topmost last; where the stack holds fewer values, the arguments
    missing are [undefined] and come first.  The result replaces the values
    taken; the rest of the stack, the tokens and the cursor stay. *)
Theorem reduce_arguments (arity : nat) (fn : list JSValue -> result JSValue)
    (st : ParseState) :
  state_reduce arity fn st =
  let* r := fn (repeat JUndefined (arity - List.length (results st))
                ++ rev (firstn arity (results st))) in
  Ok (mkParseState (tokens st) (ps_index st) (r :: skipn arity (results st))).
Proof.
  unfold state_reduce. rewrite pop_args_spec, app_nil_r. reflexivity.
Qed.

(** ** The cursor and the errors of a parse *)

Lemma advances_refl st : advances st st.
Proof. split; [reflexivity|]. split; lia. Qed.

Lemma advances_trans st1 st2 st3 :
  advances st1 st2 -> advances st2 st3 -> advances st1 st3.
Proof.
  intros (Ht1 & Hi1 & Hb1) (Ht2 & Hi2 & Hb2). rewrite Ht1 in *.
  split; [congruence|]. split; [lia|]. intros H.
  destruct (Nat.eq_dec (ps_index st2) (ps_index st3)) as [E|E].
  - rewrite <- E. apply Hb1. lia.
  - apply Hb2. lia.
Qed.

Lemma state_reduce_advances arity fn st st' :
  state_reduce arity fn st = Ok st' -> advances st st'.
Proof.
  unfold state_reduce. destruct (pop_args arity [] (results st)) as [args rs].
  destruct (fn args) as [r| |]; simpl; try discriminate.
  intros [= <-]. split; [reflexivity|]. simpl. split; lia.
Qed.

Lemma state_reduce_error arity fn st e :
  (forall args e', fn args = Throw e' -> e' = TypeError) ->
  state_reduce arity fn st = Throw e -> e = TypeError.
Proof.
  intros Hfn. unfold state_reduce.
  destruct (pop_args arity [] (results st)) as [args rs].
  destruct (fn args) as [r| |] eqn:E; simpl; try discriminate.
  intros [= <-]. eapply Hfn; eassumption.
Qed.

Lemma spread_error x e : spread x = Throw e -> e = TypeError.
Proof. destruct x; simpl; congruence. Qed.

Lemma apply_fn_error host_fn fn args e :
  apply_fn host_fn fn args = Throw e -> e = TypeError.
Proof.
  destruct fn as [[]|]; simpl; try discriminate.
  unfold cons_. destruct (spread (arg 1 args)) eqn:E; simpl; try discriminate.
  intros [= <-]. eapply spread_error; eassumption.
Qed.

Lemma snoc_error args e : snoc_ args = Throw e -> e = TypeError.
Proof.
  unfold snoc_. destruct (spread (arg 0 args)) eqn:E; simpl; try discriminate.
  intros [= <-]. eapply spread_error; eassumption.
Qed.

Lemma error_trace_advances st st1 e :
  advances st st1 -> error_trace st1 e -> error_trace st e.
Proof.
  intros (Ht & Hi & _). destruct e; simpl; auto.
  intros (i & names & Hle & Hr & Hs). exists i, names.
  split; [lia|]. split; [congruence | exact Hs].
Qed.

Section RuntimeFacts.

Variable host_fn : nat -> list JSValue -> JSValue.
Variable parsers : CompiledRules.

Lemma MatchType_parse_advances type st st' :
  MatchType_parse type st = Ok st' -> advances st st'.
Proof.
  unfold MatchType_parse. simpl.
  destruct (nth_error (tokens st) (ps_index st)) as [t|] eqn:E; [|discriminate].
  destruct (TokenType_eqb (token_type t) type); [|discriminate].
  intros [= <-]. assert (ps_index st < List.length (tokens st))
    by (apply nth_error_Some; congruence).
  split; [reflexivity|]. simpl. split; lia.
Qed.

Lemma MatchLiteral_parse_advances v st st' :
  MatchLiteral_parse v st = Ok st' -> advances st st'.
Proof.
  unfold MatchLiteral_parse. simpl.
  destruct (nth_error (tokens st) (ps_index st)) as [t|] eqn:E; [|discriminate].
  destruct (is_operator_or_keyword t) as [s|]; [|discriminate].
  destruct (String.eqb s v); [|discriminate].
  intros [= <-]. assert (ps_index st < List.length (tokens st))
    by (apply nth_error_Some; congruence).
  split; [reflexivity|]. simpl. split; lia.
Qed.

Lemma MatchType_parse_error type st e :
  MatchType_parse type st = Throw e -> error_trace st e.
Proof.
  unfold MatchType_parse. simpl.
  destruct (nth_error (tokens st) (ps_index st)) as [t|] eqn:E.
  - destruct (TokenType_eqb (token_type t) type); [discriminate|].
    intros [= <-]. exists (ps_index st), []. now rewrite E.
  - intros [= <-]. exists (ps_index st), []. now rewrite E.
Qed.

Lemma MatchLiteral_parse_error v st e :
  MatchLiteral_parse v st = Throw e -> error_trace st e.
Proof.
  unfold MatchLiteral_parse. simpl.
  destruct (nth_error (tokens st) (ps_index st)) as [t|] eqn:E.
  - destruct (is_operator_or_keyword t) as [s|].
    + destruct (String.eqb s v); [discriminate|].
      intros [= <-]. exists (ps_index st), []. now rewrite E.
    + intros [= <-]. exists (ps_index st), []. now rewrite E.
  - intros [= <-]. exists (ps_index st), []. now rewrite E.
Qed.

Lemma add_rule_frame_error name r st e :
  (forall e', r = Throw e' -> error_trace st e') ->
  add_rule_frame name r = Throw e -> error_trace st e.
Proof.
  intros Hr. destruct r as [a|e'|]; simpl; try discriminate.
  specialize (Hr e' eq_refl). destruct e'; simpl in *; intros [= <-]; auto.
  destruct Hr as (i & names & Hle & Hrec & Hs). exists i, (names ++ [name]).
  split; [exact Hle|]. split; [exact Hrec|].
  now rewrite Hs, map_app, app_assoc.
Qed.

Lemma Seq_parse_app (f : Parser -> ParseState -> result ParseState) ps qs :
  forall st,
    Seq_parse f (ps ++ qs) st = let* st1 := Seq_parse f ps st in Seq_parse f qs st1.
Proof.
  induction ps as [|p ps IH]; intros st; simpl; [reflexivity|].
  destruct (f p st) as [st1| |]; simpl; auto.
Qed.

Lemma Repeat_loop_S fuel p ms st :
  Repeat_loop host_fn parsers (S fuel) p ms st =
  match peek st with
  | None => Ok st
  | Some nxt =>
      if negb (set_has ms (brandToken (Some nxt))) then Ok st
      else
        let* st := parse host_fn parsers fuel p st in
        let* st := state_reduce 2 snoc_ st in
        Repeat_loop host_fn parsers fuel p ms st
  end.
Proof. reflexivity. Qed.

(** A parse moves the cursor forward only, and its errors are type errors
    or match errors on a token at or after the cursor. *)
Lemma parse_inv fuel :
  (forall p st,
      (forall st', parse host_fn parsers fuel p st = Ok st' -> advances st st') /\
      (forall e, parse host_fn parsers fuel p st = Throw e -> error_trace st e)) /\
  (forall p ms st,
      (forall st', Repeat_loop host_fn parsers fuel p ms st = Ok st' ->
                   advances st st') /\
      (forall e, Repeat_loop host_fn parsers fuel p ms st = Throw e ->
                 error_trace st e)).
Proof.
  induction fuel as [|fuel [IHp IHr]]; [split; intros; split; discriminate|].
  assert (Hseq : forall ps st,
             (forall st', Seq_parse (parse host_fn parsers fuel) ps st = Ok st' ->
                          advances st st') /\
             (forall e, Seq_parse (parse host_fn parsers fuel) ps st = Throw e ->
                        error_trace st e)).
  { induction ps as [|p ps IH]; intros st; simpl.
    - split; [intros st' [= <-]; apply advances_refl | discriminate].
    - destruct (IHp p st) as [Hok Herr].
      destruct (parse host_fn parsers fuel p st) as [st1| |]; simpl.
      + specialize (Hok _ eq_refl). destruct (IH st1) as [Hok1 Herr1]. split.
        * intros st' H. eapply advances_trans; eauto.
        * intros e H. eapply error_trace_advances; eauto.
      + split; [discriminate|]. intros e' [= <-]. now apply Herr.
      + split; discriminate. }
  split.
  - intros p st. destruct p; simpl.
    + split; [apply MatchType_parse_advances | apply MatchType_parse_error].
    + split; [apply MatchLiteral_parse_advances | apply MatchLiteral_parse_error].
    + destruct (cr_get parsers ruleName) as [p'|].
      * destruct (IHp p' st) as [Hok Herr]. split.
        -- intros st' H. apply Hok.
           destruct (parse host_fn parsers fuel p' st) as [a|[]|]; simpl in H;
             congruence.
        -- intros e H. eapply add_rule_frame_error; [|exact H]. exact Herr.
      * split; [discriminate|]. now intros e [= <-].
    + apply Hseq.
    + split; [apply state_reduce_advances|].
      intros e H. apply state_reduce_error in H; [now subst|].
      intros args e'. apply apply_fn_error.
    + unfold Alt_parse.
      destruct (pm_get parserMap (brandToken (peek st))) as [q|]; [apply IHp|].
      destruct (pm_get parserMap brandEof) as [q|]; [apply IHp|].
      split; [discriminate|]. intros e [= <-].
      exists (ps_index st), []. split; [lia|]. split; [reflexivity|].
      now rewrite app_nil_r.
    + destruct (IHr p matchSet (push st (JArray []))) as [Hok Herr]. split.
      * intros st' H. apply Hok in H. exact H.
      * intros e H. apply Herr in H. destruct e; simpl in *; auto.
  - intros p ms st. rewrite Repeat_loop_S. destruct (peek st) as [nxt|] eqn:Epk.
    2:{ split; [intros st' [= <-]; apply advances_refl | discriminate]. }
    destruct (negb (set_has ms (brandToken (Some nxt)))).
    { split; [intros st' [= <-]; apply advances_refl | discriminate]. }
    destruct (IHp p st) as [Hok Herr].
    destruct (parse host_fn parsers fuel p st) as [st1| |]; simpl.
    + specialize (Hok _ eq_refl).
      destruct (state_reduce 2 snoc_ st1) as [st2| |] eqn:E2; simpl.
      * apply state_reduce_advances in E2.
        destruct (IHr p ms st2) as [Hok2 Herr2]. split.
        -- intros st' H. eapply advances_trans; [exact Hok|].
           eapply advances_trans; [exact E2 | auto].
        -- intros e H. eapply error_trace_advances; [exact Hok|].
           eapply error_trace_advances; [exact E2 | auto].
      * split; [discriminate|]. intros e' [= <-].
        apply state_reduce_error in E2; [now subst|]. intros args e'. apply snoc_error.
      * split; discriminate.
    + split; [discriminate|]. intros e' [= <-]. now apply Herr.
    + split; discriminate.
Qed.

End RuntimeFacts.

(** X2.  A parse never goes back: when a matcher succeeds the tokens are
    the ones it was given and the cursor is where it was or further on.  A
    cursor that has moved is within the tokens, or just after the last one,
    and so is a cursor that started there. *)
Theorem parse_moves_forward (host_fn : nat -> list JSValue -> JSValue)
    (parsers : CompiledRules) (fuel : nat) (p : Parser) (st st' : ParseState) :
  parse host_fn parsers fuel p st = Ok st' ->
  tokens st' = tokens st /\ ps_index st <= ps_index st' /\
  (ps_index st < ps_index st' -> ps_index st' <= List.length (tokens st)) /\
  (ps_index st <= List.length (tokens st) ->
   ps_index st' <= List.length (tokens st)).
Proof.
  intros H. apply (proj1 (parse_inv host_fn parsers fuel)) in H.
  destruct H as (Ht & Hi & Hb). split; [exact Ht|]. split; [exact Hi|].
  split; [exact Hb|]. intros Hle.
  destruct (Nat.eq_dec (ps_index st) (ps_index st')) as [E|E]; [lia|].
  apply Hb. lia.
Qed.

(** One value token: the matcher of a value moves the cursor from 0 to 1. *)
Lemma parse_moves_forward_witness :
  let toks := [mkToken (tok_value (JNumber 1)) 0 0 1] in
  let st' := mkParseState toks 1 [JNumber 1] in
  tokens st' = toks /\ 0 <= ps_index st' /\
  (0 < ps_index st' -> ps_index st' <= 1) /\ (0 <= 1 -> ps_index st' <= 1).
Proof.
  intros toks st'.
  exact (parse_moves_forward (fun _ _ => JUndefined) [] 1 (MatchType t_value)
           (new_ParseState toks) st' eq_refl).
Defined.



(** X4.  [Seq.parse] runs its matchers one after the other on the state:
    the matcher of a concatenation is the matcher of the first part followed
    by the matcher of the second, and an error of the first part is the
    error of the whole. *)
Theorem Seq_composes (host_fn : nat -> list JSValue -> JSValue)
    (parsers : CompiledRules) (fuel : nat) (ps qs : list Parser)
    (st : ParseState) :
  parse host_fn parsers (S fuel) (Seq (ps ++ qs)) st =
  let* st1 := parse host_fn parsers (S fuel) (Seq ps) st in
  parse host_fn parsers (S fuel) (Seq qs) st1.
Proof. simpl. apply Seq_parse_app. Qed.

(** ** Repetitions and optional elements *)

Section RepeatFacts.

Variable host_fn : nat -> list JSValue -> JSValue.
Variable parsers : CompiledRules.

Lemma parse_Repeat_S fuel p ms st :
  parse host_fn parsers (S fuel) (Repeat p ms) st
  = Repeat_loop host_fn parsers fuel p ms (push st (JArray [])).
Proof. reflexivity. Qed.

(** The loop of [Repeat.parse] appends the values of the items to the
    array on top of the stack, and stops in front of a token that is not in
    the match set, or at the end of the input. *)
Lemma Repeat_loop_collects p ms :
  pushes_one host_fn parsers p ->
  forall fuel st st' acc base,
    results st = JArray acc :: base ->
    Repeat_loop host_fn parsers fuel p ms st = Ok st' ->
    (exists vs, results st' = JArray (acc ++ vs) :: base) /\
    (peek st' = None \/ set_has ms (brandToken (peek st')) = false).
Proof.
  intros Hp. induction fuel as [|fuel IH]; intros st st' acc base Hres H;
    [discriminate|].
  rewrite Repeat_loop_S in H. destruct (peek st) as [nxt|] eqn:Epk.
  2:{ injection H as <-. split; [exists []; now rewrite app_nil_r | now left]. }
  destruct (set_has ms (brandToken (Some nxt))) eqn:Ehas; simpl in H.
  2:{ injection H as <-. split; [exists []; now rewrite app_nil_r|].
      right. now rewrite Epk. }
  destruct (parse host_fn parsers fuel p st) as [st1| |] eqn:E1; simpl in H;
    try discriminate.
  destruct (Hp _ _ _ E1) as [_ [v Hv]].
  unfold state_reduce in H. rewrite Hv, Hres in H. simpl in H.
  eapply IH in H; [|reflexivity].
  destruct H as [(vs & Hvs) Hstop]. split; [|exact Hstop].
  exists (v :: vs). rewrite Hvs. now rewrite <- app_assoc.
Qed.

Lemma parse_Seq_S fuel ps st :
  parse host_fn parsers (S fuel) (Seq ps) st
  = Seq_parse (parse host_fn parsers fuel) ps st.
Proof. reflexivity. Qed.

End RepeatFacts.

(** X5.  [Repeat.parse] pushes one array.  When the item matcher pushes
    one value at a time, a successful repetition leaves the tokens alone,
    puts one array on the value stack above what was there, and stops with
    the cursor at the end of the input or in front of a token that is not in
    the match set.  At the end of the input, and in front of a token outside
    the match set, it pushes the empty array and consumes nothing. *)
Theorem Repeat_collects (host_fn : nat -> list JSValue -> JSValue)
    (parsers : CompiledRules) (p : Parser) (matchSet : TSet) :
  pushes_one host_fn parsers p ->
  (forall fuel st st',
      parse host_fn parsers fuel (Repeat p matchSet) st = Ok st' ->
      tokens st' = tokens st /\ ps_index st <= ps_index st' /\
      (exists vs, results st' = JArray vs :: results st) /\
      (peek st' = None \/ set_has matchSet (brandToken (peek st')) = false)) /\
  (forall fuel st,
      peek st = None \/ set_has matchSet (brandToken (peek st)) = false ->
      parse host_fn parsers (S (S fuel)) (Repeat p matchSet) st
      = Ok (push st (JArray []))).
Proof.
  intros Hp. split.
  - intros fuel st st' H.
    pose proof (proj1 (proj1 (parse_inv host_fn parsers fuel) _ _) _ H)
      as (Ht & Hi & _).
    split; [exact Ht|]. split; [exact Hi|].
    destruct fuel as [|fuel]; [discriminate|]. rewrite parse_Repeat_S in H.
    eapply Repeat_loop_collects with (acc := []) in H; [|exact Hp|reflexivity].
    exact H.
  - intros fuel st Hstop. rewrite parse_Repeat_S, Repeat_loop_S.
    change (peek (push st (JArray []))) with (peek st).
    destruct (peek st) as [nxt|]; [|reflexivity].
    destruct Hstop as [Hstop|Hstop]; [discriminate|]. now rewrite Hstop.
Qed.

(** Values up to a comma: the array of the two values, the cursor in
    front of the comma. *)
Lemma Repeat_collects_witness :
  let num z := mkToken (tok_value (JNumber z)) 0 0 1 in
  let toks := [num 1%Z; num 2%Z; mkToken (tok_operator ",") 0 0 1] in
  let host_fn := fun (_ : nat) (_ : list JSValue) => JUndefined in
  let p := Repeat (MatchType t_value) [brandType t_value] in
  parse host_fn [] 9 p (new_ParseState toks)
  = Ok (mkParseState toks 2 [JArray [JNumber 1; JNumber 2]]) /\
  exists vs, [JArray [JNumber 1; JNumber 2]] = [JArray vs].
Proof.
  intros num toks host_fn p. split; [reflexivity|].
  destruct (proj1 (Repeat_collects host_fn [] (MatchType t_value)
                     [brandType t_value] (MatchType_pushes_one host_fn [] t_value))
              9 (new_ParseState toks)
              (mkParseState toks 2 [JArray [JNumber 1; JNumber 2]]) eq_refl)
    as (_ & _ & Hvs & _).
  exact Hvs.
Defined.

Section CompiledRepeat.

Variable rules : RuleMap.

Lemma compile_repeat0_shape e c p c' :
  compile rules (repeat0 e) c = Ok (p, c') ->
  exists pe ms, p = Repeat pe ms /\ Compiled rules e pe.
Proof.
  simpl. intros H.
  destruct (firstSet_get rules (repeat0 e) c) as [[s c1]| |]; simpl in H;
    try discriminate.
  destruct (compile rules e c1) as [[pe c2]| |] eqn:E; simpl in H; try discriminate.
  destruct (firstSet_get rules e c2) as [[ts c3]| |]; simpl in H; try discriminate.
  injection H as <- <-. exists pe, (set_of_list ts). split; [reflexivity|].
  now exists c1, c2.
Qed.

End CompiledRepeat.



(** ** The dispatch table the compiler builds *)

Lemma pm_get_set_same m k p : pm_get (pm_set m k p) k = Some p.
Proof.
  induction m as [|[k' p'] m IH]; simpl.
  - now rewrite String.eqb_refl.
  - destruct (String.eqb k k') eqn:E; simpl; rewrite E; [reflexivity | exact IH].
Qed.

Lemma pm_get_set_other m k p k' :
  k' <> k -> pm_get (pm_set m k p) k' = pm_get m k'.
Proof.
  intros Hne. apply String.eqb_neq in Hne.
  induction m as [|[a b] m IH]; simpl.
  - now rewrite Hne.
  - destruct (String.eqb k a) eqn:E; simpl.
    + apply String.eqb_eq in E. subst a. now rewrite Hne.
    + destruct (String.eqb k' a); [reflexivity | exact IH].
Qed.

(** After the loop over the terminals of a branch, each of them has the
    matcher of the branch, and the other keys are as before. *)
Lemma alt_set_terminals_get (k : FS Parser) (P : Parser -> Prop) ts :
  (forall c p c', k c = Ok (p, c') -> P p) ->
  forall m c m' c',
    alt_set_terminals k ts m c = Ok (m', c') ->
    forall t,
      (In t ts -> exists p, pm_get m' t = Some p /\ P p) /\
      (~ In t ts -> pm_get m' t = pm_get m t).
Proof.
  intros Hk. induction ts as [|x ts IH]; intros m c m' c' H t; simpl in H.
  - injection H as <- <-. split; [intros [] | reflexivity].
  - destruct (k c) as [[p c1]| |] eqn:E; simpl in H; try discriminate.
    destruct (IH _ _ _ _ H t) as [Hin Hout]. split.
    + intros [->|Ht].
      * destruct (in_dec string_dec t ts) as [Hi|Hn]; [now apply Hin|].
        rewrite (Hout Hn), pm_get_set_same. exists p. split; [reflexivity|].
        eapply Hk; eassumption.
      * now apply Hin.
    + intros Hn. simpl in Hn. rewrite Hout by tauto.
      apply pm_get_set_other. intros ->. tauto.
Qed.

Lemma alt_branches_cons rules (k : SimpleAST -> FS Parser) e es m c :
  alt_branches rules k (e :: es) m c =
  (let* (ts, c) := firstSet_get rules e c in
   let* (pm, c) := alt_set_terminals (k e) ts m c in
   alt_branches rules k es pm c).
Proof. reflexivity. Qed.

Lemma compile_alt_unfold rules exprs c :
  compile rules (alt exprs) c =
  (let* (_, c) := firstSet_get rules (alt exprs) c in
   let* (parserMap, c) := alt_branches rules (compile rules) exprs [] c in
   Ok (Alt parserMap, c)).
Proof. reflexivity. Qed.

(** The steps of the compilation of an alternative of two branches. *)
Lemma compile_alt2 rules a b c P c' :
  compile rules (alt [a; b]) c = Ok (P, c') ->
  exists s c1 ta c2 m1 c3 tb c4 m2,
    firstSet_get rules (alt [a; b]) c = Ok (s, c1) /\
    firstSet_get rules a c1 = Ok (ta, c2) /\
    alt_set_terminals (compile rules a) ta [] c2 = Ok (m1, c3) /\
    firstSet_get rules b c3 = Ok (tb, c4) /\
    alt_set_terminals (compile rules b) tb m1 c4 = Ok (m2, c') /\
    P = Alt m2.
Proof.
  rewrite compile_alt_unfold. intros H.
  destruct (firstSet_get rules (alt [a; b]) c) as [[s c1]| |] eqn:E0;
    cbn [bind] in H; try discriminate.
  rewrite alt_branches_cons in H.
  destruct (firstSet_get rules a c1) as [[ta c2]| |] eqn:E1; cbn [bind] in H;
    try discriminate.
  destruct (alt_set_terminals (compile rules a) ta [] c2) as [[m1 c3]| |] eqn:E2;
    cbn [bind] in H; try discriminate.
  rewrite alt_branches_cons in H.
  destruct (firstSet_get rules b c3) as [[tb c4]| |] eqn:E3; cbn [bind] in H;
    try discriminate.
  destruct (alt_set_terminals (compile rules b) tb m1 c4) as [[m2 c5]| |] eqn:E4;
    cbn [bind] in H; try discriminate.
  simpl in H. injection H as <- <-.
  exists s, c1, ta, c2, m1, c3, tb, c4, m2. auto 10.
Qed.

(** X7.  The simplifier rewrites [maybe] of an expression into the
    alternative of the expression and of the node that matches nothing and
    pushes [null].  When that alternative is compiled with a cache whose
    sets are sound, as the empty cache of a new compiler is, the entry of
    the end of input in the dispatch table is that node: in front of a token
    that has no entry of its own, the matcher pushes [null] and consumes
    nothing. *)
Theorem maybe_simplify (identifierPattern : string -> bool) (expr : AST)
    (s s' : ASTSimplifier) (e : SimpleAST) :
  simplify identifierPattern expr s = Ok (e, s') ->
  simplify identifierPattern (AST.maybe expr) s = Ok (alt [e; pushNull], s') /\
  forall rules c P c',
    cache_ok rules c ->
    compile rules (alt [e; pushNull]) c = Ok (P, c') ->
    exists parserMap,
      P = Alt parserMap /\
      pm_get parserMap brandEof = Some (Reduce 0 (Some fn_null)) /\
      forall host_fn parsers fuel st,
        pm_get parserMap (brandToken (peek st)) = None ->
        parse host_fn parsers (S (S fuel)) P st = Ok (push st JNull).
Proof.
  intros He. split; [simpl; now rewrite He|].
  intros rules c P c' Hc H.
  apply compile_alt2 in H
    as (s0 & c1 & ts & c2 & m1 & c3 & ts2 & c4 & m2 & E0 & E1 & E2 & E3 & E4 & ->).
  apply (firstSet_get_sound rules) in E0 as [Hc1 _]; [|exact Hc].
  apply (firstSet_get_sound rules) in E1 as [Hc2 _]; [|exact Hc1].
  apply (alt_set_terminals_cache rules) in E2;
    [|intros a b d Ha Hb; now apply (compile_sound rules) in Hb|exact Hc2].
  apply (firstSet_get_sound rules) in E3 as [_ (_ & Heof & _)]; [|exact E2].
  exists m2. split; [reflexivity|].
  assert (Hget : pm_get m2 brandEof = Some (Reduce 0 (Some fn_null))).
  { destruct (alt_set_terminals_get (compile rules pushNull)
                (fun p => p = Reduce 0 (Some fn_null)) ts2
                ltac:(intros a b d Hb; simpl in Hb; now injection Hb as <- _)
                _ _ _ _ E4 brandEof) as [Hin _].
    destruct Hin as (p & Hp & ->); [|exact Hp].
    apply Heof. constructor. }
  split; [exact Hget|].
  intros host_fn parsers fuel st Hmiss. simpl. unfold Alt_parse.
  now rewrite Hmiss, Hget.
Qed.

(** [%value?] in front of a comma: [null], and the cursor stays. *)
Lemma maybe_simplify_witness :
  let node := alt [value; pushNull] in
  let toks := [mkToken (tok_operator ",") 0 0 1] in
  let host_fn := fun (_ : nat) (_ : list JSValue) => JUndefined in
  simplify (fun _ => false) (AST.maybe (AST.terminal t_value)) new_ASTSimplifier
  = Ok (node, new_ASTSimplifier) /\
  exists P c',
    compile [] node [] = Ok (P, c') /\
    parse host_fn [] 2 P (new_ParseState toks)
    = Ok (push (new_ParseState toks) JNull).
Proof.
  intros node toks host_fn.
  destruct (maybe_simplify (fun _ => false) (AST.terminal t_value)
              new_ASTSimplifier new_ASTSimplifier value eq_refl) as [Hs Hp].
  split; [exact Hs|].
  destruct (Hp [] [] _ _ (cache_ok_nil []) eq_refl) as (pm & HP & _ & Hrun).
  injection HP as <-.
  eexists. eexists. split; [reflexivity|].
  apply (Hrun host_fn [] 0 (new_ParseState toks)). reflexivity.
Defined.

(** ** The analyser computes the first-sets *)

Section FirstFacts.

Variable rules : RuleMap.

Ltac bind_step H E :=
  match type of H with
  | bind ?m _ = _ =>
      let a := fresh "a" in
      destruct m as [a| |] eqn:E; simpl in H; [|discriminate H|discriminate H]
  end.

Lemma First_seq_nil t : First rules (seq []) t <-> t = brandEof.
Proof.
  split.
  - intros H. inversion H; subst; [|reflexivity].
    match goal with E : ?p ++ _ :: _ = [] |- _ => destruct p; discriminate E end.
  - intros ->. apply F_seq_eof. intros e [].
Qed.

Lemma First_seq_inv exprs t :
  First rules (seq exprs) t ->
  (exists pre x post,
      exprs = pre ++ x :: post /\ (forall e, In e pre -> First rules e brandEof) /\
      First rules x t /\ t <> brandEof) \/
  (t = brandEof /\ forall e, In e exprs -> First rules e brandEof).
Proof.
  intros H. inversion H; subst.
  - left. eexists. eexists. eexists. split; [reflexivity|]. auto.
  - right. auto.
Qed.

Lemma First_seq_cons e rest t :
  First rules (seq (e :: rest)) t <->
  (First rules e t /\ t <> brandEof) \/
  (First rules e brandEof /\ First rules (seq rest) t).
Proof.
  split.
  - intros H. apply First_seq_inv in H
      as [(pre & x & post & Heq & Hpre & Hx & Hne)|[-> Hall]].
    + destruct pre as [|a pre]; simpl in Heq; injection Heq as -> ->.
      * now left.
      * right. split; [apply Hpre; now left|].
        apply F_seq; [|exact Hx|exact Hne]. intros y Hy. apply Hpre. now right.
    + right. split; [apply Hall; now left|].
      apply F_seq_eof. intros y Hy. apply Hall. now right.
  - intros [[H Hne]|[He H]].
    + now apply (F_seq rules [] e rest).
    + apply First_seq_inv in H
        as [(pre & x & post & -> & Hpre & Hx & Hne)|[-> Hall]].
      * apply (F_seq rules (e :: pre) x post); [|exact Hx|exact Hne].
        intros y [<-|Hy]; auto.
      * apply F_seq_eof. intros y [<-|Hy]; auto.
Qed.

Lemma cache_first_nil : cache_first rules [].
Proof. intros node s H. discriminate. Qed.

Lemma cache_first_set c node s :
  cache_first rules c -> first_entry rules node s ->
  cache_first rules (cache_set c node s).
Proof.
  intros Hc Hs m t H.
  destruct (SimpleAST_eqb m node) eqn:E.
  - apply SimpleAST_eqb_eq in E. subst m.
    rewrite cache_get_set_same in H. now injection H as <-.
  - rewrite cache_get_set_other in H; [now apply Hc|].
    intros ->. now rewrite SimpleAST_eqb_refl in E.
Qed.

Lemma alt_loop_first fuel recurSet exprs :
  Forall (get_first_at rules fuel) exprs ->
  forall set c s c',
    cache_first rules c ->
    alt_loop (get rules fuel) recurSet exprs set c = Ok (s, c') ->
    cache_first rules c' /\
    forall t, In t s <-> In t set \/ exists e, In e exprs /\ First rules e t.
Proof.
  induction 1 as [|e es He Hes IH]; intros set c s c' Hc H; simpl in H.
  - injection H as <- <-. split; [exact Hc|]. intros t. split; [now left|].
    intros [H|(e & [] & _)]. exact H.
  - bind_step H E1. destruct a as [ts c1].
    apply He in E1 as [Hc1 [Hts _]]; [|exact Hc].
    bind_step H E2. apply merge_terminals_Ok in E2 as (-> & _ & _).
    apply IH in H as (Hc' & Hiff); [|exact Hc1].
    split; [exact Hc'|]. intros t. rewrite Hiff, in_app_iff, Hts. split.
    + intros [[H|H]|(x & Hx & Hf)]; auto.
      * right. exists e. split; [now left | exact H].
      * right. exists x. split; [now right | exact Hf].
    + intros [H|(x & [<-|Hx] & Hf)]; auto. right. exists x. auto.
Qed.

Lemma seq_loop_first fuel recurSet exprs :
  Forall (get_first_at rules fuel) exprs ->
  forall set c s c',
    cache_first rules c ->
    seq_loop (get rules fuel) recurSet exprs set c = Ok (s, c') ->
    cache_first rules c' /\
    forall t,
      In t s <->
      match exprs with
      | [] => In t set
      | _ => (In t set /\ t <> brandEof) \/ First rules (seq exprs) t
      end.
Proof.
  induction 1 as [|e es He Hes IH]; intros set c s c' Hc H; simpl in H.
  - injection H as <- <-. split; [exact Hc | reflexivity].
  - bind_step H E1. destruct a as [ts c1].
    apply He in E1 as [Hc1 [Hts _]]; [|exact Hc].
    bind_step H E2. apply merge_terminals_Ok in E2 as (-> & _ & _).
    destruct (set_has (set_delete set brandEof ++ ts) brandEof) eqn:E3; simpl in H.
    + apply set_has_In in E3. apply in_app_or in E3 as [E3|E3];
        [apply set_delete_In in E3; tauto|].
      apply Hts in E3.
      apply IH in H as (Hc' & Hiff); [|exact Hc1].
      split; [exact Hc'|]. intros t. rewrite Hiff, First_seq_cons.
      destruct es as [|e' es'].
      * rewrite in_app_iff, set_delete_In, Hts, First_seq_nil. split.
        -- intros [H|H]; [now left|].
           destruct (string_dec t brandEof) as [->|Hne]; [right; now right|].
           right. now left.
        -- intros [H|[[H _]|[_ ->]]]; auto.
      * rewrite in_app_iff, set_delete_In, Hts. tauto.
    + apply set_has_false in E3. injection H as <- <-.
      split; [exact Hc1|]. intros t.
      rewrite in_app_iff, set_delete_In, Hts, First_seq_cons.
      assert (Hno : ~ First rules e brandEof).
      { intros Hf. apply E3. apply in_or_app. right. now apply Hts. }
      split.
      * intros [H|H]; [now left|]. right. left. split; [exact H|].
        intros ->. contradiction.
      * intros [H|[[H _]|[H _]]]; auto. contradiction.
Qed.

Lemma get_first fuel : forall node, get_first_at rules fuel node.
Proof.
  induction fuel as [fuel IHfuel] using lt_wf_ind.
  induction node as [v| | |v|e IHe|es IHes|es IHes|n f] using SimpleAST_ind';
    intros recurSet c s c' Hc H; rewrite get_unfold in H;
    (destruct (cache_get c _) as [s0|] eqn:Ecache;
     [injection H as <- <-; split; [exact Hc | now apply Hc] |]);
    bind_step H E; destruct a as [res c1]; injection H as <- <-; simpl in E.
  - injection E as <- <-.
    assert (G : forall t, In t [brandLiteral v] <-> First rules (literal v) t).
    { intros t. split; [intros [<-|[]]; constructor|].
      intros H. inversion H. now left. }
    split; [apply cache_first_set; [assumption|] | ]; (split; [exact G | exact I]).
  - injection E as <- <-.
    assert (G : forall t, In t [brandType t_identifier] <-> First rules identifier t).
    { intros t. split; [intros [<-|[]]; constructor|].
      intros H. inversion H. now left. }
    split; [apply cache_first_set; [assumption|] | ]; (split; [exact G | exact I]).
  - injection E as <- <-.
    assert (G : forall t, In t [brandType t_value] <-> First rules value t).
    { intros t. split; [intros [<-|[]]; constructor|].
      intros H. inversion H. now left. }
    split; [apply cache_first_set; [assumption|] | ]; (split; [exact G | exact I]).
  - destruct (recur_has recurSet v); [discriminate|].
    destruct (rules_get rules v) as [next|] eqn:Er; [|discriminate].
    destruct fuel as [|fuel']; [discriminate|]. simpl in E.
    apply IHfuel in E as [Hc1 [Hres _]]; [|lia|exact Hc].
    assert (G : forall t, In t res <-> First rules (nonterminal v) t).
    { intros t. rewrite Hres. split.
      - intros H. econstructor; eassumption.
      - intros H. inversion H; subst. congruence. }
    split; [apply cache_first_set; [assumption|] | ]; (split; [exact G | exact I]).
  - bind_step E E1. destruct a as [innerSet c2].
    apply IHe in E1 as [Hc2 [Hin _]]; [|exact Hc].
    destruct (set_has innerSet brandEof) eqn:E2; [discriminate|].
    injection E as <- <-. apply set_has_false in E2.
    assert (Hchk : ~ First rules e brandEof) by (intros Hf; now apply E2, Hin).
    assert (G : forall t, In t (set_of_list (innerSet ++ [brandEof]))
                          <-> First rules (repeat0 e) t).
    { intros t. rewrite set_of_list_In, in_app_iff, Hin. split.
      - intros [H|[<-|[]]]; [now constructor | apply F_repeat0_eof].
      - intros H. inversion H; subst; [now left | right; now left]. }
    split; [apply cache_first_set; [assumption|] | ]; (split; [exact G | exact Hchk]).
  - apply seq_loop_first in E as (Hc1 & Hiff); [|exact IHes|exact Hc].
    assert (G : forall t, In t res <-> First rules (seq es) t).
    { intros t. rewrite Hiff. destruct es as [|e es'].
      - rewrite First_seq_nil. split; [intros [<-|[]]; reflexivity | intros ->; now left].
      - split; [|now right]. intros [[[<-|[]] Hne]|H]; [congruence | exact H]. }
    split; [apply cache_first_set; [assumption|] | ]; (split; [exact G | exact I]).
  - apply alt_loop_first in E as (Hc1 & Hiff); [|exact IHes|exact Hc].
    assert (G : forall t, In t res <-> First rules (alt es) t).
    { intros t. rewrite Hiff. split.
      - intros [[]|(x & Hx & Hf)]. econstructor; eassumption.
      - intros H. inversion H; subst. right. eauto. }
    split; [apply cache_first_set; [assumption|] | ]; (split; [exact G | exact I]).
  - injection E as <- <-.
    assert (G : forall t, In t [brandEof] <-> First rules (reduce n f) t).
    { intros t. split; [intros [<-|[]]; constructor|].
      intros H. inversion H. now left. }
    split; [apply cache_first_set; [assumption|] | ]; (split; [exact G | exact I]).
Qed.

Lemma firstSet_get_first node c s c' :
  cache_first rules c -> firstSet_get rules node c = Ok (s, c') ->
  cache_first rules c' /\ first_entry rules node s.
Proof. intros Hc H. eapply get_first; eassumption. Qed.

End FirstFacts.

(** X8.  The analyser computes the first-set of the grammar.  The set
    [FirstSetBuilder.get] returns for a node, from an empty cache, has no
    repetition and holds exactly the terminals a match of the node can begin
    with; it holds the end of input exactly when the node can match no token
    at all. *)
Theorem first_set_computed (rules : RuleMap) (fuel : nat) (node : SimpleAST)
    (recurSet : list symbol) (s : TSet) (c' : Cache) :
  get rules fuel node recurSet [] = Ok (s, c') ->
  NoDup s /\
  (forall t, In t s <-> First rules node t) /\
  (In brandEof s <-> Nullable rules node).
Proof.
  intros H.
  pose proof (get_sound rules fuel node recurSet [] s c' (cache_ok_nil rules) H)
    as [_ (Hnd & Heof & _)].
  pose proof (get_first rules fuel node recurSet [] s c' (cache_first_nil rules) H)
    as [_ [Hf _]].
  auto.
Qed.

(** [A "x"? "y"]: the rule can begin with an [x] or a [y]. *)
Lemma first_set_computed_witness :
  let node := seq [alt [literal "x"; pushNull]; literal "y"] in
  exists c',
    get [] 0 node [] [] = Ok ([brandLiteral "x"; brandLiteral "y"], c') /\
    First [] node (brandLiteral "y").
Proof.
  intros node. eexists. split; [reflexivity|].
  apply (proj1 (proj2 (first_set_computed [] 0 node [] _ _ eq_refl))).
  right. now left.
Defined.

(** ** The matchers the compiler builds *)

Lemma pm_set_keeps m k p k' :
  pm_get m k' <> None -> pm_get (pm_set m k p) k' <> None.
Proof.
  intros H. destruct (string_dec k' k) as [->|Hne].
  - rewrite pm_get_set_same. discriminate.
  - now rewrite pm_get_set_other.
Qed.

Section CompiledMatchers.

Variable rules : RuleMap.

(** The loop over the terminals of a branch, with an invariant of the
    cache: each terminal gets a matcher of the branch, and the other keys
    stay. *)
Lemma alt_set_terminals_inv (I : Cache -> Prop) (k : FS Parser)
    (P : Parser -> Prop) ts :
  (forall c p c', I c -> k c = Ok (p, c') -> I c' /\ P p) ->
  forall m c m' c',
    I c -> alt_set_terminals k ts m c = Ok (m', c') ->
    I c' /\
    forall t,
      (In t ts -> exists p, pm_get m' t = Some p /\ P p) /\
      (~ In t ts -> pm_get m' t = pm_get m t).
Proof.
  intros Hk. induction ts as [|x ts IH]; intros m c m' c' Hc H; simpl in H.
  - injection H as <- <-. split; [exact Hc|]. intros t.
    split; [intros [] | reflexivity].
  - destruct (k c) as [[p c1]| |] eqn:E; simpl in H; try discriminate.
    destruct (Hk _ _ _ Hc E) as [Hc1 Hp].
    destruct (IH _ _ _ _ Hc1 H) as [Hc' Hall]. split; [exact Hc'|].
    intros t. destruct (Hall t) as [Hin Hout]. split.
    + intros [->|Ht].
      * destruct (in_dec string_dec t ts) as [Hi|Hn]; [now apply Hin|].
        rewrite (Hout Hn), pm_get_set_same. now exists p.
      * now apply Hin.
    + intros Hn. simpl in Hn. rewrite Hout by tauto.
      apply pm_get_set_other. intros ->. tauto.
Qed.

Lemma alt_branches_first exprs :
  Forall (compile_first_at rules) exprs ->
  forall m c m' c',
    cache_first rules c ->
    alt_branches rules (compile rules) exprs m c = Ok (m', c') ->
    cache_first rules c' /\
    (forall k q, pm_get m' k = Some q ->
       pm_get m k = Some q \/
       exists e, In e exprs /\ First rules e k /\ MatcherOf rules e q /\
                 Compiled rules e q) /\
    (forall k, pm_get m k <> None \/ (exists e, In e exprs /\ First rules e k) ->
               pm_get m' k <> None).
Proof.
  induction 1 as [|e es He Hes IH]; intros m c m' c' Hc H.
  - simpl in H. injection H as <- <-. split; [exact Hc|]. split; [auto|].
    intros k [Hk|(e & [] & _)]. exact Hk.
  - rewrite alt_branches_cons in H.
    destruct (firstSet_get rules e c) as [[ts c1]| |] eqn:E1; cbn [bind] in H;
      try discriminate.
    apply (firstSet_get_first rules) in E1 as [Hc1 [Hts _]]; [|exact Hc].
    destruct (alt_set_terminals (compile rules e) ts m c1) as [[m1 c2]| |] eqn:E2;
      cbn [bind] in H; try discriminate.
    apply (alt_set_terminals_inv (cache_first rules) _
             (fun q => MatcherOf rules e q /\ Compiled rules e q)) in E2
      as [Hc2 Hm1]; [|exact He|exact Hc1].
    apply IH in H as (Hc' & Hentries & Hkeys); [|exact Hc2].
    split; [exact Hc'|]. split.
    + intros k q Hq. apply Hentries in Hq as [Hq|(x & Hx & Hf & Hm)].
      * destruct (Hm1 k) as [Hin Hout].
        destruct (in_dec string_dec k ts) as [Hi|Hn].
        -- destruct (Hin Hi) as (p & Hp & HP). rewrite Hp in Hq.
           injection Hq as <-. right. exists e. split; [now left|].
           split; [now apply Hts | exact HP].
        -- left. now rewrite <- (Hout Hn).
      * right. exists x. split; [now right | auto].
    + intros k Hk. apply Hkeys. destruct (Hm1 k) as [Hin Hout].
      destruct (in_dec string_dec k ts) as [Hi|Hn].
      * left. destruct (Hin Hi) as (p & Hp & _). congruence.
      * destruct Hk as [Hk|(x & [<-|Hx] & Hf)].
        -- left. now rewrite (Hout Hn).
        -- exfalso. apply Hn. now apply Hts.
        -- right. eauto.
Qed.

Lemma compile_first : forall node, compile_first_at rules node.
Proof.
  induction node as [v| | |v|e IHe|es IHes|es IHes|n f] using SimpleAST_ind';
    intros c p c' Hc H;
    try (pose proof H as Hcomp; simpl in H; injection H as <- <-;
         split; [exact Hc | split; [constructor | eauto]]).
  - pose proof H as Hcomp. simpl in H.
    destruct (firstSet_get rules (repeat0 e) c) as [[s c1]| |] eqn:E1; simpl in H;
      try discriminate.
    apply (firstSet_get_first rules) in E1 as [Hc1 [_ Hchk]]; [|exact Hc].
    destruct (compile rules e c1) as [[q c2]| |] eqn:E2; simpl in H; try discriminate.
    apply IHe in E2 as (Hc2 & Hq & _); [|exact Hc1].
    destruct (firstSet_get rules e c2) as [[ts c3]| |] eqn:E3; simpl in H;
      try discriminate.
    apply (firstSet_get_first rules) in E3 as [Hc3 [Hts _]]; [|exact Hc2].
    injection H as <- <-. split; [exact Hc3|]. split; [|eauto].
    constructor; [exact Hq | | exact Hchk].
    intros t. now rewrite set_of_list_In.
  - pose proof H as Hcomp. simpl in H.
    destruct (firstSet_get rules (seq es) c) as [[s c1]| |] eqn:E1; simpl in H;
      try discriminate.
    apply (firstSet_get_first rules) in E1 as [Hc1 _]; [|exact Hc].
    destruct (compile_all (compile rules) es c1) as [[ps c2]| |] eqn:E2; simpl in H;
      try discriminate.
    injection H as <- <-.
    assert (G : cache_first rules c2 /\ Forall2 (MatcherOf rules) es ps).
    { clear Hc Hcomp. revert c1 ps c2 Hc1 E2.
      induction IHes as [|x xs Hx _ IH]; intros c1 ps c2 Hc1 E2; simpl in E2.
      - injection E2 as <- <-. split; [exact Hc1 | constructor].
      - destruct (compile rules x c1) as [[q c3]| |] eqn:E3; simpl in E2;
          try discriminate.
        apply Hx in E3 as (Hc3 & Hq & _); [|exact Hc1].
        destruct (compile_all (compile rules) xs c3) as [[qs c4]| |] eqn:E4;
          simpl in E2; try discriminate.
        injection E2 as <- <-. apply IH in E4 as [Hc4 Hqs]; [|exact Hc3].
        split; [exact Hc4 | now constructor]. }
    destruct G as [Hc2 Hps]. split; [exact Hc2|]. split; [now constructor | eauto].
  - pose proof H as Hcomp. rewrite compile_alt_unfold in H.
    destruct (firstSet_get rules (alt es) c) as [[s c1]| |] eqn:E1; cbn [bind] in H;
      try discriminate.
    apply (firstSet_get_first rules) in E1 as [Hc1 _]; [|exact Hc].
    destruct (alt_branches rules (compile rules) es [] c1) as [[m c2]| |] eqn:E2;
      cbn [bind] in H; try discriminate.
    simpl in H. injection H as <- <-.
    apply alt_branches_first in E2 as (Hc2 & Hentries & Hkeys);
      [|exact IHes|exact Hc1].
    split; [exact Hc2|]. split; [|eauto]. constructor.
    + intros k q Hq. apply Hentries in Hq as [Hq|(x & Hx & Hf & Hm & _)];
        [discriminate | eauto].
    + intros k Hk. apply Hkeys. right. inversion Hk; subst. eauto.
Qed.

Lemma cr_get_set_same m k p : cr_get (cr_set m k p) k = Some p.
Proof.
  induction m as [|[k' p'] m IH]; simpl.
  - now rewrite symbol_eqb_refl.
  - destruct (symbol_eqb k k') eqn:E; simpl; rewrite E; [reflexivity | exact IH].
Qed.

Lemma cr_get_set_other m k p k' :
  k' <> k -> cr_get (cr_set m k p) k' = cr_get m k'.
Proof.
  intros Hne. apply symbol_eqb_neq in Hne.
  induction m as [|[a b] m IH]; simpl.
  - now rewrite Hne.
  - destruct (symbol_eqb k a) eqn:E; simpl.
    + apply symbol_eqb_eq in E. subst a. now rewrite Hne.
    + destruct (symbol_eqb k' a); [reflexivity | exact IH].
Qed.

Lemma symbol_eq_dec (a b : symbol) : {a = b} + {a <> b}.
Proof.
  destruct (symbol_eqb a b) eqn:E.
  - left. now apply symbol_eqb_eq.
  - right. intros ->. now rewrite symbol_eqb_refl in E.
Qed.

(** The loop of [compileRuleset]: an entry of the table is an entry from
    before or the matcher of the body of an entry of the rule table. *)
Lemma compile_rules_first entries : forall cr c cr' c',
  cache_first rules c ->
  compile_rules rules entries cr c = Ok (cr', c') ->
  (forall v p, cr_get cr' v = Some p ->
     cr_get cr v = Some p \/
     exists body, In (v, body) entries /\ MatcherOf rules body p /\
                  Compiled rules body p) /\
  (forall v, cr_get cr v <> None \/ In v (map fst entries) ->
             cr_get cr' v <> None).
Proof.
  induction entries as [|[k n] entries IH]; intros cr c cr' c' Hc H; simpl in H.
  - injection H as <- <-. split; [auto|]. intros v [Hv|[]]. exact Hv.
  - destruct (compile rules n c) as [[p c1]| |] eqn:E; simpl in H; try discriminate.
    apply compile_first in E as (Hc1 & Hp & Hcp); [|exact Hc].
    apply IH in H as [Hentries Hkeys]; [|exact Hc1]. split.
    + intros v q Hq. apply Hentries in Hq as [Hq|(body & Hin & Hm)].
      * destruct (symbol_eq_dec v k) as [->|Hne].
        -- rewrite cr_get_set_same in Hq. injection Hq as <-.
           right. exists n. split; [now left | split; [exact Hp | exact Hcp]].
        -- rewrite cr_get_set_other in Hq by exact Hne. now left.
      * right. exists body. split; [now right | exact Hm].
    + intros v Hv. apply Hkeys. destruct (symbol_eq_dec v k) as [->|Hne].
      * left. rewrite cr_get_set_same. discriminate.
      * destruct Hv as [Hv|[Hv|Hv]].
        -- left. now rewrite cr_get_set_other.
        -- simpl in Hv. congruence.
        -- now right.
Qed.

Lemma rules_get_NoDup v body :
  NoDup (map fst rules) -> In (v, body) rules -> rules_get rules v = Some body.
Proof.
  induction rules as [|[k n] rs IH]; intros Hnd Hin; [destruct Hin|].
  simpl in *. inversion Hnd as [|? ? Hk Hnd']; subst.
  destruct Hin as [[= -> ->]|Hin].
  - now rewrite symbol_eqb_refl.
  - destruct (symbol_eqb v k) eqn:E; [|now apply IH].
    apply symbol_eqb_eq in E. subst k. exfalso. apply Hk.
    apply in_map_iff. now exists (v, body).
Qed.

Lemma compileRuleset_table cr :
  NoDup (map fst rules) -> compileRuleset rules = Ok cr ->
  table_of rules cr /\
  (forall v, cr_get cr v = None <-> rules_get rules v = None) /\
  (forall v p, cr_get cr v = Some p ->
     exists body, rules_get rules v = Some body /\ Compiled rules body p).
Proof.
  unfold compileRuleset. intros Hnd H.
  destruct (compile_rules rules rules [] []) as [[cr' c]| |] eqn:E; simpl in H;
    try discriminate.
  injection H as <-.
  apply compile_rules_first in E as [Hentries Hkeys]; [|apply cache_first_nil].
  split; [|split].
  - intros v p Hp. apply Hentries in Hp as [Hp|(body & Hin & Hm & _)];
      [discriminate|].
    exists body. split; [now apply rules_get_NoDup | exact Hm].
  - intros v. split.
    + intros Hv. destruct (rules_get rules v) as [body|] eqn:Er; [|reflexivity].
      exfalso. apply (Hkeys v); [|exact Hv]. right.
      apply rules_get_In in Er. apply in_map_iff. now exists (v, body).
    + intros Hv. destruct (cr_get cr' v) as [p|] eqn:Ec; [|reflexivity].
      apply Hentries in Ec as [Ec|(body & Hin & _)]; [discriminate|].
      apply rules_get_NoDup in Hin; [congruence | exact Hnd].
  - intros v p Hp. apply Hentries in Hp as [Hp|(body & Hin & _ & Hcp)];
      [discriminate|].
    exists body. split; [now apply rules_get_NoDup | exact Hcp].
Qed.

End CompiledMatchers.

(** ** What a successful match tells about the input *)

Lemma brandToken_Some_not_eof t : brandToken (Some t) <> brandEof.
Proof.
  unfold brandToken.
  destruct (Tk.content t); first [apply brandType_not_eof | apply brandLiteral_not_eof].
Qed.

Lemma state_reduce_index arity fn st st' :
  state_reduce arity fn st = Ok st' ->
  tokens st' = tokens st /\ ps_index st' = ps_index st.
Proof.
  unfold state_reduce. destruct (pop_args arity [] (results st)) as [args rs].
  destruct (fn args) as [r| |]; simpl; try discriminate.
  intros [= <-]. split; reflexivity.
Qed.

Lemma peek_same st st1 :
  tokens st1 = tokens st -> ps_index st1 = ps_index st -> peek st1 = peek st.
Proof. unfold peek. now intros -> ->. Qed.

Lemma moved_peek st st' :
  advances st st' -> ps_index st < ps_index st' ->
  brandToken (peek st) <> brandEof.
Proof.
  intros (_ & _ & Hb) Hlt. specialize (Hb Hlt). unfold peek.
  destruct (nth_error (tokens st) (ps_index st)) as [t|] eqn:E.
  - apply brandToken_Some_not_eof.
  - apply nth_error_None in E. lia.
Qed.

Section Prediction.

Variable rules : RuleMap.
Variable host_fn : nat -> list JSValue -> JSValue.
Variable parsers : CompiledRules.

Hypothesis table : table_of rules parsers.

Lemma predicts fuel :
  (forall node p st st',
      MatcherOf rules node p -> parse host_fn parsers fuel p st = Ok st' ->
      predicted rules node st st') /\
  (forall e p ms st st',
      MatcherOf rules e p -> (forall t, In t ms <-> First rules e t) ->
      Repeat_loop host_fn parsers fuel p ms st = Ok st' ->
      ps_index st' = ps_index st \/
      (ps_index st < ps_index st' /\ First rules e (brandToken (peek st)))).
Proof.
  induction fuel as [|fuel [IHp IHr]]; [split; intros; discriminate|].
  split.
  - intros node p st st' Hm H.
    pose proof (proj1 (proj1 (parse_inv host_fn parsers (S fuel)) _ _) _ H) as Hadv.
    inversion Hm; subst; simpl in H.
    + (* reduce *)
      apply state_reduce_index in H as [_ Hi]. left. split; [exact Hi | constructor].
    + (* literal *)
      right. unfold MatchLiteral_parse in H. simpl in H. unfold peek.
      destruct (nth_error (tokens st) (ps_index st)) as [t|]; [|discriminate].
      unfold is_operator_or_keyword in H. unfold brandToken.
      destruct (Tk.content t) as [x|x|x|x]; try discriminate;
        (destruct (String.eqb x v) eqn:E; [|discriminate]);
        apply String.eqb_eq in E; subst x; injection H as <-; simpl;
        (split; [lia | constructor]).
    + (* identifier *)
      right. unfold MatchType_parse in H. simpl in H. unfold peek.
      destruct (nth_error (tokens st) (ps_index st)) as [t|]; [|discriminate].
      unfold token_type in H. unfold brandToken.
      destruct (Tk.content t) as [x|x|x|x]; simpl in H; try discriminate.
      injection H as <-. simpl. split; [lia | constructor].
    + (* value *)
      right. unfold MatchType_parse in H. simpl in H. unfold peek.
      destruct (nth_error (tokens st) (ps_index st)) as [t|]; [|discriminate].
      unfold token_type in H. unfold brandToken.
      destruct (Tk.content t) as [x|x|x|x]; simpl in H; try discriminate.
      injection H as <-. simpl. split; [lia | constructor].
    + (* nonterminal *)
      destruct (cr_get parsers v) as [p'|] eqn:Ecr; [|discriminate].
      apply add_rule_frame_Ok in H.
      destruct (table _ _ Ecr) as (body & Hr & Hb).
      destruct (IHp _ _ _ _ Hb H) as [[Hi Hf]|[Hi Hf]].
      * left. split; [exact Hi | econstructor; eassumption].
      * right. split; [exact Hi | econstructor; eassumption].
    + (* repeat0 *)
      match goal with
      | Hms : forall t, In t _ <-> First rules _ t |- _ =>
          destruct (IHr _ _ _ _ _ ltac:(eassumption) Hms H) as [Hi|[Hi Hf]]
      end.
      * left. split; [exact Hi | apply F_repeat0_eof].
      * right. split; [exact Hi | now apply F_repeat0].
    + (* seq *)
      match goal with Hall : Forall2 _ _ _ |- _ => rename Hall into Hps end.
      clear Hm. revert st H Hadv.
      induction Hps as [|e q es qs Hq Hqs IH]; intros st H Hadv; simpl in H.
      * injection H as <-. left. split; [reflexivity|].
        apply F_seq_eof. intros e [].
      * destruct (parse host_fn parsers fuel q st) as [st1| |] eqn:E1; simpl in H;
          try discriminate.
        pose proof (proj1 (proj1 (parse_inv host_fn parsers fuel) _ _) _ E1) as Ha1.
        assert (Ha2 : advances st1 st').
        { apply (proj1 (proj1 (parse_inv host_fn parsers (S fuel)) (Seq qs) st1)).
          exact H. }
        destruct (IHp _ _ _ _ Hq E1) as [[Hi Hf]|[Hi Hf]].
        -- destruct (IH _ H Ha2) as [[Hi2 Hf2]|[Hi2 Hf2]].
           ++ left. split; [lia|]. apply First_seq_cons. right. now split.
           ++ right. split; [lia|]. apply First_seq_cons. right.
              split; [exact Hf|].
              rewrite <- (peek_same st st1); [exact Hf2 | apply Ha1 | exact Hi].
        -- right. destruct Ha2 as (_ & Hle & _). split; [lia|].
           apply First_seq_cons. left. split; [exact Hf|].
           eapply moved_peek; eassumption.
    + (* alt *)
      unfold Alt_parse in H.
      match goal with
      | Hent : forall k q, pm_get _ k = Some q -> _ |- _ => rename Hent into Hentries
      end.
      assert (G : forall k q, pm_get parserMap k = Some q ->
                              parse host_fn parsers fuel q st = Ok st' ->
                              predicted rules (alt exprs) st st').
      { intros k q Hk Hq. destruct (Hentries _ _ Hk) as (e & Hin & _ & Hme).
        destruct (IHp _ _ _ _ Hme Hq) as [[Hi Hf]|[Hi Hf]].
        - left. split; [exact Hi | econstructor; eassumption].
        - right. split; [exact Hi | econstructor; eassumption]. }
      destruct (pm_get parserMap (brandToken (peek st))) as [q|] eqn:E1;
        [eapply G; eassumption|].
      destruct (pm_get parserMap brandEof) as [q|] eqn:E2; [|discriminate].
      eapply G; eassumption.
  - intros e p ms st st' Hm Hms H. rewrite Repeat_loop_S in H.
    destruct (peek st) as [nxt|] eqn:Epk; [|injection H as <-; now left].
    destruct (set_has ms (brandToken (Some nxt))) eqn:Ehas; simpl in H;
      [|injection H as <-; now left].
    destruct (parse host_fn parsers fuel p st) as [st1| |] eqn:E1; simpl in H;
      try discriminate.
    pose proof (proj1 (proj1 (parse_inv host_fn parsers fuel) _ _) _ E1)
      as (Ht1 & Hi1 & _).
    destruct (state_reduce 2 snoc_ st1) as [st2| |] eqn:E2; simpl in H;
      try discriminate.
    apply state_reduce_index in E2 as [Ht2 Hi2].
    pose proof (proj1 (proj2 (parse_inv host_fn parsers fuel) p ms st2) _ H)
      as (_ & Hi3 & _).
    destruct (Nat.eq_dec (ps_index st') (ps_index st)) as [Heq|Hne]; [now left|].
    right. split; [lia|]. apply Hms. now apply set_has_In.
Qed.

End Prediction.

(** X9.  The dispatch table of an alternative.  With a cache whose sets
    are the first-sets of their nodes, as the empty cache of a new compiler
    is, the keys of the table the compiler builds for an [alt] node are the
    terminals of the first-set of the node, the set [FirstSetBuilder.get]
    returns for it, and the entry of a key is a matcher compiled from a
    branch that can begin with the key. *)
Theorem alt_dispatch_table (rules : RuleMap) (exprs : list SimpleAST) (c : Cache)
    (P : Parser) (c' : Cache) :
  cache_first rules c ->
  compile rules (alt exprs) c = Ok (P, c') ->
  exists parserMap s c1,
    P = Alt parserMap /\
    firstSet_get rules (alt exprs) c = Ok (s, c1) /\
    (forall k, In k (pm_keys parserMap) <-> In k s) /\
    (forall k, In k (pm_keys parserMap) <-> First rules (alt exprs) k) /\
    (forall k q, pm_get parserMap k = Some q ->
       exists e, In e exprs /\ First rules e k /\ Compiled rules e q).
Proof.
  intros Hc H. rewrite compile_alt_unfold in H.
  destruct (firstSet_get rules (alt exprs) c) as [[s c1]| |] eqn:E1; cbn [bind] in H;
    try discriminate.
  apply (firstSet_get_first rules) in E1 as [Hc1 [Hs _]]; [|exact Hc].
  destruct (alt_branches rules (compile rules) exprs [] c1) as [[m c2]| |] eqn:E2;
    cbn [bind] in H; try discriminate.
  simpl in H. injection H as <- <-.
  apply alt_branches_first in E2 as (Hc2 & Hentries & Hkeys);
    [|apply Forall_forall; intros x _; apply compile_first|exact Hc1].
  assert (Hk : forall k, In k (pm_keys m) <-> First rules (alt exprs) k).
  { intros k. rewrite <- pm_get_keys. split.
    - intros [q Hq]. apply Hentries in Hq as [Hq|(e & He & Hf & _)];
        [discriminate|]. econstructor; eassumption.
    - intros Hf. destruct (pm_get m k) as [q|] eqn:E; [now exists q|].
      exfalso. apply (Hkeys k); [|exact E]. right. inversion Hf; subst. eauto. }
  exists m, s, c1. split; [reflexivity|]. split; [reflexivity|].
  split; [intros k; now rewrite Hk, Hs|]. split; [exact Hk|].
  intros k q Hq. apply Hentries in Hq as [Hq|(e & He & Hf & _ & Hcp)];
    [discriminate | eauto].
Qed.

(** ["x" | %value]: the table has the two keys of the first-set. *)
Lemma alt_dispatch_table_witness :
  let node := alt [literal "x"; value] in
  exists parserMap c',
    compile [] node [] = Ok (Alt parserMap, c') /\
    pm_keys parserMap = [brandLiteral "x"; brandType t_value] /\
    forall k, In k (pm_keys parserMap) <-> First [] node k.
Proof.
  intros node.
  destruct (alt_dispatch_table [] [literal "x"; value] [] _ _
              (cache_first_nil []) eq_refl)
    as (m & s & c1 & Hm & _ & _ & Hk & _).
  injection Hm as <-. eexists. eexists.
  split; [reflexivity|]. split; [reflexivity | exact Hk].
Defined.

(** X10.  The match set of a repetition.  With a cache whose sets are the
    first-sets of their nodes, as the empty cache of a new compiler is, the
    matcher the compiler builds for a [repeat0] node repeats the matcher
    compiled from the body, and its match set holds exactly the terminals
    the body can begin with; the end of input is not among them. *)
Theorem repeat_match_set (rules : RuleMap) (expr : SimpleAST) (c : Cache)
    (P : Parser) (c' : Cache) :
  cache_first rules c ->
  compile rules (repeat0 expr) c = Ok (P, c') ->
  exists p matchSet,
    P = Repeat p matchSet /\ Compiled rules expr p /\
    (forall t, In t matchSet <-> First rules expr t) /\
    ~ In brandEof matchSet.
Proof.
  intros Hc H.
  destruct (compile_repeat0_shape _ _ _ _ _ H) as (p & ms & -> & Hp).
  apply compile_first in H as (_ & Hm & _); [|exact Hc].
  inversion Hm as [| | | | |e q ms' Hq Hms Hchk| |]; subst.
  exists p, ms. split; [reflexivity|]. split; [exact Hp|].
  split; [exact Hms | intros Hin; now apply Hchk, Hms].
Qed.

(** [%value*]: the match set is the terminal of a value. *)
Lemma repeat_match_set_witness :
  exists c',
    compile [] (repeat0 value) [] = Ok (Repeat (MatchType t_value) [brandType t_value], c') /\
    ~ In brandEof [brandType t_value].
Proof.
  destruct (repeat_match_set [] value [] _ _ (cache_first_nil []) eq_refl)
    as (p & ms & Hp & _ & _ & Hno).
  injection Hp as <- <-. eexists. split; [reflexivity | exact Hno].
Defined.

(** X11.  Every rule gets its matcher.  When [compileRuleset] succeeds on
    a rule table, the table of matchers names the same rules: [MatchRule]
    finds a matcher for every rule of the table, and that matcher is the one
    compiled from the body of the rule. *)
Theorem every_rule_compiled (rules : RuleMap) (compiledRules : CompiledRules) :
  NoDup (map fst rules) ->
  compileRuleset rules = Ok compiledRules ->
  (forall v, cr_get compiledRules v = None <-> rules_get rules v = None) /\
  (forall v p, cr_get compiledRules v = Some p ->
     exists body, rules_get rules v = Some body /\ Compiled rules body p).
Proof.
  intros Hnd H. apply compileRuleset_table in H as (_ & Hkeys & Hentries);
    [|exact Hnd].
  split; assumption.
Qed.

(** The table of [A = %value]. *)
Lemma every_rule_compiled_witness :
  let A := Symbol 3 (Some "A") in
  compileRuleset [(A, seq [value])] = Ok [(A, Seq [MatchType t_value])] /\
  exists body, rules_get [(A, seq [value])] A = Some body /\
               Compiled [(A, seq [value])] body (Seq [MatchType t_value]).
Proof.
  intros A. split; [reflexivity|].
  assert (Hnd : NoDup (map fst [(A, seq [value])])).
  { constructor; [intros [] | constructor]. }
  exact (proj2 (every_rule_compiled [(A, seq [value])] _ Hnd eq_refl) A _ eq_refl).
Defined.

(** X12.  The first-set predicts the match.  With the matchers of a
    compiled rule table, a successful match of a rule either consumes no
    token, and then the first-set of the rule holds the end of input, or it
    consumes the token at the cursor, and then the first-set of the rule
    holds the terminal of that token. *)
Theorem first_set_predicts (rules : RuleMap)
    (host_fn : nat -> list JSValue -> JSValue) (compiledRules : CompiledRules)
    (v : symbol) (s : TSet) (c : Cache) (fuel : nat) (st st' : ParseState) :
  NoDup (map fst rules) ->
  compileRuleset rules = Ok compiledRules ->
  firstSet_get rules (nonterminal v) [] = Ok (s, c) ->
  parse host_fn compiledRules fuel (MatchRule v) st = Ok st' ->
  (ps_index st' = ps_index st /\ In brandEof s) \/
  (ps_index st < ps_index st' /\ peek st <> None /\
   In (brandToken (peek st)) s).
Proof.
  intros Hnd Hc Hs H.
  apply compileRuleset_table in Hc as (Htable & _); [|exact Hnd].
  apply (firstSet_get_first rules) in Hs as [_ [Hs _]]; [|apply cache_first_nil].
  pose proof (proj1 (proj1 (parse_inv host_fn compiledRules fuel) _ _) _ H) as Hadv.
  destruct (proj1 (predicts rules host_fn compiledRules Htable fuel)
              (nonterminal v) _ _ _ (M_nonterminal rules v) H) as [[Hi Hf]|[Hi Hf]].
  - left. split; [exact Hi | now apply Hs].
  - right. split; [exact Hi|]. split; [|now apply Hs].
    intros Hpk. apply (moved_peek _ _ Hadv Hi). now rewrite Hpk.
Qed.

(** [A = "x"? %value]: on the tokens of [x 1] the rule consumes the [x],
    which its first-set holds. *)
Lemma first_set_predicts_witness :
  let A := Symbol 3 (Some "A") in
  let rules := [(A, seq [alt [literal "x"; pushNull]; value; reduce 2 None])] in
  let toks := [mkToken (tok_operator "x") 0 0 1;
               mkToken (tok_value (JNumber 1)) 2 0 1] in
  exists cr s c st',
    compileRuleset rules = Ok cr /\
    firstSet_get rules (nonterminal A) [] = Ok (s, c) /\
    parse (fun _ _ => JUndefined) cr 9 (MatchRule A) (new_ParseState toks) = Ok st' /\
    ps_index st' = 2 /\ In (brandLiteral "x") s.
Proof.
  intros A rules toks.
  assert (Hnd : NoDup (map fst rules)) by (constructor; [intros [] | constructor]).
  eexists. eexists. eexists. eexists.
  split; [reflexivity|]. split; [vm_compute; reflexivity|]. split; [reflexivity|].
  split; [reflexivity|].
  destruct (first_set_predicts rules (fun _ _ => JUndefined) _ A _ _ 9
              (new_ParseState toks) _ Hnd eq_refl eq_refl eq_refl)
    as [[Hi _]|(_ & _ & Hin)]; [discriminate Hi | exact Hin].
Defined.

(** ** The state of the simplifier *)

Lemma strset_add_In s x y : In y (strset_add s x) <-> y = x \/ In y s.
Proof.
  unfold strset_add. destruct (existsb (String.eqb x) s) eqn:E.
  - apply existsb_exists in E as (z & Hz & Ez). apply String.eqb_eq in Ez. subst z.
    split; [auto|]. intros [->|H]; assumption.
  - rewrite in_app_iff. simpl. intuition.
Qed.

Lemma strset_add_NoDup s x : NoDup s -> NoDup (strset_add s x).
Proof.
  intros H. unfold strset_add. destruct (existsb (String.eqb x) s) eqn:E; [exact H|].
  apply NoDup_app; [exact H | repeat constructor; intros [] |].
  intros y Hy [Heq|[]]. subst y.
  assert (existsb (String.eqb x) s = true); [|congruence].
  apply existsb_exists. exists x. split; [exact Hy | apply String.eqb_refl].
Qed.

Section SimplifierState.

Variable identifierPattern : string -> bool.

Abbreviation evolves := (evolves identifierPattern).

Lemma evolves_refl lo s : evolves lo s s.
Proof. unfold evolves. intuition. Qed.

Lemma evolves_trans lo s1 s2 s3 :
  evolves lo s1 s2 -> evolves lo s2 s3 -> evolves lo s1 s3.
Proof.
  intros (A1 & A2 & A3 & A4 & A5 & A6 & A7 & A8 & A9 & A10 & A11 & A12)
         (B1 & B2 & B3 & B4 & B5 & B6 & B7 & B8 & B9 & B10 & B11 & B12).
  unfold evolves. repeat split; try congruence; try lia; auto.
  - intros k Hk. rewrite B4, A4; auto.
  - intros x Hx. destruct (B8 x Hx); auto.
  - intros x Hx. destruct (B9 x Hx); auto.
Qed.

Lemma evolves_weaken lo lo' s s' : lo <= lo' -> evolves lo' s s' -> evolves lo s s'.
Proof.
  intros Hle (A1 & A2 & A3 & A4 & A5 & A6). unfold evolves.
  repeat split; try tauto. intros k Hk. apply A4. lia.
Qed.

Lemma evolves_literals_add lo lit s :
  evolves lo s (snd (literals_add identifierPattern lit s)).
Proof.
  unfold literals_add, evolves. simpl.
  destruct (identifierPattern lit) eqn:E; simpl; repeat split; auto;
    try (intros x Hx; apply strset_add_In; now right);
    try (intros x Hx; apply strset_add_In in Hx as [->|Hx]; auto);
    try apply strset_add_NoDup.
Qed.

Lemma evolves_new_Symbol lo d s : evolves lo s (snd (new_Symbol d s)).
Proof. unfold evolves. simpl. repeat split; auto. Qed.

Lemma evolves_with_scope lo stack s : evolves lo s (with_scope stack s).
Proof. unfold evolves. simpl. repeat split; auto. Qed.

Lemma rules_set_NoDup rules k n :
  NoDup (map fst rules) -> NoDup (map fst (rules_set rules k n)).
Proof.
  induction rules as [|[a b] rules IH]; simpl; intros H.
  - repeat constructor. intros [].
  - inversion H as [|? ? Ha Hnd]; subst.
    destruct (symbol_eqb k a) eqn:E; simpl.
    + apply symbol_eqb_eq in E. subst a. now constructor.
    + constructor; [|now apply IH]. intros Hin.
      apply rules_set_keys in Hin as [->|Hin]; [|contradiction].
      now rewrite symbol_eqb_refl in E.
Qed.

Lemma evolves_set_rule lo name node s :
  lo <= sym_id name -> evolves lo s (set_rule name node s).
Proof.
  intros Hlo. unfold evolves. simpl. repeat split; auto.
  - intros k Hk. apply rules_set_get_other. intros ->. lia.
  - intros k Hk. destruct (symbol_eq_dec k name) as [->|Hne].
    + rewrite rules_set_get_same. discriminate.
    + now rewrite rules_set_get_other.
  - apply rules_set_NoDup.
Qed.

Lemma evolves_next lo s s' : evolves lo s s' -> sim_next s <= sim_next s'.
Proof. intros H. apply H. Qed.

Lemma build_scope_evolves rules : forall lo nextScope s sc names s',
  build_scope rules nextScope s = (sc, names, s') ->
  sim_scope s' = sim_scope s /\ evolves lo s s'.
Proof.
  induction rules as [|[name e] rules IH]; intros lo nextScope s sc names s' H;
    simpl in H.
  - injection H as <- <- <-. split; [reflexivity | apply evolves_refl].
  - destruct (build_scope rules _ _) as [[sc1 names1] s1] eqn:E.
    injection H as <- <- <-. apply (IH lo) in E as [Hs He]. simpl in Hs.
    split; [exact Hs|].
    eapply evolves_trans; [apply (evolves_new_Symbol lo (Some name) s) | exact He].
Qed.

Lemma simplify_all_evolves exprs :
  Forall (simplify_evolves_at identifierPattern) exprs ->
  forall lo s es s',
    lo <= sim_next s ->
    simplify_all (simplify identifierPattern) exprs s = Ok (es, s') ->
    sim_scope s' = sim_scope s /\ evolves lo s s'.
Proof.
  induction 1 as [|x xs Hx Hxs IH]; intros lo s es s' Hlo H; simpl in H.
  - injection H as <- <-. split; [reflexivity | apply evolves_refl].
  - destruct (simplify identifierPattern x s) as [[e1 s1]| |] eqn:E1; simpl in H;
      try discriminate.
    destruct (simplify_all _ xs s1) as [[es1 s2]| |] eqn:E2; simpl in H;
      try discriminate.
    injection H as <- <-. apply Hx in E1 as [Hs1 He1].
    apply (IH lo) in E2 as [Hs2 He2]; [|apply evolves_next in He1; lia].
    split; [congruence|].
    eapply evolves_trans; [eapply evolves_weaken; [exact Hlo | exact He1] | exact He2].
Qed.

Lemma add_rules_evolves rules :
  Forall (fun r => simplify_evolves_at identifierPattern (snd r)) rules ->
  forall lo names s u s',
    lo <= sim_next s ->
    Forall (fun n => lo <= sym_id n) names ->
    add_rules (simplify identifierPattern) rules names s = Ok (u, s') ->
    sim_scope s' = sim_scope s /\ evolves lo s s'.
Proof.
  induction 1 as [|[name x] xs Hx Hxs IH]; intros lo names s u s' Hlo Hnames H;
    simpl in H.
  - injection H as <- <-. split; [reflexivity | apply evolves_refl].
  - destruct names as [|n names];
      [injection H as <- <-; split; [reflexivity | apply evolves_refl]|].
    destruct (simplify identifierPattern x s) as [[e1 s1]| |] eqn:E1; simpl in H;
      try discriminate.
    simpl in Hx. apply Hx in E1 as [Hs1 He1].
    inversion Hnames as [|? ? Hn Hnames']; subst.
    apply (IH lo) in H as [Hs2 He2];
      [|simpl; apply evolves_next in He1; lia|exact Hnames'].
    simpl in Hs2. split; [congruence|].
    eapply evolves_trans; [eapply evolves_weaken; [exact Hlo | exact He1]|].
    eapply evolves_trans; [apply (evolves_set_rule lo n e1 s1 Hn) | exact He2].
Qed.

Lemma simplify_structure a x b f s :
  simplify identifierPattern (AST.structure a x b f) s =
  (let* (e, s1) := simplify identifierPattern x
                     (snd (literals_add identifierPattern a s)) in
   Ok (seq [literal a; e; literal b; reduce 3 (Some fn__2)],
       snd (literals_add identifierPattern b s1))).
Proof. reflexivity. Qed.

Lemma literals_add_scope lit s :
  sim_scope (snd (literals_add identifierPattern lit s)) = sim_scope s.
Proof. unfold literals_add. simpl. now destruct (identifierPattern lit). Qed.

Lemma literals_add_next lit s :
  sim_next (snd (literals_add identifierPattern lit s)) = sim_next s.
Proof. unfold literals_add. simpl. now destruct (identifierPattern lit). Qed.

Lemma simplify_evolves : forall node, simplify_evolves_at identifierPattern node.
Proof.
  induction node as [m|rules IH|v|v|v|a x b f IH|xs f IH|xs IH|x IH|x IH|x IH
                     |x sp IHx IHs|x sp IHx IHs] using AST_ind';
    intros s e s' H; pose proof H as H0; simpl in H.
  - discriminate.
  - destruct rules as [|[firstName x0] rest]; [discriminate|].
    destruct (build_scope _ [] s) as [[sc names] s1] eqn:Eb.
    pose proof (build_scope_spec _ _ _ _ _ _ Eb) as (_ & Hn & Hnames).
    apply (build_scope_evolves _ (sim_next s)) in Eb as [Hs1 He1].
    destruct (add_rules _ _ names _) as [[u s2]| |] eqn:Ea; simpl in H;
      try discriminate.
    destruct (scope_get sc firstName); [|discriminate]. injection H as <- <-.
    apply add_rules_evolves with (lo := sim_next s) in Ea as [Hs2 He2];
      [|exact IH|simpl; lia|eapply Forall_impl; [|exact Hnames]; simpl; tauto].
    simpl in Hs2. split; [simpl; rewrite Hs2; simpl; exact Hs1|].
    eapply evolves_trans; [exact He1|].
    eapply evolves_trans; [apply evolves_with_scope|].
    eapply evolves_trans; [exact He2 | apply evolves_with_scope].
  - injection H as <- <-.
    split; [unfold literals_add; simpl; now destruct (identifierPattern v)|].
    apply evolves_literals_add.
  - injection H as <- <-. split; [reflexivity | apply evolves_refl].
  - destruct (lookup (sim_scope s) v); simpl in H; try discriminate.
    injection H as <- <-. split; [reflexivity | apply evolves_refl].
  - clear H. rename H0 into H. rewrite simplify_structure in H.
    destruct (simplify identifierPattern x _) as [[e1 s1]| |] eqn:E1;
      cbn [bind] in H; try discriminate.
    assert (Hs' : s' = snd (literals_add identifierPattern b s1)) by congruence.
    subst s'. clear H. apply IH in E1 as [Hs1 He1].
    rewrite literals_add_scope in Hs1. rewrite literals_add_next in He1.
    split; [now rewrite literals_add_scope|].
    eapply evolves_trans; [apply evolves_literals_add|].
    eapply evolves_trans; [exact He1 | apply evolves_literals_add].
  - destruct (simplify_all _ xs s) as [[es s1]| |] eqn:E1; simpl in H;
      try discriminate.
    injection H as <- <-. eapply simplify_all_evolves; [exact IH| |exact E1]. lia.
  - destruct (simplify_all _ xs s) as [[es s1]| |] eqn:E1; simpl in H;
      try discriminate.
    injection H as <- <-. eapply simplify_all_evolves; [exact IH| |exact E1]. lia.
  - destruct (simplify identifierPattern x s) as [[e1 s1]| |] eqn:E1; simpl in H;
      try discriminate.
    injection H as <- <-. exact (IH _ _ _ E1).
  - destruct (simplify identifierPattern x s) as [[e1 s1]| |] eqn:E1; simpl in H;
      try discriminate.
    injection H as <- <-. exact (IH _ _ _ E1).
  - destruct (simplify identifierPattern x s) as [[e1 s1]| |] eqn:E1; simpl in H;
      try discriminate.
    injection H as <- <-. exact (IH _ _ _ E1).
  - destruct (simplify identifierPattern x _) as [[e1 s1]| |] eqn:E1; simpl in H;
      try discriminate.
    destruct (simplify identifierPattern sp s1) as [[e2 s2]| |] eqn:E2; simpl in H;
      try discriminate.
    injection H as <- <-. apply IHx in E1 as [Hs1 He1]. apply IHs in E2 as [Hs2 He2].
    simpl in Hs1, He1. pose proof (evolves_next _ _ _ He1) as Hn1. simpl in Hn1.
    split; [simpl; congruence|].
    eapply evolves_trans; [apply (evolves_new_Symbol _ None s)|].
    eapply evolves_trans; [eapply evolves_weaken; [|exact He1]; lia|].
    eapply evolves_trans; [eapply evolves_weaken; [|exact He2]; lia|].
    apply evolves_set_rule. simpl. lia.
  - destruct (simplify identifierPattern x _) as [[e1 s1]| |] eqn:E1; simpl in H;
      try discriminate.
    destruct (simplify identifierPattern sp s1) as [[e2 s2]| |] eqn:E2; simpl in H;
      try discriminate.
    injection H as <- <-. apply IHx in E1 as [Hs1 He1]. apply IHs in E2 as [Hs2 He2].
    simpl in Hs1, He1. pose proof (evolves_next _ _ _ He1) as Hn1. simpl in Hn1.
    split; [simpl; congruence|].
    eapply evolves_trans; [apply (evolves_new_Symbol _ None s)|].
    eapply evolves_trans; [eapply evolves_weaken; [|exact He1]; lia|].
    eapply evolves_trans; [eapply evolves_weaken; [|exact He2]; lia|].
    apply evolves_set_rule. simpl. lia.
Qed.

End SimplifierState.

(** ** The simplified grammar is closed *)

Lemma Sub_seq_inv es x :
  Sub (seq es) x -> x = seq es \/ exists e, In e es /\ Sub e x.
Proof. intros H. inversion H; subst; eauto. Qed.

Lemma Sub_alt_inv es x :
  Sub (alt es) x -> x = alt es \/ exists e, In e es /\ Sub e x.
Proof. intros H. inversion H; subst; eauto. Qed.

Lemma Sub_repeat0_inv e x :
  Sub (repeat0 e) x -> x = repeat0 e \/ Sub e x.
Proof. intros H. inversion H; subst; eauto. Qed.

Lemma node_ok_seq s es : (forall e, In e es -> node_ok s e) -> node_ok s (seq es).
Proof.
  intros H. split; intros v Hv;
    apply Sub_seq_inv in Hv as [Hv|(e & He & Hv)]; try discriminate;
    now apply (H e He).
Qed.

Lemma node_ok_alt s es : (forall e, In e es -> node_ok s e) -> node_ok s (alt es).
Proof.
  intros H. split; intros v Hv;
    apply Sub_alt_inv in Hv as [Hv|(e & He & Hv)]; try discriminate;
    now apply (H e He).
Qed.

Lemma node_ok_repeat0 s e : node_ok s e -> node_ok s (repeat0 e).
Proof.
  intros H. split; intros v Hv;
    apply Sub_repeat0_inv in Hv as [Hv|Hv]; try discriminate; now apply H.
Qed.

Lemma node_ok_reduce s n f : node_ok s (reduce n f).
Proof. split; intros v Hv; inversion Hv. Qed.

Lemma node_ok_identifier s : node_ok s identifier.
Proof. split; intros v Hv; inversion Hv. Qed.

Lemma node_ok_value s : node_ok s value.
Proof. split; intros v Hv; inversion Hv. Qed.

Lemma node_ok_literal s lit : registered s lit -> node_ok s (literal lit).
Proof.
  intros H. split; intros v Hv; inversion Hv; subst. exact H.
Qed.

Lemma node_ok_nonterminal s v : known s v -> node_ok s (nonterminal v).
Proof.
  intros H. split; intros x Hx; inversion Hx; subst. exact H.
Qed.

Lemma node_ok_mono s s' node :
  (forall v, known s v -> known s' v) ->
  (forall lit, registered s lit -> registered s' lit) ->
  node_ok s node -> node_ok s' node.
Proof. intros Hk Hr [H1 H2]. split; auto. Qed.

Lemma rules_ok_mono s s' :
  sim_rules s' = sim_rules s ->
  (forall v, known s v -> known s' v) ->
  (forall lit, registered s lit -> registered s' lit) ->
  rules_ok s -> rules_ok s'.
Proof.
  intros Hr Hk Hl H k body Hb. rewrite Hr in Hb.
  eapply node_ok_mono; eauto.
Qed.

Lemma known_evolves ip lo s s' v :
  evolves ip lo s s' -> sim_scope s' = sim_scope s -> known s v -> known s' v.
Proof.
  intros (A1 & A2 & _ & _ & A5 & _) Hs [H|[H|[H|H]]].
  - left. now apply A5.
  - right. left. now rewrite Hs.
  - right. right. left. congruence.
  - right. right. right. congruence.
Qed.

Lemma registered_evolves ip lo s s' lit :
  evolves ip lo s s' -> registered s lit -> registered s' lit.
Proof.
  intros (_ & _ & _ & _ & _ & A6 & A7 & _) [H|H]; [left | right]; auto.
Qed.

Lemma node_ok_evolves ip lo s s' node :
  evolves ip lo s s' -> sim_scope s' = sim_scope s ->
  node_ok s node -> node_ok s' node.
Proof.
  intros He Hs. apply node_ok_mono.
  - intros w. now apply (known_evolves ip lo).
  - intros lit. now apply (registered_evolves ip lo).
Qed.

Lemma rules_ok_set_rule s name e :
  rules_ok s -> node_ok (set_rule name e s) e -> rules_ok (set_rule name e s).
Proof.
  intros H He k body Hb. simpl in Hb.
  destruct (symbol_eq_dec k name) as [->|Hne].
  - rewrite rules_set_get_same in Hb. now injection Hb as <-.
  - rewrite rules_set_get_other in Hb by exact Hne.
    eapply (node_ok_evolves (fun _ => false) 0); [| |exact (H _ _ Hb)].
    + apply evolves_set_rule. lia.
    + reflexivity.
Qed.

Lemma lookup_in_scope stack v sym : lookup stack v = Ok sym -> in_scope stack sym.
Proof.
  induction stack as [|sc outer IH]; simpl; [discriminate|].
  destruct (scope_get sc v) as [x|] eqn:E.
  - intros [= ->]. exists sc, v. split; [now left | exact E].
  - intros H. destruct (IH H) as (sc' & name & Hin & Hg).
    exists sc', name. split; [now right | exact Hg].
Qed.

Lemma scope_get_set_same sc k v : scope_get (scope_set sc k v) k = Some v.
Proof.
  induction sc as [|[k' v'] sc IH]; simpl.
  - now rewrite String.eqb_refl.
  - destruct (String.eqb k k') eqn:E; simpl; rewrite E; [reflexivity | exact IH].
Qed.

Lemma scope_get_set_other sc k v k' :
  k' <> k -> scope_get (scope_set sc k v) k' = scope_get sc k'.
Proof.
  intros Hne. apply String.eqb_neq in Hne.
  induction sc as [|[a b] sc IH]; simpl.
  - now rewrite Hne.
  - destruct (String.eqb k a) eqn:E; simpl.
    + apply String.eqb_eq in E. subst a. now rewrite Hne.
    + destruct (String.eqb k' a); [reflexivity | exact IH].
Qed.

(** The scope of a ruleset: a name of the scope is a name from before or
    the name of a rule, and its symbol is among the symbols created; every
    rule has one symbol, and the name of every rule is in the scope. *)
Lemma build_scope_names rules : forall nextScope s sc names s',
  build_scope rules nextScope s = (sc, names, s') ->
  List.length names = List.length rules /\
  (forall name v, scope_get sc name = Some v ->
                  In v names \/ scope_get nextScope name = Some v) /\
  (forall name, In name (map fst rules) \/ scope_get nextScope name <> None ->
                scope_get sc name <> None).
Proof.
  induction rules as [|[name e] rules IH]; intros nextScope s sc names s' H;
    simpl in H.
  - injection H as <- <- <-. split; [reflexivity|]. split; [auto|].
    intros name [[]|Hn]. exact Hn.
  - destruct (build_scope rules _ _) as [[sc1 names1] s1] eqn:E.
    injection H as <- <- <-. apply IH in E as (Hlen & Hget & Hdef).
    split; [simpl; now rewrite Hlen|]. split.
    + intros x v Hx. apply Hget in Hx as [Hx|Hx]; [left; now right|].
      destruct (string_dec x name) as [->|Hne].
      * rewrite scope_get_set_same in Hx. injection Hx as <-. left. now left.
      * rewrite scope_get_set_other in Hx by exact Hne. now right.
    + intros x Hx. apply Hdef. destruct (string_dec x name) as [->|Hne].
      * right. rewrite scope_get_set_same. discriminate.
      * destruct Hx as [[Hx|Hx]|Hx].
        -- simpl in Hx. congruence.
        -- now left.
        -- right. now rewrite scope_get_set_other.
Qed.

Section ClosedGrammar.

Variable identifierPattern : string -> bool.

Abbreviation closed_at := (simplify_closed_at identifierPattern).

Lemma simplify_all_closed exprs :
  Forall closed_at exprs ->
  forall s es s',
    rules_ok s ->
    simplify_all (simplify identifierPattern) exprs s = Ok (es, s') ->
    rules_ok s' /\ forall e, In e es -> node_ok s' e.
Proof.
  induction 1 as [|x xs Hx Hxs IH]; intros s es s' Hok H; simpl in H.
  - injection H as <- <-. split; [exact Hok | intros e []].
  - destruct (simplify identifierPattern x s) as [[e1 s1]| |] eqn:E1; simpl in H;
      try discriminate.
    destruct (simplify_all _ xs s1) as [[es1 s2]| |] eqn:E2; simpl in H;
      try discriminate.
    injection H as <- <-. apply Hx in E1 as [Hok1 He1]; [|exact Hok].
    pose proof E2 as E2'.
    apply IH in E2 as [Hok2 Hes]; [|exact Hok1].
    split; [exact Hok2|]. intros e [<-|He]; [|now apply Hes].
    apply (simplify_all_evolves identifierPattern xs) with (lo := 0) in E2'
      as [Hs He]; [| |lia].
    + eapply node_ok_evolves; eassumption.
    + apply Forall_forall. intros y _. apply simplify_evolves.
Qed.

Lemma add_rules_closed rules :
  Forall (fun r => closed_at (snd r)) rules ->
  forall names s u s',
    rules_ok s ->
    add_rules (simplify identifierPattern) rules names s = Ok (u, s') ->
    rules_ok s' /\
    (List.length names = List.length rules ->
     forall n, In n names -> rules_get (sim_rules s') n <> None).
Proof.
  induction 1 as [|[name x] xs Hx Hxs IH]; intros names s u s' Hok H; simpl in H.
  - injection H as <- <-. split; [exact Hok|]. intros Hlen n Hn.
    destruct names; [destruct Hn | discriminate].
  - destruct names as [|n names].
    { injection H as <- <-. split; [exact Hok|]. intros Hlen. discriminate. }
    destruct (simplify identifierPattern x s) as [[e1 s1]| |] eqn:E1; simpl in H;
      try discriminate.
    simpl in Hx. apply Hx in E1 as [Hok1 He1]; [|exact Hok].
    pose proof H as H'.
    apply IH in H as [Hok2 Hnames].
    2:{ apply rules_ok_set_rule; [exact Hok1|].
        eapply (node_ok_evolves identifierPattern 0); [| |exact He1].
        - apply evolves_set_rule. lia.
        - reflexivity. }
    split; [exact Hok2|]. intros Hlen m [<-|Hm].
    + apply (add_rules_evolves identifierPattern xs) with (lo := 0) in H'
        as [_ (_ & _ & _ & _ & A5 & _)].
      * apply A5. simpl. rewrite rules_set_get_same. discriminate.
      * apply Forall_forall. intros y _. apply simplify_evolves.
      * lia.
      * apply Forall_forall. intros y _. lia.
    + apply Hnames; [simpl in Hlen; lia | exact Hm].
Qed.

Lemma simplify_closed : forall node, closed_at node.
Proof.
  induction node as [m|rules IH|v|v|v|a x b f IH|xs f IH|xs IH|x IH|x IH|x IH
                     |x sp IHx IHs|x sp IHx IHs] using AST_ind';
    intros s e s' Hok H; pose proof H as H0; simpl in H.
  - discriminate.
  - (* ruleset *)
    destruct rules as [|[firstName x0] rest]; [discriminate|].
    destruct (build_scope _ [] s) as [[sc names] s1] eqn:Eb.
    pose proof (build_scope_names _ _ _ _ _ _ Eb) as (Hlen & Hget & _).
    pose proof (build_scope_spec _ _ _ _ _ _ Eb) as (Hr1 & _).
    apply (build_scope_evolves identifierPattern _ 0) in Eb as [Hs1 He1].
    destruct (add_rules _ _ names _) as [[u s2]| |] eqn:Ea; simpl in H;
      try discriminate.
    destruct (scope_get sc firstName) as [firstRuleName|] eqn:Ef; [|discriminate].
    injection H as <- <-.
    pose proof Ea as Ea'.
    apply (add_rules_evolves identifierPattern) with (lo := 0) in Ea' as [Hs2 He2];
      [|apply Forall_forall; intros y _; apply simplify_evolves|lia
       |apply Forall_forall; intros y _; lia].
    simpl in Hs2.
    assert (Hok1 : rules_ok s1).
    { apply (rules_ok_mono s); [exact Hr1 | | | exact Hok].
      - intros w. now apply (known_evolves identifierPattern 0).
      - intros lit. now apply (registered_evolves identifierPattern 0). }
    assert (Hokp : rules_ok (with_scope (sc :: sim_scope s1) s1)).
    { apply (rules_ok_mono s1); [reflexivity | | auto | exact Hok1].
      intros v [Hv|[(sc' & name & Hin & Hg)|Hv]]; [now left| |now right; right].
      right. left. exists sc', name. split; [now right | exact Hg]. }
    apply add_rules_closed in Ea as [Hok2 Hnames]; [|exact IH|exact Hokp].
    specialize (Hnames Hlen).
    assert (Hpop : forall v, known s2 v ->
                             known (with_scope (tl (sim_scope s2)) s2) v).
    { intros v [Hv|[(sc' & name & Hin & Hg)|Hv]]; [now left| |now right; right].
      rewrite Hs2 in Hin. destruct Hin as [<-|Hin].
      - left. apply Hnames. apply Hget in Hg as [Hg|Hg]; [exact Hg | discriminate].
      - right. left. simpl. rewrite Hs2. simpl. exists sc', name. auto. }
    split.
    + apply (rules_ok_mono s2); [reflexivity|exact Hpop|auto|exact Hok2].
    + apply node_ok_nonterminal. left. simpl. apply Hnames.
      apply Hget in Ef as [Hf|Hf]; [exact Hf | discriminate].
  - (* literal *)
    injection H as <- <-. split.
    + apply (rules_ok_mono s); [| | |exact Hok].
      * apply literals_add_state.
      * intros w. apply (known_evolves identifierPattern 0).
        -- apply evolves_literals_add.
        -- apply literals_add_scope.
      * intros lit. apply (registered_evolves identifierPattern 0).
        apply evolves_literals_add.
    + apply node_ok_literal. unfold registered, literals_add. simpl.
      destruct (identifierPattern v); simpl; [left | right];
        apply strset_add_In; now left.
  - (* terminal *)
    injection H as <- <-. split; [exact Hok|].
    destruct v; simpl;
      first [apply node_ok_value | apply node_ok_identifier
            | apply node_ok_nonterminal; right; right; auto].
  - (* identifier *)
    destruct (lookup (sim_scope s) v) as [sym| |] eqn:El; simpl in H;
      try discriminate.
    injection H as <- <-. split; [exact Hok|].
    apply node_ok_nonterminal. right. left. eapply lookup_in_scope; eassumption.
  - (* structure *)
    clear H. rename H0 into H. rewrite simplify_structure in H.
    destruct (simplify identifierPattern x _) as [[e1 s1]| |] eqn:E1;
      cbn [bind] in H; try discriminate.
    assert (Hs' : s' = snd (literals_add identifierPattern b s1)) by congruence.
    assert (He : e = seq [literal a; e1; literal b; reduce 3 (Some fn__2)])
      by congruence.
    subst s' e. clear H.
    pose proof (simplify_evolves identifierPattern x _ _ _ E1) as [Hsc1 Hev1].
    apply IH in E1 as [Hok1 He1].
    2:{ apply (rules_ok_mono s); [| | |exact Hok].
        - apply literals_add_state.
        - intros w. apply (known_evolves identifierPattern 0).
          + apply evolves_literals_add.
          + apply literals_add_scope.
        - intros lit. apply (registered_evolves identifierPattern 0).
          apply evolves_literals_add. }
    assert (Hmono : forall n t, node_ok t n ->
                      node_ok (snd (literals_add identifierPattern b t)) n).
    { intros n t. apply (node_ok_evolves identifierPattern 0).
      - apply evolves_literals_add.
      - apply literals_add_scope. }
    split.
    + apply (rules_ok_mono s1); [| | |exact Hok1].
      * apply literals_add_state.
      * intros w. apply (known_evolves identifierPattern 0).
        -- apply evolves_literals_add.
        -- apply literals_add_scope.
      * intros lit. apply (registered_evolves identifierPattern 0).
        apply evolves_literals_add.
    + apply node_ok_seq. intros y [<-|[<-|[<-|[<-|[]]]]].
      * apply Hmono. eapply (node_ok_evolves identifierPattern 0);
          [eapply evolves_weaken; [|exact Hev1]; lia | exact Hsc1 |].
        apply node_ok_literal. unfold registered, literals_add. simpl.
        destruct (identifierPattern a); simpl; [left | right];
          apply strset_add_In; now left.
      * now apply Hmono.
      * apply node_ok_literal. unfold registered, literals_add. simpl.
        destruct (identifierPattern b); simpl; [left | right];
          apply strset_add_In; now left.
      * apply node_ok_reduce.
  - (* seq *)
    destruct (simplify_all _ xs s) as [[es s1]| |] eqn:E1; simpl in H;
      try discriminate.
    injection H as <- <-. apply simplify_all_closed in E1 as [Hok1 Hes];
      [|exact IH|exact Hok].
    split; [exact Hok1|]. apply node_ok_seq. intros y Hy.
    apply in_app_or in Hy as [Hy|[<-|[]]]; [now apply Hes | apply node_ok_reduce].
  - (* alt *)
    destruct (simplify_all _ xs s) as [[es s1]| |] eqn:E1; simpl in H;
      try discriminate.
    injection H as <- <-. apply simplify_all_closed in E1 as [Hok1 Hes];
      [|exact IH|exact Hok].
    split; [exact Hok1 | now apply node_ok_alt].
  - (* repeat0 *)
    destruct (simplify identifierPattern x s) as [[e1 s1]| |] eqn:E1; simpl in H;
      try discriminate.
    injection H as <- <-. apply IH in E1 as [Hok1 He1]; [|exact Hok].
    split; [exact Hok1 | now apply node_ok_repeat0].
  - (* repeat1 *)
    destruct (simplify identifierPattern x s) as [[e1 s1]| |] eqn:E1; simpl in H;
      try discriminate.
    injection H as <- <-. apply IH in E1 as [Hok1 He1]; [|exact Hok].
    split; [exact Hok1|]. apply node_ok_seq. intros y [<-|[<-|[<-|[]]]];
      [exact He1 | now apply node_ok_repeat0 | apply node_ok_reduce].
  - (* maybe *)
    destruct (simplify identifierPattern x s) as [[e1 s1]| |] eqn:E1; simpl in H;
      try discriminate.
    injection H as <- <-. apply IH in E1 as [Hok1 He1]; [|exact Hok].
    split; [exact Hok1|]. apply node_ok_alt. intros y [<-|[<-|[]]];
      [exact He1 | apply node_ok_reduce].
  - (* sepBy0 *)
    destruct (simplify identifierPattern x _) as [[e1 s1]| |] eqn:E1; simpl in H;
      try discriminate.
    destruct (simplify identifierPattern sp s1) as [[e2 s2]| |] eqn:E2; simpl in H;
      try discriminate.
    injection H as <- <-.
    pose proof (simplify_evolves identifierPattern sp _ _ _ E2) as [Hsc2 Hev2].
    apply IHx in E1 as [Hok1 He1].
    2:{ apply (rules_ok_mono s); [reflexivity| | |exact Hok]; auto. }
    apply IHs in E2 as [Hok2 He2]; [|exact Hok1].
    set (R := Symbol (sim_next s) None) in *.
    set (s3 := set_rule R (sepRule (nonterminal R) e1 e2) s2).
    assert (Hmono : forall n, node_ok s2 n -> node_ok s3 n).
    { intros n. apply (node_ok_evolves identifierPattern 0).
      - apply evolves_set_rule. lia.
      - reflexivity. }
    assert (HR : node_ok s3 (nonterminal R)).
    { apply node_ok_nonterminal. left. simpl. rewrite rules_set_get_same.
      discriminate. }
    assert (Harr : forall n, node_ok s3 n -> node_ok s3 (orArr n)).
    { intros n Hn. apply node_ok_alt. intros y [<-|[<-|[]]];
        [exact Hn | apply node_ok_reduce]. }
    split; [|now apply Harr].
    apply rules_ok_set_rule; [exact Hok2|]. fold s3.
    apply node_ok_seq. intros y [<-|[<-|[<-|[]]]].
    + apply Hmono. eapply (node_ok_evolves identifierPattern 0);
        [eapply evolves_weaken; [|exact Hev2]; lia | exact Hsc2 | exact He1].
    + apply Harr. apply node_ok_seq. intros y [<-|[<-|[<-|[]]]];
        [now apply Hmono | now apply Harr | apply node_ok_reduce].
    + apply node_ok_reduce.
  - (* sepBy1 *)
    destruct (simplify identifierPattern x _) as [[e1 s1]| |] eqn:E1; simpl in H;
      try discriminate.
    destruct (simplify identifierPattern sp s1) as [[e2 s2]| |] eqn:E2; simpl in H;
      try discriminate.
    injection H as <- <-.
    pose proof (simplify_evolves identifierPattern sp _ _ _ E2) as [Hsc2 Hev2].
    apply IHx in E1 as [Hok1 He1].
    2:{ apply (rules_ok_mono s); [reflexivity| | |exact Hok]; auto. }
    apply IHs in E2 as [Hok2 He2]; [|exact Hok1].
    set (R := Symbol (sim_next s) None) in *.
    set (s3 := set_rule R (sepRule (nonterminal R) e1 e2) s2).
    assert (Hmono : forall n, node_ok s2 n -> node_ok s3 n).
    { intros n. apply (node_ok_evolves identifierPattern 0).
      - apply evolves_set_rule. lia.
      - reflexivity. }
    assert (HR : node_ok s3 (nonterminal R)).
    { apply node_ok_nonterminal. left. simpl. rewrite rules_set_get_same.
      discriminate. }
    assert (Harr : forall n, node_ok s3 n -> node_ok s3 (orArr n)).
    { intros n Hn. apply node_ok_alt. intros y [<-|[<-|[]]];
        [exact Hn | apply node_ok_reduce]. }
    split; [|exact HR].
    apply rules_ok_set_rule; [exact Hok2|]. fold s3.
    apply node_ok_seq. intros y [<-|[<-|[<-|[]]]].
    + apply Hmono. eapply (node_ok_evolves identifierPattern 0);
        [eapply evolves_weaken; [|exact Hev2]; lia | exact Hsc2 | exact He1].
    + apply Harr. apply node_ok_seq. intros y [<-|[<-|[<-|[]]]];
        [now apply Hmono | now apply Harr | apply node_ok_reduce].
    + apply node_ok_reduce.
Qed.

End ClosedGrammar.

(** ** What the simplifier keeps *)

(** X13.  The simplifier keeps what it has.  From a state in which every
    rule of the table is named by a symbol created before, a successful
    simplification of a node leaves the stack of scopes as it found it,
    keeps the symbols of the keyword rule and of the operator rule, keeps
    every rule of the table with the body it had, and keeps the keywords and
    the operators recorded so far; the counter of the symbols does not go
    back. *)
Theorem simplify_keeps_state (identifierPattern : string -> bool) (node : AST)
    (s s' : ASTSimplifier) (e : SimpleAST) :
  sim_wf s ->
  simplify identifierPattern node s = Ok (e, s') ->
  sim_scope s' = sim_scope s /\
  sim_keywordRule s' = sim_keywordRule s /\
  sim_operatorRule s' = sim_operatorRule s /\
  sim_next s <= sim_next s' /\
  (forall k body, rules_get (sim_rules s) k = Some body ->
                  rules_get (sim_rules s') k = Some body) /\
  (forall x, In x (sim_keywords s) -> In x (sim_keywords s')) /\
  (forall x, In x (sim_operators s) -> In x (sim_operators s')).
Proof.
  intros Hwf H. apply simplify_evolves in H
    as (Hs & A1 & A2 & A3 & A4 & _ & A6 & A7 & _).
  repeat (split; [assumption|]). split; [|split; assumption].
  intros k body Hk. rewrite A4; [exact Hk|].
  apply rules_get_In in Hk. now apply Hwf in Hk.
Qed.

(** A separated list after a rule [R]: the rule [R] is kept. *)
Lemma simplify_keeps_state_witness :
  let R := Symbol 2 (Some "R") in
  let s := mkSimplifier [(R, value)] [] [] ["+"]
             (Symbol 0 (Some "keyword")) (Symbol 1 (Some "operator")) 3 in
  exists e s',
    simplify (fun _ => false)
      (AST.sepBy1 (AST.terminal t_value) (AST.literal ",")) s = Ok (e, s') /\
    rules_get (sim_rules s') R = Some value /\ In "+" (sim_operators s').
Proof.
  intros R s.
  assert (Hwf : sim_wf s).
  { intros k n [[= <- <-]|[]]. simpl. lia. }
  eexists. eexists. split; [reflexivity|].
  destruct (simplify_keeps_state (fun _ => false)
              (AST.sepBy1 (AST.terminal t_value) (AST.literal ",")) s _ _ Hwf eq_refl)
    as (_ & _ & _ & _ & Hr & _ & Ho).
  split; [apply Hr; reflexivity | apply Ho; now left].
Defined.

(** ** The result of [simplifyAll] *)

Lemma node_ok_createAlts s lits :
  (forall x, In x lits -> registered s x) -> node_ok s (createAlts lits).
Proof.
  intros H. apply node_ok_alt. intros y Hy.
  apply in_map_iff in Hy as (x & <- & Hx). apply node_ok_literal. auto.
Qed.

Section SimplifyAll.

Variable identifierPattern : string -> bool.

(** The steps of [simplifyAll]. *)
Lemma simplifyAll_steps node r :
  simplifyAll identifierPattern node = Ok r ->
  exists e s',
    let s0 := snd (new_Symbol (Some "start") new_ASTSimplifier) in
    let start := Symbol 2 (Some "start") in
    simplify identifierPattern node s0 = Ok (e, s') /\
    r = mkSimplified start
          (sim_rules (literals_compile (set_rule start e s')))
          (sim_keywords s') (sim_operators s').
Proof.
  unfold simplifyAll. simpl.
  destruct (simplify identifierPattern node _) as [[e s']| |] eqn:E; simpl;
    try discriminate.
  intros [= <-]. exists e, s'. split; [first [exact E | reflexivity] | reflexivity].
Qed.

Lemma simplifyAll_final node e s' :
  simplify identifierPattern node (snd (new_Symbol (Some "start") new_ASTSimplifier))
  = Ok (e, s') ->
  let start := Symbol 2 (Some "start") in
  let kw := Symbol 0 (Some "keyword") in
  let op := Symbol 1 (Some "operator") in
  let final := literals_compile (set_rule start e s') in
  sim_scope final = [] /\
  sim_keywordRule final = kw /\ sim_operatorRule final = op /\
  rules_get (sim_rules final) start = Some e /\
  rules_get (sim_rules final) kw = Some (createAlts (sim_keywords s')) /\
  rules_get (sim_rules final) op = Some (createAlts (sim_operators s')) /\
  rules_ok final /\ NoDup (map fst (sim_rules final)).
Proof.
  intros H start kw op final.
  pose proof (simplify_evolves identifierPattern node _ _ _ H)
    as (Hs & A1 & A2 & _ & _ & _ & _ & _ & _ & _ & _ & _ & A12).
  simpl in Hs, A1, A2, A12. specialize (A12 (NoDup_nil _)).
  assert (Hok0 : rules_ok (snd (new_Symbol (Some "start") new_ASTSimplifier))).
  { intros k body Hk. discriminate. }
  apply simplify_closed in H as [Hok He]; [|exact Hok0].
  unfold final, literals_compile. simpl. rewrite A1, A2.
  split; [exact Hs|]. split; [reflexivity|]. split; [reflexivity|].
  fold kw op.
  assert (Hne1 : start <> kw) by discriminate.
  assert (Hne2 : start <> op) by discriminate.
  assert (Hne3 : kw <> op) by discriminate.
  split; [now rewrite !rules_set_get_other, rules_set_get_same by assumption|].
  split; [now rewrite rules_set_get_other, rules_set_get_same by assumption|].
  split; [now rewrite rules_set_get_same|].
  split; [|now repeat apply rules_set_NoDup].
  set (s1 := set_rule start e s').
  set (s2 := set_rule kw (createAlts (sim_keywords s')) s1).
  set (s3 := set_rule op (createAlts (sim_operators s')) s2).
  assert (Hm : forall t name n x, node_ok t x -> node_ok (set_rule name n t) x).
  { intros t name n x. apply (node_ok_evolves identifierPattern 0).
    - apply evolves_set_rule. lia.
    - reflexivity. }
  assert (H1 : rules_ok s1) by (apply rules_ok_set_rule; [exact Hok | now apply Hm]).
  assert (H2 : rules_ok s2).
  { apply rules_ok_set_rule; [exact H1|]. apply node_ok_createAlts.
    intros x Hx. now left. }
  assert (H3 : rules_ok s3).
  { apply rules_ok_set_rule; [exact H2|]. apply node_ok_createAlts.
    intros x Hx. now right. }
  exact H3.
Qed.

End SimplifyAll.

(** X14.  The grammar [simplifyAll] returns has no dangling reference: the
    start rule is in the table with the simplified root as its body, no
    symbol names two rules, and every rule that a body of the table refers
    to is in the table. *)
Theorem simplifyAll_closed (identifierPattern : string -> bool) (node : AST)
    (r : Simplified) :
  simplifyAll identifierPattern node = Ok r ->
  startRule r = Symbol 2 (Some "start") /\
  (exists e s',
      simplify identifierPattern node
        (snd (new_Symbol (Some "start") new_ASTSimplifier)) = Ok (e, s') /\
      rules_get (rules r) (startRule r) = Some e) /\
  NoDup (map fst (rules r)) /\
  closed_rules (rules r).
Proof.
  intros H. apply simplifyAll_steps in H as (e & s' & Hs & ->).
  cbn [startRule rules keywords operators].
  destruct (simplifyAll_final identifierPattern node e s' Hs)
    as (Hscope & Hkw & Hop & Hstart & Hk & Ho & Hok & Hnd).
  split; [reflexivity|]. split; [exists e, s'; now split|].
  split; [exact Hnd|].
  intros k body v Hb Hv. destruct (proj1 (Hok k body Hb) v Hv) as [Hr|[Hr|[Hr|Hr]]].
  - exact Hr.
  - rewrite Hscope in Hr. destruct Hr as (sc & name & [] & _).
  - rewrite Hr, Hkw, Hk. discriminate.
  - rewrite Hr, Hop, Ho. discriminate.
Qed.

(** [A = "x" A?]: the body of [A] refers to [A], which is in the table. *)
Lemma simplifyAll_closed_witness :
  let node := AST.ruleset
                [("A", AST.seq [AST.literal "x"; AST.maybe (AST.identifier "A")] None)] in
  exists r,
    simplifyAll (fun _ => false) node = Ok r /\
    rules_get (rules r) (startRule r) = Some (nonterminal (Symbol 3 (Some "A"))) /\
    rules_get (rules r) (Symbol 3 (Some "A")) <> None.
Proof.
  intros node. eexists. split; [reflexivity|].
  destruct (simplifyAll_closed (fun _ => false) node _ eq_refl) as (_ & _ & _ & Hc).
  split; [reflexivity|].
  apply (Hc (Symbol 2 (Some "start")) (nonterminal (Symbol 3 (Some "A"))));
    [reflexivity | constructor].
Defined.

(** X15.  The literals of the grammar [simplifyAll] returns.  The keywords
    are the literals that have the shape of an identifier and the operators
    the ones that have not, each listed once; every literal that a body of
    the table matches is a keyword or an operator; and the keyword rule and
    the operator rule are the alternatives of the keywords and of the
    operators. *)
Theorem simplifyAll_literals (identifierPattern : string -> bool) (node : AST)
    (r : Simplified) :
  simplifyAll identifierPattern node = Ok r ->
  NoDup (keywords r) /\ NoDup (operators r) /\
  (forall x, In x (keywords r) -> identifierPattern x = true) /\
  (forall x, In x (operators r) -> identifierPattern x = false) /\
  (forall k body lit,
      rules_get (rules r) k = Some body -> Sub body (literal lit) ->
      In lit (keywords r) \/ In lit (operators r)) /\
  rules_get (rules r) (Symbol 0 (Some "keyword")) = Some (createAlts (keywords r)) /\
  rules_get (rules r) (Symbol 1 (Some "operator")) = Some (createAlts (operators r)).
Proof.
  intros H. apply simplifyAll_steps in H as (e & s' & Hs & ->).
  cbn [startRule rules keywords operators].
  destruct (simplifyAll_final identifierPattern node e s' Hs)
    as (Hscope & Hkw & Hop & Hstart & Hk & Ho & Hok & _).
  pose proof (simplify_evolves identifierPattern node _ _ _ Hs)
    as (_ & _ & _ & _ & _ & _ & _ & _ & A8 & A9 & A10 & A11 & _).
  simpl in A8, A9, A10, A11.
  split; [apply A10; constructor|]. split; [apply A11; constructor|].
  split; [intros x Hx; destruct (A8 x Hx) as [[]|Hp]; exact Hp|].
  split; [intros x Hx; destruct (A9 x Hx) as [[]|Hp]; exact Hp|].
  split; [|split; assumption].
  intros k body lit Hb Hl. exact (proj2 (Hok k body Hb) lit Hl).
Qed.

(** [if "+" if]: one keyword and one operator. *)
Lemma simplifyAll_literals_witness :
  let node := AST.seq [AST.literal "if"; AST.literal "+"; AST.literal "if"] None in
  let ip := fun x => String.eqb x "if" in
  exists r,
    simplifyAll ip node = Ok r /\
    keywords r = ["if"] /\ operators r = ["+"] /\
    forall x, In x (operators r) -> ip x = false.
Proof.
  intros node ip. eexists. split; [reflexivity|].
  split; [reflexivity|]. split; [reflexivity|].
  exact (proj1 (proj2 (proj2 (proj2 (simplifyAll_literals ip node _ eq_refl))))).
Defined.

(** ** The errors of the simplifier *)

Section SimplifierErrors.

Variable identifierPattern : string -> bool.

Abbreviation errors_at := (simplify_errors_at identifierPattern).

Lemma lookup_error stack v :
  lookup stack v <> OutOfFuel /\
  forall err, lookup stack v = Throw err ->
              err = OtherError ("unknown identifier " ++ v).
Proof.
  induction stack as [|sc outer IH]; simpl.
  - split; [discriminate | now intros err [= <-]].
  - destruct (scope_get sc v); [split; discriminate | exact IH].
Qed.

Lemma simplify_all_errors exprs :
  Forall errors_at exprs ->
  forall s,
    simplify_all (simplify identifierPattern) exprs s <> OutOfFuel /\
    forall err, simplify_all (simplify identifierPattern) exprs s = Throw err ->
                exists message, err = OtherError message.
Proof.
  induction 1 as [|x xs Hx Hxs IH]; intros s; simpl.
  - split; discriminate.
  - destruct (Hx s) as [Hf Ht].
    destruct (simplify identifierPattern x s) as [[e1 s1]|err1|]; simpl.
    + destruct (IH s1) as [Hf1 Ht1].
      destruct (simplify_all _ xs s1) as [[es s2]|err2|]; simpl.
      * split; discriminate.
      * split; [discriminate|]. intros err [= <-]. now apply Ht1.
      * contradiction.
    + split; [discriminate|]. intros err [= <-]. now apply Ht.
    + contradiction.
Qed.

Lemma add_rules_errors rules :
  Forall (fun r => errors_at (snd r)) rules ->
  forall names s,
    add_rules (simplify identifierPattern) rules names s <> OutOfFuel /\
    forall err, add_rules (simplify identifierPattern) rules names s = Throw err ->
                exists message, err = OtherError message.
Proof.
  induction 1 as [|[name x] xs Hx Hxs IH]; intros names s; simpl.
  - split; discriminate.
  - destruct names as [|n names]; [split; discriminate|].
    simpl in Hx. destruct (Hx s) as [Hf Ht].
    destruct (simplify identifierPattern x s) as [[e1 s1]|err1|]; simpl.
    + apply IH.
    + split; [discriminate|]. intros err [= <-]. now apply Ht.
    + contradiction.
Qed.

Lemma simplify_errors : forall node, errors_at node.
Proof.
  induction node as [m|rules IH|v|v|v|a x b f IH|xs f IH|xs IH|x IH|x IH|x IH
                     |x sp IHx IHs|x sp IHx IHs] using AST_ind';
    intros s.
  - simpl. split; [discriminate|]. intros err [= <-]. now exists m.
  - simpl. destruct rules as [|[firstName x0] rest].
    { split; [discriminate|]. intros err [= <-]. eauto. }
    destruct (build_scope _ [] s) as [[sc names] s1] eqn:Eb.
    apply build_scope_names in Eb as (_ & _ & Hdef).
    destruct (add_rules_errors _ IH names (with_scope (sc :: sim_scope s1) s1))
      as [Hf Ht].
    destruct (add_rules _ _ names _) as [[u s2]|err1|]; simpl.
    + destruct (scope_get sc firstName) eqn:Ef; [split; discriminate|].
      exfalso. apply (Hdef firstName); [left; now left | exact Ef].
    + split; [discriminate|]. intros err [= <-]. now apply Ht.
    + contradiction.
  - simpl. split; discriminate.
  - simpl. split; discriminate.
  - simpl. destruct (lookup_error (sim_scope s) v) as [Hf Ht].
    destruct (lookup (sim_scope s) v) as [sym|err1|]; simpl.
    + split; discriminate.
    + split; [discriminate|]. intros err [= <-]. rewrite (Ht _ eq_refl). eauto.
    + contradiction.
  - rewrite simplify_structure.
    destruct (IH (snd (literals_add identifierPattern a s))) as [Hf Ht].
    destruct (simplify identifierPattern x _) as [[e1 s1]|err1|]; cbn [bind].
    + split; discriminate.
    + split; [discriminate|]. intros err [= <-]. now apply Ht.
    + contradiction.
  - simpl. destruct (simplify_all_errors _ IH s) as [Hf Ht].
    destruct (simplify_all _ xs s) as [[es s1]|err1|]; simpl.
    + split; discriminate.
    + split; [discriminate|]. intros err [= <-]. now apply Ht.
    + contradiction.
  - simpl. destruct (simplify_all_errors _ IH s) as [Hf Ht].
    destruct (simplify_all _ xs s) as [[es s1]|err1|]; simpl.
    + split; discriminate.
    + split; [discriminate|]. intros err [= <-]. now apply Ht.
    + contradiction.
  - simpl. destruct (IH s) as [Hf Ht].
    destruct (simplify identifierPattern x s) as [[e1 s1]|err1|]; simpl.
    + split; discriminate.
    + split; [discriminate|]. intros err [= <-]. now apply Ht.
    + contradiction.
  - simpl. destruct (IH s) as [Hf Ht].
    destruct (simplify identifierPattern x s) as [[e1 s1]|err1|]; simpl.
    + split; discriminate.
    + split; [discriminate|]. intros err [= <-]. now apply Ht.
    + contradiction.
  - simpl. destruct (IH s) as [Hf Ht].
    destruct (simplify identifierPattern x s) as [[e1 s1]|err1|]; simpl.
    + split; discriminate.
    + split; [discriminate|]. intros err [= <-]. now apply Ht.
    + contradiction.
  - simpl. destruct (IHx (snd (new_Symbol None s))) as [Hf Ht]. simpl in Hf, Ht.
    destruct (simplify identifierPattern x _) as [[e1 s1]|err1|]; simpl.
    + destruct (IHs s1) as [Hf1 Ht1].
      destruct (simplify identifierPattern sp s1) as [[e2 s2]|err2|]; simpl.
      * split; discriminate.
      * split; [discriminate|]. intros err [= <-]. now apply Ht1.
      * contradiction.
    + split; [discriminate|]. intros err [= <-]. now apply Ht.
    + contradiction.
  - simpl. destruct (IHx (snd (new_Symbol None s))) as [Hf Ht]. simpl in Hf, Ht.
    destruct (simplify identifierPattern x _) as [[e1 s1]|err1|]; simpl.
    + destruct (IHs s1) as [Hf1 Ht1].
      destruct (simplify identifierPattern sp s1) as [[e2 s2]|err2|]; simpl.
      * split; discriminate.
      * split; [discriminate|]. intros err [= <-]. now apply Ht1.
      * contradiction.
    + split; [discriminate|]. intros err [= <-]. now apply Ht.
    + contradiction.
Qed.

End SimplifierErrors.

(** X16.  The errors of the simplifier.  [simplify] returns or raises an
    [Error] that carries a message: the message of an error node, the
    unknown identifier, or the empty ruleset.  The lookup of the first rule
    of a ruleset in the scope just built never fails, and an identifier that
    no scope of the stack defines raises [unknown identifier] with its
    name. *)
Theorem simplify_raises_messages (identifierPattern : string -> bool) :
  (forall node s err,
      simplify identifierPattern node s = Throw err ->
      exists message, err = OtherError message) /\
  (forall node s, simplify identifierPattern node s <> OutOfFuel) /\
  (forall v s,
      (forall sc, In sc (sim_scope s) -> scope_get sc v = None) ->
      simplify identifierPattern (AST.identifier v) s
      = Throw (OtherError ("unknown identifier " ++ v))) /\
  (forall message s,
      simplify identifierPattern (AST.error message) s = Throw (OtherError message)).
Proof.
  split; [|split; [|split]].
  - intros node s err H. exact (proj2 (simplify_errors identifierPattern node s) err H).
  - intros node s. exact (proj1 (simplify_errors identifierPattern node s)).
  - intros v s Hnone. simpl.
    assert (G : lookup (sim_scope s) v = Throw (OtherError ("unknown identifier " ++ v))).
    { induction (sim_scope s) as [|sc outer IH]; simpl; [reflexivity|].
      rewrite (Hnone sc (or_introl eq_refl)). apply IH.
      intros sc' Hin. apply Hnone. now right. }
    now rewrite G.
  - reflexivity.
Qed.

(** A reference to a rule that no scope defines. *)
Lemma simplify_raises_messages_witness :
  simplify (fun _ => false) (AST.maybe (AST.identifier "A")) new_ASTSimplifier
  = Throw (OtherError "unknown identifier A") /\
  exists message, OtherError "unknown identifier A" = OtherError message.
Proof.
  split; [reflexivity|].
  exact (proj1 (simplify_raises_messages (fun _ => false))
           (AST.maybe (AST.identifier "A")) new_ASTSimplifier _ eq_refl).
Defined.

(** ** The symbols of a ruleset *)




Section RulesetSymbols.

Variable identifierPattern : string -> bool.


End RulesetSymbols.




(** The table of [simplifyAll] is a map without dangling references. *)
Lemma simplifyAll_closed_grammar identifierPattern node r :
  simplifyAll identifierPattern node = Ok r ->
  NoDup (map fst (rules r)) /\ closed_rules (rules r).
Proof.
  intros H. apply simplifyAll_steps in H as (e & s' & Hs & ->).
  cbn [startRule rules keywords operators].
  destruct (simplifyAll_final identifierPattern node e s' Hs)
    as (Hscope & Hkw & Hop & Hstart & Hk & Ho & Hok & Hnd).
  split; [exact Hnd|].
  intros k body v Hb Hv. destruct (proj1 (Hok k body Hb) v Hv) as [Hr|[Hr|[Hr|Hr]]].
  - exact Hr.
  - rewrite Hscope in Hr. destruct Hr as (sc & name & [] & _).
  - rewrite Hr, Hkw, Hk. discriminate.
  - rewrite Hr, Hop, Ho. discriminate.
Qed.

(** ** The errors of the compiler on a closed grammar *)

Lemma Sub_trans a b c : Sub a b -> Sub b c -> Sub a c.
Proof.
  intros H. revert c. induction H; intros c Hc; [exact Hc| | |].
  - apply Sub_repeat0. auto.
  - eapply Sub_seq; eauto.
  - eapply Sub_alt; eauto.
Qed.

Section ClosedErrors.

Variable rules : RuleMap.

Hypothesis closed : closed_rules rules.

Lemma closed_node_seq es e : closed_node rules (seq es) -> In e es -> closed_node rules e.
Proof. intros H He v Hv. apply H. eapply Sub_seq; eassumption. Qed.

Lemma closed_node_alt es e : closed_node rules (alt es) -> In e es -> closed_node rules e.
Proof. intros H He v Hv. apply H. eapply Sub_alt; eassumption. Qed.

Lemma closed_node_repeat0 e : closed_node rules (repeat0 e) -> closed_node rules e.
Proof. intros H v Hv. apply H. now apply Sub_repeat0. Qed.

Lemma closed_node_body v body :
  rules_get rules v = Some body -> closed_node rules body.
Proof. intros Hr w Hw. eapply closed; eassumption. Qed.

Lemma merge_terminals_error conflict set ts e :
  (forall t, grammar_error (conflict t)) ->
  merge_terminals conflict set ts = Throw e -> grammar_error e.
Proof.
  intros Hc H. apply merge_terminals_Throw in H as (pre & t & post & _ & -> & _).
  apply Hc.
Qed.

Lemma alt_loop_errors fuel recurSet exprs :
  Forall (get_errors_at rules fuel) exprs ->
  (forall x, In x exprs -> closed_node rules x) ->
  forall set c e,
    alt_loop (get rules fuel) recurSet exprs set c = Throw e -> grammar_error e.
Proof.
  induction 1 as [|x xs Hx Hxs IH]; intros Hcl set c e H; simpl in H;
    [discriminate|].
  destruct (get rules fuel x recurSet c) as [[ts c1]|e1|] eqn:E1; simpl in H;
    try discriminate.
  - destruct (merge_terminals FirstFirstConflict set ts) as [set1|e2|] eqn:E2;
      simpl in H; try discriminate.
    + eapply IH; [|exact H]. intros y Hy. apply Hcl. now right.
    + injection H as <-. eapply merge_terminals_error; [|exact E2]. now intros t.
  - injection H as <-. eapply Hx; [|exact E1]. apply Hcl. now left.
Qed.

Lemma seq_loop_errors fuel recurSet exprs :
  Forall (get_errors_at rules fuel) exprs ->
  (forall x, In x exprs -> closed_node rules x) ->
  forall set c e,
    seq_loop (get rules fuel) recurSet exprs set c = Throw e -> grammar_error e.
Proof.
  induction 1 as [|x xs Hx Hxs IH]; intros Hcl set c e H; simpl in H;
    [discriminate|].
  destruct (get rules fuel x recurSet c) as [[ts c1]|e1|] eqn:E1; simpl in H;
    try discriminate.
  - destruct (merge_terminals FirstFollowConflict (set_delete set brandEof) ts)
      as [set1|e2|] eqn:E2; simpl in H; try discriminate.
    + destruct (negb (set_has set1 brandEof)); [discriminate|].
      eapply IH; [|exact H]. intros y Hy. apply Hcl. now right.
    + injection H as <-. eapply merge_terminals_error; [|exact E2]. now intros t.
  - injection H as <-. eapply Hx; [|exact E1]. apply Hcl. now left.
Qed.

Lemma get_errors fuel : forall node, get_errors_at rules fuel node.
Proof.
  induction fuel as [fuel IHfuel] using lt_wf_ind.
  induction node as [v| | |v|x IHx|es IHes|es IHes|n f] using SimpleAST_ind';
    intros recurSet c e Hcl H; rewrite get_unfold in H;
    (destruct (cache_get c _) as [s0|]; [discriminate|]);
    match type of H with
    | bind ?m _ = _ => destruct m as [[res c1]|e1|] eqn:E; simpl in H;
                       try discriminate
    end; injection H as <-; simpl in E; try discriminate.
  - destruct (recur_has recurSet v); [now injection E as <-|].
    destruct (rules_get rules v) as [next|] eqn:Er.
    + destruct fuel as [|fuel']; [discriminate|]. simpl in E.
      eapply IHfuel; [| |exact E]; [lia|]. eapply closed_node_body; eassumption.
    + exfalso. apply (Hcl v); [constructor | exact Er].
  - destruct (get rules fuel x recurSet c) as [[innerSet c2]|e2|] eqn:E1; simpl in E;
      try discriminate.
    + destruct (set_has innerSet brandEof); [now injection E as <-|discriminate].
    + injection E as <-. eapply IHx; [|exact E1]. now apply closed_node_repeat0.
  - eapply seq_loop_errors; [exact IHes| |exact E].
    intros y Hy. eapply closed_node_seq; eassumption.
  - eapply alt_loop_errors; [exact IHes| |exact E].
    intros y Hy. eapply closed_node_alt; eassumption.
Qed.

Lemma alt_set_terminals_errors (k : FS Parser) ts :
  (forall c e, k c = Throw e -> grammar_error e) ->
  forall m c e, alt_set_terminals k ts m c = Throw e -> grammar_error e.
Proof.
  intros Hk. induction ts as [|t ts IH]; intros m c e H; simpl in H;
    [discriminate|].
  destruct (k c) as [[p c1]|e1|] eqn:E; simpl in H; try discriminate.
  - eapply IH; exact H.
  - injection H as <-. eapply Hk; exact E.
Qed.

Lemma compile_errors : forall node, compile_errors_at rules node.
Proof.
  induction node as [v| | |v|x IHx|es IHes|es IHes|n f] using SimpleAST_ind';
    intros c e Hcl H; try (simpl in H; discriminate).
  - simpl in H.
    destruct (firstSet_get rules (repeat0 x) c) as [[s c1]|e1|] eqn:E1; simpl in H;
      try discriminate.
    2:{ injection H as <-. eapply get_errors; eassumption. }
    destruct (compile rules x c1) as [[q c2]|e2|] eqn:E2; simpl in H;
      try discriminate.
    2:{ injection H as <-. eapply IHx; [|exact E2]. now apply closed_node_repeat0. }
    destruct (firstSet_get rules x c2) as [[ts c3]|e3|] eqn:E3; simpl in H;
      try discriminate.
    injection H as <-. eapply get_errors; [|exact E3]. now apply closed_node_repeat0.
  - simpl in H.
    destruct (firstSet_get rules (seq es) c) as [[s c1]|e1|] eqn:E1; simpl in H;
      try discriminate.
    2:{ injection H as <-. eapply get_errors; eassumption. }
    destruct (compile_all (compile rules) es c1) as [[ps c2]|e2|] eqn:E2; simpl in H;
      try discriminate.
    injection H as <-.
    assert (Hes : forall y, In y es -> closed_node rules y)
      by (intros y Hy; eapply closed_node_seq; eassumption).
    clear E1 Hcl. revert c1 E2.
    induction IHes as [|y ys Hy _ IH]; intros c1 E2; simpl in E2; [discriminate|].
    destruct (compile rules y c1) as [[q c3]|e3|] eqn:E3; simpl in E2;
      try discriminate.
    + destruct (compile_all (compile rules) ys c3) as [[qs c4]|e4|] eqn:E4;
        simpl in E2; try discriminate.
      injection E2 as <-. eapply IH; [|exact E4]. intros z Hz. apply Hes. now right.
    + injection E2 as <-. eapply Hy; [|exact E3]. apply Hes. now left.
  - rewrite compile_alt_unfold in H.
    destruct (firstSet_get rules (alt es) c) as [[s c1]|e1|] eqn:E1; cbn [bind] in H;
      try discriminate.
    2:{ injection H as <-. eapply get_errors; eassumption. }
    destruct (alt_branches rules (compile rules) es [] c1) as [[m c2]|e2|] eqn:E2;
      cbn [bind] in H; try discriminate.
    injection H as <-.
    assert (Hes : forall y, In y es -> closed_node rules y)
      by (intros y Hy; eapply closed_node_alt; eassumption).
    clear E1 Hcl. revert E2. generalize (@nil (Terminal * Parser)). revert c1.
    induction IHes as [|y ys Hy _ IH]; intros c1 m0 E2; [discriminate|].
    rewrite alt_branches_cons in E2.
    destruct (firstSet_get rules y c1) as [[ts c3]|e3|] eqn:E3; cbn [bind] in E2;
      try discriminate.
    2:{ injection E2 as <-. eapply get_errors; [|exact E3]. apply Hes. now left. }
    destruct (alt_set_terminals (compile rules y) ts m0 c3) as [[m1 c4]|e4|] eqn:E4;
      cbn [bind] in E2; try discriminate.
    + eapply IH; [|exact E2]. intros z Hz. apply Hes. now right.
    + injection E2 as <-. eapply alt_set_terminals_errors; [|exact E4].
      intros c5 e5 H5. eapply Hy; [|exact H5]. apply Hes. now left.
Qed.

Lemma compile_rules_errors entries : forall cr c e,
  (forall k n, In (k, n) entries -> closed_node rules n) ->
  compile_rules rules entries cr c = Throw e -> grammar_error e.
Proof.
  induction entries as [|[k n] entries IH]; intros cr c e Hcl H; simpl in H;
    [discriminate|].
  destruct (compile rules n c) as [[p c1]|e1|] eqn:E; simpl in H; try discriminate.
  - eapply IH; [|exact H]. intros k' n' Hin. eapply Hcl. right. exact Hin.
  - injection H as <-. eapply compile_errors; [|exact E]. eapply Hcl. now left.
Qed.

End ClosedErrors.

(** X18.  The errors of the compiler.  On a rule table without dangling
    references, and so on every table that [simplifyAll] returns,
    [compileRuleset] returns the matchers or raises one of the four errors
    of [FirstSetBuilder]: left recursion, a [repeat0] that can match
    nothing, a first/follow conflict or a first/first conflict. *)
Theorem compileRuleset_errors :
  (forall rules : RuleMap,
      NoDup (map fst rules) -> closed_rules rules ->
      compileRuleset rules <> OutOfFuel /\
      forall e, compileRuleset rules = Throw e -> grammar_error e) /\
  (forall (identifierPattern : string -> bool) (node : AST) (r : Simplified),
      simplifyAll identifierPattern node = Ok r ->
      compileRuleset (rules r) <> OutOfFuel /\
      forall e, compileRuleset (rules r) = Throw e -> grammar_error e).
Proof.
  assert (G : forall rules : RuleMap,
             NoDup (map fst rules) -> closed_rules rules ->
             compileRuleset rules <> OutOfFuel /\
             forall e, compileRuleset rules = Throw e -> grammar_error e).
  { intros rules Hnd Hcl. split; [apply compileRuleset_total|].
    intros e H. unfold compileRuleset in H.
    destruct (compile_rules rules rules [] []) as [[cr c]|e1|] eqn:E; simpl in H;
      try discriminate.
    injection H as <-. eapply compile_rules_errors; [exact Hcl| |exact E].
    intros k n Hin v Hv. eapply Hcl; [|exact Hv].
    apply rules_get_NoDup; [exact Hnd | exact Hin]. }
  split; [exact G|].
  intros identifierPattern node r H.
  apply simplifyAll_closed_grammar in H as [Hnd Hcl]. now apply G.
Qed.

(** The grammar of ["x" | "x"], as [simplifyAll] returns it: the error is
    the first/first conflict. *)
Lemma compileRuleset_errors_witness :
  let node := AST.alt [AST.literal "x"; AST.literal "x"] in
  exists r,
    simplifyAll (fun _ => false) node = Ok r /\
    compileRuleset (rules r) = Throw (FirstFirstConflict (brandLiteral "x")) /\
    grammar_error (FirstFirstConflict (brandLiteral "x")).
Proof.
  intros node. eexists. split; [reflexivity|]. split; [reflexivity|].
  exact (proj2 (proj2 compileRuleset_errors (fun _ => false) node _ eq_refl)
           _ eq_refl).
Defined.
(* ================================================================= *)
(** ** The lexer: more fuel changes nothing *)

Section LexerFuel.

Variable ID_Start ID_Continue : ascii -> bool.
Variable Number_ : string -> JSValue.
Variable String_ : JSValue -> string.

Lemma quote_scan_S fuel pattern token st :
  quote_scan String_ (S fuel) pattern token st
  = match nextChar st with
    | None => Ok (false, token, st)
    | Some _ =>
        match matchPattern pattern st with
        | (None, _) => Throw (OtherError "newline not allowed in string")
        | (Some (1, body), st) =>
            quote_scan String_ fuel pattern
              (grow String_ token body (String.length body)) st
        | (Some _, st) =>
            Ok (true, lengthen token 1, lx_push (Some (lengthen token 1)) st)
        end
    end.
Proof. reflexivity. Qed.

Lemma quote_loop_S fuel pattern token st :
  quote_loop String_ (S fuel) pattern token st
  = if hasStrings st then
      let* (closed, token, st) := quote_scan String_ fuel pattern token st in
      if (closed : bool) then Ok st
      else
        let (interpolatedToken, st) := getInterpolation st in
        let token :=
          match interpolatedToken with
          | Some it => grow String_ token (String_ (token_value it)) 0
          | None => token
          end in
        quote_loop String_ fuel pattern token st
    else Throw (OtherError "string left open").
Proof. reflexivity. Qed.

Lemma comment_scan_S fuel pattern st :
  comment_scan (S fuel) pattern st
  = match nextChar st with
    | None => Ok (false, st)
    | Some _ =>
        match matchPattern pattern st with
        | (Some (1, _), st) => comment_scan fuel pattern st
        | (_, st) => Ok (true, st)
        end
    end.
Proof. reflexivity. Qed.

Lemma comment_S fuel pattern st :
  comment (S fuel) pattern st
  = if hasStrings st then
      let* (ended, st) := comment_scan fuel pattern st in
      if (ended : bool) then Ok st
      else comment fuel pattern (snd (getInterpolation st))
    else Ok st.
Proof. reflexivity. Qed.

Lemma main_scan_S fuel st :
  main_scan ID_Start ID_Continue Number_ String_ (S fuel) st
  = match nextChar st with
    | None => Ok st
    | Some ch =>
        let* st := main_step ID_Start ID_Continue Number_ String_ fuel ch st in
        main_scan ID_Start ID_Continue Number_ String_ fuel st
    end.
Proof. reflexivity. Qed.

Lemma mainState_S fuel st :
  mainState ID_Start ID_Continue Number_ String_ (S fuel) st
  = if hasStrings st then
      let* st := main_scan ID_Start ID_Continue Number_ String_ fuel st in
      mainState ID_Start ID_Continue Number_ String_ fuel (push_interpolation st)
    else Ok st.
Proof. reflexivity. Qed.

Lemma quote_scan_mono fuel : forall pattern token st,
  quote_scan String_ fuel pattern token st <> OutOfFuel ->
  quote_scan String_ (S fuel) pattern token st
  = quote_scan String_ fuel pattern token st.
Proof.
  induction fuel as [|fuel IH]; intros pattern token st H; [now contradiction H|].
  rewrite (quote_scan_S (S fuel)). rewrite (quote_scan_S fuel) in *.
  destruct (nextChar st); [|reflexivity].
  destruct (matchPattern pattern st) as [[[g m]|] st1]; [|reflexivity].
  destruct g as [|[|g]]; try reflexivity. now apply IH.
Qed.

Lemma quote_loop_mono fuel : forall pattern token st,
  quote_loop String_ fuel pattern token st <> OutOfFuel ->
  quote_loop String_ (S fuel) pattern token st
  = quote_loop String_ fuel pattern token st.
Proof.
  induction fuel as [|fuel IH]; intros pattern token st H; [now contradiction H|].
  rewrite (quote_loop_S (S fuel)). rewrite (quote_loop_S fuel) in *.
  destruct (hasStrings st); [|reflexivity].
  assert (Hs : quote_scan String_ fuel pattern token st <> OutOfFuel).
  { intros E. rewrite E in H. now apply H. }
  rewrite (quote_scan_mono _ _ _ _ Hs).
  destruct (quote_scan String_ fuel pattern token st) as [[[closed token1] st1]| |];
    cbn [bind] in *; try reflexivity.
  destruct closed; [reflexivity|].
  destruct (getInterpolation st1) as [it st2]. now apply IH.
Qed.

Lemma comment_scan_mono fuel : forall pattern st,
  comment_scan fuel pattern st <> OutOfFuel ->
  comment_scan (S fuel) pattern st = comment_scan fuel pattern st.
Proof.
  induction fuel as [|fuel IH]; intros pattern st H; [now contradiction H|].
  rewrite (comment_scan_S (S fuel)). rewrite (comment_scan_S fuel) in *.
  destruct (nextChar st); [|reflexivity].
  destruct (matchPattern pattern st) as [[[g m]|] st1]; [|reflexivity].
  destruct g as [|[|g]]; try reflexivity. now apply IH.
Qed.

Lemma comment_mono fuel : forall pattern st,
  comment fuel pattern st <> OutOfFuel ->
  comment (S fuel) pattern st = comment fuel pattern st.
Proof.
  induction fuel as [|fuel IH]; intros pattern st H; [now contradiction H|].
  rewrite (comment_S (S fuel)). rewrite (comment_S fuel) in *.
  destruct (hasStrings st); [|reflexivity].
  assert (Hs : comment_scan fuel pattern st <> OutOfFuel).
  { intros E. rewrite E in H. now apply H. }
  rewrite (comment_scan_mono _ _ _ Hs).
  destruct (comment_scan fuel pattern st) as [[ended st1]| |];
    cbn [bind] in *; try reflexivity.
  destruct ended; [reflexivity|]. now apply IH.
Qed.

Lemma main_step_mono fuel ch st :
  main_step ID_Start ID_Continue Number_ String_ fuel ch st <> OutOfFuel ->
  main_step ID_Start ID_Continue Number_ String_ (S fuel) ch st
  = main_step ID_Start ID_Continue Number_ String_ fuel ch st.
Proof.
  unfold main_step, quote.
  destruct (Ascii.eqb ch squote_char); [apply quote_loop_mono|].
  destruct (Ascii.eqb ch dquote_char); [apply quote_loop_mono|].
  destruct (matchPattern _ st) as [[[g m]|] st1]; [|reflexivity].
  do 10 (try destruct g as [|g]); try reflexivity; apply comment_mono.
Qed.

Lemma main_scan_mono fuel : forall st,
  main_scan ID_Start ID_Continue Number_ String_ fuel st <> OutOfFuel ->
  main_scan ID_Start ID_Continue Number_ String_ (S fuel) st
  = main_scan ID_Start ID_Continue Number_ String_ fuel st.
Proof.
  induction fuel as [|fuel IH]; intros st H; [now contradiction H|].
  rewrite (main_scan_S (S fuel)). rewrite (main_scan_S fuel) in *.
  destruct (nextChar st) as [ch|]; [|reflexivity].
  assert (Hs : main_step ID_Start ID_Continue Number_ String_ fuel ch st
               <> OutOfFuel).
  { intros E. rewrite E in H. now apply H. }
  rewrite (main_step_mono _ _ _ Hs).
  destruct (main_step _ _ _ _ fuel ch st) as [st1| |]; cbn [bind] in *;
    try reflexivity.
  now apply IH.
Qed.

Lemma mainState_mono fuel : forall st,
  mainState ID_Start ID_Continue Number_ String_ fuel st <> OutOfFuel ->
  mainState ID_Start ID_Continue Number_ String_ (S fuel) st
  = mainState ID_Start ID_Continue Number_ String_ fuel st.
Proof.
  induction fuel as [|fuel IH]; intros st H; [now contradiction H|].
  rewrite (mainState_S (S fuel)). rewrite (mainState_S fuel) in *.
  destruct (hasStrings st); [|reflexivity].
  assert (Hs : main_scan ID_Start ID_Continue Number_ String_ fuel st
               <> OutOfFuel).
  { intros E. rewrite E in H. now apply H. }
  rewrite (main_scan_mono _ _ Hs).
  destruct (main_scan _ _ _ _ fuel st) as [st1| |]; cbn [bind] in *;
    try reflexivity.
  now apply IH.
Qed.

Lemma mainState_more_fuel fuel st n :
  mainState ID_Start ID_Continue Number_ String_ fuel st <> OutOfFuel ->
  mainState ID_Start ID_Continue Number_ String_ (n + fuel) st
  = mainState ID_Start ID_Continue Number_ String_ fuel st.
Proof.
  intros H. induction n as [|n IH]; [reflexivity|].
  change (S n + fuel) with (S (n + fuel)).
  rewrite mainState_mono; [exact IH | now rewrite IH].
Qed.

End LexerFuel.

(** X19.  The tokenizer terminates.  With the fuel that the size of the
    text fragments gives, or with more, [tokenize] returns the tokens or
    raises an error, and more fuel does not change the outcome. *)
Theorem tokenize_terminates (ID_Start ID_Continue : ascii -> bool)
    (Number_ : string -> JSValue) (String_ : JSValue -> string)
    (strs : list string) (interps : list JSValue) (fuel : nat) :
  fuel_for strs <= fuel ->
  tokenize ID_Start ID_Continue Number_ String_ fuel strs interps <> OutOfFuel /\
  tokenize ID_Start ID_Continue Number_ String_ fuel strs interps
  = tokenize ID_Start ID_Continue Number_ String_ (fuel_for strs) strs interps.
Proof.
  intros Hf.
  assert (Hm : mainState ID_Start ID_Continue Number_ String_ (fuel_for strs)
                 (new_LexerState strs interps) <> OutOfFuel).
  { apply mainState_total. left. split.
    - split; [unfold in_buf; simpl; lia | simpl; lia].
    - unfold budget, position, text_size, fuel_for. simpl. lia. }
  assert (He : tokenize ID_Start ID_Continue Number_ String_ fuel strs interps
               = tokenize ID_Start ID_Continue Number_ String_ (fuel_for strs)
                   strs interps).
  { unfold tokenize. replace fuel with ((fuel - fuel_for strs) + fuel_for strs) by lia.
    now rewrite mainState_more_fuel. }
  split; [|exact He]. rewrite He. unfold tokenize.
  destruct (mainState _ _ _ _ (fuel_for strs) (new_LexerState strs interps));
    simpl; [discriminate|discriminate|now contradiction Hm].
Qed.

Lemma tokenize_terminates_witness :
  fuel_for ["a + 1"] <= 20 /\
  Host.tokenize 20 ["a + 1"] [] <> OutOfFuel /\
  Host.tokenize 20 ["a + 1"] [] = Host.tokenize (fuel_for ["a + 1"]) ["a + 1"] [].
Proof.
  assert (H : fuel_for ["a + 1"] <= 20) by (vm_compute; lia).
  split; [exact H|].
  exact (tokenize_terminates Host.ID_Start Host.ID_Continue Host.Number_
           Host.String_ ["a + 1"] [] 20 H).
Defined.

(* ================================================================= *)
(** ** Comments *)

Lemma comment_scan_no_throw fuel : forall pattern st e,
  comment_scan fuel pattern st <> Throw e.
Proof.
  induction fuel as [|fuel IH]; intros pattern st e; [discriminate|].
  simpl. destruct (nextChar st); [|discriminate].
  destruct (matchPattern pattern st) as [[[g m]|] st1]; [|discriminate].
  destruct g as [|[|g]]; try discriminate. apply IH.
Qed.

Lemma comment_no_throw fuel : forall pattern st e,
  comment fuel pattern st <> Throw e.
Proof.
  induction fuel as [|fuel IH]; intros pattern st e; [discriminate|].
  simpl. destruct (hasStrings st); [|discriminate].
  pose proof (comment_scan_no_throw fuel pattern st) as Hs.
  destruct (comment_scan fuel pattern st) as [[ended st1]| |]; simpl;
    [|now contradiction (Hs e0)|discriminate].
  destruct ended; [discriminate | apply IH].
Qed.

Lemma comment_tokens fuel : forall pattern st st',
  comment fuel pattern st = Ok st' ->
  lx_tokens st' = lx_tokens st /\ strings st' = strings st /\
  interps st' = interps st /\ lx_outerIndex st <= lx_outerIndex st'.
Proof.
  induction fuel as [|fuel IH]; intros pattern st st' H; [discriminate|].
  simpl in H. destruct (hasStrings st).
  - destruct (comment_scan fuel pattern st) as [[ended st1]| |] eqn:E; simpl in H;
      try discriminate.
    apply comment_scan_ext in E as (Hs & Hi & Ho & Ht).
    destruct ended.
    + injection H as <-. rewrite Hs, Hi, Ho, Ht. auto with arith.
    + apply IH in H as (Ht' & Hs' & Hi' & Ho'). simpl in *.
      rewrite Ht', Hs', Hi'. repeat split; try assumption. lia.
  - injection H as <-. auto.
Qed.

(** X20.  A comment produces nothing.  [comment] never raises an error; when
    it returns, the tokens are those it found: no token is emitted for the
    text of the comment nor for the values interpolated inside it, which it
    passes over.  A comment that no newline or star-slash ends runs to the
    end of the last fragment. *)
Theorem comment_skips (fuel : nat) (pattern : Pattern) (st : LexerState) :
  (forall e, comment fuel pattern st <> Throw e) /\
  (forall st',
      comment fuel pattern st = Ok st' ->
      lx_tokens st' = lx_tokens st /\ strings st' = strings st /\
      interps st' = interps st /\ lx_outerIndex st <= lx_outerIndex st').
Proof.
  split; [intros e; apply comment_no_throw | apply comment_tokens].
Qed.

(* ================================================================= *)
(** ** The errors of the lexer *)

Section LexerErrors.

Variable ID_Start ID_Continue : ascii -> bool.
Variable Number_ : string -> JSValue.
Variable String_ : JSValue -> string.

Lemma quote_scan_throws fuel : forall pattern token st e,
  quote_scan String_ fuel pattern token st = Throw e ->
  e = OtherError "newline not allowed in string".
Proof.
  induction fuel as [|fuel IH]; intros pattern token st e H; [discriminate|].
  simpl in H. destruct (nextChar st); [|discriminate].
  destruct (matchPattern pattern st) as [[[g m]|] st1]; [|congruence].
  destruct g as [|[|g]]; try discriminate. now apply IH in H.
Qed.

Lemma quote_loop_throws fuel : forall pattern token st e,
  quote_loop String_ fuel pattern token st = Throw e ->
  e = OtherError "newline not allowed in string" \/
  e = OtherError "string left open".
Proof.
  induction fuel as [|fuel IH]; intros pattern token st e H; [discriminate|].
  simpl in H. destruct (hasStrings st); [|right; congruence].
  destruct (quote_scan String_ fuel pattern token st) as [[[closed token1] st1]| |] eqn:E;
    simpl in H; try discriminate.
  - destruct closed; [discriminate|].
    destruct (getInterpolation st1) as [it st2]. now apply IH in H.
  - left. apply quote_scan_throws in E. congruence.
Qed.




End LexerErrors.

(* ================================================================= *)
(** ** The text of the tokens *)

Lemma substring_drop i : forall s n, substring i n s = substring 0 n (drop i s).
Proof.
  induction i as [|i IH]; intros s n; [reflexivity|].
  destruct s as [|ch s]; simpl; [now destruct n | apply IH].
Qed.

Lemma substring_prefix m : forall rest,
  substring 0 (String.length m) (m ++ rest) = m.
Proof.
  induction m as [|ch m IH]; intros rest; simpl.
  - now destruct rest.
  - now rewrite IH.
Qed.

Lemma drop_text_at buf i m rest :
  i <= String.length buf -> drop i buf = (m ++ rest)%string -> text_at buf i m.
Proof.
  intros Hi H. split.
  - assert (Hl : String.length (drop i buf) = String.length (m ++ rest))
      by now rewrite H.
    rewrite drop_length, string_length_app in Hl. lia.
  - now rewrite substring_drop, H, substring_prefix.
Qed.

Lemma prefix_drop p : forall s,
  String.prefix p s = true -> s = (p ++ drop (String.length p) s)%string.
Proof.
  induction p as [|ch p IH]; intros [|ch' s] H; simpl in *; try reflexivity;
    try discriminate.
  destruct (ascii_dec ch ch') as [->|]; [|discriminate]. f_equal. now apply IH.
Qed.

Lemma span_all p s : forall a b, span p s = (a, b) -> all_chars p a = true.
Proof.
  induction s as [|ch s IH]; intros a b H; simpl in H.
  - now injection H as <- <-.
  - destruct (p ch) eqn:Ep.
    + destruct (span p s) as [a' b'] eqn:E. injection H as <- <-.
      simpl. rewrite Ep. simpl. eapply IH. reflexivity.
    + now injection H as <- <-.
Qed.

Lemma span_first p s a b ch a' :
  span p s = (a, b) -> a = String ch a' -> p ch = true.
Proof.
  intros H ->. apply span_all in H. simpl in H.
  now apply andb_true_iff in H as [H _].
Qed.

Lemma app_assoc_string (a b c : string) :
  ((a ++ b) ++ c = a ++ (b ++ c))%string.
Proof. induction a as [|ch a IH]; simpl; [reflexivity | now rewrite IH]. Qed.

Lemma prefixed_shape prefix class s m :
  prefixed prefix class s = Some m ->
  (exists rest, s = (m ++ rest)%string) /\
  exists digits, m = (prefix ++ digits)%string.
Proof.
  unfold prefixed. destruct (String.prefix prefix s) eqn:E; [|discriminate].
  apply prefix_drop in E.
  destruct (span class (drop (String.length prefix) s)) as [d r] eqn:Es.
  apply span_app in Es. destruct d as [|ch d]; [discriminate|]. intros [= <-].
  split; [|now eexists].
  exists r. rewrite app_assoc_string, <- Es. exact E.
Qed.

Lemma decimal_shape s m :
  decimal s = Some m ->
  (exists rest, s = (m ++ rest)%string) /\ number_shape m = true.
Proof.
  unfold decimal.
  set (signed := match s with String "-" rest => ("-", rest) | _ => (EmptyString, s) end).
  assert (Hs : s = (fst signed ++ snd signed)%string /\
               (fst signed = EmptyString \/ fst signed = "-")).
  { unfold signed. destruct s as [|ch s']; [now split; [|left]|].
    destruct ch as [[] [] [] [] [] [] [] []]; (split; [reflexivity|]);
      first [now left | now right]. }
  destruct signed as [sign s1]. simpl in Hs. destruct Hs as [Hs Hsign].
  destruct (span is_dec_ s1) as [int s2] eqn:E1.
  pose proof (span_app _ _ _ _ E1) as H1.
  destruct int as [|d0 int]; [discriminate|].
  pose proof (span_first _ _ _ _ _ _ E1 eq_refl) as Hd0.
  set (fr := match s2 with
             | String "." rest => let (d, r) := span is_dec_ rest in (String "." d, r)
             | _ => (EmptyString, s2)
             end).
  assert (H2 : s2 = (fst fr ++ snd fr)%string).
  { unfold fr. destruct s2 as [|ch s2']; [reflexivity|].
    destruct (span is_dec_ s2') as [d r] eqn:E2. apply span_app in E2. subst s2'.
    destruct ch as [[] [] [] [] [] [] [] []]; reflexivity. }
  destruct fr as [frac s3]. simpl in H2.
  set (ex := match s3 with
             | String e (String "-" (String d _)) =>
                 if one_of "eE" e && is_dec_ d
                 then String e (String "-" (String d EmptyString))
                 else EmptyString
             | String e (String d _) =>
                 if one_of "eE" e && is_dec_ d then String e (String d EmptyString)
                 else EmptyString
             | _ => EmptyString
             end).
  assert (H3 : exists rest, s3 = (ex ++ rest)%string).
  { unfold ex. destruct s3 as [|e [|d [|d' s3']]]; simpl;
      try (now eexists).
    - destruct d as [[] [] [] [] [] [] [] []];
        try (destruct (one_of "eE" e && is_dec_ _); simpl; now eexists);
        simpl; now eexists.
    - destruct d as [[] [] [] [] [] [] [] []];
        try (destruct (one_of "eE" e && is_dec_ _); simpl; now eexists);
        destruct (one_of "eE" e && is_dec_ d'); simpl; now eexists. }
  clearbody ex. destruct H3 as [rest H3]. intros [= <-]. split.
  - exists rest. rewrite Hs, H1, H2, H3.
    repeat (simpl; rewrite ?app_assoc_string). reflexivity.
  - unfold number_shape. destruct Hsign as [-> | ->]; simpl.
    + now rewrite Hd0.
    + reflexivity.
Qed.

Lemma decimal_None ch rest :
  decimal (String ch rest) = None -> is_dec_ ch = false.
Proof.
  destruct (is_dec_ ch) eqn:Ed; [|reflexivity]. intros H. exfalso. revert H.
  unfold decimal.
  assert (Hch : ch <> "-"%char) by (intros ->; discriminate).
  assert (Hsig : match String ch rest with
                 | String "-" r => ("-", r)
                 | _ => (EmptyString, String ch rest)
                 end = (EmptyString, String ch rest)).
  { destruct ch as [[] [] [] [] [] [] [] []]; try reflexivity. now contradiction Hch. }
  rewrite Hsig. simpl span. rewrite Ed.
  destruct (span is_dec_ rest) as [a b]. 
  match goal with |- context [let (_, _) := ?x in _] => destruct x end.
  discriminate.
Qed.

Section TokenText.

Variable ID_Start ID_Continue : ascii -> bool.

Lemma identifier_text_shape s m :
  identifier_text ID_Start ID_Continue s = Some m -> decimal s = None ->
  (exists rest, s = (m ++ rest)%string) /\
  identifier_shape ID_Start ID_Continue m = true.
Proof.
  unfold identifier_text. destruct s as [|ch s]; [discriminate|].
  destruct (Ascii.eqb ch "$" || Ascii.eqb ch "_" || ID_Start ch) eqn:Ec;
    [|discriminate].
  destruct (span _ s) as [tail r] eqn:E. intros [= <-] Hdec.
  apply decimal_None in Hdec. split.
  - exists r. simpl. f_equal. now apply span_app in E.
  - simpl. rewrite Hdec. apply span_all in E. rewrite E.
    assert (Hu : Ascii.eqb ch "_" = false).
    { destruct (Ascii.eqb ch "_") eqn:Eu; [|reflexivity].
      apply Ascii.eqb_eq in Eu. subst ch. discriminate. }
    rewrite Hu, orb_false_r in Ec. now rewrite Ec.
Qed.

Lemma operator_text_shape s m :
  operator_text s = Some m ->
  (exists rest, s = (m ++ rest)%string) /\ operator_shape m = true.
Proof.
  unfold operator_text. destruct s as [|ch s]; [discriminate|].
  destruct (is_separator ch) eqn:Es.
  - intros [= <-]. split; [now exists s|]. simpl. now rewrite Es.
  - destruct (span is_punct (String ch s)) as [run r] eqn:E.
    destruct run as [|c run]; [discriminate|]. intros [= <-].
    split; [exists r; now apply span_app in E|].
    apply span_all in E. unfold operator_shape. rewrite E. apply orb_true_r.
Qed.

Lemma prefixed_number prefix class s m :
  first_char (fun ch => is_dec_ ch || Ascii.eqb ch "-") prefix = true ->
  prefixed prefix class s = Some m ->
  (exists rest, s = (m ++ rest)%string) /\ number_shape m = true.
Proof.
  intros Hp H. apply prefixed_shape in H as [Hrest [digits ->]].
  split; [exact Hrest|]. destruct prefix; [discriminate | exact Hp].
Qed.

(** What the groups of [mainPattern] match. *)
Lemma mainPattern_shape s g m :
  mainPattern ID_Start ID_Continue s = Some (g, m) ->
  match g with
  | 1 | 2 | 3 => True
  | 4 | 5 | 6 | 7 =>
      (exists rest, s = (m ++ rest)%string) /\ number_shape m = true
  | 8 =>
      (exists rest, s = (m ++ rest)%string) /\
      identifier_shape ID_Start ID_Continue m = true
  | 9 => (exists rest, s = (m ++ rest)%string) /\ operator_shape m = true
  | _ => False
  end.
Proof.
  unfold mainPattern. cbn [first_group].
  destruct (nonempty_span is_space s); [now intros [= <- <-]|].
  destruct (literally "//" s); [now intros [= <- <-]|].
  destruct (literally "/*" s); [now intros [= <- <-]|].
  destruct (prefixed "0x" is_hex_ s) eqn:E4;
    [intros [= <- <-]; now apply prefixed_number in E4|].
  destruct (prefixed "0o" is_oct_ s) eqn:E5;
    [intros [= <- <-]; now apply prefixed_number in E5|].
  destruct (prefixed "0b" is_bin_ s) eqn:E6;
    [intros [= <- <-]; now apply prefixed_number in E6|].
  destruct (decimal s) eqn:E7; [intros [= <- <-]; now apply decimal_shape|].
  destruct (identifier_text ID_Start ID_Continue s) eqn:E8;
    [intros [= <- <-]; now apply identifier_text_shape|].
  destruct (operator_text s) eqn:E9;
    [intros [= <- <-]; now apply operator_text_shape|].
  discriminate.
Qed.

End TokenText.

(* ================================================================= *)
(** ** The tokens of a run *)

Section LexedRuns.

Variable ID_Start ID_Continue : ascii -> bool.
Variable Number_ : string -> JSValue.
Variable String_ : JSValue -> string.
Variable strs : list string.
Variable values : list JSValue.

Abbreviation lexed' := (lexed ID_Start ID_Continue Number_ strs values).
Abbreviation lexing' := (lexing ID_Start ID_Continue Number_ strs values).

Lemma quote_scan_token fuel : forall pattern token st closed token' st' b0,
  Tk.content token = tok_value (JString b0) ->
  quote_scan String_ fuel pattern token st = Ok (closed, token', st') ->
  (exists body, Tk.content token' = tok_value (JString body)) /\
  Tk.length token <= Tk.length token' /\
  (closed = true -> Tk.length token + 1 <= Tk.length token').
Proof.
  induction fuel as [|fuel IH]; intros pattern token st closed token' st' b0 Hc H;
    [discriminate|].
  rewrite quote_scan_S in H. destruct (nextChar st).
  - destruct (matchPattern pattern st) as [[[g m]|] st1]; [|discriminate].
    destruct g as [|[|g]].
    + injection H as <- <- <-. simpl. split; [now exists b0|]. split; lia.
    + eapply IH in H; [|reflexivity]. destruct H as (Hb & Hle & Hcl).
      simpl in Hle, Hcl. split; [exact Hb|]. split; [lia|].
      intros Hclosed. specialize (Hcl Hclosed). lia.
    + injection H as <- <- <-. simpl. split; [now exists b0|]. split; lia.
  - injection H as <- <- <-. split; [now exists b0|]. split; [lia | discriminate].
Qed.

Lemma quote_loop_token fuel : forall pattern token st st' b0,
  Tk.content token = tok_value (JString b0) ->
  quote_loop String_ fuel pattern token st = Ok st' ->
  strings st' = strings st /\ interps st' = interps st /\
  exists body n,
    lx_tokens st'
    = lx_tokens st
      ++ [mkToken (tok_value (JString body)) (Tk.index token)
            (Tk.outerIndex token) (n + S (Tk.length token))].
Proof.
  induction fuel as [|fuel IH]; intros pattern token st st' b0 Hc H; [discriminate|].
  rewrite quote_loop_S in H. destruct (hasStrings st); [|discriminate].
  destruct (quote_scan String_ fuel pattern token st) as [[[closed token1] st1]| |] eqn:E;
    cbn [bind] in H; try discriminate.
  pose proof (quote_scan_ext _ _ _ _ _ _ _ _ E) as (Hs & Hi & Ho & Hto & Hti & Htk).
  destruct (quote_scan_token _ _ _ _ _ _ _ _ Hc E) as ([body Hb] & Hle & Hcl).
  destruct closed.
  - injection H as <-. split; [exact Hs|]. split; [exact Hi|].
    specialize (Hcl eq_refl).
    exists body, (Tk.length token1 - S (Tk.length token)). rewrite Htk.
    do 2 f_equal. destruct token1 as [c i k l]. simpl in *. subst c i k.
    f_equal. lia.
  - rewrite app_nil_r in Htk.
    destruct (getInterpolation st1) as [it st2] eqn:Eg.
    unfold getInterpolation in Eg. injection Eg as Eit <-.
    set (token2 := match it with
                   | Some it0 => grow String_ token1 (String_ (token_value it0)) 0
                   | None => token1
                   end) in H.
    assert (Hc2 : exists b2, Tk.content token2 = tok_value (JString b2)).
    { unfold token2. destruct it; [now eexists | now exists body]. }
    assert (Hl2 : Tk.length token2 = Tk.length token1 /\
                  Tk.index token2 = Tk.index token1 /\
                  Tk.outerIndex token2 = Tk.outerIndex token1).
    { unfold token2. destruct it; simpl; repeat split; lia. }
    destruct Hc2 as [b2 Hc2]. destruct Hl2 as (Hl2 & Hi2 & Ho2).
    apply (IH _ _ _ _ _ Hc2) in H as (Hs' & Hi' & body' & n & Ht').
    simpl in Hs', Hi', Ht'. split; [congruence|]. split; [congruence|].
    exists body', (n + (Tk.length token1 - Tk.length token)).
    rewrite Ht', Htk. do 2 f_equal. rewrite Hi2, Ho2, Hl2, Hti, Hto.
    f_equal. lia.
Qed.

Lemma lexing_push st st1 t :
  lexing' st -> strings st1 = strings st -> interps st1 = interps st ->
  lx_tokens st1 = lx_tokens st -> lexed' t ->
  lexing' (lx_push (Some t) st1).
Proof.
  intros (Hs & Hi & Ht) Hs1 Hi1 Ht1 Hl. split; [simpl; congruence|].
  split; [simpl; congruence|]. simpl. rewrite Ht1.
  apply Forall_app. split; [exact Ht | now constructor].
Qed.

Lemma lexing_same st st1 :
  lexing' st -> strings st1 = strings st -> interps st1 = interps st ->
  lx_tokens st1 = lx_tokens st -> lexing' st1.
Proof.
  intros (Hs & Hi & Ht) Hs1 Hi1 Ht1. split; [congruence|]. split; [congruence|].
  now rewrite Ht1.
Qed.

Lemma quote_lexed fuel q pattern ch st st' :
  q = squote_char \/ q = dquote_char -> Ascii.eqb ch q = true ->
  nextChar st = Some ch -> lexing' st ->
  quote String_ fuel pattern (set_index (lx_index st + 1) st) = Ok st' ->
  lexing' st'.
Proof.
  intros Hq Hch Hn Hl H. apply Ascii.eqb_eq in Hch. subst ch.
  unfold quote in H. eapply quote_loop_token in H; [|reflexivity].
  destruct H as (Hs & Hi & body & n & Ht). simpl in Hs, Hi, Ht.
  destruct Hl as (Hls & Hli & Hlt).
  split; [congruence|]. split; [congruence|]. rewrite Ht.
  apply Forall_app. split; [exact Hlt|]. constructor; [|constructor].
  replace (lx_index st + 1 - 1) with (lx_index st) by lia.
  unfold nextChar in Hn.
  destruct (nth_error (strings st) (lx_outerIndex st)) as [buf|] eqn:Eb;
    [|discriminate].
  rewrite Hls in Eb.
  exact (lexed_string ID_Start ID_Continue Number_ strs values buf (lx_index st)
           (lx_outerIndex st) q body n Eb Hn Hq).
Qed.

Lemma main_step_lexed fuel ch st st' :
  nextChar st = Some ch -> lexing' st ->
  main_step ID_Start ID_Continue Number_ String_ fuel ch st = Ok st' ->
  lexing' st'.
Proof.
  intros Hn Hl. unfold main_step.
  destruct (Ascii.eqb ch squote_char) eqn:E1.
  { apply (quote_lexed fuel squote_char _ ch); auto. }
  destruct (Ascii.eqb ch dquote_char) eqn:E2.
  { apply (quote_lexed fuel dquote_char _ ch); auto. }
  pose proof (nextChar_buf _ _ Hn) as [Hbuf Hlt].
  unfold matchPattern. rewrite Hbuf.
  destruct (mainPattern ID_Start ID_Continue
              (drop (lx_index st) (current_buf st))) as [[g m]|] eqn:Ep;
    [|discriminate].
  apply mainPattern_shape in Ep.
  pose proof Hl as (Hls & _ & _). rewrite Hls in Hbuf.
  set (st1 := set_index (lx_index st + String.length m) st).
  assert (Hl1 : lexing' st1) by (apply (lexing_same st); auto).
  do 10 (try destruct g as [|g]); try contradiction;
    try (intros [= <-]; exact Hl1);
    try (match type of Ep with
         | _ /\ _ => destruct Ep as [[rest Hrest] Hshape]
         end;
         assert (Htext : text_at (current_buf st) (lx_index st) m)
           by (apply (drop_text_at _ _ _ rest); [lia | exact Hrest]);
         intros [= <-]; apply (lexing_push st); auto; unfold text_token; simpl;
         first [ eapply lexed_number; eassumption
               | eapply lexed_identifier; eassumption
               | eapply lexed_operator; eassumption ]).
  - intros H. apply comment_tokens in H as (Ht & Hs & Hi & _).
    apply (lexing_same st1); auto.
  - intros H. apply comment_tokens in H as (Ht & Hs & Hi & _).
    apply (lexing_same st1); auto.
Qed.

Lemma main_scan_lexed fuel : forall st st',
  lexing' st ->
  main_scan ID_Start ID_Continue Number_ String_ fuel st = Ok st' ->
  lexing' st'.
Proof.
  induction fuel as [|fuel IH]; intros st st' Hl H; [discriminate|].
  rewrite main_scan_S in H. destruct (nextChar st) as [ch|] eqn:En.
  - destruct (main_step _ _ _ _ fuel ch st) as [st1| |] eqn:E; cbn [bind] in H;
      try discriminate.
    apply (IH st1); [|exact H]. eapply main_step_lexed; eassumption.
  - now injection H as <-.
Qed.

Lemma push_interpolation_lexed st :
  lexing' st -> lexing' (push_interpolation st).
Proof.
  intros Hl. unfold push_interpolation, getInterpolation.
  destruct (nth_error (interps st) (lx_outerIndex st)) as [v|] eqn:E.
  - apply (lexing_push st); auto. constructor.
    destruct Hl as (_ & Hi & _). now rewrite <- Hi.
  - simpl. apply (lexing_same st); auto.
Qed.

Lemma mainState_lexed fuel : forall st st',
  lexing' st ->
  mainState ID_Start ID_Continue Number_ String_ fuel st = Ok st' ->
  lexing' st'.
Proof.
  induction fuel as [|fuel IH]; intros st st' Hl H; [discriminate|].
  rewrite mainState_S in H. destruct (hasStrings st).
  - destruct (main_scan _ _ _ _ fuel st) as [st1| |] eqn:E; cbn [bind] in H;
      try discriminate.
    apply (IH (push_interpolation st1)); [|exact H].
    apply push_interpolation_lexed. eapply main_scan_lexed; eassumption.
  - now injection H as <-.
Qed.

End LexedRuns.

(** X21.  The tokens of the tokenizer.  Every token that [tokenize] returns
    is of one of five kinds.  A number, an identifier or an operator carries
    the offset and the number of a text fragment and the length of its
    text, which is the text of the fragment at that offset: the value of an
    identifier or an operator is that text, the value of a number is
    [Number] of it.  The text of an identifier begins with a dollar or a
    character of [ID_Start], never with an underscore or a digit (those
    begin a number); the text of an operator is one separator or a run of
    punctuation characters.  A string token carries the offset of its
    opening quote and a length of two or more.  The token of an interpolated
    value has offset 0, length 0 and the number of its value plus one. *)
Theorem tokens_lexed (ID_Start ID_Continue : ascii -> bool)
    (Number_ : string -> JSValue) (String_ : JSValue -> string)
    (fuel : nat) (strs : list string) (values : list JSValue)
    (toks : list Token) :
  tokenize ID_Start ID_Continue Number_ String_ fuel strs values = Ok toks ->
  Forall (lexed ID_Start ID_Continue Number_ strs values) toks.
Proof.
  unfold tokenize. intros H.
  destruct (mainState _ _ _ _ fuel (new_LexerState strs values)) as [st| |] eqn:E;
    cbn [bind] in H; try discriminate.
  injection H as <-.
  apply (mainState_lexed ID_Start ID_Continue Number_ String_ strs values) in E.
  - apply E.
  - split; [reflexivity|]. split; [reflexivity | constructor].
Qed.

Lemma tokens_lexed_witness :
  let strs := ["_a + 'b' "; " 1"] in
  let values := [JHost 7] in
  exists toks,
    Host.tokenize 20 strs values = Ok toks /\
    Forall (lexed Host.ID_Start Host.ID_Continue Host.Number_ strs values) toks.
Proof.
  intros strs values. eexists. split; [vm_compute; reflexivity|].
  apply (tokens_lexed Host.ID_Start Host.ID_Continue Host.Number_ Host.String_ 20).
  vm_compute. reflexivity.
Defined.

(* ================================================================= *)
(** ** The characters no pattern matches *)

Lemma get_drop i : forall s ch,
  String.get i s = Some ch -> exists rest, drop i s = String ch rest.
Proof.
  induction i as [|i IH]; intros [|c s] ch H; simpl in *; try discriminate.
  - injection H as ->. now eexists.
  - now apply IH.
Qed.

Lemma drop_get i : forall s ch rest,
  drop i s = String ch rest -> i < String.length s -> String.get i s = Some ch.
Proof.
  induction i as [|i IH]; intros [|c s] ch rest H Hlt; simpl in *; try lia.
  - now injection H as -> _.
  - apply (IH _ _ rest); [exact H | lia].
Qed.

Lemma eqb_char_false (a b : ascii) (class : ascii -> bool) :
  class a = false -> class b = true -> Ascii.eqb a b = false.
Proof.
  intros Ha Hb. destruct (Ascii.eqb a b) eqn:E; [|reflexivity].
  apply Ascii.eqb_eq in E. congruence.
Qed.

Lemma prefix_first a p ch rest :
  String.prefix (String a p) (String ch rest) = true -> ch = a.
Proof. simpl. destruct (ascii_dec a ch); [congruence | discriminate]. Qed.

Lemma prefix_other a p ch rest :
  ch <> a -> String.prefix (String a p) (String ch rest) = false.
Proof. intros H. simpl. destruct (ascii_dec a ch); [congruence | reflexivity]. Qed.

Section Unmatched.

Variable ID_Start ID_Continue : ascii -> bool.

Lemma mainPattern_None ch rest :
  mainPattern ID_Start ID_Continue (String ch rest) = None <->
  is_space ch || is_dec_ ch || Ascii.eqb ch "$" || ID_Start ch
  || is_separator ch || is_punct ch = false.
Proof.
  split.
  - unfold mainPattern. cbn [first_group].
    destruct (nonempty_span is_space (String ch rest)) eqn:E1; [discriminate|].
    destruct (literally "//" (String ch rest)); [discriminate|].
    destruct (literally "/*" (String ch rest)); [discriminate|].
    destruct (prefixed "0x" is_hex_ (String ch rest)); [discriminate|].
    destruct (prefixed "0o" is_oct_ (String ch rest)); [discriminate|].
    destruct (prefixed "0b" is_bin_ (String ch rest)); [discriminate|].
    destruct (decimal (String ch rest)) eqn:E7; [discriminate|].
    destruct (identifier_text ID_Start ID_Continue (String ch rest)) eqn:E8;
      [discriminate|].
    destruct (operator_text (String ch rest)) eqn:E9; [discriminate|].
    intros _. apply decimal_None in E7. rewrite E7.
    unfold nonempty_span in E1. simpl in E1.
    destruct (is_space ch); [destruct (span is_space rest); discriminate|].
    unfold identifier_text in E8.
    destruct (Ascii.eqb ch "$"); [simpl in E8; destruct (span _ rest); discriminate|].
    destruct (ID_Start ch);
      [rewrite orb_true_r in E8; destruct (span _ rest); discriminate|].
    unfold operator_text in E9.
    destruct (is_separator ch); [discriminate|].
    simpl in E9. destruct (is_punct ch); [|reflexivity].
    destruct (span is_punct rest); discriminate.
  - intros H. apply orb_false_iff in H as [H Hpunct].
    apply orb_false_iff in H as [H Hsep]. apply orb_false_iff in H as [H Hid].
    apply orb_false_iff in H as [H Hdollar].
    apply orb_false_iff in H as [Hspace Hdig].
    assert (Hslash : ch <> "/"%char) by (intros ->; discriminate).
    assert (Hzero : ch <> "0"%char) by (intros ->; discriminate).
    assert (Hminus : ch <> "-"%char) by (intros ->; discriminate).
    assert (Hunder : Ascii.eqb ch "_" = false).
    { apply (eqb_char_false _ _ is_dec_); [assumption | reflexivity]. }
    unfold mainPattern. cbn [first_group].
    unfold nonempty_span. simpl span. rewrite Hspace.
    unfold literally. rewrite !(prefix_other _ _ _ _ Hslash).
    unfold prefixed. rewrite !(prefix_other _ _ _ _ Hzero).
    assert (Hdec : decimal (String ch rest) = None).
    { unfold decimal.
      assert (Hsig : match String ch rest with
                     | String "-" r => ("-", r)
                     | _ => (EmptyString, String ch rest)
                     end = (EmptyString, String ch rest)).
      { destruct ch as [[] [] [] [] [] [] [] []]; try reflexivity.
        now contradiction Hminus. }
      rewrite Hsig. simpl span.
      rewrite Hdig. reflexivity. }
    rewrite Hdec. unfold identifier_text.
    rewrite Hdollar, Hid, Hunder. simpl orb. cbv iota. unfold operator_text.
    rewrite Hsep. simpl span. rewrite Hpunct. reflexivity.
Qed.

End Unmatched.

(** X22.  The error for a character that begins no token.  On a character
    [ch] of the text outside strings and comments, [mainState] raises
    [NoTokenMatchError] exactly when [ch] is not a quote, not white space,
    not a digit or an underscore, not a dollar, not a character of
    [ID_Start], and none of the separators and punctuation characters of the
    operator pattern. *)
Theorem no_token_match (ID_Start ID_Continue : ascii -> bool)
    (Number_ : string -> JSValue) (String_ : JSValue -> string)
    (fuel : nat) (ch : ascii) (st : LexerState) :
  nextChar st = Some ch ->
  main_step ID_Start ID_Continue Number_ String_ fuel ch st
  = Throw (OtherError "NoTokenMatchError")
  <-> starts_token ID_Start ch = false.
Proof.
  intros Hn. pose proof (nextChar_buf _ _ Hn) as [Hbuf Hlt].
  assert (Hget : String.get (lx_index st) (current_buf st) = Some ch).
  { unfold nextChar in Hn. now rewrite Hbuf in Hn. }
  apply get_drop in Hget as [rest Hdrop].
  unfold starts_token, main_step.
  destruct (Ascii.eqb ch squote_char).
  { simpl. split; [|discriminate]. intros H. unfold quote in H.
    apply quote_loop_throws in H as [H|H]; discriminate. }
  destruct (Ascii.eqb ch dquote_char).
  { simpl. split; [|discriminate]. intros H. unfold quote in H.
    apply quote_loop_throws in H as [H|H]; discriminate. }
  simpl orb. unfold matchPattern. rewrite Hbuf, Hdrop.
  rewrite <- (mainPattern_None ID_Start ID_Continue ch rest).
  destruct (mainPattern ID_Start ID_Continue (String ch rest)) as [[g m]|].
  - split; [|discriminate]. intros H. exfalso.
    do 10 (try destruct g as [|g]); try discriminate;
      now apply comment_no_throw in H.
  - split; reflexivity.
Qed.

Lemma no_token_match_witness :
  let st := new_LexerState ["a ` b"] [] in
  let st2 := mkLexerState 2 0 [mkToken (tok_identifier "a") 0 0 1] ["a ` b"] [] in
  nextChar st2 = Some "`"%char /\
  main_step Host.ID_Start Host.ID_Continue Host.Number_ Host.String_ 5 "`" st2
  = Throw (OtherError "NoTokenMatchError") /\
  Host.tokenize 10 ["a ` b"] [] = Throw (OtherError "NoTokenMatchError").
Proof.
  intros st st2. split; [reflexivity|]. split; [|reflexivity].
  apply (no_token_match Host.ID_Start Host.ID_Continue Host.Number_
           Host.String_ 5 "`" st2); reflexivity.
Defined.

(* ================================================================= *)
(** ** The body of a quoted string *)

Lemma quote_char_facts q :
  q = squote_char \/ q = dquote_char ->
  Ascii.eqb q backslash = false /\ Ascii.eqb q newline = false.
Proof. intros [-> | ->]; split; reflexivity. Qed.

Lemma quote_body_escaped q :
  q = squote_char \/ q = dquote_char ->
  forall n body tail,
    String.length body <= n -> escaped q body = true ->
    (breaks q tail = true \/ exists rest, tail = String q rest) ->
    quote_body q (body ++ tail) = body.
Proof.
  intros Hq. destruct (quote_char_facts q Hq) as [Hqb Hqn].
  induction n as [|n IH]; intros body tail Hn Hesc Htail.
  - destruct body; [|simpl in Hn; lia]. simpl.
    destruct Htail as [Hbr | [rest ->]].
    + destruct tail as [|ch rest]; [reflexivity|]. simpl in *.
      destruct (Ascii.eqb ch backslash).
      * destruct rest as [|ch2 rest2]; [reflexivity|].
        now destruct (Ascii.eqb ch2 q || Ascii.eqb ch2 backslash).
      * now rewrite Hbr.
    + simpl. rewrite Hqb, Ascii.eqb_refl, orb_true_r. reflexivity.
  - destruct body as [|ch body]; [apply (IH EmptyString); simpl; auto; lia|].
    simpl in Hesc |- *. destruct (Ascii.eqb ch backslash).
    + destruct body as [|ch2 body2]; [discriminate|].
      simpl. apply andb_true_iff in Hesc as [Hc Hesc]. rewrite Hc.
      do 2 f_equal. apply IH; auto. simpl in Hn. lia.
    + apply andb_true_iff in Hesc as [Hc Hesc].
      apply andb_true_iff in Hc as [Hc1 Hc2].
      apply negb_true_iff in Hc1, Hc2. rewrite Hc1, Hc2. simpl.
      f_equal. apply IH; auto. simpl in Hn. lia.
Qed.

Lemma drop_app a : forall b, drop (String.length a) (a ++ b) = b.
Proof. induction a as [|ch a IH]; intros b; simpl; [now destruct b | apply IH]. Qed.

Lemma drop_add i : forall n s, drop (i + n) s = drop n (drop i s).
Proof.
  induction i as [|i IH]; intros n s; [reflexivity|].
  destruct s as [|ch s]; simpl; [now destruct n | apply IH].
Qed.

Lemma quotePattern_breaks q tail :
  q = squote_char \/ q = dquote_char ->
  breaks q tail = true -> quotePattern q tail = None.
Proof.
  intros Hq Hbr. destruct (quote_char_facts q Hq) as [Hqb Hqn].
  unfold quotePattern.
  pose proof (quote_body_escaped q Hq 0 EmptyString tail) as Hb.
  simpl in Hb. rewrite Hb; auto.
  destruct tail as [|ch rest]; [reflexivity|]. simpl in Hbr.
  destruct (Ascii.eqb ch q) eqn:E; [|reflexivity].
  apply Ascii.eqb_eq in E. subst ch. rewrite Hqb, Hqn in Hbr. discriminate.
Qed.

Lemma quotePattern_close q rest :
  q = squote_char \/ q = dquote_char ->
  quotePattern q (String q rest) = Some (2, String q EmptyString).
Proof.
  intros Hq. unfold quotePattern.
  pose proof (quote_body_escaped q Hq 0 EmptyString (String q rest)) as Hb.
  simpl in Hb. simpl quote_body. rewrite Hb; auto.
  - now rewrite Ascii.eqb_refl.
  - right. now eexists.
Qed.

Lemma quotePattern_body q body tail ch b :
  q = squote_char \/ q = dquote_char ->
  body = String ch b -> escaped q body = true ->
  (breaks q tail = true \/ exists rest, tail = String q rest) ->
  quotePattern q (body ++ tail)%string = Some (1, body).
Proof.
  intros Hq Hb Hesc Htail. unfold quotePattern.
  rewrite (quote_body_escaped q Hq (String.length body)); auto.
  now rewrite Hb.
Qed.

Lemma nonempty_get t i buf :
  drop i buf = t -> 1 <= String.length t ->
  exists ch, String.get i buf = Some ch.
Proof.
  intros H Hl. destruct t as [|ch r]; [simpl in Hl; lia|].
  exists ch. apply (drop_get _ _ _ r H).
  assert (Hd : String.length (drop i buf) = String.length (String ch r))
    by now rewrite H.
  rewrite drop_length in Hd. simpl in Hd. lia.
Qed.

Section QuoteBody.

Variable String_ : JSValue -> string.
Variable q : ascii.
Variable st : LexerState.
Variable buf : string.
Hypothesis Hbuf : nth_error (strings st) (lx_outerIndex st) = Some buf.

(** One turn of the inner loop of [quote] at the offset [i]. *)
Lemma quote_scan_at fuel token i c :
  String.get i buf = Some c ->
  quote_scan String_ (S fuel) (quotePattern q) token (set_index i st)
  = match quotePattern q (drop i buf) with
    | None => Throw (OtherError "newline not allowed in string")
    | Some (1, body) =>
        quote_scan String_ fuel (quotePattern q)
          (grow String_ token body (String.length body))
          (set_index (i + String.length body) st)
    | Some (_, m) =>
        Ok (true, lengthen token 1,
            lx_push (Some (lengthen token 1))
              (set_index (i + String.length m) st))
    end.
Proof.
  intros Hc. rewrite quote_scan_S. unfold nextChar, matchPattern.
  cbn [set_index strings lx_outerIndex lx_index]. rewrite Hbuf, Hc.
  destruct (quotePattern q (drop i buf)) as [[[|[|g]] m]|]; reflexivity.
Qed.

End QuoteBody.

(** X23.  The body of a quoted string is taken as written.  After the
    opening quote [q], when the text of the fragment goes on with a body in
    which every backslash is followed by [q] or a backslash and which holds
    no newline, [quote] does as follows.  Where the body is followed by [q],
    it emits one string token whose value is the body with its backslashes
    (escapes are not decoded), whose offset is that of the opening quote and
    whose length is that of the body plus the two quotes, and it leaves the
    cursor after the closing quote.  Where the body is followed by a
    newline or by a backslash that neither [q] nor a backslash follows (the
    end of the fragment included), it raises 'newline not allowed in
    string'. *)
Theorem quote_reads_body (String_ : JSValue -> string) (q : ascii)
    (st : LexerState) (buf body tail : string) (fuel : nat) :
  q = squote_char \/ q = dquote_char ->
  nth_error (strings st) (lx_outerIndex st) = Some buf ->
  drop (lx_index st) buf = (body ++ tail)%string ->
  escaped q body = true ->
  (forall rest,
      tail = String q rest ->
      quote String_ (3 + fuel) (quotePattern q) st
      = Ok (lx_push
              (Some (mkToken (tok_value (JString body)) (lx_index st - 1)
                       (lx_outerIndex st) (String.length body + 2)))
              (set_index (lx_index st + String.length body + 1) st))) /\
  (breaks q tail = true ->
   quote String_ (3 + fuel) (quotePattern q) st
   = Throw (OtherError "newline not allowed in string")).
Proof.
  intros Hq Hbuf Hdrop Hesc.
  assert (Hhas : hasStrings st = true).
  { unfold hasStrings. apply Nat.ltb_lt. apply nth_error_Some. congruence. }
  assert (Hst : st = set_index (lx_index st) st) by now destruct st.
  assert (Hdrop2 : drop (lx_index st + String.length body) buf = tail).
  { now rewrite drop_add, Hdrop, drop_app. }
  assert (Hlast : forall token,
             (breaks q tail = true \/ exists rest, tail = String q rest) ->
             quote_scan String_ (S fuel) (quotePattern q) token
               (set_index (lx_index st + String.length body) st)
             = match quotePattern q tail with
               | None => Throw (OtherError "newline not allowed in string")
               | Some _ =>
                   Ok (true, lengthen token 1,
                       lx_push (Some (lengthen token 1))
                         (set_index (lx_index st + String.length body + 1) st))
               end).
  { intros token Ht.
    assert (Hc : exists c,
               String.get (lx_index st + String.length body) buf = Some c).
    { apply (nonempty_get tail); [exact Hdrop2|].
      destruct Ht as [Hbr | [rest ->]]; [destruct tail; [discriminate|]|];
        simpl; lia. }
    destruct Hc as [c Hc].
    rewrite (quote_scan_at String_ q st buf Hbuf fuel token _ c Hc), Hdrop2.
    destruct Ht as [Hbr | [rest ->]].
    - now rewrite (quotePattern_breaks q tail Hq Hbr).
    - now rewrite (quotePattern_close q rest Hq). }
  assert (Hscan : forall token,
             Tk.content token = tok_value (JString EmptyString) ->
             (breaks q tail = true \/ exists rest, tail = String q rest) ->
             quote_scan String_ (S (S fuel)) (quotePattern q) token st
             = match quotePattern q tail with
               | None => Throw (OtherError "newline not allowed in string")
               | Some _ =>
                   let tok :=
                     mkToken (tok_value (JString body)) (Tk.index token)
                       (Tk.outerIndex token)
                       (Tk.length token + String.length body + 1) in
                   Ok (true, tok,
                       lx_push (Some tok)
                         (set_index (lx_index st + String.length body + 1) st))
               end).
  { intros token Hv Ht. destruct body as [|ch b] eqn:Eb.
    - (* the closing quote, or the break, comes at once *)
      simpl String.length in *. rewrite Nat.add_0_r in *.
      assert (Hc : exists c, String.get (lx_index st) buf = Some c).
      { apply (nonempty_get tail); [exact Hdrop2|].
        destruct Ht as [Hbr | [rest ->]]; [destruct tail; [discriminate|]|];
          simpl; lia. }
      destruct Hc as [c Hc]. rewrite Hst at 1.
      rewrite (quote_scan_at String_ q st buf Hbuf (S fuel) token _ c Hc), Hdrop2.
      destruct Ht as [Hbr | [rest ->]].
      + now rewrite (quotePattern_breaks q tail Hq Hbr).
      + rewrite (quotePattern_close q rest Hq). cbv zeta.
        unfold lengthen. simpl String.length.
        destruct token as [c0 i0 k0 l0]. simpl in Hv |- *. subst c0.
        rewrite Nat.add_0_r. reflexivity.
    - assert (Hc : exists c, String.get (lx_index st) buf = Some c).
      { apply (nonempty_get (String ch b ++ tail)%string); [exact Hdrop | simpl; lia]. }
      destruct Hc as [c Hc]. rewrite Hst at 1.
      rewrite (quote_scan_at String_ q st buf Hbuf (S fuel) token _ c Hc), Hdrop.
      rewrite (quotePattern_body q (String ch b) tail ch b Hq eq_refl Hesc Ht).
      rewrite (Hlast _ Ht).
      destruct (quotePattern q tail); [|reflexivity].
      cbv zeta. unfold lengthen, grow, token_value. rewrite Hv. reflexivity. }
  unfold quote. set (token := mkToken _ _ _ 1).
  change (3 + fuel) with (S (S (S fuel))). rewrite quote_loop_S, Hhas.
  split.
  - intros rest Hrest. rewrite (Hscan token eq_refl) by (right; exists rest; exact Hrest).
    rewrite Hrest, (quotePattern_close q rest Hq). cbn [bind]. cbv zeta.
    unfold token. simpl Tk.index. simpl Tk.outerIndex. simpl Tk.length.
    replace (1 + String.length body + 1) with (String.length body + 2) by lia.
    reflexivity.
  - intros Hbr. rewrite (Hscan token eq_refl) by now left.
    now rewrite (quotePattern_breaks q tail Hq Hbr).
Qed.

Lemma quote_reads_body_witness :
  let buf := ("'a" ++ String backslash "'b' c")%string in
  let st := mkLexerState 1 0 [] [buf] [] in
  let body := ("a" ++ String backslash "'b")%string in
  escaped squote_char body = true /\
  quote Host.String_ 3 singleQuotePattern st
  = Ok (mkLexerState 6 0 [mkToken (tok_value (JString body)) 0 0 6] [buf] []).
Proof.
  intros buf st body. split; [reflexivity|].
  assert (Hq : squote_char = squote_char \/ squote_char = dquote_char)
    by now left.
  destruct (quote_reads_body Host.String_ squote_char st buf body "' c" 0 Hq
              eq_refl eq_refl eq_refl) as [Hclose _].
  exact (Hclose " c" eq_refl).
Defined.

(* ================================================================= *)
(** ** The end of a block comment *)

Lemma block_body_stars n : forall s,
  block_body (stars (2 * n) ++ s)%string = (stars (2 * n) ++ block_body s)%string.
Proof.
  induction n as [|n IH]; intros s; [reflexivity|].
  replace (2 * S n) with (S (S (2 * n))) by lia.
  cbn [stars append]. cbn [block_body]. simpl Ascii.eqb. cbv iota.
  now rewrite IH.
Qed.

Lemma append_empty (s : string) : (s ++ EmptyString)%string = s.
Proof. induction s as [|ch s IH]; simpl; [reflexivity | now rewrite IH]. Qed.

(** X24.  The stars before the closing slash of a block comment.  The
    pattern of the comment body takes a star together with the character
    after it unless that is a slash, so stars pair up.  A slash after an
    even number of stars (two or more) does not close the comment: the stars
    and the slash are matched as body, with the text that follows.  Before
    an odd number of stars and a slash, the body stops in front of the last
    star, which closes the comment with the slash. *)
Theorem block_comment_stars (n : nat) (rest : string) :
  blockCommentPattern (stars (2 * n + 2) ++ String "/" rest)%string
  = Some (1, (stars (2 * n + 2) ++ String "/" (block_body rest))%string) /\
  blockCommentPattern (stars (2 * n + 1) ++ String "/" rest)%string
  = match n with
    | O => Some (2, "*/")
    | _ => Some (1, stars (2 * n))
    end.
Proof.
  unfold blockCommentPattern. split.
  - replace (2 * n + 2) with (2 * S n) by lia.
    rewrite block_body_stars. cbn [block_body]. simpl Ascii.eqb. cbv iota.
    replace (2 * S n) with (S (S (2 * n))) by lia. reflexivity.
  - assert (Hs : forall s, (stars (2 * n + 1) ++ s)%string
                           = (stars (2 * n) ++ String "*" s)%string).
    { intros s. generalize (2 * n). clear. intros k.
      induction k as [|k IH]; simpl; [reflexivity | now rewrite IH]. }
    rewrite Hs, block_body_stars. cbn [block_body]. simpl Ascii.eqb. cbv iota.
    rewrite append_empty. destruct n as [|n]; [simpl; now destruct rest|].
    replace (2 * S n) with (S (S (2 * n))) by lia. reflexivity.
Qed.

(* ================================================================= *)
(** ** The errors of the tokenizer *)



(* ================================================================= *)
(** ** The order of the tokens *)

Lemma in_order_snoc l : forall t,
  in_order l -> Forall (fun x => precedes x t) l -> in_order (l ++ [t]).
Proof.
  induction l as [|a l IH]; intros t Hl Ht; simpl.
  - split; constructor.
  - destruct Hl as [Ha Hl]. inversion Ht as [|? ? Hat Hlt]; subst.
    split; [|now apply IH].
    apply Forall_app. split; [exact Ha | now constructor].
Qed.

Lemma cursor_le_refl st : cursor_le st st.
Proof. right. split; [reflexivity | lia]. Qed.

Lemma cursor_le_trans st1 st2 st3 :
  cursor_le st1 st2 -> cursor_le st2 st3 -> cursor_le st1 st3.
Proof. unfold cursor_le. intros [H|[H H']] [G|[G G']]; [left|left|left|right]; lia. Qed.

Lemma ends_before_le st st' t :
  cursor_le st st' -> ends_before st t -> ends_before st' t.
Proof. unfold cursor_le, ends_before. intros [H|[H H']] [G|[G G']]; [left|left|left|right]; lia. Qed.

Lemma ordered_move st st' :
  ordered st -> lx_tokens st' = lx_tokens st -> cursor_le st st' -> ordered st'.
Proof.
  intros [Ho He] Ht Hc. split; rewrite Ht; [exact Ho|].
  eapply Forall_impl; [|exact He]. intros t. now apply ends_before_le.
Qed.

(** A token that begins at the cursor of [st] and ends before that of
    [st']. *)
Lemma ordered_push st st' t :
  ordered st -> lx_tokens st' = lx_tokens st ++ [t] -> cursor_le st st' ->
  Tk.outerIndex t = lx_outerIndex st -> Tk.index t = lx_index st ->
  ends_before st' t -> ordered st'.
Proof.
  intros [Ho He] Ht Hc Hk Hi Hend. split; rewrite Ht.
  - apply in_order_snoc; [exact Ho|].
    eapply Forall_impl; [|exact He]. unfold ends_before, precedes.
    intros x [H|[H H']]; [left|right]; lia.
  - apply Forall_app. split; [|now constructor].
    eapply Forall_impl; [|exact He]. intros x. now apply ends_before_le.
Qed.

Lemma matchPattern_cursor pattern st g m st1 :
  matchPattern pattern st = (Some (g, m), st1) ->
  st1 = set_index (lx_index st + String.length m) st.
Proof.
  unfold matchPattern. destruct (pattern _) as [[g' m']|]; [|discriminate].
  now intros [= <- <- <-].
Qed.

Section TokenOrder.

Variable ID_Start ID_Continue : ascii -> bool.
Variable Number_ : string -> JSValue.
Variable String_ : JSValue -> string.

Lemma quote_scan_cursor fuel q : forall token st closed token' st',
  quote_scan String_ fuel (quotePattern q) token st = Ok (closed, token', st') ->
  lx_outerIndex st' = lx_outerIndex st /\ lx_index st <= lx_index st' /\
  Tk.length token' + lx_index st = Tk.length token + lx_index st'.
Proof.
  induction fuel as [|fuel IH]; intros token st closed token' st' H; [discriminate|].
  rewrite quote_scan_S in H. destruct (nextChar st).
  - unfold matchPattern in H.
    destruct (quotePattern q _) as [[g m]|] eqn:Ep; [|discriminate].
    apply quotePattern_length in Ep as [_ Hone].
    destruct g as [|[|g]].
    + injection H as <- <- <-. specialize (Hone ltac:(discriminate)). simpl. lia.
    + apply IH in H as (Ho & Hi & Hl). simpl in *. lia.
    + injection H as <- <- <-. specialize (Hone ltac:(discriminate)). simpl. lia.
  - injection H as <- <- <-. lia.
Qed.

Lemma quote_loop_cursor fuel q : forall token st st',
  quote_loop String_ fuel (quotePattern q) token st = Ok st' ->
  exists tok,
    lx_tokens st' = lx_tokens st ++ [tok] /\
    Tk.outerIndex tok = Tk.outerIndex token /\ Tk.index tok = Tk.index token /\
    (lx_outerIndex st < lx_outerIndex st' \/
     (lx_outerIndex st = lx_outerIndex st' /\ lx_index st <= lx_index st' /\
      Tk.length tok + lx_index st = Tk.length token + lx_index st')).
Proof.
  induction fuel as [|fuel IH]; intros token st st' H; [discriminate|].
  rewrite quote_loop_S in H. destruct (hasStrings st); [|discriminate].
  destruct (quote_scan String_ fuel (quotePattern q) token st)
    as [[[closed token1] st1]| |] eqn:E; cbn [bind] in H; try discriminate.
  pose proof (quote_scan_ext _ _ _ _ _ _ _ _ E) as (_ & _ & _ & Hto & Hti & Htk).
  apply quote_scan_cursor in E as (Ho & Hi & Hl).
  destruct closed.
  - injection H as <-. exists token1. split; [exact Htk|]. split; [exact Hto|].
    split; [exact Hti|]. right. lia.
  - rewrite app_nil_r in Htk.
    destruct (getInterpolation st1) as [it st2] eqn:Eg.
    unfold getInterpolation in Eg. injection Eg as Eit <-.
    apply IH in H as (tok & Ht & Hto' & Hti' & Hc). simpl in Ht, Hc.
    exists tok. split; [congruence|].
    split; [rewrite Hto'; destruct it; simpl; congruence|].
    split; [rewrite Hti'; destruct it; simpl; congruence|].
    left. lia.
Qed.

Lemma comment_scan_cursor fuel pattern : forall st ended st',
  comment_scan fuel pattern st = Ok (ended, st') ->
  lx_outerIndex st' = lx_outerIndex st /\ lx_index st <= lx_index st'.
Proof.
  induction fuel as [|fuel IH]; intros st ended st' H; [discriminate|].
  rewrite comment_scan_S in H. destruct (nextChar st).
  - destruct (matchPattern pattern st) as [[[g m]|] st1] eqn:Em.
    + apply matchPattern_cursor in Em. subst st1.
      destruct g as [|[|g]].
      * injection H as <- <-. simpl. lia.
      * apply IH in H. simpl in H. lia.
      * injection H as <- <-. simpl. lia.
    + unfold matchPattern in Em. destruct (pattern _) as [[g m]|]; [discriminate|].
      injection Em as <-. injection H as <- <-. lia.
  - injection H as <- <-. lia.
Qed.

Lemma comment_cursor fuel pattern : forall st st',
  comment fuel pattern st = Ok st' -> cursor_le st st'.
Proof.
  induction fuel as [|fuel IH]; intros st st' H; [discriminate|].
  rewrite comment_S in H. destruct (hasStrings st).
  - destruct (comment_scan fuel pattern st) as [[ended st1]| |] eqn:E;
      cbn [bind] in H; try discriminate.
    apply comment_scan_cursor in E as [Ho Hi].
    destruct ended.
    + injection H as <-. right. lia.
    + apply IH in H. unfold cursor_le in *. simpl in H. left. lia.
  - injection H as <-. apply cursor_le_refl.
Qed.

Lemma quote_ordered fuel q st st' :
  ordered st ->
  quote String_ fuel (quotePattern q) (set_index (lx_index st + 1) st) = Ok st' ->
  ordered st'.
Proof.
  intros Hord H. unfold quote in H.
  apply quote_loop_cursor in H as (tok & Ht & Hto & Hti & Hc).
  simpl in Ht, Hto, Hti, Hc.
  apply (ordered_push st st' tok); auto.
  - unfold cursor_le. destruct Hc as [Hc|Hc]; [left | right]; lia.
  - lia.
  - unfold ends_before. destruct Hc as [Hc|Hc]; [left | right]; lia.
Qed.

Lemma main_step_ordered fuel ch st st' :
  ordered st ->
  main_step ID_Start ID_Continue Number_ String_ fuel ch st = Ok st' ->
  ordered st'.
Proof.
  intros Hord. unfold main_step.
  destruct (Ascii.eqb ch squote_char); [apply quote_ordered; exact Hord|].
  destruct (Ascii.eqb ch dquote_char); [apply quote_ordered; exact Hord|].
  destruct (matchPattern _ st) as [[[g m]|] st1] eqn:Em; [|discriminate].
  apply matchPattern_cursor in Em. subst st1.
  set (st1 := set_index (lx_index st + String.length m) st).
  assert (Hc1 : cursor_le st st1) by (right; simpl; lia).
  assert (Hord1 : ordered st1) by (apply (ordered_move st); auto).
  assert (Hpush : forall c,
             ordered (lx_push (Some (text_token c (lx_index st) st1 m)) st1)).
  { intros c. apply (ordered_push st _ (text_token c (lx_index st) st1 m)); auto.
    right. simpl. lia. }
  do 10 (try destruct g as [|g]);
    try (intros [= <-]; first [exact Hord1 | apply Hpush]).
  - intros H. pose proof (comment_cursor _ _ _ _ H) as Hc.
    apply comment_tokens in H as (Ht & _). apply (ordered_move st1); auto.
  - intros H. pose proof (comment_cursor _ _ _ _ H) as Hc.
    apply comment_tokens in H as (Ht & _). apply (ordered_move st1); auto.
Qed.

Lemma main_scan_ordered fuel : forall st st',
  ordered st ->
  main_scan ID_Start ID_Continue Number_ String_ fuel st = Ok st' ->
  ordered st'.
Proof.
  induction fuel as [|fuel IH]; intros st st' Hord H; [discriminate|].
  rewrite main_scan_S in H. destruct (nextChar st) as [ch|].
  - destruct (main_step _ _ _ _ fuel ch st) as [st1| |] eqn:E; cbn [bind] in H;
      try discriminate.
    apply (IH st1); [|exact H]. eapply main_step_ordered; eassumption.
  - now injection H as <-.
Qed.

Lemma push_interpolation_ordered st :
  ordered st -> ordered (push_interpolation st).
Proof.
  intros [Ho He]. unfold push_interpolation, getInterpolation.
  assert (Hall : forall x, ends_before st x ->
                           Tk.outerIndex x < S (lx_outerIndex st)).
  { unfold ends_before. intros x [H|[H _]]; lia. }
  destruct (nth_error (interps st) (lx_outerIndex st)) as [v|]; simpl.
  - split; simpl.
    + apply in_order_snoc; [exact Ho|].
      eapply Forall_impl; [|exact He]. intros x Hx. left. simpl.
      apply Hall in Hx. lia.
    + apply Forall_app. split.
      * eapply Forall_impl; [|exact He]. intros x Hx. left. simpl. now apply Hall.
      * constructor; [|constructor]. right. simpl. lia.
  - split; simpl; [exact Ho|].
    eapply Forall_impl; [|exact He]. intros x Hx. left. simpl. now apply Hall.
Qed.

Lemma mainState_ordered fuel : forall st st',
  ordered st ->
  mainState ID_Start ID_Continue Number_ String_ fuel st = Ok st' ->
  ordered st'.
Proof.
  induction fuel as [|fuel IH]; intros st st' Hord H; [discriminate|].
  rewrite mainState_S in H. destruct (hasStrings st).
  - destruct (main_scan _ _ _ _ fuel st) as [st1| |] eqn:E; cbn [bind] in H;
      try discriminate.
    apply (IH (push_interpolation st1)); [|exact H].
    apply push_interpolation_ordered. eapply main_scan_ordered; eassumption.
  - now injection H as <-.
Qed.

End TokenOrder.

(** X26.  The tokens come in the order of the text and do not overlap.  In
    the list [tokenize] returns, every token ends before every later token
    begins: it has a smaller fragment number, or the same fragment number
    and its offset plus its length is at most the offset of the later
    token. *)
Theorem tokens_in_order (ID_Start ID_Continue : ascii -> bool)
    (Number_ : string -> JSValue) (String_ : JSValue -> string)
    (fuel : nat) (strs : list string) (values : list JSValue)
    (toks : list Token) :
  tokenize ID_Start ID_Continue Number_ String_ fuel strs values = Ok toks ->
  in_order toks.
Proof.
  unfold tokenize. intros H.
  destruct (mainState _ _ _ _ fuel (new_LexerState strs values)) as [st| |] eqn:E;
    cbn [bind] in H; try discriminate.
  injection H as <-.
  apply mainState_ordered in E; [apply E|]. split; constructor.
Qed.

Lemma tokens_in_order_witness :
  exists toks,
    Host.tokenize 20 ["a+'b' "; "c"] [JHost 7] = Ok toks /\ in_order toks.
Proof.
  eexists. split; [vm_compute; reflexivity|].
  apply (tokens_in_order Host.ID_Start Host.ID_Continue Host.Number_
           Host.String_ 20 ["a+'b' "; "c"] [JHost 7]).
  vm_compute. reflexivity.
Defined.
(* ================================================================= *)
(** ** The tokens a terminal stands for *)

Lemma append_inv_last ch : forall a b,
  (a ++ String ch EmptyString)%string = (b ++ String ch EmptyString)%string ->
  a = b.
Proof.
  induction a as [|x a IH]; intros [|y b] H; simpl in H.
  - reflexivity.
  - injection H as _ H. now destruct b.
  - injection H as _ H. now destruct a.
  - injection H as -> H. f_equal. now apply IH.
Qed.

Lemma brandLiteral_inj v w : brandLiteral v = brandLiteral w -> v = w.
Proof.
  unfold brandLiteral, dquote. simpl. intros [= H].
  now apply append_inv_last in H.
Qed.

Lemma brandLiteral_not_type v t : brandLiteral v <> brandType t.
Proof. unfold brandLiteral, brandType, dquote. simpl. discriminate. Qed.

Lemma brandType_inj t u : brandType t = brandType u -> t = u.
Proof. destruct t, u; simpl; intros H; try reflexivity; discriminate. Qed.

Ltac brand_clash H :=
  exfalso;
  first [ exact (brandLiteral_not_type _ _ H)
        | exact (brandLiteral_not_type _ _ (eq_sym H))
        | exact (brandLiteral_not_eof _ H)
        | exact (brandLiteral_not_eof _ (eq_sym H))
        | exact (brandType_not_eof _ H)
        | exact (brandType_not_eof _ (eq_sym H))
        | discriminate H ].

(** X27.  The tokens a terminal stands for.  [brandToken] gives two tokens
    the same terminal exactly when both are identifiers, both are values, or
    both are operators or keywords with the same text; the end of input has
    a terminal of its own.  So an [Alt] or a [Repeat], which look at the
    terminal only, tell tokens apart by their type and, for operators and
    keywords, by their text, and never by the value of an identifier or a
    value token. *)
Theorem brandToken_same (a b : option Token) :
  brandToken a = brandToken b <-> same_terminal a b.
Proof.
  unfold brandToken, same_terminal.
  destruct a as [x|], b as [y|].
  - destruct (Tk.content x), (Tk.content y); split; intros H;
      try exact I; try reflexivity; try contradiction;
      try (now apply brandLiteral_inj in H); try (now subst);
      try (now apply brandLiteral_not_type in H);
      try (symmetry in H; now apply brandLiteral_not_type in H);
      try (now apply brandType_inj in H).
  - split; [|contradiction]. intros H.
    destruct (Tk.content x);
      first [now apply brandType_not_eof in H | now apply brandLiteral_not_eof in H].
  - split; [|contradiction]. intros H. symmetry in H.
    destruct (Tk.content y);
      first [now apply brandType_not_eof in H | now apply brandLiteral_not_eof in H].
  - split; intros _; [exact I | reflexivity].
Qed.

(** X28.  The matchers of the terminals.  [MatchLiteral] and [MatchType]
    succeed exactly on a token whose terminal is the one that
    [FirstSetBuilder] gives to their node, and then they take the token and
    push its value; otherwise they raise a match error that expects this
    terminal. *)
Theorem terminal_matchers (host_fn : nat -> list JSValue -> JSValue)
    (parsers : CompiledRules) (fuel : nat) (p : Parser) (terminal : Terminal)
    (st : ParseState) :
  (exists v, p = MatchLiteral v /\ terminal = brandLiteral v) \/
  (p = MatchType t_identifier /\ terminal = brandType t_identifier) \/
  (p = MatchType t_value /\ terminal = brandType t_value) ->
  (brandToken (peek st) = terminal ->
   exists t, peek st = Some t /\
             parse host_fn parsers (S fuel) p st = Ok (shifted st t)) /\
  (brandToken (peek st) <> terminal ->
   parse host_fn parsers (S fuel) p st
   = Throw (MatchError terminal (peek st) (received_frame (peek st)))).
Proof.
  intros Hp. unfold peek. cbn [parse].
  destruct Hp as [[v [-> ->]] | [[-> ->] | [-> ->]]].
  - unfold MatchLiteral_parse, next, is_operator_or_keyword, brandToken.
    destruct (nth_error (tokens st) (ps_index st)) as [t|]; cbn [received_frame].
    + destruct (Tk.content t) as [x|s|s|s] eqn:Ec.
      * split; [intros H; brand_clash H | reflexivity].
      * destruct (String.eqb s v) eqn:E.
        -- apply String.eqb_eq in E. subst s. split; [|congruence].
           intros _. exists t. split; [reflexivity|]. reflexivity.
        -- apply String.eqb_neq in E. split; [|reflexivity].
           intros H. now apply brandLiteral_inj in H.
      * split; [intros H; brand_clash H | reflexivity].
      * destruct (String.eqb s v) eqn:E.
        -- apply String.eqb_eq in E. subst s. split; [|congruence].
           intros _. exists t. split; [reflexivity|]. reflexivity.
        -- apply String.eqb_neq in E. split; [|reflexivity].
           intros H. now apply brandLiteral_inj in H.
    + split; [intros H; brand_clash H | reflexivity].
  - unfold MatchType_parse, next, brandToken, token_type.
    destruct (nth_error (tokens st) (ps_index st)) as [t|]; cbn [received_frame].
    + destruct (Tk.content t) as [x|s|s|s] eqn:Ec; simpl.
      * split; [intros H; brand_clash H | reflexivity].
      * split; [intros H; brand_clash H | reflexivity].
      * split; [|congruence]. intros _. exists t. split; [reflexivity|].
        unfold shifted, push, token_value. now rewrite Ec.
      * split; [intros H; brand_clash H | reflexivity].
    + split; [intros H; brand_clash H | reflexivity].
  - unfold MatchType_parse, next, brandToken, token_type.
    destruct (nth_error (tokens st) (ps_index st)) as [t|]; cbn [received_frame].
    + destruct (Tk.content t) as [x|s|s|s] eqn:Ec; simpl.
      * split; [|congruence]. intros _. exists t. split; [reflexivity|].
        unfold shifted, push, token_value. now rewrite Ec.
      * split; [intros H; brand_clash H | reflexivity].
      * split; [intros H; brand_clash H | reflexivity].
      * split; [intros H; brand_clash H | reflexivity].
    + split; [intros H; brand_clash H | reflexivity].
Qed.

Lemma terminal_matchers_witness :
  let plus := mkToken (tok_operator "+") 0 0 1 in
  let st := new_ParseState [plus] in
  parse (fun _ _ => JNull) [] 1 (MatchLiteral "+") st = Ok (shifted st plus) /\
  parse (fun _ _ => JNull) [] 1 (MatchType t_identifier) st
  = Throw (MatchError (brandType t_identifier) (Some plus) [TokenFrame plus]).
Proof.
  intros plus st. split.
  - destruct (terminal_matchers (fun _ _ => JNull) [] 0 (MatchLiteral "+")
                (brandLiteral "+") st) as [Hyes _].
    + left. now exists "+".
    + destruct (Hyes eq_refl) as (t & Ht & Hparse).
      injection Ht as <-. exact Hparse.
  - destruct (terminal_matchers (fun _ _ => JNull) [] 0 (MatchType t_identifier)
                (brandType t_identifier) st) as [_ Hno].
    + right. left. now split.
    + apply Hno. discriminate.
Defined.
